(** * Smart Music Map: the analysis core, embedded and verified

    A shallow embedding of the music-analysis engine (RuleEngine), the tree
    builder (StructureAnalyzer), the DTW aligner and the preference learner,
    followed by the theorems that settle the specification's claims.

    Conventions of the embedding:
    - JavaScript numbers that hold measure numbers, indices, MIDI numbers and
      counts are [Z]; durations, beats, similarities and confidences are exact
      rationals [Q] (rounding and overflow of binary floating point are not
      modelled: a theorem that depends on them says on which inputs the two
      arithmetics agree);
    - strings stay strings ([pitch], [type], [material], ...), read as plain
      text, one character a code unit;
    - a table written as an object literal is read by the keys written in
      it (a theorem that reads one at an arbitrary key leaves out the names
      every object inherits);
    - [generateId] draws from [Math.random]: the engine runs in a small state
      monad over a source [rnd : nat -> Id] giving the successive identifiers;
    - objects used as maps are association lists in insertion order. *)

From Stdlib Require Import ZArith QArith Qround Qabs List String Ascii Bool Lia Arith.
From Stdlib Require Import DecimalString.
Import ListNotations.

Set Implicit Arguments.
Set Warnings "-register-all".

(* ================================================================== *)
(** * Numbers *)

Module Num.

Definition Qleb (a b : Q) : bool := Qle_bool a b.
Definition Qltb (a b : Q) : bool := negb (Qle_bool b a).
Definition Qgtb (a b : Q) : bool := Qltb b a.
Definition Qgeb (a b : Q) : bool := Qleb b a.
Definition Qeqb (a b : Q) : bool := Qeq_bool a b.

(** [Math.min] / [Math.max] on finite numbers. *)
Definition Qmin (a b : Q) : Q := if Qltb b a then b else a.
Definition Qmax (a b : Q) : Q := if Qltb a b then b else a.

(** [Math.floor], [Math.ceil], [Math.round] (half rounds up). *)
Definition floor (a : Q) : Z := Qfloor a.
Definition ceil (a : Q) : Z := Qceiling a.
Definition round (a : Q) : Z := Qfloor (a + (1#2)).

(** [x || d] for a number: 0 is falsy. *)
Definition QorElse (x d : Q) : Q := if Qeqb x 0 then d else x.
Definition ZorElse (x d : Z) : Z := if Z.eqb x 0 then d else x.

(** [a % b] of JavaScript for an integer divisor (sign of the dividend). *)
Definition truncQ (a : Q) : Z := if Qltb a 0 then Qceiling a else Qfloor a.
Definition jsRem (a : Q) (b : Z) : Q := a - inject_Z b * inject_Z (truncQ (a / inject_Z b)).

Definition Zsum (l : list Z) : Z := fold_left Z.add l 0%Z.
Definition Qsum (l : list Q) : Q := fold_left Qplus l 0.

Definition Zlen {A} (l : list A) : Z := Z.of_nat (List.length l).

End Num.
Import Num.

(* ================================================================== *)
(** * Identifier generation *)

Module IdGen.

Definition Id := string.

(** The identifiers [generateId] returns, in call order. *)
Definition Rand := nat -> Id.

(** Computations that may call [generateId]: the source is read, the
    number of identifiers drawn so far is threaded. *)
Definition M (A : Type) : Type := Rand -> nat -> A * nat.

Definition ret {A} (a : A) : M A := fun _ n => (a, n).
Definition bind {A B} (m : M A) (k : A -> M B) : M B :=
  fun rnd n => let (a, n') := m rnd n in k a rnd n'.

Definition generateId : M Id := fun rnd n => (rnd n, S n).

Definition run {A} (m : M A) (rnd : Rand) : A := fst (m rnd 0%nat).

Fixpoint mapM {A B} (f : A -> M B) (l : list A) : M (list B) :=
  match l with
  | [] => ret []
  | a :: l' => bind (f a) (fun b => bind (mapM f l') (fun bs => ret (b :: bs)))
  end.

(** A [for] loop over a list, threading an accumulator. *)
Fixpoint foldM {A S} (f : S -> A -> M S) (l : list A) (s : S) : M S :=
  match l with
  | [] => ret s
  | a :: l' => bind (f s a) (fun s' => foldM f l' s')
  end.

End IdGen.
Import IdGen.

Declare Scope idgen_scope.
Delimit Scope idgen_scope with idgen.
Notation "x <- m ;; k" := (bind m (fun x => k))
  (at level 61, m at next level, right associativity) : idgen_scope.
Notation "' pat <- m ;; k" := (bind m (fun x => match x with pat => k end))
  (at level 61, pat pattern, m at next level, right associativity) : idgen_scope.

(* ================================================================== *)
(** * Small list and string helpers (JavaScript array and string methods) *)

Module Js.

(** [arr.slice(start, end)] for [0 <= start]. *)
Definition slice {A} (l : list A) (s e : nat) : list A := firstn (e - s) (skipn s l).
(** [arr.slice(start)]. *)
Definition sliceFrom {A} (l : list A) (s : nat) : list A := skipn s l.
(** [arr.slice(-k)]: the last [k] elements (the whole array if shorter). *)
Definition sliceLast {A} (l : list A) (k : nat) : list A := skipn (List.length l - k) l.

Definition lastOpt {A} (l : list A) : option A := nth_error l (List.length l - 1).

(** Stable insertion sort by a numeric key ([arr.sort((a, b) => key a - key b)]). *)
Fixpoint insertBy {A} (key : A -> Z) (x : A) (l : list A) : list A :=
  match l with
  | [] => [x]
  | y :: l' => if (key x <? key y)%Z then x :: y :: l' else y :: insertBy key x l'
  end.
Definition sortBy {A} (key : A -> Z) (l : list A) : list A :=
  fold_left (fun acc x => insertBy key x acc) l [].

(** Stable sort, descending, by a rational key. *)
Fixpoint insertByDescQ {A} (key : A -> Q) (x : A) (l : list A) : list A :=
  match l with
  | [] => [x]
  | y :: l' => if Qltb (key y) (key x) then x :: y :: l' else y :: insertByDescQ key x l'
  end.
Definition sortByDescQ {A} (key : A -> Q) (l : list A) : list A :=
  fold_left (fun acc x => insertByDescQ key x acc) l [].

(** [[...new Set(l)]]: first occurrences, in order. *)
Fixpoint uniqBy {A} (eqb : A -> A -> bool) (l : list A) (seen : list A) : list A :=
  match l with
  | [] => []
  | x :: l' => if existsb (eqb x) seen then uniqBy eqb l' seen
               else x :: uniqBy eqb l' (x :: seen)
  end.

Definition isDigit (c : ascii) : bool :=
  let n := nat_of_ascii c in (48 <=? n)%nat && (n <=? 57)%nat.

Fixpoint removeDigits (s : string) : string :=
  match s with
  | EmptyString => EmptyString
  | String c s' => if isDigit c then removeDigits s' else String c (removeDigits s')
  end.

Fixpoint includesChar (c : ascii) (s : string) : bool :=
  match s with
  | EmptyString => false
  | String c' s' => Ascii.eqb c c' || includesChar c s'
  end.

(** [s.charAt(0)]: the empty string when [s] is empty. *)
Definition charAt0 (s : string) : string :=
  match s with
  | EmptyString => EmptyString
  | String c _ => String c EmptyString
  end.

Fixpoint repeatStr (s : string) (n : nat) : string :=
  match n with O => EmptyString | S n' => append s (repeatStr s n') end.

Definition join (sep : string) (l : list string) : string :=
  match l with
  | [] => EmptyString
  | x :: l' => fold_left (fun acc y => append (append acc sep) y) l' x
  end.

(** Maps kept as association lists, in insertion order. *)
Fixpoint assocGet {K V} (eqb : K -> K -> bool) (k : K) (m : list (K * V)) : option V :=
  match m with
  | [] => None
  | (k', v) :: m' => if eqb k k' then Some v else assocGet eqb k m'
  end.

Fixpoint assocUpd {K V} (eqb : K -> K -> bool) (k : K) (f : option V -> V)
         (m : list (K * V)) : list (K * V) :=
  match m with
  | [] => [(k, f None)]
  | (k', v) :: m' => if eqb k k' then (k', f (Some v)) :: m'
                     else (k', v) :: assocUpd eqb k f m'
  end.

End Js.

(* ================================================================== *)
(** * RuleEngine: data *)

Module RuleEngine.

Import Js.
Local Open Scope string_scope.
Local Open Scope list_scope.
Local Open Scope Z_scope.

(** ** Constants *)

Definition RULE_ENGINE_VERSION : string := "1.0.0".

Module FormTypes.
Definition ONE_PART := "one_part".
Definition BINARY_PARALLEL := "binary_parallel".
Definition BINARY_ROUNDED := "binary_rounded".
Definition TERNARY_SIMPLE := "ternary_simple".
Definition TERNARY_PARALLEL := "ternary_parallel".
Definition TERNARY_COMPOUND := "ternary_compound".
Definition RONDO := "rondo".
Definition VARIATION := "variation".
Definition SONATA := "sonata".
Definition VERSE_CHORUS := "verse_chorus".
Definition AABA := "aaba".
End FormTypes.

Module CadenceTypes.
Definition PERFECT_AUTHENTIC := "perfect_authentic".
Definition IMPERFECT_AUTHENTIC := "imperfect_authentic".
Definition HALF := "half".
Definition DECEPTIVE := "deceptive".
Definition PLAGAL := "plagal".
Definition PHRYGIAN := "phrygian".
End CadenceTypes.

Module PeriodTypes.
Definition PARALLEL := "parallel".
Definition CONTRASTING := "contrasting".
Definition SEQUENTIAL := "sequential".
Definition THREE_PHRASE := "three_phrase".
Definition FOUR_PHRASE := "four_phrase".
Definition COMPOUND := "compound".
End PeriodTypes.

Module ProportionTypes.
Definition SQUARE := "square".
Definition REGULAR := "regular".
Definition NON_SQUARE := "non_square".
End ProportionTypes.

Module MiddleSectionTypes.
Definition TRIO := "trio".
Definition EPISODE := "episode".
Definition DEVELOPMENT := "development".
End MiddleSectionTypes.

Module DevelopmentTechniques.
Definition REPETITION := "repetition".
Definition SEQUENCE := "sequence".
Definition VARIATION := "variation".
Definition FRAGMENTATION := "fragmentation".
Definition INVERSION := "inversion".
End DevelopmentTechniques.

(** [this.chunkConfig]. *)
Definition maxNotesPerChunk : Z := 500.
Definition maxMeasuresPerChunk : Z := 32.
Definition overlapMeasures : Z := 4.

(** [this.pitchClasses], in the order the object literal lists its keys. *)
Definition pitchClasses : list (string * Z) :=
  [("C", 0); ("C#", 1); ("Db", 1); ("D", 2); ("D#", 3); ("Eb", 3);
   ("E", 4); ("Fb", 4); ("E#", 5); ("F", 5); ("F#", 6); ("Gb", 6);
   ("G", 7); ("G#", 8); ("Ab", 8); ("A", 9); ("A#", 10); ("Bb", 10);
   ("B", 11); ("Cb", 11); ("B#", 0)].

Definition pitchClass (name : string) : option Z := assocGet String.eqb name pitchClasses.

Definition scale_major := [0; 2; 4; 5; 7; 9; 11].
Definition scale_natural_minor := [0; 2; 3; 5; 7; 8; 10].
Definition scale_harmonic_minor := [0; 2; 3; 5; 7; 8; 11].

Definition churchModes : list (string * list Z) :=
  [("ionian", [0; 2; 4; 5; 7; 9; 11]); ("dorian", [0; 2; 3; 5; 7; 9; 10]);
   ("phrygian", [0; 1; 3; 5; 7; 8; 10]); ("lydian", [0; 2; 4; 6; 7; 9; 11]);
   ("mixolydian", [0; 2; 4; 5; 7; 9; 10]); ("aeolian", [0; 2; 3; 5; 7; 8; 10]);
   ("locrian", [0; 1; 3; 5; 6; 8; 10])].

Definition pentatonicModes : list (string * list Z) :=
  [("gong", [0; 2; 4; 7; 9]); ("shang", [0; 2; 5; 7; 10]); ("jue", [0; 3; 5; 8; 10]);
   ("zhi", [0; 2; 5; 7; 9]); ("yu", [0; 3; 5; 7; 10])].

(** ** Records *)

(** A note as the score parser emits it; [n_isRest] is the optional
    [isRest] flag ([false] when absent). *)
Record Note := mkNote {
  n_pitch : option string;
  n_duration : Q;
  n_measureNumber : Z;
  n_beat : Q;
  n_voice : Z;
  n_dynamics : option string;
  n_isRest : bool
}.

Record KeySignature := mkKey { fifths : Z; mode : string }.
Record TimeSignature := mkTime { beats : Z; beatType : Z }.

Definition defaultKey : KeySignature := mkKey 0 "major".
Definition defaultTime : TimeSignature := mkTime 4 4.

Record Relationship := mkRel {
  rel_type : string;
  rel_confidence : Q;
  rel_transposition : option Z
}.

Record Motive := mkMotive {
  mo_id : Id;
  mo_index : Z;
  mo_notes : list Note;
  mo_measureNumber : Z;
  mo_startBeat : Z;
  mo_intervalPattern : list Z;
  mo_rhythmPattern : list Q;
  mo_contour : string;
  mo_relationship : option Relationship;
  mo_relatedTo : option Id
}.

Record SubPhrase := mkSubPhrase {
  sp_id : Id;
  sp_index : Z;
  sp_startMeasure : Z;
  sp_endMeasure : Z;
  sp_startBeat : Z;
  sp_endBeat : Z;
  sp_notes : list Note;
  sp_motives : list Motive;
  sp_material : string;
  sp_similarTo : option Id;
  sp_similarity : option Q
}.

Record Cadence := mkCadence {
  cad_id : Id;
  cad_measureNumber : Z;
  cad_beat : Z;
  cad_type : string;
  cad_strength : string;
  cad_confidence : Q
}.

Record Phrase := mkPhrase {
  ph_id : Id;
  ph_index : Z;
  ph_startMeasure : Z;
  ph_endMeasure : Z;
  ph_length : Z;
  ph_cadence : option Cadence;
  ph_notes : list Note;
  ph_subPhrases : list SubPhrase;
  ph_material : string;
  ph_closure : string;
  ph_relationship : option string;
  ph_headSimilarity : option Q
}.

Record Period := mkPeriod {
  pe_id : Id;
  pe_index : Z;
  pe_startMeasure : Z;
  pe_endMeasure : Z;
  pe_length : Z;
  pe_phrases : list Phrase;
  pe_phraseCount : Z;
  pe_type : string;
  pe_proportion : string;
  pe_closure : string;
  pe_material : string;
  pe_cadence : option Cadence
}.

Record CompoundPeriod := mkCompound {
  cp_id : Id;
  cp_type : string;
  cp_periods : list Period;
  cp_startMeasure : Z;
  cp_endMeasure : Z;
  cp_structure : string
}.

(** ** Helper methods *)

Definition truthyStr (s : option string) : bool :=
  match s with
  | Some (String _ _) => true
  | _ => false
  end.

(** [pitch.match(/([A-G][#b]?)(-?\d+)/)]: the leftmost match, greedy with
    backtracking over the two optional items. *)
Definition isNoteLetter (c : ascii) : bool :=
  let n := nat_of_ascii c in (65 <=? n)%nat && (n <=? 71)%nat.
Definition isAccidental (c : ascii) : bool :=
  Ascii.eqb c "#"%char || Ascii.eqb c "b"%char.

Fixpoint takeDigits (s : string) : list ascii :=
  match s with
  | String c s' => if isDigit c then c :: takeDigits s' else []
  | EmptyString => []
  end.

Definition digitsToZ (ds : list ascii) : Z :=
  fold_left (fun acc c => acc * 10 + Z.of_nat (nat_of_ascii c - 48)) ds 0.

(** [(-?\d+)] at the head of [s], read by [parseInt]. *)
Definition matchOctave (s : string) : option Z :=
  let plain := match takeDigits s with
               | [] => None
               | ds => Some (digitsToZ ds)
               end in
  match s with
  | String "-"%char s' =>
      match takeDigits s' with
      | [] => plain
      | ds => Some (- digitsToZ ds)
      end
  | _ => plain
  end.

Definition matchPitchAt (s : string) : option (string * Z) :=
  match s with
  | String c s' =>
      if isNoteLetter c then
        let bare := match matchOctave s' with
                    | Some o => Some (String c EmptyString, o)
                    | None => None
                    end in
        match s' with
        | String a s'' =>
            if isAccidental a then
              match matchOctave s'' with
              | Some o => Some (String c (String a EmptyString), o)
              | None => bare
              end
            else bare
        | EmptyString => bare
        end
      else None
  | EmptyString => None
  end.

Fixpoint matchPitch (s : string) : option (string * Z) :=
  match matchPitchAt s with
  | Some r => Some r
  | None => match s with
            | String _ s' => matchPitch s'
            | EmptyString => None
            end
  end.

Definition pitchToMidi (pitch : option string) : Z :=
  match pitch with
  | Some (String c s) =>
      match matchPitch (String c s) with
      | Some (noteName, octave) =>
          let pc := match pitchClass noteName with Some p => ZorElse p 0 | None => 0 end in
          pc + (octave + 1) * 12
      | None => 60
      end
  | _ => 60
  end.

Definition getTonicFromKey (keySignature : KeySignature) : string :=
  let fifths := fifths keySignature in
  let mode := if String.eqb (mode keySignature) "" then "major" else mode keySignature in
  let majorKeys := ["C"; "G"; "D"; "A"; "E"; "B"; "F#"; "C#"] in
  let majorKeysFlat := ["C"; "F"; "Bb"; "Eb"; "Ab"; "Db"; "Gb"; "Cb"] in
  let tonic :=
    if 0 <=? fifths
    then nth (Z.to_nat (Z.min fifths 7)) majorKeys "C"
    else nth (Z.to_nat (Z.min (- fifths) 7)) majorKeysFlat "C" in
  if String.eqb mode "minor" then
    match pitchClass tonic with
    | Some tonicPc =>
        let minorPc := (tonicPc + 9) mod 12 in
        match find (fun e => (snd e =? minorPc) && (String.length (fst e) <=? 2)%nat)
                   pitchClasses with
        | Some (name, _) => name
        | None => tonic
        end
    | None => tonic
    end
  else tonic.

Definition getScaleDegree (pitch : option string) (tonic : string) (mode : string) : Z :=
  match pitch with
  | Some (String c s) =>
      let pitchName := removeDigits (String c s) in
      let tonicPc := match pitchClass tonic with Some p => ZorElse p 0 | None => 0 end in
      match pitchClass pitchName with
      | None => -1
      | Some pitchPc =>
          let interval := Z.rem (pitchPc - tonicPc + 12) 12 in
          match assocGet Z.eqb interval
                  [(0, 0); (2, 1); (4, 2); (5, 3); (7, 4); (9, 5); (11, 6)] with
          | Some d => d
          | None => -1
          end
      end
  | _ => -1
  end.

(** [groupNotesByMeasure]: the groups object, and its keys as the callers
    read them ([Object.keys(groups).map(Number).sort((a, b) => a - b)]). *)
Definition groupNotesByMeasure (notes : list Note) : list (Z * list Note) :=
  fold_left
    (fun groups note =>
       let measure := ZorElse (n_measureNumber note) 1 in
       assocUpd Z.eqb measure
         (fun g => match g with Some ns => ns ++ [note] | None => [note] end) groups)
    notes [].

Definition sortedKeys (groups : list (Z * list Note)) : list Z :=
  sortBy (fun k => k) (map fst groups).

Definition groupOf (groups : list (Z * list Note)) (m : Z) : list Note :=
  match assocGet Z.eqb m groups with Some ns => ns | None => [] end.

Definition Zrange (n : Z) : list Z := map Z.of_nat (seq 0 (Z.to_nat n)).

Definition groupNotesByBeat (notes : list Note) (beatsPerMeasure : Z) : list (Z * list Note) :=
  fold_left
    (fun groups note =>
       let beat := floor (jsRem (n_beat note) beatsPerMeasure) in
       match assocGet Z.eqb beat groups with
       | Some _ => assocUpd Z.eqb beat
                     (fun g => match g with Some ns => ns ++ [note] | None => [note] end) groups
       | None => groups
       end)
    notes (map (fun i => (i, [])) (Zrange beatsPerMeasure)).

Definition getLowestNote (notes : list Note) : option Note :=
  fold_left
    (fun lowest note =>
       match lowest with
       | None => Some note
       | Some l => if pitchToMidi (n_pitch note) <? pitchToMidi (n_pitch l)
                   then Some note else Some l
       end)
    notes None.

Definition getHighestNote (notes : list Note) : option Note :=
  fold_left
    (fun highest note =>
       match highest with
       | None => Some note
       | Some h => if pitchToMidi (n_pitch h) <? pitchToMidi (n_pitch note)
                   then Some note else Some h
       end)
    notes None.

Definition getNotesInRange (notes : list Note) (startMeasure endMeasure : Z) : list Note :=
  filter (fun n => (startMeasure <=? n_measureNumber n) && (n_measureNumber n <=? endMeasure))
         notes.

Definition assignMaterialLabel (index : Z) : string :=
  let baseLabels := ["a"; "b"; "c"; "d"; "e"; "f"; "g"; "h"] in
  let baseIndex := Z.rem index 8 in
  let primeCount := index / 8 in
  append (nth (Z.to_nat baseIndex) baseLabels "") (repeatStr "'" (Z.to_nat primeCount)).

Fixpoint countMatches (close : Q -> Q -> bool) (a b : list Q) : Z :=
  match a, b with
  | x :: a', y :: b' => (if close x y then 1 else 0) + countMatches close a' b'
  | _, _ => 0
  end.

Definition compareArrays (arr1 arr2 : list Q) : Q :=
  match arr1, arr2 with
  | [], _ | _, [] => 0%Q
  | _, _ =>
      let minLen := Z.min (Zlen arr1) (Zlen arr2) in
      let maxLen := Z.max (Zlen arr1) (Zlen arr2) in
      let matches := countMatches (fun x y => Qleb (Qabs (x - y)) 1) arr1 arr2 in
      let lengthPenalty := (1 - inject_Z (maxLen - minLen) / inject_Z maxLen)%Q in
      (inject_Z matches / inject_Z minLen * lengthPenalty)%Q
  end.

Definition extractIntervalPattern (notes : list Note) : list Z :=
  match notes with
  | [] => []
  | n0 :: rest =>
      snd (fold_left
             (fun acc n =>
                let '(prev, out) := acc in
                (n, out ++ [pitchToMidi (n_pitch n) - pitchToMidi (n_pitch prev)]))
             rest (n0, []))
  end.

Definition extractRhythmPattern (notes : list Note) : list Q :=
  map (fun n => QorElse (n_duration n) 1) notes.

Definition extractContour (notes : list Note) : string :=
  match notes, lastOpt notes with
  | first :: _ :: _, Some last =>
      let diff := pitchToMidi (n_pitch last) - pitchToMidi (n_pitch first) in
      if 2 <? diff then "ascending"
      else if diff <? -2 then "descending"
      else "static"
  | _, _ => "static"
  end.

Definition QZ (l : list Z) : list Q := map inject_Z l.

Definition detectTransposition (notes1 notes2 : list Note) : Z :=
  match notes1, notes2 with
  | [], _ | _, [] => 0
  | _, _ =>
      let midi1 := map (fun n => pitchToMidi (n_pitch n)) notes1 in
      let midi2 := map (fun n => pitchToMidi (n_pitch n)) notes2 in
      let avg1 := (inject_Z (Zsum midi1) / inject_Z (Zlen midi1))%Q in
      let avg2 := (inject_Z (Zsum midi2) / inject_Z (Zlen midi2))%Q in
      round (avg2 - avg1)
  end.

(** [arr.slice(s, e)] with JavaScript's treatment of negative bounds. *)
Definition jsSlice {A} (l : list A) (s e : Z) : list A :=
  let len := Zlen l in
  let clamp i := if i <? 0 then Z.max (len + i) 0 else Z.min i len in
  slice l (Z.to_nat (clamp s)) (Z.to_nat (clamp e)).

Definition isFragmentation (motive1 motive2 : Motive) : bool :=
  let len1 := Zlen (mo_notes motive1) in
  let len2 := Zlen (mo_notes motive2) in
  if Qgeb (inject_Z len2) (inject_Z len1 * (8#10)) then false
  else
    let intervals1 := jsSlice (mo_intervalPattern motive1) 0 (len2 - 1) in
    let intervals2 := mo_intervalPattern motive2 in
    Qgtb (compareArrays (QZ intervals1) (QZ intervals2)) (7#10).

Definition isInversion (intervals1 intervals2 : list Z) : bool :=
  if negb (Zlen intervals1 =? Zlen intervals2) then false
  else
    let matches :=
      countMatches (fun x y => Qleb (Qabs (x + y)) 1) (QZ intervals1) (QZ intervals2) in
    Qgtb (inject_Z matches / inject_Z (Zlen intervals1)) (8#10).

Definition calculateMelodicSimilarity (notes1 notes2 : list Note) : Q :=
  match notes1, notes2 with
  | [], _ | _, [] => 0%Q
  | _, _ =>
      let intervalSim :=
        compareArrays (QZ (extractIntervalPattern notes1)) (QZ (extractIntervalPattern notes2)) in
      let rhythmSim :=
        compareArrays (extractRhythmPattern notes1) (extractRhythmPattern notes2) in
      (intervalSim * (6#10) + rhythmSim * (4#10))%Q
  end.

Definition jsSliceFrom {A} (l : list A) (s : Z) : list A := jsSlice l s (Zlen l).

Local Open Scope idgen_scope.

(* ---------------------------------------------------------------- *)
(** ** Motive detection *)

Definition analyzeMotiveRelationship (motive1 motive2 : Motive) : Relationship :=
  let intervalSim :=
    compareArrays (QZ (mo_intervalPattern motive1)) (QZ (mo_intervalPattern motive2)) in
  let rhythmSim := compareArrays (mo_rhythmPattern motive1) (mo_rhythmPattern motive2) in
  let rest :=
    if Qgtb rhythmSim (8#10) && Qltb intervalSim (5#10)
    then mkRel DevelopmentTechniques.VARIATION (7#10) None
    else if isFragmentation motive1 motive2
    then mkRel DevelopmentTechniques.FRAGMENTATION (75#100) None
    else if isInversion (mo_intervalPattern motive1) (mo_intervalPattern motive2)
    then mkRel DevelopmentTechniques.INVERSION (8#10) None
    else mkRel "new" (6#10) None in
  if Qgtb intervalSim (9#10) && Qgtb rhythmSim (9#10)
  then mkRel DevelopmentTechniques.REPETITION (95#100) None
  else if Qgtb intervalSim (8#10) && Qgtb rhythmSim (7#10)
  then
    let transposition := detectTransposition (mo_notes motive1) (mo_notes motive2) in
    if negb (transposition =? 0)
    then mkRel DevelopmentTechniques.SEQUENCE (85#100) (Some transposition)
    else rest
  else rest.

Definition setRelationship (prev curr : Motive) : Motive :=
  let relationship := analyzeMotiveRelationship prev curr in
  {| mo_id := mo_id curr; mo_index := mo_index curr; mo_notes := mo_notes curr;
     mo_measureNumber := mo_measureNumber curr; mo_startBeat := mo_startBeat curr;
     mo_intervalPattern := mo_intervalPattern curr;
     mo_rhythmPattern := mo_rhythmPattern curr; mo_contour := mo_contour curr;
     mo_relationship := Some relationship;
     mo_relatedTo := if negb (String.eqb (rel_type relationship) "new")
                     then Some (mo_id prev) else None |}.

Fixpoint labelAfter (prev : Motive) (rest : list Motive) : list Motive :=
  match rest with
  | [] => []
  | curr :: rest' =>
      let curr' := setRelationship prev curr in
      curr' :: labelAfter curr' rest'
  end.

Definition labelMotiveRelationships (motives : list Motive) : list Motive :=
  match motives with
  | [] => []
  | m0 :: rest => m0 :: labelAfter m0 rest
  end.

(** [motives.push({ id: generateId(), index: motiveIndex++, ... })], done
    only for a candidate of at least two notes. *)
Definition pushMotive (measureNum motiveStartBeat : Z) (currentMotive : list Note)
           (acc : list Motive * Z) : M (list Motive * Z) :=
  let '(motives, motiveIndex) := acc in
  if 2 <=? Zlen currentMotive then
    id <- generateId ;;
    ret (motives ++
           [ {| mo_id := id; mo_index := motiveIndex; mo_notes := currentMotive;
                mo_measureNumber := measureNum; mo_startBeat := motiveStartBeat;
                mo_intervalPattern := extractIntervalPattern currentMotive;
                mo_rhythmPattern := extractRhythmPattern currentMotive;
                mo_contour := extractContour currentMotive;
                mo_relationship := None; mo_relatedTo := None |} ],
         motiveIndex + 1)
  else ret acc.

(** One turn of the loop over the beats of a measure. *)
Definition motiveBeatStep (beatsPerMeasure measureNum : Z) (beatGroups : list (Z * list Note))
           (st : (list Motive * Z) * (list Note * Z)) (beat : Z)
  : M ((list Motive * Z) * (list Note * Z)) :=
  let '(acc, (currentMotive, motiveStartBeat)) := st in
  let beatNotes := groupOf beatGroups beat in
  let isStrongBeat := (beat =? 0) || ((beatsPerMeasure =? 4) && (beat =? 2)) in
  if isStrongBeat && (0 <? Zlen currentMotive) then
    acc' <- pushMotive measureNum motiveStartBeat currentMotive acc ;;
    ret (acc', (beatNotes, beat))
  else ret (acc, (currentMotive ++ beatNotes, motiveStartBeat)).

Definition motiveMeasureStep (beatsPerMeasure : Z) (measureGroups : list (Z * list Note))
           (acc : list Motive * Z) (measureNum : Z) : M (list Motive * Z) :=
  let measureNotes := groupOf measureGroups measureNum in
  match measureNotes with
  | [] => ret acc
  | _ =>
      let beatGroups := groupNotesByBeat measureNotes beatsPerMeasure in
      ' (acc', (currentMotive, motiveStartBeat)) <-
        foldM (motiveBeatStep beatsPerMeasure measureNum beatGroups)
              (Zrange beatsPerMeasure) (acc, ([], 0)) ;;
      pushMotive measureNum motiveStartBeat currentMotive acc'
  end.

Definition detectMotives (notes : list Note) (timeSignature : TimeSignature) : M (list Motive) :=
  if Zlen notes <? 2 then ret []
  else
    let beatsPerMeasure := beats timeSignature in
    let measureGroups := groupNotesByMeasure notes in
    let measureNumbers := sortedKeys measureGroups in
    ' (motives, _) <-
      foldM (motiveMeasureStep beatsPerMeasure measureGroups) measureNumbers ([], 0) ;;
    ret (labelMotiveRelationships motives).

(* ---------------------------------------------------------------- *)
(** ** Sub-phrase detection *)

Definition hasRhythmicBreak (notes : list Note) : bool :=
  if Zlen notes <? 4 then false
  else existsb (fun note => Qgeb (n_duration note) 2 || n_isRest note)
               (jsSlice notes 1 (Zlen notes - 1)).

Definition getMotivesInRange (motives : list Motive) (measureNum startBeat endBeat : Z)
  : list Motive :=
  filter (fun m => (mo_measureNumber m =? measureNum)
                   && (startBeat <=? mo_startBeat m) && (mo_startBeat m <? endBeat))
         motives.

Definition calculateSubPhraseSimilarity (sp1 sp2 : SubPhrase) : Q :=
  match sp_notes sp1, sp_notes sp2 with
  | [], _ | _, [] => 0%Q
  | _, _ =>
      let intervalSim :=
        compareArrays (QZ (extractIntervalPattern (sp_notes sp1)))
                      (QZ (extractIntervalPattern (sp_notes sp2))) in
      let rhythmSim :=
        compareArrays (extractRhythmPattern (sp_notes sp1))
                      (extractRhythmPattern (sp_notes sp2)) in
      (intervalSim * (6#10) + rhythmSim * (4#10))%Q
  end.

Definition setSpMaterial (sp : SubPhrase) (material : string)
           (similarTo : option Id) (similarity : option Q) : SubPhrase :=
  {| sp_id := sp_id sp; sp_index := sp_index sp; sp_startMeasure := sp_startMeasure sp;
     sp_endMeasure := sp_endMeasure sp; sp_startBeat := sp_startBeat sp;
     sp_endBeat := sp_endBeat sp; sp_notes := sp_notes sp; sp_motives := sp_motives sp;
     sp_material := material; sp_similarTo := similarTo; sp_similarity := similarity |}.

Definition fromCharCode (n : Z) : string := String (ascii_of_nat (Z.to_nat n)) EmptyString.

(** The inner loop over the earlier sub-phrases: the first one whose
    similarity exceeds 0.5 decides. *)
Fixpoint findSimilarSp (sp : SubPhrase) (earlier : list SubPhrase) : option SubPhrase :=
  match earlier with
  | [] => None
  | prevSp :: earlier' =>
      let similarity := calculateSubPhraseSimilarity sp prevSp in
      if Qgtb similarity (8#10) then
        Some (setSpMaterial sp (append (sp_material prevSp) "'")
                            (Some (sp_id prevSp)) (Some similarity))
      else if Qgtb similarity (5#10) then
        Some (setSpMaterial sp (append (sp_material prevSp) "v")
                            (Some (sp_id prevSp)) (Some similarity))
      else findSimilarSp sp earlier'
  end.

Definition subPhraseMaterialStep (st : list SubPhrase * Z) (sp : SubPhrase)
  : list SubPhrase * Z :=
  let '(done, materialIndex) := st in
  match findSimilarSp sp done with
  | Some sp' => (done ++ [sp'], materialIndex)
  | None =>
      (done ++ [setSpMaterial sp (fromCharCode (97 + materialIndex))
                              (sp_similarTo sp) (sp_similarity sp)],
       Z.min (materialIndex + 1) 25)
  end.

Definition analyzeSubPhraseMaterials (subPhrases : list SubPhrase) : list SubPhrase :=
  fst (fold_left subPhraseMaterialStep subPhrases ([], 0)).

Definition newSubPhrase (index measureNum startBeat endBeat : Z) (notes : list Note)
           (motives : list Motive) : M SubPhrase :=
  id <- generateId ;;
  ret {| sp_id := id; sp_index := index; sp_startMeasure := measureNum;
         sp_endMeasure := measureNum; sp_startBeat := startBeat; sp_endBeat := endBeat;
         sp_notes := notes;
         sp_motives := getMotivesInRange motives measureNum startBeat endBeat;
         sp_material := assignMaterialLabel index;
         sp_similarTo := None; sp_similarity := None |}.

Definition subPhraseMeasureStep (measureGroups : list (Z * list Note)) (motives : list Motive)
           (acc : list SubPhrase * Z) (measureNum : Z) : M (list SubPhrase * Z) :=
  let '(subPhrases, subPhraseIndex) := acc in
  let measureNotes := groupOf measureGroups measureNum in
  let hasInternalBreak := hasRhythmicBreak measureNotes in
  if hasInternalBreak && (4 <? Zlen measureNotes) then
    let midPoint := Zlen measureNotes / 2 in
    sp1 <- newSubPhrase subPhraseIndex measureNum 0 2
                        (jsSlice measureNotes 0 midPoint) motives ;;
    sp2 <- newSubPhrase (subPhraseIndex + 1) measureNum 2 4
                        (jsSliceFrom measureNotes midPoint) motives ;;
    ret (subPhrases ++ [sp1; sp2], subPhraseIndex + 2)
  else
    sp <- newSubPhrase subPhraseIndex measureNum 0 4 measureNotes motives ;;
    ret (subPhrases ++ [sp], subPhraseIndex + 1).

Definition detectSubPhrases (notes : list Note) (motives : list Motive) : M (list SubPhrase) :=
  let measureGroups := groupNotesByMeasure notes in
  let measureNumbers := sortedKeys measureGroups in
  ' (subPhrases, _) <-
    foldM (subPhraseMeasureStep measureGroups motives) measureNumbers ([], 0) ;;
  ret (analyzeSubPhraseMaterials subPhrases).

(* ---------------------------------------------------------------- *)
(** ** Cadence detection *)

Definition newCadence (measureNumber : Z) (type strength : string) (confidence : Q)
  : M (option Cadence) :=
  id <- generateId ;;
  ret (Some {| cad_id := id; cad_measureNumber := measureNumber; cad_beat := 0;
               cad_type := type; cad_strength := strength; cad_confidence := confidence |}).

Definition classifyCadence (prevDegree currDegree melodyDegree measureNumber : Z)
           (mode : string) : M (option Cadence) :=
  if (prevDegree =? 4) && (currDegree =? 0) then
    let isPerfect := melodyDegree =? 0 in
    newCadence measureNumber
      (if isPerfect then CadenceTypes.PERFECT_AUTHENTIC else CadenceTypes.IMPERFECT_AUTHENTIC)
      (if isPerfect then "strong" else "moderate")
      (if isPerfect then 95#100 else 8#10)
  else if ((prevDegree =? 4) || (prevDegree =? 6)) && (currDegree =? 0)
          && negb (melodyDegree =? 0) then
    newCadence measureNumber CadenceTypes.IMPERFECT_AUTHENTIC "moderate" (75#100)
  else if currDegree =? 4 then
    newCadence measureNumber CadenceTypes.HALF "weak" (8#10)
  else if (prevDegree =? 4) && (currDegree =? 5) then
    newCadence measureNumber CadenceTypes.DECEPTIVE "moderate" (85#100)
  else if (prevDegree =? 3) && (currDegree =? 0) then
    newCadence measureNumber CadenceTypes.PLAGAL "moderate" (75#100)
  else if String.eqb mode "minor" && (prevDegree =? 3) && (currDegree =? 4) then
    newCadence measureNumber CadenceTypes.PHRYGIAN "weak" (7#10)
  else ret None.

(** One turn of the loop over adjacent measures ([i] and [i - 1]). *)
Definition cadenceStep (tonicPitch mode : string) (measureGroups : list (Z * list Note))
           (cadences : list Cadence) (pair : Z * Z) : M (list Cadence) :=
  let '(prevNum, currNum) := pair in
  let prevMeasure := groupOf measureGroups prevNum in
  let currMeasure := groupOf measureGroups currNum in
  match getLowestNote prevMeasure, getLowestNote currMeasure with
  | Some prevBass, Some currBass =>
      let currMelody := getHighestNote currMeasure in
      let prevBassDegree := getScaleDegree (n_pitch prevBass) tonicPitch mode in
      let currBassDegree := getScaleDegree (n_pitch currBass) tonicPitch mode in
      let currMelodyDegree :=
        match currMelody with
        | Some m => getScaleDegree (n_pitch m) tonicPitch mode
        | None => -1
        end in
      cadence <- classifyCadence prevBassDegree currBassDegree currMelodyDegree currNum mode ;;
      match cadence with
      | Some c => ret (cadences ++ [c])
      | None => ret cadences
      end
  | _, _ => ret cadences
  end.

Definition adjacentPairs {A} (l : list A) : list (A * A) :=
  combine l (tl l).

Definition detectCadences (notes : list Note) (keySignature : KeySignature) : M (list Cadence) :=
  let tonicPitch := getTonicFromKey keySignature in
  let mode := if String.eqb (mode keySignature) "" then "major" else mode keySignature in
  let measureGroups := groupNotesByMeasure notes in
  let measureNumbers := sortedKeys measureGroups in
  foldM (cadenceStep tonicPitch mode measureGroups) (adjacentPairs measureNumbers) [].

Definition getCadenceStrength (cadence : option Cadence) : Q :=
  match cadence with
  | None => 0%Q
  | Some c =>
      match assocGet String.eqb (cad_type c)
              [(CadenceTypes.PERFECT_AUTHENTIC, 1%Q);
               (CadenceTypes.IMPERFECT_AUTHENTIC, 8#10);
               (CadenceTypes.PLAGAL, 7#10);
               (CadenceTypes.DECEPTIVE, 5#10);
               (CadenceTypes.HALF, 4#10);
               (CadenceTypes.PHRYGIAN, 3#10)] with
      | Some s => QorElse s (3#10)
      | None => 3#10
      end
  end.

(* ---------------------------------------------------------------- *)
(** ** Phrase detection *)

Definition closureOf (cadence : option Cadence) : string :=
  if Qgtb (getCadenceStrength cadence) (7#10) then "closed" else "open".

Definition newPhrase (index startMeasure endMeasure length : Z) (cadence : option Cadence)
           (notes : list Note) (subPhrases : list SubPhrase) (closure : string) : M Phrase :=
  id <- generateId ;;
  ret {| ph_id := id; ph_index := index; ph_startMeasure := startMeasure;
         ph_endMeasure := endMeasure; ph_length := length; ph_cadence := cadence;
         ph_notes := notes; ph_subPhrases := subPhrases;
         ph_material := assignMaterialLabel index; ph_closure := closure;
         ph_relationship := None; ph_headSimilarity := None |}.

(** The body of the loop over the sorted cadences; the state is
    [(phrases, phraseStart, phraseIndex)]. *)
Definition phraseStep (notes : list Note) (subPhrases : list SubPhrase)
           (st : list Phrase * Z * Z) (cadence : Cadence) : M (list Phrase * Z * Z) :=
  let '(phrases, phraseStart, phraseIndex) := st in
  let phraseEnd := cad_measureNumber cadence in
  let phraseLength := phraseEnd - phraseStart + 1 in
  if (2 <=? phraseLength) && (phraseLength <=? 12) then
    let phraseNotes := getNotesInRange notes phraseStart phraseEnd in
    let phraseSubPhrases :=
      filter (fun sp => (phraseStart <=? sp_startMeasure sp) && (sp_endMeasure sp <=? phraseEnd))
             subPhrases in
    p <- newPhrase phraseIndex phraseStart phraseEnd phraseLength (Some cadence)
                   phraseNotes phraseSubPhrases (closureOf (Some cadence)) ;;
    ret (phrases ++ [p], phraseEnd + 1, phraseIndex + 1)
  else if 12 <? phraseLength then
    let midPoint := phraseStart + phraseLength / 2 in
    p1 <- newPhrase phraseIndex phraseStart midPoint (midPoint - phraseStart + 1) None
                    (getNotesInRange notes phraseStart midPoint)
                    (filter (fun sp => (phraseStart <=? sp_startMeasure sp)
                                       && (sp_endMeasure sp <=? midPoint)) subPhrases)
                    "open" ;;
    p2 <- newPhrase (phraseIndex + 1) (midPoint + 1) phraseEnd (phraseEnd - midPoint)
                    (Some cadence)
                    (getNotesInRange notes (midPoint + 1) phraseEnd)
                    (filter (fun sp => (midPoint <? sp_startMeasure sp)
                                       && (sp_endMeasure sp <=? phraseEnd)) subPhrases)
                    (closureOf (Some cadence)) ;;
    ret (phrases ++ [p1; p2], phraseEnd + 1, phraseIndex + 2)
  else ret st.

(** The measures left after the last cadence. *)
Definition phraseRemainder (notes : list Note) (subPhrases : list SubPhrase)
           (lastMeasure : Z) (st : list Phrase * Z * Z) : M (list Phrase) :=
  let '(phrases, phraseStart, phraseIndex) := st in
  if phraseStart <=? lastMeasure then
    let remainingLength := lastMeasure - phraseStart + 1 in
    if 2 <=? remainingLength then
      p <- newPhrase phraseIndex phraseStart lastMeasure remainingLength None
                     (getNotesInRange notes phraseStart lastMeasure)
                     (filter (fun sp => phraseStart <=? sp_startMeasure sp) subPhrases)
                     "open" ;;
      ret (phrases ++ [p])
    else ret phrases
  else ret phrases.

Definition ceilHalf (n : Z) : Z := ceil (inject_Z n / 2).

Definition comparePhraseHeads (phrase1 phrase2 : Phrase) : Q :=
  let headLength :=
    Z.min (Z.min (ceilHalf (Zlen (ph_notes phrase1))) (ceilHalf (Zlen (ph_notes phrase2)))) 8 in
  let head1 := jsSlice (ph_notes phrase1) 0 headLength in
  let head2 := jsSlice (ph_notes phrase2) 0 headLength in
  calculateMelodicSimilarity head1 head2.

Definition comparePhraseTails (phrase1 phrase2 : Phrase) : Q :=
  let tailLength :=
    Z.min (Z.min (ceilHalf (Zlen (ph_notes phrase1))) (ceilHalf (Zlen (ph_notes phrase2)))) 8 in
  let tail1 := jsSliceFrom (ph_notes phrase1) (- tailLength) in
  let tail2 := jsSliceFrom (ph_notes phrase2) (- tailLength) in
  calculateMelodicSimilarity tail1 tail2.

Definition setPhraseMaterial (p : Phrase) (material : string) (relationship : option string)
           (headSimilarity : option Q) : Phrase :=
  {| ph_id := ph_id p; ph_index := ph_index p; ph_startMeasure := ph_startMeasure p;
     ph_endMeasure := ph_endMeasure p; ph_length := ph_length p; ph_cadence := ph_cadence p;
     ph_notes := ph_notes p; ph_subPhrases := ph_subPhrases p;
     ph_material := material; ph_closure := ph_closure p;
     ph_relationship := relationship; ph_headSimilarity := headSimilarity |}.

Definition relatePhrase (prev curr : Phrase) : Phrase :=
  let headSimilarity := comparePhraseHeads prev curr in
  let tailSimilarity := comparePhraseTails prev curr in
  if Qgtb headSimilarity (7#10) && Qltb tailSimilarity (5#10) then
    setPhraseMaterial curr (append (ph_material prev) "'") (Some "parallel")
                      (Some headSimilarity)
  else if Qgtb headSimilarity (7#10) && Qgtb tailSimilarity (7#10) then
    setPhraseMaterial curr (append (ph_material prev) "r") (Some "repetition")
                      (ph_headSimilarity curr)
  else if Qltb headSimilarity (3#10) then
    setPhraseMaterial curr (ph_material curr) (Some "contrasting") (ph_headSimilarity curr)
  else
    setPhraseMaterial curr (ph_material curr) (Some "development") (ph_headSimilarity curr).

Fixpoint relateAfter (prev : Phrase) (rest : list Phrase) : list Phrase :=
  match rest with
  | [] => []
  | curr :: rest' =>
      let curr' := relatePhrase prev curr in
      curr' :: relateAfter curr' rest'
  end.

Definition analyzePhraseMaterials (phrases : list Phrase) : list Phrase :=
  match phrases with
  | [] => []
  | p0 :: rest => p0 :: relateAfter p0 rest
  end.

Definition detectPhrases (notes : list Note) (cadences : list Cadence)
           (subPhrases : list SubPhrase) : M (list Phrase) :=
  let measureGroups := groupNotesByMeasure notes in
  let measureNumbers := sortedKeys measureGroups in
  match measureNumbers, lastOpt measureNumbers with
  | first :: _, Some lastMeasure =>
      let sortedCadences := sortBy cad_measureNumber cadences in
      st <- foldM (phraseStep notes subPhrases) sortedCadences ([], first, 0) ;;
      phrases <- phraseRemainder notes subPhrases lastMeasure st ;;
      ret (analyzePhraseMaterials phrases)
  | _, _ => ret []
  end.

(* ---------------------------------------------------------------- *)
(** ** Period detection *)

Definition isNewSection (currentPhrase nextPhrase : Phrase) : bool :=
  let hasStrongCadence := Qgeb (getCadenceStrength (ph_cadence currentPhrase)) (8#10) in
  let headSimilarity := comparePhraseHeads currentPhrase nextPhrase in
  hasStrongCadence && Qltb headSimilarity (3#10).

Definition isSequentialRelation (phrase1 phrase2 : Phrase) : bool :=
  match ph_notes phrase1, ph_notes phrase2 with
  | [], _ | _, [] => false
  | _, _ =>
      let intervals1 := extractIntervalPattern (jsSlice (ph_notes phrase1) 0 8) in
      let intervals2 := extractIntervalPattern (jsSlice (ph_notes phrase2) 0 8) in
      let intervalSim := compareArrays (QZ intervals1) (QZ intervals2) in
      let transposition := detectTransposition (ph_notes phrase1) (ph_notes phrase2) in
      Qgtb intervalSim (7#10) && (0 <? Z.abs transposition)
  end.

Definition classifyPeriodType (phrases : list Phrase) : string :=
  match phrases with
  | [_] => PeriodTypes.PARALLEL
  | [p1; p2] =>
      if match ph_relationship p2 with Some r => String.eqb r "parallel" | None => false end
         || match ph_headSimilarity p2 with Some h => Qgtb h (7#10) | None => false end
      then PeriodTypes.PARALLEL
      else if isSequentialRelation p1 p2 then PeriodTypes.SEQUENTIAL
      else PeriodTypes.CONTRASTING
  | [_; _; _] => PeriodTypes.THREE_PHRASE
  | [_; _; _; _] => PeriodTypes.FOUR_PHRASE
  | _ => PeriodTypes.COMPOUND
  end.

(** [ToInt32], applied by the bitwise operators. *)
Definition toInt32 (z : Z) : Z := (z + 2147483648) mod 4294967296 - 2147483648.

Definition classifyProportion (phrases : list Phrase) : string :=
  match phrases with
  | [] | [_] => ProportionTypes.NON_SQUARE
  | p0 :: _ =>
      let lengths := map ph_length phrases in
      let allEqual := forallb (fun l => l =? ph_length p0) lengths in
      if negb allEqual then ProportionTypes.NON_SQUARE
      else
        let length := ph_length p0 in
        let isPowerOf2 :=
          (toInt32 (Z.land (toInt32 length) (toInt32 (length - 1))) =? 0) && (4 <=? length) in
        if isPowerOf2 then ProportionTypes.SQUARE else ProportionTypes.REGULAR
  end.

Definition derivePeriodMaterial (phrases : list Phrase) : string :=
  match phrases with
  | [] => "a"
  | _ =>
      let materials := map (fun p => charAt0 (ph_material p)) phrases in
      let uniqueMaterials := uniqBy String.eqb materials [] in
      if Zlen uniqueMaterials =? 1 then nth 0 materials ""
      else join "+" materials
  end.

Definition firstStart (phrases : list Phrase) : Z :=
  match phrases with p :: _ => ph_startMeasure p | [] => 0 end.
Definition lastEnd (phrases : list Phrase) : Z :=
  match lastOpt phrases with Some p => ph_endMeasure p | None => 0 end.
Definition lastCadenceOf (phrases : list Phrase) : option Cadence :=
  match lastOpt phrases with Some p => ph_cadence p | None => None end.

(** [createPeriod] is only called with a non-empty slice of phrases. *)
Definition createPeriod (phrases : list Phrase) (index : Z) : M Period :=
  let startMeasure := firstStart phrases in
  let endMeasure := lastEnd phrases in
  let lastCadence := lastCadenceOf phrases in
  let periodType := classifyPeriodType phrases in
  let proportion := classifyProportion phrases in
  let closure := if Qgeb (getCadenceStrength lastCadence) (7#10) then "closed" else "open" in
  id <- generateId ;;
  ret {| pe_id := id; pe_index := index; pe_startMeasure := startMeasure;
         pe_endMeasure := endMeasure; pe_length := endMeasure - startMeasure + 1;
         pe_phrases := phrases; pe_phraseCount := Zlen phrases; pe_type := periodType;
         pe_proportion := proportion; pe_closure := closure;
         pe_material := derivePeriodMaterial phrases; pe_cadence := lastCadence |}.

(** The loop of [detectPeriods]: [current] holds [phrases.slice(periodStart, i)]
    and [rest] starts at [phrases[i]]. *)
Fixpoint periodLoop (rest current : list Phrase) (periods : list Period) (periodIndex : Z)
  : M (list Period) :=
  match rest with
  | [] => ret periods
  | phrase :: rest' =>
      let cadenceStrength := getCadenceStrength (ph_cadence phrase) in
      let isStrongCadence := Qgeb cadenceStrength (7#10) in
      let periodPhrases := current ++ [phrase] in
      let phrasesInPeriod := Zlen periodPhrases in
      let shouldEndPeriod :=
        (isStrongCadence && (2 <=? phrasesInPeriod))
        || (4 <=? phrasesInPeriod)
        || match rest' with
           | next :: _ => isNewSection phrase next
           | [] => false
           end in
      if shouldEndPeriod || match rest' with [] => true | _ => false end then
        period <- createPeriod periodPhrases periodIndex ;;
        periodLoop rest' [] (periods ++ [period]) (periodIndex + 1)
      else periodLoop rest' periodPhrases periods periodIndex
  end.

Definition detectPeriods (phrases : list Phrase) : M (list Period) :=
  periodLoop phrases [] [] 0.

Definition arePeriodsParallel (period1 period2 : Period) : bool :=
  match pe_phrases period1, pe_phrases period2 with
  | firstPhrase1 :: _, firstPhrase2 :: _ =>
      let headSim := comparePhraseHeads firstPhrase1 firstPhrase2 in
      let cadence1Strength := getCadenceStrength (pe_cadence period1) in
      let cadence2Strength := getCadenceStrength (pe_cadence period2) in
      Qgtb headSim (7#10) && Qgtb cadence2Strength cadence1Strength
  | _, _ => false
  end.

(** The loop of [detectCompoundPeriods] steps through the periods two by two. *)
Fixpoint compoundLoop (periods : list Period) (acc : list CompoundPeriod)
  : M (list CompoundPeriod) :=
  match periods with
  | p1 :: p2 :: rest =>
      if arePeriodsParallel p1 p2 then
        id <- generateId ;;
        compoundLoop rest
          (acc ++ [ {| cp_id := id; cp_type := "compound"; cp_periods := [p1; p2];
                       cp_startMeasure := pe_startMeasure p1;
                       cp_endMeasure := pe_endMeasure p2; cp_structure := "AA'" |} ])
      else compoundLoop rest acc
  | _ => ret acc
  end.

Definition detectCompoundPeriods (periods : list Period) : M (list CompoundPeriod) :=
  compoundLoop periods [].

(* ---------------------------------------------------------------- *)
(** ** Form detection: data *)

Record Descr := mkDescr { d_type : string; d_description : string }.

Record MiddleType := mkMiddleType {
  mt_type : string; mt_description : string; mt_confidence : Q
}.

Record ThemeRef := mkThemeRef {
  tr_period : Period; tr_startMeasure : Z; tr_endMeasure : Z
}.

Record TransitionRef := mkTransitionRef {
  tn_periods : list Period; tn_startMeasure : Z; tn_endMeasure : Z
}.

(** [closingTheme] stays [null] and is left out. *)
Record ExpositionComponents := mkExpositionComponents {
  ec_primaryTheme : option ThemeRef;
  ec_transition : option TransitionRef;
  ec_secondaryTheme : option ThemeRef
}.

Record RecapPrimary := mkRecapPrimary {
  rp_period : Period; rp_similarity : Q; rp_isVaried : bool
}.

Record RecapSecondary := mkRecapSecondary {
  rs_period : Period; rs_similarity : Q; rs_isInTonic : bool
}.

Record RecapComponents := mkRecapComponents {
  rc_primaryTheme : option RecapPrimary;
  rc_secondaryTheme : option RecapSecondary;
  rc_isComplete : bool;
  rc_isVaried : bool
}.

Inductive Components :=
| ExpositionC (c : ExpositionComponents)
| RecapitulationC (c : RecapComponents).

Record Section := mkSection {
  sec_id : Id;
  sec_name : string;
  sec_type : string;
  sec_startMeasure : Z;
  sec_endMeasure : Z;
  sec_function : string;
  sec_periods : list Period;
  sec_middleType : option MiddleType;
  sec_internalForm : option Descr;
  sec_recapitulationType : option Descr;
  sec_variationType : option Descr;
  sec_components : option Components;
  sec_isRecurrence : option bool
}.

Record Variation := mkVariation {
  var_index : Z; var_period : Period; var_similarity : Q; var_variationType : Descr
}.

Record FormAnalysis := mkForm {
  fa_formType : string;
  fa_sections : option (list Section);
  fa_confidence : Q;
  fa_description : option string;
  fa_theme : option Period;
  fa_variations : option (list Variation);
  fa_mainThemeCount : option Z;
  fa_episodeCount : option Z;
  fa_pattern : option string
}.

Definition plainForm (formType : string) (sections : option (list Section)) (confidence : Q)
           (description : option string) : FormAnalysis :=
  mkForm formType sections confidence description None None None None None.

Record MaterialPattern := mkPattern {
  mp_pattern : string;
  mp_materials : list string;
  mp_counts : list (string * Z);
  mp_mainMaterial : string;
  mp_uniqueCount : Z;
  mp_hasRecapitulation : bool
}.

Definition Z_to_string (z : Z) : string :=
  DecimalString.NilZero.string_of_int (Z.to_int z).

(** A section with the fields every form fills; the role-specific ones
    are added by the setters below. *)
Definition newSection (name type : string) (startMeasure endMeasure : Z) (function : string)
           (periods : list Period) : M Section :=
  id <- generateId ;;
  ret (mkSection id name type startMeasure endMeasure function periods
                 None None None None None None).

Definition withExtras (s : Section) (middleType : option MiddleType)
           (internalForm recapitulationType variationType : option Descr)
           (components : option Components) (isRecurrence : option bool) : Section :=
  mkSection (sec_id s) (sec_name s) (sec_type s) (sec_startMeasure s) (sec_endMeasure s)
            (sec_function s) (sec_periods s) middleType internalForm recapitulationType
            variationType components isRecurrence.

Definition periodsStart (periods : list Period) : Z :=
  match periods with p :: _ => pe_startMeasure p | [] => 0 end.
Definition periodsEnd (periods : list Period) : Z :=
  match lastOpt periods with Some p => pe_endMeasure p | None => 0 end.

(* ---------------------------------------------------------------- *)
(** ** Form detection: helpers *)

Definition calculatePeriodSimilarity (period1 period2 : Period) : Q :=
  match pe_phrases period1, pe_phrases period2 with
  | [], _ | _, [] => 0%Q
  | _, _ =>
      let notes1 := flat_map ph_notes (pe_phrases period1) in
      let notes2 := flat_map ph_notes (pe_phrases period2) in
      calculateMelodicSimilarity notes1 notes2
  end.

Definition compareRhythms (period1 period2 : Period) : Q :=
  let rhythm1 :=
    flat_map (fun p => map (fun n => QorElse (n_duration n) 1) (ph_notes p))
             (pe_phrases period1) in
  let rhythm2 :=
    flat_map (fun p => map (fun n => QorElse (n_duration n) 1) (ph_notes p))
             (pe_phrases period2) in
  compareArrays rhythm1 rhythm2.

Definition hasRecapitulation (period1 period2 : Period) : bool :=
  match lastOpt (pe_phrases period2), pe_phrases period1 with
  | Some lastPhrase, firstPhrase :: _ =>
      Qgtb (comparePhraseHeads firstPhrase lastPhrase) (6#10)
  | _, _ => false
  end.

Definition createSections (periods : list Period) (formType : string) : M (list Section) :=
  mapM (fun ip : Z * Period =>
          let '(index, period) := ip in
          newSection (fromCharCode (65 + index)) "period" (pe_startMeasure period)
                     (pe_endMeasure period)
                     (if index =? 0 then "main" else "secondary") [period])
       (combine (Zrange (Zlen periods)) periods).

Definition analyzeMaterialPattern (periods : list Period) : MaterialPattern :=
  let materials := map (fun p => charAt0 (pe_material p)) periods in
  let pattern := join "" materials in
  let counts :=
    fold_left
      (fun counts m =>
         assocUpd String.eqb m (fun c => match c with Some k => ZorElse k 0 + 1 | None => 1 end)
                  counts)
      materials [] in
  let mainMaterial :=
    match sortByDescQ (fun e : string * Z => inject_Z (snd e)) counts with
    | (m, _) :: _ => if String.eqb m "" then "a" else m
    | [] => "a"
    end in
  {| mp_pattern := pattern; mp_materials := materials; mp_counts := counts;
     mp_mainMaterial := mainMaterial; mp_uniqueCount := Zlen counts;
     mp_hasRecapitulation :=
       (3 <=? Zlen materials)
       && match materials, lastOpt materials with
          | m0 :: _, Some ml => String.eqb m0 ml
          | _, _ => false
          end |}.

(* ---------------------------------------------------------------- *)
(** ** Small forms *)

(** Called with exactly one period. *)
Definition analyzeOnePartForm (periods : list Period) : M FormAnalysis :=
  match periods with
  | period :: _ =>
      s <- newSection "A" "period" (pe_startMeasure period) (pe_endMeasure period)
                      "main" [period] ;;
      ret (plainForm FormTypes.ONE_PART (Some [s]) (9#10)
                     (Some "一部曲式 (One-part Form)"))
  | [] => ret (plainForm FormTypes.ONE_PART (Some []) (9#10)
                         (Some "一部曲式 (One-part Form)"))
  end.

(** Called with exactly two periods. *)
Definition analyzeBinaryForm (periods : list Period) (materialPattern : MaterialPattern)
  : M FormAnalysis :=
  match periods with
  | A :: B :: _ =>
      let hasRecap := hasRecapitulation A B in
      let formType := if hasRecap then FormTypes.BINARY_ROUNDED
                      else FormTypes.BINARY_PARALLEL in
      s1 <- newSection "A" "period" (pe_startMeasure A) (pe_endMeasure A) "exposition" [A] ;;
      s2 <- newSection (if hasRecap then "A'" else "B") "period" (pe_startMeasure B)
                       (pe_endMeasure B)
                       (if hasRecap then "recapitulation" else "contrast") [B] ;;
      ret (plainForm formType (Some [s1; s2]) (8#10)
             (Some (if hasRecap then "再现单二部曲式 (Rounded Binary)"
                    else "并列单二部曲式 (Parallel Binary)")))
  | _ => ret (plainForm FormTypes.BINARY_PARALLEL (Some []) (8#10) None)
  end.

Definition classifyMiddleSection (middlePeriod firstPeriod : Period) : MiddleType :=
  let materialSimilarity := calculatePeriodSimilarity middlePeriod firstPeriod in
  let isKeyStable := String.eqb (pe_closure middlePeriod) "closed" in
  let hasCompleteStructure := 2 <=? pe_phraseCount middlePeriod in
  if hasCompleteStructure && isKeyStable then
    mkMiddleType MiddleSectionTypes.TRIO "三声中部 (Trio)" (8#10)
  else if Qgtb materialSimilarity (5#10) then
    mkMiddleType MiddleSectionTypes.DEVELOPMENT "展开性中部 (Development)" (75#100)
  else
    mkMiddleType MiddleSectionTypes.EPISODE "插部性中部 (Episode)" (7#10).

(** Called with exactly three periods. *)
Definition analyzeTernaryForm (periods : list Period) (materialPattern : MaterialPattern)
  : M FormAnalysis :=
  match periods with
  | A :: B :: C :: _ =>
      if mp_hasRecapitulation materialPattern then
        let middleType := classifyMiddleSection B A in
        s1 <- newSection "A" "period" (pe_startMeasure A) (pe_endMeasure A)
                         "exposition" [A] ;;
        s2 <- newSection "B" (mt_type middleType) (pe_startMeasure B) (pe_endMeasure B)
                         "middle" [B] ;;
        s3 <- newSection "A'" "period" (pe_startMeasure C) (pe_endMeasure C)
                         "recapitulation" [C] ;;
        ret (plainForm FormTypes.TERNARY_SIMPLE
               (Some [s1; withExtras s2 (Some middleType) None None None None None; s3])
               (85#100) (Some "再现单三部曲式 (Ternary Form ABA)"))
      else
        s1 <- newSection "A" "period" (pe_startMeasure A) (pe_endMeasure A)
                         "first_theme" [A] ;;
        s2 <- newSection "B" "period" (pe_startMeasure B) (pe_endMeasure B)
                         "second_theme" [B] ;;
        s3 <- newSection "C" "period" (pe_startMeasure C) (pe_endMeasure C)
                         "third_theme" [C] ;;
        ret (plainForm FormTypes.TERNARY_PARALLEL (Some [s1; s2; s3]) (75#100)
               (Some "并列单三部曲式 (Parallel Ternary ABC)"))
  | _ => ret (plainForm FormTypes.TERNARY_PARALLEL (Some []) (75#100) None)
  end.

Definition analyzeInternalForm (periods : list Period) : Descr :=
  match periods with
  | [_] => mkDescr "period" "乐段"
  | [p0; p1] =>
      let hasRecap := arePeriodsParallel p0 p1 in
      mkDescr (if hasRecap then "binary_rounded" else "binary_parallel")
              (if hasRecap then "再现单二部" else "并列单二部")
  | [_; _; _] => mkDescr "ternary" "单三部"
  | _ => mkDescr "complex" "复杂结构"
  end.

Definition classifyRecapitulation (originalPeriods recapPeriods : list Period) : Descr :=
  match originalPeriods, recapPeriods with
  | [], _ | _, [] => mkDescr "unknown" "未知"
  | _, _ =>
      let originalLength := Zsum (map pe_length originalPeriods) in
      let recapLength := Zsum (map pe_length recapPeriods) in
      let lengthRatio := (inject_Z recapLength / inject_Z originalLength)%Q in
      if Qgtb lengthRatio (95#100) && Qltb lengthRatio (105#100)
      then mkDescr "complete" "完全再现"
      else if Qltb lengthRatio (7#10) then mkDescr "abbreviated" "减缩再现"
      else if Qgtb lengthRatio (13#10) then mkDescr "expanded" "扩充再现"
      else mkDescr "varied" "变化再现"
  end.

(** The search for the bounds of the middle part: the state is
    [(middleStart, middleEnd, stopped)], with -1 for "not found yet". *)
Definition middleStep (mainMaterial : string) (st : Z * Z * bool) (im : Z * string)
  : Z * Z * bool :=
  let '(middleStart, middleEnd, stopped) := st in
  let '(i, m) := im in
  if stopped then st
  else
    let middleStart' :=
      if negb (String.eqb m mainMaterial) && (middleStart =? -1) then i else middleStart in
    if String.eqb m mainMaterial && negb (middleStart' =? -1) && (middleEnd =? -1)
    then (middleStart', i - 1, true)
    else (middleStart', middleEnd, false).

(** Called with at least four periods. *)
Definition analyzeCompoundTernaryForm (periods : list Period)
           (materialPattern : MaterialPattern) : M FormAnalysis :=
  let materials := mp_materials materialPattern in
  if negb (mp_hasRecapitulation materialPattern) then
    sections <- createSections periods "multi_part" ;;
    ret (plainForm "multi_part" (Some sections) (5#10) None)
  else
    let mainMaterial := nth 0 materials "" in
    let '(middleStart0, middleEnd0, _) :=
      fold_left (middleStep mainMaterial)
                (tl (combine (Zrange (Zlen materials)) materials)) (-1, -1, false) in
    let middleStart := if middleStart0 =? -1 then 1 else middleStart0 in
    let middleEnd := if middleEnd0 =? -1 then Zlen periods - 2 else middleEnd0 in
    let aPeriods := jsSlice periods 0 middleStart in
    a0 <- newSection "A" (if 1 <? Zlen aPeriods then "section" else "period")
                     (periodsStart aPeriods) (periodsEnd aPeriods) "exposition" aPeriods ;;
    let aSection := withExtras a0 None (Some (analyzeInternalForm aPeriods))
                               None None None None in
    let bPeriods := jsSlice periods middleStart (middleEnd + 1) in
    bSections <-
      match bPeriods, aPeriods with
      | b0 :: _, a0p :: _ =>
          let middleType := classifyMiddleSection b0 a0p in
          b <- newSection "B" (if 1 <? Zlen bPeriods then "section" else mt_type middleType)
                          (periodsStart bPeriods) (periodsEnd bPeriods) "middle" bPeriods ;;
          ret [withExtras b (Some middleType) (Some (analyzeInternalForm bPeriods))
                          None None None None]
      | _, _ => ret []
      end ;;
    let aPrimePeriods := jsSliceFrom periods (middleEnd + 1) in
    aPrimeSections <-
      match aPrimePeriods with
      | _ :: _ =>
          ap <- newSection "A'" (if 1 <? Zlen aPrimePeriods then "section" else "period")
                           (periodsStart aPrimePeriods) (periodsEnd aPrimePeriods)
                           "recapitulation" aPrimePeriods ;;
          ret [withExtras ap None None
                          (Some (classifyRecapitulation aPeriods aPrimePeriods))
                          None None None]
      | [] => ret []
      end ;;
    ret (plainForm FormTypes.TERNARY_COMPOUND
                   (Some ([aSection] ++ bSections ++ aPrimeSections)) (75#100)
                   (Some "复三部曲式 (Compound Ternary Form)")).

(* ---------------------------------------------------------------- *)
(** ** Large forms *)

Definition classifyVariationType (theme variation : Period) : Descr :=
  let melodySim :=
    calculateMelodicSimilarity
      (match pe_phrases theme with p :: _ => ph_notes p | [] => [] end)
      (match pe_phrases variation with p :: _ => ph_notes p | [] => [] end) in
  let rhythmSim := compareRhythms theme variation in
  if Qgtb melodySim (7#10) then mkDescr "ornamental" "装饰变奏"
  else if Qgtb rhythmSim (7#10) then mkDescr "melodic" "旋律变奏"
  else mkDescr "character" "性格变奏".

Definition createVariationSections (theme : Period) (variations : list Variation)
  : M (list Section) :=
  s0 <- newSection "Theme" "theme" (pe_startMeasure theme) (pe_endMeasure theme)
                   "theme" [theme] ;;
  rest <- mapM (fun iv : Z * Variation =>
                  let '(i, v) := iv in
                  s <- newSection (append "Var. " (Z_to_string (i + 1))) "variation"
                                  (pe_startMeasure (var_period v))
                                  (pe_endMeasure (var_period v)) "variation"
                                  [var_period v] ;;
                  ret (withExtras s None None None (Some (var_variationType v)) None None))
               (combine (Zrange (Zlen variations)) variations) ;;
  ret (s0 :: rest).

(** The periods after the first that vary the theme: similarity strictly
    between 0.3 and 0.9. *)
Definition findVariations (theme : Period) (periods : list Period) : list Variation :=
  flat_map
    (fun ip : Z * Period =>
       let '(i, p) := ip in
       let similarity := calculatePeriodSimilarity p theme in
       if Qgtb similarity (3#10) && Qltb similarity (9#10)
       then [mkVariation i p similarity (classifyVariationType theme p)]
       else [])
    (tl (combine (Zrange (Zlen periods)) periods)).

Definition detectVariationForm (periods : list Period) : M FormAnalysis :=
  match periods with
  | theme :: _ =>
      if Zlen periods <? 3 then ret (plainForm FormTypes.VARIATION None (3#10) None)
      else
        let variations := findVariations theme periods in
        let variationCount := Zlen variations in
        let variationRatio := (inject_Z variationCount / inject_Z (Zlen periods - 1))%Q in
        if Qgtb variationRatio (6#10) then
          sections <- createVariationSections theme variations ;;
          ret (mkForm FormTypes.VARIATION (Some sections)
                      ((7#10) + variationRatio * (2#10))%Q
                      (Some "变奏曲式 (Variation Form)")
                      (Some theme) (Some variations) None None None)
        else ret (plainForm FormTypes.VARIATION None (3#10) None)
  | [] => ret (plainForm FormTypes.VARIATION None (3#10) None)
  end.

(** The loop that names refrains and episodes; the state is
    [(sections, mainThemeIndex, episodeIndex)]. *)
Definition rondoStep (mainMaterial : string) (st : list Section * Z * Z)
           (pm : Period * string) : M (list Section * Z * Z) :=
  let '(sections, mainThemeIndex, episodeIndex) := st in
  let '(period, material) := pm in
  if String.eqb material mainMaterial then
    s <- newSection (if mainThemeIndex =? 0 then "A (Main Theme)"
                     else append "A" (Z_to_string mainThemeIndex))
                    "refrain" (pe_startMeasure period) (pe_endMeasure period)
                    "main_theme" [period] ;;
    ret (sections ++ [withExtras s None None None None None (Some (0 <? mainThemeIndex))],
         mainThemeIndex + 1, episodeIndex)
  else
    let episodeIndex' := episodeIndex + 1 in
    let episodeName := fromCharCode (65 + episodeIndex') in
    s <- newSection (append episodeName
                            (append " (Episode " (append (Z_to_string episodeIndex') ")")))
                    "episode" (pe_startMeasure period) (pe_endMeasure period)
                    "episode" [period] ;;
    ret (sections ++ [s], mainThemeIndex, episodeIndex').

Definition detectRondoForm (periods : list Period) (materialPattern : MaterialPattern)
  : M FormAnalysis :=
  let materials := mp_materials materialPattern in
  let mainMaterial := mp_mainMaterial materialPattern in
  let counts := mp_counts materialPattern in
  let mainCount := match assocGet String.eqb mainMaterial counts with
                   | Some c => ZorElse c 0
                   | None => 0
                   end in
  if mainCount <? 3 then ret (plainForm FormTypes.RONDO None (3#10) None)
  else
    let episodeMaterials :=
      filter (fun m => negb (String.eqb m mainMaterial)) (map fst counts) in
    let episodeCount := Zlen episodeMaterials in
    if episodeCount <? 2 then ret (plainForm FormTypes.RONDO None (4#10) None)
    else
      ' (sections, _, _) <-
        foldM (rondoStep mainMaterial) (combine periods materials) ([], 0, 0) ;;
      let confidence :=
        Qmin (9#10) ((5#10) + inject_Z mainCount * (1#10) + inject_Z episodeCount * (1#10))%Q in
      ret (mkForm FormTypes.RONDO (Some sections) confidence
                  (Some (append "回旋曲式 (Rondo Form) - " (join "" materials)))
                  None None (Some mainCount) (Some episodeCount)
                  (Some (join "" materials))).

Definition themeRef (p : Period) : ThemeRef :=
  mkThemeRef p (pe_startMeasure p) (pe_endMeasure p).

Definition analyzeExposition (periods : list Period) : ExpositionComponents :=
  match periods with
  | [] => mkExpositionComponents None None None
  | p0 :: _ =>
      let primaryTheme := Some (themeRef p0) in
      let secondaryTheme :=
        if 2 <=? Zlen periods
        then match lastOpt periods with Some pl => Some (themeRef pl) | None => None end
        else None in
      let transition :=
        if 3 <=? Zlen periods then
          let transitionPeriods := jsSlice periods 1 (-1) in
          Some (mkTransitionRef transitionPeriods (periodsStart transitionPeriods)
                                (periodsEnd transitionPeriods))
        else None in
      mkExpositionComponents primaryTheme transition secondaryTheme
  end.

Definition analyzeRecapitulation (recapPeriods expositionPeriods : list Period)
  : RecapComponents :=
  let primaryTheme :=
    match recapPeriods, expositionPeriods with
    | r0 :: _, e0 :: _ =>
        let similarity := calculatePeriodSimilarity r0 e0 in
        Some (mkRecapPrimary r0 similarity (Qltb similarity (8#10)))
    | _, _ => None
    end in
  let secondaryTheme :=
    if (2 <=? Zlen recapPeriods) && (2 <=? Zlen expositionPeriods) then
      match lastOpt expositionPeriods, lastOpt recapPeriods with
      | Some expSecondary, Some recapSecondary =>
          let similarity := calculatePeriodSimilarity recapSecondary expSecondary in
          Some (mkRecapSecondary recapSecondary similarity true)
      | _, _ => None
      end
    else None in
  mkRecapComponents primaryTheme secondaryTheme
    (Qgeb (inject_Z (Zlen recapPeriods)) (inject_Z (Zlen expositionPeriods) * (7#10)))
    false.

Definition detectSonataForm (periods : list Period) : M FormAnalysis :=
  match periods with
  | firstPeriod :: _ =>
      if Zlen periods <? 3 then ret (plainForm FormTypes.SONATA None (3#10) None)
      else
        let expEndIndex := Zlen periods / 3 in
        let devEndIndex := 2 * Zlen periods / 3 in
        let lastPeriods := jsSliceFrom periods devEndIndex in
        let hasRecapitulation :=
          existsb (fun p => Qgtb (calculatePeriodSimilarity p firstPeriod) (5#10))
                  lastPeriods in
        if negb hasRecapitulation then ret (plainForm FormTypes.SONATA None (4#10) None)
        else
          let expositionPeriods := jsSlice periods 0 (expEndIndex + 1) in
          e <- newSection "Exposition" "exposition" (periodsStart expositionPeriods)
                          (periodsEnd expositionPeriods) "exposition" expositionPeriods ;;
          let exposition :=
            withExtras e None None None None
                       (Some (ExpositionC (analyzeExposition expositionPeriods))) None in
          let developmentPeriods := jsSlice periods (expEndIndex + 1) (devEndIndex + 1) in
          development <-
            match developmentPeriods with
            | _ :: _ =>
                d <- newSection "Development" "development"
                                (periodsStart developmentPeriods)
                                (periodsEnd developmentPeriods) "development"
                                developmentPeriods ;;
                ret [d]
            | [] => ret []
            end ;;
          let recapPeriods := jsSliceFrom periods (devEndIndex + 1) in
          recap <-
            match recapPeriods with
            | _ :: _ =>
                r <- newSection "Recapitulation" "recapitulation"
                                (periodsStart recapPeriods) (periodsEnd recapPeriods)
                                "recapitulation" recapPeriods ;;
                ret [withExtras r None None None None
                       (Some (RecapitulationC
                                (analyzeRecapitulation recapPeriods expositionPeriods)))
                       None]
            | [] => ret []
            end ;;
          ret (plainForm FormTypes.SONATA (Some ([exposition] ++ development ++ recap))
                         (65#100) (Some "奏鸣曲式 (Sonata Form)"))
  | [] => ret (plainForm FormTypes.SONATA None (3#10) None)
  end.

(* ---------------------------------------------------------------- *)
(** ** Popular forms *)

Definition lower (c : ascii) : ascii :=
  let n := nat_of_ascii c in
  if (65 <=? n)%nat && (n <=? 90)%nat then ascii_of_nat (n + 32) else c.

(** [/^(xy)+x?$/i] *)
Fixpoint matchAlternation (x y : ascii) (s : string) : bool :=
  match s with
  | String a (String b rest) =>
      Ascii.eqb (lower a) x && Ascii.eqb (lower b) y
      && match rest with
         | EmptyString => true
         | String c EmptyString => Ascii.eqb (lower c) x
         | _ => matchAlternation x y rest
         end
  | _ => false
  end.

(** [/^aaba$/i] *)
Definition matchAABA (s : string) : bool :=
  match s with
  | String a (String b (String c (String d EmptyString))) =>
      Ascii.eqb (lower a) "a" && Ascii.eqb (lower b) "a"
      && Ascii.eqb (lower c) "b" && Ascii.eqb (lower d) "a"
  | _ => false
  end.

Definition verseChorusStep (verseMaterial : string) (st : list Section * Z * Z)
           (pm : Period * string) : M (list Section * Z * Z) :=
  let '(sections, verseCount, chorusCount) := st in
  let '(period, material) := pm in
  if String.eqb material verseMaterial then
    s <- newSection (append "Verse " (Z_to_string (verseCount + 1))) "verse"
                    (pe_startMeasure period) (pe_endMeasure period) "verse" [period] ;;
    ret (sections ++ [s], verseCount + 1, chorusCount)
  else
    s <- newSection (append "Chorus " (Z_to_string (chorusCount + 1))) "chorus"
                    (pe_startMeasure period) (pe_endMeasure period) "chorus" [period] ;;
    ret (sections ++ [s], verseCount, chorusCount + 1).

Definition createVerseChorusSections (periods : list Period) (materials : list string)
  : M (list Section) :=
  let verseMaterial := nth 0 materials "" in
  ' (sections, _, _) <-
    foldM (verseChorusStep verseMaterial) (combine periods materials) ([], 0, 0) ;;
  ret sections.

Definition createAABASections (periods : list Period) : M (list Section) :=
  let names := ["A (Verse 1)"; "A (Verse 2)"; "B (Bridge)"; "A' (Verse 3)"] in
  let functions := ["verse"; "verse"; "bridge"; "verse"] in
  mapM (fun ip : Z * Period =>
          let '(i, period) := ip in
          let name := match nth_error names (Z.to_nat i) with
                      | Some n => n
                      | None => append "Section " (Z_to_string (i + 1))
                      end in
          let fn := match nth_error functions (Z.to_nat i) with
                    | Some f => f
                    | None => "section"
                    end in
          newSection name fn (pe_startMeasure period) (pe_endMeasure period) fn [period])
       (combine (Zrange (Zlen periods)) periods).

Definition detectPopularMusicForm (periods : list Period) : M FormAnalysis :=
  if Zlen periods <? 2 then ret (plainForm "unknown" None (3#10) None)
  else
    let materialPattern := analyzeMaterialPattern periods in
    let materials := mp_materials materialPattern in
    let counts := mp_counts materialPattern in
    let pattern := join "" materials in
    if (Zlen counts =? 2)
       && (matchAlternation "a" "b" pattern || matchAlternation "b" "a" pattern) then
      sections <- createVerseChorusSections periods materials ;;
      ret (plainForm FormTypes.VERSE_CHORUS (Some sections) (75#100)
                     (Some "主歌-副歌式 (Verse-Chorus Form)"))
    else if (Zlen materials =? 4) && matchAABA pattern then
      sections <- createAABASections periods ;;
      ret (plainForm FormTypes.AABA (Some sections) (8#10)
                     (Some "AABA曲式 (32-bar Form)"))
    else ret (plainForm "unknown" None (3#10) None).

(* ---------------------------------------------------------------- *)
(** ** The form cascade *)

Definition detectForm (periods : list Period) : M FormAnalysis :=
  let periodCount := Zlen periods in
  if periodCount =? 0 then ret (plainForm FormTypes.ONE_PART (Some []) (5#10) None)
  else
    let materialPattern := analyzeMaterialPattern periods in
    if periodCount =? 1 then analyzeOnePartForm periods
    else if periodCount =? 2 then analyzeBinaryForm periods materialPattern
    else if periodCount =? 3 then analyzeTernaryForm periods materialPattern
    else
      variationAnalysis <- detectVariationForm periods ;;
      if Qgtb (fa_confidence variationAnalysis) (7#10) then ret variationAnalysis
      else
        rondoResult <-
          (if 5 <=? periodCount then
             rondoAnalysis <- detectRondoForm periods materialPattern ;;
             ret (if Qgtb (fa_confidence rondoAnalysis) (6#10)
                  then Some rondoAnalysis else None)
           else ret None) ;;
        match rondoResult with
        | Some rondoAnalysis => ret rondoAnalysis
        | None =>
            sonataResult <-
              (if 3 <=? periodCount then
                 sonataAnalysis <- detectSonataForm periods ;;
                 ret (if Qgtb (fa_confidence sonataAnalysis) (6#10)
                      then Some sonataAnalysis else None)
               else ret None) ;;
            match sonataResult with
            | Some sonataAnalysis => ret sonataAnalysis
            | None =>
                if 4 <=? periodCount then analyzeCompoundTernaryForm periods materialPattern
                else
                  sections <- createSections periods "multi_part" ;;
                  ret (plainForm "multi_part" (Some sections) (5#10) None)
            end
        end.

(* ---------------------------------------------------------------- *)
(** ** Auxiliary structures *)

Record Auxiliary := mkAuxiliary {
  aux_id : Id;
  aux_type : string;
  aux_name : string;
  aux_startMeasure : Z;
  aux_endMeasure : Z;
  aux_length : Z;
  aux_notes : list Note;
  aux_function : string
}.

Record Transition := mkTransition {
  trn_id : Id;
  trn_type : string;
  trn_name : string;
  trn_startMeasure : Z;
  trn_endMeasure : Z;
  trn_length : Z;
  trn_fromSection : Id;
  trn_toSection : Id;
  trn_function : string
}.

Record Extension := mkExtension {
  ext_id : Id;
  ext_type : string;
  ext_phraseId : Id;
  ext_estimatedLength : Z;
  ext_position : string
}.

Definition uniqueSortedMeasures (notes : list Note) : list Z :=
  sortBy (fun k => k) (uniqBy Z.eqb (map n_measureNumber notes) []).

Definition detectIntroduction (notes : list Note) (firstPeriod : Period)
  : M (option Auxiliary) :=
  match notes with
  | [] => ret None
  | _ =>
      let firstPeriodStart := pe_startMeasure firstPeriod in
      if firstPeriodStart <=? 1 then ret None
      else
        let introNotes := filter (fun n => n_measureNumber n <? firstPeriodStart) notes in
        match introNotes with
        | [] => ret None
        | _ =>
            let introMeasures := uniqueSortedMeasures introNotes in
            id <- generateId ;;
            ret (Some (mkAuxiliary id "introduction" "Introduction"
                                   (nth 0 introMeasures 0)
                                   (match lastOpt introMeasures with Some m => m | None => 0 end)
                                   (Zlen introMeasures) introNotes "preparation"))
        end
  end.

(** [lastCadence] is accepted and not used. *)
Definition detectCoda (notes : list Note) (lastPeriod : Period)
           (lastCadence : option Cadence) : M (option Auxiliary) :=
  match notes with
  | [] => ret None
  | _ =>
      let lastPeriodEnd := pe_endMeasure lastPeriod in
      let allMeasures := sortedKeys (groupNotesByMeasure notes) in
      match lastOpt allMeasures with
      | None => ret None
      | Some lastMeasure =>
          if lastMeasure <=? lastPeriodEnd then ret None
          else
            let codaNotes := filter (fun n => lastPeriodEnd <? n_measureNumber n) notes in
            match codaNotes with
            | [] => ret None
            | _ =>
                let codaMeasures := uniqueSortedMeasures codaNotes in
                let codaLength := Zlen codaMeasures in
                let isCoda := 4 <? codaLength in
                id <- generateId ;;
                ret (Some (mkAuxiliary id (if isCoda then "coda" else "codetta")
                             (if isCoda then "Coda" else "Codetta")
                             (nth 0 codaMeasures 0)
                             (match lastOpt codaMeasures with Some m => m | None => 0 end)
                             codaLength codaNotes "conclusion"))
            end
      end
  end.

Definition transitionStep (acc : list Transition) (ipp : Z * (Period * Period))
  : M (list Transition) :=
  let '(i, (curr, next)) := ipp in
  let gap := pe_startMeasure next - pe_endMeasure curr - 1 in
  if 0 <? gap then
    id <- generateId ;;
    ret (acc ++ [mkTransition id "transition" (append "Transition " (Z_to_string (i + 1)))
                              (pe_endMeasure curr + 1) (pe_startMeasure next - 1) gap
                              (pe_id curr) (pe_id next) "connection"])
  else ret acc.

Definition detectTransitions (periods : list Period) : M (list Transition) :=
  let pairs := adjacentPairs periods in
  foldM transitionStep (combine (Zrange (Zlen pairs)) pairs) [].

Definition extensionStep (acc : list Extension) (phrase : Phrase) : M (list Extension) :=
  let typicalLength := 4 in
  if Qgtb (inject_Z (ph_length phrase)) (inject_Z typicalLength * (15#10)) then
    let extensionLength := ph_length phrase - typicalLength in
    id <- generateId ;;
    ret (acc ++ [mkExtension id "extension" (ph_id phrase) extensionLength "internal"])
  else ret acc.

Definition detectExtensions (phrases : list Phrase) : M (list Extension) :=
  foldM extensionStep phrases [].

(* ---------------------------------------------------------------- *)
(** ** Mode detection *)

Record ModeAnalysis := mkModeAnalysis {
  ma_mode : string;
  ma_confidence : Q;
  ma_alternativeMode : option string;
  ma_alternativeConfidence : option Q;
  ma_pitchClassDistribution : option (list (Z * Q));
  ma_allScores : option (list (string * Q))
}.

(** Objects with integer keys are read back ([Object.entries]) in
    ascending key order. *)
Definition entries (counts : list (Z * Q)) : list (Z * Q) := sortBy fst counts.

Definition countPitchClasses (notes : list Note) : list (Z * Q) :=
  fold_left
    (fun counts note =>
       match n_pitch note with
       | Some (String c s) =>
           match pitchClass (removeDigits (String c s)) with
           | Some pc =>
               assocUpd Z.eqb pc
                 (fun v => (match v with Some w => QorElse w 0 | None => 0 end
                            + QorElse (n_duration note) 1)%Q)
                 counts
           | None => counts
           end
       | _ => counts
       end)
    notes [].

Definition calculateModeScore (pitchCounts : list (Z * Q)) (scale : list Z) : Q :=
  let '(inScaleWeight, totalWeight) :=
    fold_left
      (fun acc e =>
         let '(inScale, total) := acc in
         let '(pc, weight) := e in
         (if existsb (Z.eqb pc) scale then (inScale + weight)%Q else inScale,
          (total + weight)%Q))
      (entries pitchCounts) (0%Q, 0%Q) in
  if Qeqb totalWeight 0 then 0%Q else (inScaleWeight / totalWeight)%Q.

Definition detectMode (notes : list Note) (keySignature : KeySignature) : ModeAnalysis :=
  match notes with
  | [] => mkModeAnalysis "major" (5#10) None None None None
  | _ =>
      let pitchClassCounts := countPitchClasses notes in
      let tonic := getTonicFromKey keySignature in
      let tonicPc := match pitchClass tonic with Some p => ZorElse p 0 | None => 0 end in
      let relativeCounts :=
        fold_left
          (fun rel e =>
             let '(pc, count) := e in
             assocUpd Z.eqb (Z.rem (pc - tonicPc + 12) 12) (fun _ => count) rel)
          (entries pitchClassCounts) [] in
      let modeScores :=
        [("major", calculateModeScore relativeCounts scale_major);
         ("natural_minor", calculateModeScore relativeCounts scale_natural_minor);
         ("harmonic_minor", calculateModeScore relativeCounts scale_harmonic_minor)]
        ++ map (fun e : string * list Z =>
                  (fst e, calculateModeScore relativeCounts (snd e))) churchModes
        ++ map (fun e : string * list Z =>
                  (append "pentatonic_" (fst e), calculateModeScore relativeCounts (snd e)))
               pentatonicModes in
      let sortedModes := sortByDescQ (fun e : string * Q => snd e) modeScores in
      match sortedModes with
      | bestMode :: more =>
          mkModeAnalysis (fst bestMode) (snd bestMode)
            (match more with secondBest :: _ => Some (fst secondBest) | [] => None end)
            (Some (match more with secondBest :: _ => snd secondBest | [] => 0%Q end))
            (Some (entries relativeCounts)) (Some modeScores)
      | [] => mkModeAnalysis "major" (5#10) None None None None
      end
  end.

(* ---------------------------------------------------------------- *)
(** ** Themes *)

Record Occurrence := mkOccurrence {
  oc_periodIndex : Z;
  oc_periodId : Id;
  oc_startMeasure : Z;
  oc_endMeasure : Z;
  oc_similarity : Q;
  oc_isExact : bool;
  oc_isVariation : bool
}.

Record Theme := mkTheme {
  th_id : Id;
  th_name : string;
  th_type : string;
  th_periods : list Period;
  th_startMeasure : option Z;
  th_endMeasure : option Z;
  th_occurrences : list Occurrence
}.

Definition findThemeOccurrences (themePeriod : Period) (allPeriods : list Period)
  : list Occurrence :=
  flat_map
    (fun ip : Z * Period =>
       let '(i, period) := ip in
       let similarity := calculatePeriodSimilarity period themePeriod in
       if Qgtb similarity (6#10) then
         [mkOccurrence i (pe_id period) (pe_startMeasure period) (pe_endMeasure period)
                       similarity (Qgtb similarity (9#10))
                       (Qgtb similarity (6#10) && Qleb similarity (9#10))]
       else [])
    (combine (Zrange (Zlen allPeriods)) allPeriods).

(** Every section the form analyzers build holds at least one period, so
    [themePeriods[0]] is defined wherever the source reads it; the model
    gives an empty occurrence list otherwise. *)
Definition themeOfSection (periods : list Period) (acc : list Theme) (section : Section)
  : M (list Theme) :=
  let f := sec_function section in
  if String.eqb f "exposition" || String.eqb f "main_theme" || String.eqb f "theme" then
    let themePeriods := sec_periods section in
    id <- generateId ;;
    ret (acc ++ [mkTheme id
                   (if String.eqb (sec_name section) "" then "Main Theme"
                    else sec_name section)
                   "primary" themePeriods
                   (match themePeriods with p :: _ => Some (pe_startMeasure p) | [] => None end)
                   (match lastOpt themePeriods with
                    | Some p => Some (pe_endMeasure p)
                    | None => None
                    end)
                   (match themePeriods with
                    | p :: _ => findThemeOccurrences p periods
                    | [] => []
                    end)])
  else ret acc.

Definition secondaryThemeStep (periods : list Period) (mainThemePeriod : Period)
           (themes : list Theme) (period : Period) : M (list Theme) :=
  let similarity := calculatePeriodSimilarity period mainThemePeriod in
  if Qltb similarity (4#10) && String.eqb (pe_closure period) "closed" then
    let isAlreadyTheme :=
      existsb (fun t => existsb (fun p => String.eqb (pe_id p) (pe_id period))
                                (th_periods t)) themes in
    if negb isAlreadyTheme then
      id <- generateId ;;
      ret (themes ++ [mkTheme id
                        (append "Secondary Theme " (Z_to_string (Zlen themes)))
                        "secondary" [period]
                        (Some (pe_startMeasure period)) (Some (pe_endMeasure period))
                        (findThemeOccurrences period periods)])
    else ret themes
  else ret themes.

Definition identifyThemes (periods : list Period) (formAnalysis : FormAnalysis)
  : M (list Theme) :=
  match periods with
  | [] => ret []
  | period0 :: laterPeriods =>
      themes1 <-
        match fa_sections formAnalysis with
        | Some sections => foldM (themeOfSection periods) sections []
        | None => ret []
        end ;;
      themes2 <-
        match themes1 with
        | [] =>
            id <- generateId ;;
            ret [mkTheme id "Main Theme" "primary" [period0]
                         (Some (pe_startMeasure period0)) (Some (pe_endMeasure period0))
                         (findThemeOccurrences period0 periods)]
        | _ => ret themes1
        end ;;
      match laterPeriods, themes2 with
      | _ :: _, mainTheme :: _ =>
          match th_periods mainTheme with
          | mainThemePeriod :: _ =>
              foldM (secondaryThemeStep periods mainThemePeriod) laterPeriods themes2
          | [] => ret themes2
          end
      | _, _ => ret themes2
      end
  end.

(* ---------------------------------------------------------------- *)
(** ** The complete analysis *)

Record Relationships := mkRelationships {
  motiveToSubPhrase : list (Id * list Id);
  subPhraseToPhrase : list (Id * list Id);
  phraseToperiod : list (Id * list Id);
  periodToSection : list (Id * list Id)
}.

Record Hierarchy := mkHierarchy {
  level1_motives : Z;
  level2_subPhrases : Z;
  level3_phrases : Z;
  level4_periods : Z;
  level5_sections : Z;
  relationships : Relationships
}.

(** [mapping[key] = value] for each item, in order. *)
Definition mappingOf {A} (key : A -> Id) (value : A -> list Id) (items : list A)
  : list (Id * list Id) :=
  fold_left (fun mapping x => assocUpd String.eqb (key x) (fun _ => value x) mapping)
            items [].

Definition mapMotivesToSubPhrases (motives : list Motive) (subPhrases : list SubPhrase)
  : list (Id * list Id) :=
  mappingOf sp_id
    (fun sp =>
       map mo_id
           (filter (fun m => (sp_startMeasure sp <=? mo_measureNumber m)
                             && (mo_measureNumber m <=? sp_endMeasure sp)) motives))
    subPhrases.

Definition mapSubPhrasesToPhrases (subPhrases : list SubPhrase) (phrases : list Phrase)
  : list (Id * list Id) :=
  mappingOf ph_id
    (fun phrase =>
       map sp_id
           (filter (fun sp => (ph_startMeasure phrase <=? sp_startMeasure sp)
                              && (sp_endMeasure sp <=? ph_endMeasure phrase)) subPhrases))
    phrases.

Definition mapPhrasesToPeriods (phrases : list Phrase) (periods : list Period)
  : list (Id * list Id) :=
  mappingOf pe_id (fun period => map ph_id (pe_phrases period)) periods.

Definition mapPeriodsToSections (periods : list Period) (sections : list Section)
  : list (Id * list Id) :=
  mappingOf sec_id (fun section => map pe_id (sec_periods section)) sections.

Definition sectionsOrEmpty (formAnalysis : FormAnalysis) : list Section :=
  match fa_sections formAnalysis with Some s => s | None => [] end.

Definition buildHierarchy (motives : list Motive) (subPhrases : list SubPhrase)
           (phrases : list Phrase) (periods : list Period) (formAnalysis : FormAnalysis)
  : Hierarchy :=
  {| level1_motives := Zlen motives;
     level2_subPhrases := Zlen subPhrases;
     level3_phrases := Zlen phrases;
     level4_periods := Zlen periods;
     level5_sections := Zlen (sectionsOrEmpty formAnalysis);
     relationships :=
       {| motiveToSubPhrase := mapMotivesToSubPhrases motives subPhrases;
          subPhraseToPhrase := mapSubPhrasesToPhrases subPhrases phrases;
          phraseToperiod := mapPhrasesToPeriods phrases periods;
          periodToSection := mapPeriodsToSections periods (sectionsOrEmpty formAnalysis) |} |}.

Record Statistics := mkStatistics {
  totalNotes : Z;
  totalMeasures : Z;
  totalMotives : Z;
  totalSubPhrases : Z;
  totalPhrases : Z;
  totalPeriods : Z;
  totalCadences : Z;
  averagePhraseLengthMeasures : Q;
  averagePeriodLengthMeasures : Q;
  cadenceDistribution : list (string * Z);
  materialDiversity : Q
}.

Definition getCadenceDistribution (cadences : list Cadence) : list (string * Z) :=
  fold_left
    (fun distribution cadence =>
       assocUpd String.eqb (cad_type cadence)
                (fun c => match c with Some k => ZorElse k 0 + 1 | None => 1 end)
                distribution)
    cadences [].

Definition calculateMaterialDiversity (phrases : list Phrase) : Q :=
  match phrases with
  | [] => 0%Q
  | _ =>
      let materials := map (fun p => charAt0 (ph_material p)) phrases in
      let uniqueMaterials := uniqBy String.eqb materials [] in
      (inject_Z (Zlen uniqueMaterials) / inject_Z (Zlen phrases))%Q
  end.

Definition calculateStatistics (notes : list Note) (motives : list Motive)
           (subPhrases : list SubPhrase) (phrases : list Phrase) (periods : list Period)
           (cadences : list Cadence) : Statistics :=
  let measureGroups := groupNotesByMeasure notes in
  {| totalNotes := Zlen notes;
     totalMeasures := Zlen measureGroups;
     totalMotives := Zlen motives;
     totalSubPhrases := Zlen subPhrases;
     totalPhrases := Zlen phrases;
     totalPeriods := Zlen periods;
     totalCadences := Zlen cadences;
     averagePhraseLengthMeasures :=
       if 0 <? Zlen phrases
       then (inject_Z (Zsum (map ph_length phrases)) / inject_Z (Zlen phrases))%Q else 0%Q;
     averagePeriodLengthMeasures :=
       if 0 <? Zlen periods
       then (inject_Z (Zsum (map pe_length periods)) / inject_Z (Zlen periods))%Q else 0%Q;
     cadenceDistribution := getCadenceDistribution cadences;
     materialDiversity := calculateMaterialDiversity phrases |}.

Record Options := mkOptions {
  keySignature : KeySignature;
  timeSignature : TimeSignature
}.

Definition defaultOptions : Options := mkOptions defaultKey defaultTime.

Record AuxiliaryStructures := mkAuxiliaryStructures {
  introduction : option Auxiliary;
  coda : option Auxiliary;
  transitions : list Transition;
  extensions : list Extension
}.

Record ProcessingInfo := mkProcessingInfo {
  chunked : bool;
  pi_totalNotes : Z;
  pi_totalMeasures : Z;
  pi_version : string
}.

(** The result of an analysis.  [processingInfo] is present on the
    chunked path only.  The [tooltipData] map of the chunked path, a
    display payload derived from the lists below, is not modelled. *)
Record FullAnalysis := mkFullAnalysis {
  fa_keySignature : KeySignature;
  fa_timeSignature : TimeSignature;
  modeAnalysis : ModeAnalysis;
  hierarchy : Hierarchy;
  motives : list Motive;
  subPhrases : list SubPhrase;
  phrases : list Phrase;
  periods : list Period;
  compoundPeriods : list CompoundPeriod;
  cadences : list Cadence;
  form : FormAnalysis;
  themes : list Theme;
  auxiliaryStructures : AuxiliaryStructures;
  statistics : Statistics;
  processingInfo : option ProcessingInfo
}.

(** [Object.assign(formAnalysis, popFormAnalysis)]: the keys of the
    popular-form result overwrite, the others stay. *)
Definition assignForm (formAnalysis popFormAnalysis : FormAnalysis) : FormAnalysis :=
  let keep {A} (new old : option A) : option A :=
    match new with Some _ => new | None => old end in
  mkForm (fa_formType popFormAnalysis)
         (keep (fa_sections popFormAnalysis) (fa_sections formAnalysis))
         (fa_confidence popFormAnalysis)
         (keep (fa_description popFormAnalysis) (fa_description formAnalysis))
         (keep (fa_theme popFormAnalysis) (fa_theme formAnalysis))
         (keep (fa_variations popFormAnalysis) (fa_variations formAnalysis))
         (keep (fa_mainThemeCount popFormAnalysis) (fa_mainThemeCount formAnalysis))
         (keep (fa_episodeCount popFormAnalysis) (fa_episodeCount formAnalysis))
         (keep (fa_pattern popFormAnalysis) (fa_pattern formAnalysis)).

Definition analyzeComplete (notes : list Note) (options : Options) : M FullAnalysis :=
  let modeAnalysis := detectMode notes (keySignature options) in
  motives <- detectMotives notes (timeSignature options) ;;
  subPhrases <- detectSubPhrases notes motives ;;
  cadences <- detectCadences notes (keySignature options) ;;
  phrases <- detectPhrases notes cadences subPhrases ;;
  periods <- detectPeriods phrases ;;
  compoundPeriods <- detectCompoundPeriods periods ;;
  formAnalysis0 <- detectForm periods ;;
  popFormAnalysis <- detectPopularMusicForm periods ;;
  let formAnalysis :=
    if Qgtb (fa_confidence popFormAnalysis) (fa_confidence formAnalysis0)
    then assignForm formAnalysis0 popFormAnalysis else formAnalysis0 in
  themes <- identifyThemes periods formAnalysis ;;
  introduction <-
    match periods with
    | p0 :: _ => detectIntroduction notes p0
    | [] => ret None
    end ;;
  coda <-
    match lastOpt periods with
    | Some pl => detectCoda notes pl (lastOpt cadences)
    | None => ret None
    end ;;
  transitions <- detectTransitions periods ;;
  extensions <- detectExtensions phrases ;;
  let hierarchy := buildHierarchy motives subPhrases phrases periods formAnalysis in
  ret {| fa_keySignature := keySignature options;
         fa_timeSignature := timeSignature options;
         modeAnalysis := modeAnalysis;
         hierarchy := hierarchy;
         motives := motives;
         subPhrases := subPhrases;
         phrases := phrases;
         periods := periods;
         compoundPeriods := compoundPeriods;
         cadences := cadences;
         form := formAnalysis;
         themes := themes;
         auxiliaryStructures := mkAuxiliaryStructures introduction coda transitions extensions;
         statistics := calculateStatistics notes motives subPhrases phrases periods cadences;
         processingInfo := None |}.

(* ---------------------------------------------------------------- *)
(** ** Chunk processing *)

(** The loop variable of [processInChunks]: 0, stride, 2 stride, ...
    below [len], with stride [maxMeasures - overlap]. *)
Definition chunkStarts (len maxMeasures : Z) : list Z :=
  let stride := maxMeasures - overlapMeasures in
  map (fun k => Z.of_nat k * stride)
      (seq 0 (Z.to_nat ((len + stride - 1) / stride))).

Definition chunkStep {R} (pos : R -> Z) (notes : list Note) (measureNumbers : list Z)
           (maxMeasures : Z) (processor : list Note -> M (list R))
           (results : list R) (i : Z) : M (list R) :=
  let chunkStart := nth (Z.to_nat i) measureNumbers 0 in
  let chunkEndIndex := Z.min (i + maxMeasures) (Zlen measureNumbers) - 1 in
  let chunkEnd := nth (Z.to_nat chunkEndIndex) measureNumbers 0 in
  let chunkNotes :=
    filter (fun n => (chunkStart <=? n_measureNumber n) && (n_measureNumber n <=? chunkEnd))
           notes in
  chunkResults <- processor chunkNotes ;;
  match results with
  | [] => ret chunkResults
  | _ =>
      let overlapStart := nth (Z.to_nat i) measureNumbers 0 in
      let newResults :=
        filter (fun r => Qgeb (inject_Z (pos r))
                              (inject_Z overlapStart + inject_Z overlapMeasures / 2))
               chunkResults in
      ret (results ++ newResults)
  end.

(** [pos r] is [r.startMeasure || r.measureNumber || 0]; the processors
    used here ignore their second argument (the chunk's measure numbers). *)
Definition processInChunks {R} (pos : R -> Z) (notes : list Note)
           (processor : list Note -> M (list R)) : M (list R) :=
  let maxMeasures := maxMeasuresPerChunk in
  let measureGroups := groupNotesByMeasure notes in
  let measureNumbers := sortedKeys measureGroups in
  if Zlen measureNumbers <=? maxMeasures then processor notes
  else
    foldM (chunkStep pos notes measureNumbers maxMeasures processor)
          (chunkStarts (Zlen measureNumbers) maxMeasures) [].

Definition analyzeCompleteChunked (notes : list Note) (options : Options) : M FullAnalysis :=
  let totalNotes := Zlen notes in
  let measureGroups := groupNotesByMeasure notes in
  let totalMeasures := Zlen measureGroups in
  if (totalNotes <? maxNotesPerChunk * 2) && (totalMeasures <? maxMeasuresPerChunk * 2)
  then analyzeComplete notes options
  else
    let sampleNotes := jsSlice notes 0 (Z.min 500 (Zlen notes)) in
    let modeAnalysis := detectMode sampleNotes (keySignature options) in
    motives <-
      processInChunks (fun m => ZorElse (mo_measureNumber m) 0) notes
                      (fun chunkNotes => detectMotives chunkNotes (timeSignature options)) ;;
    subPhrases <-
      processInChunks (fun sp => ZorElse (sp_startMeasure sp) 0) notes
        (fun chunkNotes =>
           let chunkMotives :=
             filter (fun m =>
                       existsb (fun n => n_measureNumber n =? mo_measureNumber m) chunkNotes)
                    motives in
           detectSubPhrases chunkNotes chunkMotives) ;;
    cadences <- detectCadences notes (keySignature options) ;;
    phrases <- detectPhrases notes cadences subPhrases ;;
    periods <- detectPeriods phrases ;;
    compoundPeriods <- detectCompoundPeriods periods ;;
    formAnalysis0 <- detectForm periods ;;
    popFormAnalysis <- detectPopularMusicForm periods ;;
    let formAnalysis :=
      if Qgtb (fa_confidence popFormAnalysis) (fa_confidence formAnalysis0)
      then assignForm formAnalysis0 popFormAnalysis else formAnalysis0 in
    themes <- identifyThemes periods formAnalysis ;;
    introduction <-
      match periods with
      | p0 :: _ => detectIntroduction notes p0
      | [] => ret None
      end ;;
    coda <-
      match lastOpt periods with
      | Some pl => detectCoda notes pl (lastOpt cadences)
      | None => ret None
      end ;;
    transitions <- detectTransitions periods ;;
    extensions <- detectExtensions phrases ;;
    let hierarchy := buildHierarchy motives subPhrases phrases periods formAnalysis in
    ret {| fa_keySignature := keySignature options;
           fa_timeSignature := timeSignature options;
           modeAnalysis := modeAnalysis;
           hierarchy := hierarchy;
           motives := motives;
           subPhrases := subPhrases;
           phrases := phrases;
           periods := periods;
           compoundPeriods := compoundPeriods;
           cadences := cadences;
           form := formAnalysis;
           themes := themes;
           auxiliaryStructures := mkAuxiliaryStructures introduction coda transitions extensions;
           statistics := calculateStatistics notes motives subPhrases phrases periods cadences;
           processingInfo := 
             Some (mkProcessingInfo true totalNotes totalMeasures RULE_ENGINE_VERSION) |}.

End RuleEngine.

(* ================================================================== *)
(** * StructureAnalyzer: the structure tree *)

Module StructureAnalyzer.

Import Js RuleEngine.
Local Open Scope string_scope.
Local Open Scope list_scope.
Local Open Scope Z_scope.
Local Open Scope idgen_scope.

Record MeasureInfo := mkMeasureInfo {
  number : Z;
  m_notes : list Note;
  m_startBeat : Q;
  m_endBeat : Q
}.

Record ParsedScore := mkParsedScore {
  measures : list MeasureInfo;
  notes : list Note;
  ps_keySignature : KeySignature;
  ps_timeSignature : option TimeSignature;
  tempo : Q
}.

Record VisualStyle := mkVisualStyle {
  lineStyle : string;
  opacity : Q;
  borderWidth : Z;
  uncertaintyLevel : string
}.

Definition getConfidenceVisualStyle (confidence : Q) : VisualStyle :=
  if Qgeb confidence (8#10) then mkVisualStyle "solid" 1 2 "low"
  else if Qgeb confidence (6#10) then mkVisualStyle "solid" (85#100) 2 "medium"
  else if Qgeb confidence (4#10) then mkVisualStyle "dashed" (7#10) 1 "high"
  else mkVisualStyle "dotted" (5#10) 1 "very_high".

(** The [features] bag of a node: each key is present on the node
    types that set it. *)
Record Features := mkFeatures {
  f_formType : option string;
  f_tempo : option Q;
  f_keySignature : option KeySignature;
  f_function : option string;
  f_periodType : option string;
  f_proportion : option string;
  f_closure : option string;
  f_cadence : option Cadence
}.

Definition noFeatures : Features := mkFeatures None None None None None None None None.

Record TooltipData := mkTooltipData {
  tt_nodeId : Id;
  tt_nodeType : string;
  tt_material : string;
  tt_startMeasure : Z;
  tt_endMeasure : Z;
  tt_length : string;
  tt_confidence : Q;
  tt_confidencePercent : string;
  tt_uncertaintyLevel : string;
  tt_modelVersion : string;
  tt_analysisMethod : string;
  tt_usedFeatures : list string;
  tt_visualStyle : option VisualStyle
}.

(** A node of the tree.  The [parent] back-link of the source is the
    tree structure itself: the parent of a node is the node that lists it
    among its [children]. *)
Inductive Node : Type := mkNode {
  nd_id : Id;
  nd_type : string;
  nd_startMeasure : Z;
  nd_endMeasure : Z;
  nd_children : list Node;
  nd_material : string;
  nd_confidence : Q;
  nd_features : Features;
  nd_visualStyle : option VisualStyle;
  nd_tooltipData : option TooltipData
}.

Definition leaf (id : Id) (type : string) (startMeasure endMeasure : Z) (material : string)
           (confidence : Q) (features : Features) : Node :=
  mkNode id type startMeasure endMeasure [] material confidence features None None.

Definition withChildren (n : Node) (children : list Node) : Node :=
  mkNode (nd_id n) (nd_type n) (nd_startMeasure n) (nd_endMeasure n) children
         (nd_material n) (nd_confidence n) (nd_features n) (nd_visualStyle n)
         (nd_tooltipData n).

(** [addMotives]: the measures [m = start, start + size, ...] up to [end]. *)
Definition motiveStarts (startMeasure endMeasure motiveSize : Z) : list Z :=
  map (fun k => startMeasure + Z.of_nat k * motiveSize)
      (seq 0 (Z.to_nat ((endMeasure - startMeasure + motiveSize) / motiveSize))).

Definition addMotives (parentNode : Node) : M Node :=
  let startMeasure := nd_startMeasure parentNode in
  let endMeasure := nd_endMeasure parentNode in
  let totalMeasures := endMeasure - startMeasure + 1 in
  let motiveSize := if totalMeasures <=? 2 then 1 else 2 in
  motives <-
    mapM (fun im : Z * Z =>
            let '(motiveIndex, m) := im in
            let motiveEnd := Z.min (m + motiveSize - 1) endMeasure in
            id <- generateId ;;
            ret (leaf id "motive" m motiveEnd (append "m" (Z_to_string (motiveIndex + 1)))
                      (6#10) noFeatures))
         (let starts := motiveStarts startMeasure endMeasure motiveSize in
          combine (Zrange (Zlen starts)) starts) ;;
  ret (withChildren parentNode (nd_children parentNode ++ motives)).

Definition phraseNodeOf (phrase : Phrase) : M Node :=
  let phraseNode :=
    leaf (ph_id phrase) "phrase" (ph_startMeasure phrase) (ph_endMeasure phrase)
         (ph_material phrase)
         (match ph_cadence phrase with Some _ => 8#10 | None => 6#10 end)
         (mkFeatures None None None None None None None (ph_cadence phrase)) in
  let phraseMeasures := ph_endMeasure phrase - ph_startMeasure phrase + 1 in
  if 4 <=? phraseMeasures then
    let midPoint := ph_startMeasure phrase + phraseMeasures / 2 - 1 in
    id1 <- generateId ;;
    let subphrase1 :=
      leaf id1 "subphrase" (ph_startMeasure phrase) midPoint
           (append (ph_material phrase) "₁") (65#100) noFeatures in
    id2 <- generateId ;;
    let subphrase2 :=
      leaf id2 "subphrase" (midPoint + 1) (ph_endMeasure phrase)
           (append (ph_material phrase) "₂") (65#100) noFeatures in
    subphrase1' <- addMotives subphrase1 ;;
    subphrase2' <- addMotives subphrase2 ;;
    ret (withChildren phraseNode [subphrase1'; subphrase2'])
  else addMotives phraseNode.

Definition periodNodeOf (period : Period) : M Node :=
  let periodNode :=
    leaf (pe_id period) "period"
         (match pe_phrases period with p :: _ => ZorElse (ph_startMeasure p) 0 | [] => 0 end)
         (match jsSliceFrom (pe_phrases period) (-1) with
          | p :: _ => ZorElse (ph_endMeasure p) 0
          | [] => 0
          end)
         (if String.eqb (pe_type period) "parallel" then "a+a'" else "a+b")
         (75#100)
         (mkFeatures None None None None (Some (pe_type period)) (Some (pe_proportion period))
                     (Some (pe_closure period)) None) in
  phraseNodes <- mapM phraseNodeOf (pe_phrases period) ;;
  ret (withChildren periodNode phraseNodes).

Definition containsRange (s periodNode : Node) : bool :=
  (nd_startMeasure s <=? nd_startMeasure periodNode)
  && (nd_endMeasure periodNode <=? nd_endMeasure s).

(** [parentSection.children.push(periodNode)] for the first child of the
    root whose range holds the period, the root itself when there is none. *)
Fixpoint attachPeriod (rootChildren : list Node) (periodNode : Node) : list Node :=
  match rootChildren with
  | [] => [periodNode]
  | s :: rest =>
      if containsRange s periodNode
      then withChildren s (nd_children s ++ [periodNode]) :: rest
      else s :: attachPeriod rest periodNode
  end.

(** The tree is its root; the [nodes] index of the source maps each
    identifier to the node of the tree that carries it ([nodesOf]).
    Every form analysis the engine returns carries a [sections] list. *)
Definition buildTree (parsedScore : ParsedScore) (phrases : list Phrase)
           (periods : list Period) (formAnalysis : FormAnalysis) : M Node :=
  rootId <- generateId ;;
  let root :=
    leaf rootId "section" 1 (Zlen (measures parsedScore)) "A" (8#10)
         (mkFeatures (Some (fa_formType formAnalysis)) (Some (tempo parsedScore))
                     (Some (ps_keySignature parsedScore)) None None None None None) in
  let sectionNodes :=
    map (fun section =>
           leaf (sec_id section) "theme" (sec_startMeasure section) (sec_endMeasure section)
                (sec_name section) (fa_confidence formAnalysis)
                (mkFeatures None None None (Some (sec_function section)) None None None None))
        (sectionsOrEmpty formAnalysis) in
  children <-
    foldM (fun rootChildren period =>
             periodNode <- periodNodeOf period ;;
             ret (attachPeriod rootChildren periodNode))
          periods sectionNodes ;;
  ret (withChildren root children).

Fixpoint nodesOf (n : Node) : list (Id * Node) :=
  fold_left (fun acc c =>
               fold_left (fun acc' e => assocUpd String.eqb (fst e) (fun _ => snd e) acc')
                         (nodesOf c) acc)
            (nd_children n) [(nd_id n, n)].

(** [assignConfidence]: each node is rated from its own detection
    confidence and the confidences its children hold when it is visited
    (the children are visited afterwards). *)
Definition ratedConfidence (node : Node) : Q :=
  let own := QorElse (nd_confidence node) (5#10) in
  let mixed :=
    match nd_children node with
    | [] => own
    | children =>
        let childConfidences := map (fun c => QorElse (nd_confidence c) (5#10)) children in
        let avgChildConfidence :=
          (Qsum childConfidences / inject_Z (Zlen childConfidences))%Q in
        ((own + avgChildConfidence) / 2)%Q
    end in
  let adjusted :=
    match f_cadence (nd_features node) with
    | Some _ => (mixed + (1#10))%Q
    | None => mixed
    end in
  Qmin 1 (Qmax 0 adjusted).

Fixpoint assignConfidenceNode (node : Node) : Node :=
  let confidence := ratedConfidence node in
  mkNode (nd_id node) (nd_type node) (nd_startMeasure node) (nd_endMeasure node)
         (map assignConfidenceNode (nd_children node))
         (nd_material node) confidence (nd_features node)
         (Some (getConfidenceVisualStyle confidence)) (nd_tooltipData node).

Definition assignConfidence (tree : Node) : Node := assignConfidenceNode tree.

(** [pitchToMidi] of this class: its own table and pattern ([(\d+)], no sign). *)
Definition pitchClassesSA : list (string * Z) :=
  [("C", 0); ("C#", 1); ("Db", 1); ("D", 2); ("D#", 3); ("Eb", 3);
   ("E", 4); ("F", 5); ("F#", 6); ("Gb", 6); ("G", 7); ("G#", 8);
   ("Ab", 8); ("A", 9); ("A#", 10); ("Bb", 10); ("B", 11)].

Definition matchDigits (s : string) : option Z :=
  match takeDigits s with
  | [] => None
  | ds => Some (digitsToZ ds)
  end.

Definition matchPitchAtSA (s : string) : option (string * Z) :=
  match s with
  | String c s' =>
      if isNoteLetter c then
        let bare := match matchDigits s' with
                    | Some o => Some (String c EmptyString, o)
                    | None => None
                    end in
        match s' with
        | String a s'' =>
            if isAccidental a then
              match matchDigits s'' with
              | Some o => Some (String c (String a EmptyString), o)
              | None => bare
              end
            else bare
        | EmptyString => bare
        end
      else None
  | EmptyString => None
  end.

Fixpoint matchPitchSA (s : string) : option (string * Z) :=
  match matchPitchAtSA s with
  | Some r => Some r
  | None => match s with
            | String _ s' => matchPitchSA s'
            | EmptyString => None
            end
  end.

Definition pitchToMidi (pitch : option string) : Z :=
  match pitch with
  | Some (String c s) =>
      match matchPitchSA (String c s) with
      | Some (noteName, octave) =>
          let pc := match assocGet String.eqb noteName pitchClassesSA with
                    | Some p => ZorElse p 0
                    | None => 0
                    end in
          pc + (octave + 1) * 12
      | None => 60
      end
  | _ => 60
  end.

(** The material hash is the comma-joined list of the first intervals;
    the model keeps the list.  [None] stands for the two falsy hashes:
    [null] (no note) and the empty string (a single note). *)
Definition calculateMaterialHash (notes : list Note) : option (list Z) :=
  match jsSlice notes 0 5 with
  | [] => None
  | n0 :: rest =>
      match snd (fold_left
                   (fun acc n =>
                      let '(prev, out) := acc in
                      (n, out ++ [pitchToMidi (n_pitch n) - pitchToMidi (n_pitch prev)]))
                   rest (n0, [])) with
      | [] => None
      | intervals => Some intervals
      end
  end.

Definition isSimilarHash (hash1 hash2 : option (list Z)) : bool :=
  match hash1, hash2 with
  | Some intervals1, Some intervals2 =>
      if negb (Zlen intervals1 =? Zlen intervals2) then false
      else
        let matches :=
          countMatches (fun x y => Qleb (Qabs (x - y)) 2) (QZ intervals1) (QZ intervals2) in
        Qgtb (inject_Z matches / inject_Z (Zlen intervals1)) (7#10)
  | _, _ => false
  end.

Definition listZ_eqb (a b : list Z) : bool :=
  (Zlen a =? Zlen b) && forallb (fun p => fst p =? snd p) (combine a b).

(** [labelMaterials]: a walk in document order that threads the map from
    hashes to labels. *)
Fixpoint labelMaterialsNode (notes : list Note) (node : Node)
         (materialGroups : list (list Z * string)) : Node * list (list Z * string) :=
  let nodeNotes :=
    filter (fun n => (nd_startMeasure node <=? n_measureNumber n)
                     && (n_measureNumber n <=? nd_endMeasure node)) notes in
  let materialHash := calculateMaterialHash nodeNotes in
  let similar :=
    find (fun e => isSimilarHash materialHash (Some (fst e))) materialGroups in
  let material :=
    match similar with
    | Some (_, label) => append label "'"
    | None => nd_material node
    end in
  let materialGroups1 :=
    match similar, materialHash with
    | None, Some h => assocUpd listZ_eqb h (fun _ => nd_material node) materialGroups
    | _, _ => materialGroups
    end in
  let '(children, materialGroups2) :=
    (fix walk (cs : list Node) (g : list (list Z * string)) :=
       match cs with
       | [] => ([], g)
       | c :: cs' =>
           let '(c', g1) := labelMaterialsNode notes c g in
           let '(cs'', g2) := walk cs' g1 in
           (c' :: cs'', g2)
       end) (nd_children node) materialGroups1 in
  (mkNode (nd_id node) (nd_type node) (nd_startMeasure node) (nd_endMeasure node)
          children material (nd_confidence node) (nd_features node)
          (nd_visualStyle node) (nd_tooltipData node),
   materialGroups2).

Definition labelMaterials (tree : Node) (notes : list Note) : Node :=
  fst (labelMaterialsNode notes tree []).

Definition getNodeFeatures (node : Node) : list string :=
  let t := nd_type node in
  if String.eqb t "motive" then ["Beat Position"; "Interval Pattern"; "Rhythm"]
  else if String.eqb t "subphrase" then ["Measure Boundaries"; "Rhythmic Breaks"]
  else if String.eqb t "phrase" then
    ["Cadence Detection"; "Harmonic Analysis"]
    ++ match f_cadence (nd_features node) with
       | Some c => [append "Cadence: " (cad_type c)]
       | None => []
       end
  else if String.eqb t "period" then
    ["Phrase Relationships"; "Cadence Strength"]
    ++ match f_periodType (nd_features node) with
       | Some (String c s) => [append "Type: " (String c s)]
       | _ => []
       end
  else if String.eqb t "theme" || String.eqb t "section" then
    ["Form Analysis"; "Material Distribution"]
    ++ match f_function (nd_features node) with
       | Some (String c s) => [append "Function: " (String c s)]
       | _ => []
       end
  else [].

Fixpoint generateTreeTooltipsNode (node : Node) : Node :=
  mkNode (nd_id node) (nd_type node) (nd_startMeasure node) (nd_endMeasure node)
         (map generateTreeTooltipsNode (nd_children node))
         (nd_material node) (nd_confidence node) (nd_features node) (nd_visualStyle node)
         (Some {| tt_nodeId := nd_id node;
                  tt_nodeType := nd_type node;
                  tt_material := nd_material node;
                  tt_startMeasure := nd_startMeasure node;
                  tt_endMeasure := nd_endMeasure node;
                  tt_length :=
                    append (Z_to_string (nd_endMeasure node - nd_startMeasure node + 1))
                           " measures";
                  tt_confidence := nd_confidence node;
                  tt_confidencePercent :=
                    append (Z_to_string
                              (round (QorElse (nd_confidence node) (5#10) * 100)))
                           "%";
                  tt_uncertaintyLevel :=
                    match nd_visualStyle node with
                    | Some v => if String.eqb (uncertaintyLevel v) "" then "medium"
                                else uncertaintyLevel v
                    | None => "medium"
                    end;
                  tt_modelVersion := RULE_ENGINE_VERSION;
                  tt_analysisMethod := "RuleEngine + StructureAnalyzer";
                  tt_usedFeatures := getNodeFeatures node;
                  tt_visualStyle := nd_visualStyle node |}).

Definition generateTreeTooltips (tree : Node) : Node := generateTreeTooltipsNode tree.

(** [buildHierarchy]: the analysis (chunked for a large score), then the
    tree and the three passes over it. *)
Definition buildHierarchy (parsedScore : ParsedScore) : M Node :=
  let options :=
    mkOptions (ps_keySignature parsedScore)
              (match ps_timeSignature parsedScore with
               | Some t => t
               | None => mkTime 4 4
               end) in
  let useChunked :=
    (1000 <? Zlen (notes parsedScore)) || (64 <? Zlen (measures parsedScore)) in
  analysisResult <-
    (if useChunked then analyzeCompleteChunked (notes parsedScore) options
     else analyzeComplete (notes parsedScore) options) ;;
  tree <- buildTree parsedScore (phrases analysisResult) (periods analysisResult)
                    (form analysisResult) ;;
  ret (generateTreeTooltips
         (labelMaterials (assignConfidence tree) (notes parsedScore))).

End StructureAnalyzer.

(* ================================================================== *)
(** * DTWAligner *)

Module DTWAligner.

Import Js.
Local Open Scope list_scope.

(** ** Numbers with the infinities

    The cost matrix starts filled with [Infinity], and the confidence is
    computed from a distance that may be infinite: the numbers of this
    class are the rationals extended with the two infinities and NaN,
    with the arithmetic JavaScript gives them. *)

Inductive num := Fin (q : Q) | PInf | NInf | NaN.

Definition sgn (q : Q) : comparison := (Qnum q ?= 0)%Z.

Definition add (a b : num) : num :=
  match a, b with
  | NaN, _ | _, NaN => NaN
  | PInf, NInf | NInf, PInf => NaN
  | PInf, _ | _, PInf => PInf
  | NInf, _ | _, NInf => NInf
  | Fin x, Fin y => Fin (x + y)
  end.

Definition neg (a : num) : num :=
  match a with
  | Fin x => Fin (- x)
  | PInf => NInf
  | NInf => PInf
  | NaN => NaN
  end.

Definition sub (a b : num) : num := add a (neg b).

Definition infBySign (c : comparison) (positive : num) : num :=
  match c with
  | Eq => NaN
  | Gt => positive
  | Lt => neg positive
  end.

Definition mul (a b : num) : num :=
  match a, b with
  | NaN, _ | _, NaN => NaN
  | Fin x, Fin y => Fin (x * y)
  | Fin x, PInf | PInf, Fin x => infBySign (sgn x) PInf
  | Fin x, NInf | NInf, Fin x => infBySign (sgn x) NInf
  | PInf, PInf | NInf, NInf => PInf
  | PInf, NInf | NInf, PInf => NInf
  end.

(** Division; the sign of a zero divisor is taken as positive. *)
Definition div (a b : num) : num :=
  match a, b with
  | NaN, _ | _, NaN => NaN
  | Fin x, Fin y => if Qeqb y 0 then infBySign (sgn x) PInf else Fin (x / y)
  | Fin _, PInf | Fin _, NInf => Fin 0
  | PInf, Fin y => if Qltb y 0 then NInf else PInf
  | NInf, Fin y => if Qltb y 0 then PInf else NInf
  | _, _ => NaN
  end.

Definition leb (a b : num) : bool :=
  match a, b with
  | NaN, _ | _, NaN => false
  | NInf, _ => true
  | _, PInf => true
  | Fin x, Fin y => Qleb x y
  | _, _ => false
  end.

Definition ltb (a b : num) : bool :=
  match a, b with
  | NaN, _ | _, NaN => false
  | PInf, _ => false
  | _, NInf => false
  | Fin x, Fin y => Qltb x y
  | _, _ => true
  end.

(** [===] on numbers, also the key equality of a [Map]. *)
Definition eqb (a b : num) : bool :=
  match a, b with
  | Fin x, Fin y => Qeqb x y
  | PInf, PInf | NInf, NInf => true
  | _, _ => false
  end.

Definition keyEqb (a b : num) : bool :=
  match a, b with
  | NaN, NaN => true
  | _, _ => eqb a b
  end.

Definition isNaN (a : num) : bool := match a with NaN => true | _ => false end.

Definition min2 (a b : num) : num :=
  if isNaN a || isNaN b then NaN else if ltb b a then b else a.
Definition max2 (a b : num) : num :=
  if isNaN a || isNaN b then NaN else if ltb a b then b else a.
Definition min3 (a b c : num) : num := min2 (min2 a b) c.

Definition onFinite (f : Q -> Z) (a : num) : num :=
  match a with
  | Fin x => Fin (inject_Z (f x))
  | other => other
  end.
Definition floorN : num -> num := onFinite floor.
Definition roundN : num -> num := onFinite round.

Definition ofZ (z : Z) : num := Fin (inject_Z z).
Definition ofNat (n : nat) : num := ofZ (Z.of_nat n).

Section WithSqrt.

(** [Math.sqrt] on a finite non-negative number. *)
Variable sqrtQ : Q -> Q.

Definition sqrtN (a : num) : num :=
  match a with
  | Fin x => if Qltb x 0 then NaN else Fin (sqrtQ x)
  | PInf => PInf
  | _ => NaN
  end.

(** ** The aligner *)

Definition Chroma := list (list Q).

Fixpoint sumSquares (vec1 vec2 : list Q) (sum : Q) : Q :=
  match vec1, vec2 with
  | a :: vec1', b :: vec2' =>
      let diff := (QorElse a 0 - QorElse b 0)%Q in
      sumSquares vec1' vec2' (sum + diff * diff)%Q
  | _, _ => sum
  end.

Definition euclideanDistance (vec1 vec2 : list Q) : num :=
  sqrtN (Fin (sumSquares vec1 vec2 0)).

(** The cost matrix, row by row.  [fillRow] computes row [i] from row
    [i - 1]: [prevRow] lists [dtw[i-1][0..m]], [left] is [dtw[i][j-1]]. *)
Fixpoint fillRow (s : list Q) (seq2 : Chroma) (prevRow : list num) (left : num)
  : list num :=
  match seq2, prevRow with
  | a :: seq2', diag :: ((up :: _) as prevRow') =>
      let cost := euclideanDistance s a in
      let cell := add cost (min3 up left diag) in
      cell :: fillRow s seq2' prevRow' cell
  | _, _ => []
  end.

Fixpoint fillRows (seq1 seq2 : Chroma) (prevRow : list num) : list (list num) :=
  match seq1 with
  | [] => []
  | s :: seq1' =>
      let row := PInf :: fillRow s seq2 prevRow PInf in
      row :: fillRows seq1' seq2 row
  end.

Definition costMatrix (seq1 seq2 : Chroma) : list (list num) :=
  let row0 := Fin 0 :: repeat PInf (List.length seq2) in
  row0 :: fillRows seq1 seq2 row0.

Definition cell (dtw : list (list num)) (i j : nat) : num :=
  nth j (nth i dtw []) NaN.

(** [backtrack]: the loop runs while [i > 0 && j > 0]; each turn lowers
    [i] or [j], so [i + j] turns are enough. *)
Fixpoint backtrackLoop (fuel : nat) (dtw : list (list num)) (i j : nat)
         (path : list (nat * nat)) : list (nat * nat) :=
  match fuel, i, j with
  | S fuel', S i', S j' =>
      let path' := (i', j') :: path in
      let diag := cell dtw i' j' in
      let left := cell dtw i j' in
      let up := cell dtw i' j in
      if leb diag left && leb diag up then backtrackLoop fuel' dtw i' j' path'
      else if ltb left up then backtrackLoop fuel' dtw i j' path'
      else backtrackLoop fuel' dtw i' j path'
  | _, _, _ => path
  end.

Definition backtrack (dtw : list (list num)) (n m : nat) : list (nat * nat) :=
  backtrackLoop (n + m) dtw n m [].

Definition computeDTW (seq1 seq2 : Chroma) : list (nat * nat) * num :=
  let n := List.length seq1 in
  let m := List.length seq2 in
  if (n =? 0)%nat || (m =? 0)%nat then ([], PInf)
  else
    let dtw := costMatrix seq1 seq2 in
    (backtrack dtw n m, cell dtw n m).

Record AlignOptions := mkAlignOptions {
  hopSize : Q;
  sampleRate : Q;
  beatsPerMeasure : Q;
  tempo : Q
}.

Definition defaultAlignOptions : AlignOptions := mkAlignOptions 1024 44100 4 120.

(** The two maps of the aligner are shared with the result it returns
    (the same [Map] objects): the model keeps them once, in the state. *)
Record AlignmentResult := mkAlignmentResult {
  path : list (nat * nat);
  confidence : num;
  distance : num
}.

Record Aligner := mkAligner {
  alignmentResult : option AlignmentResult;
  measureToTime : list (num * num);
  timeToMeasure : list (num * num)
}.


Definition has (m : list (num * num)) (k : num) : bool :=
  match assocGet keyEqb k m with Some _ => true | None => false end.

Definition setIfAbsent (m : list (num * num)) (k v : num) : list (num * num) :=
  if has m k then m else m ++ [(k, v)].

Definition align (symbolicChroma acousticChroma : Chroma) (options : AlignOptions)
  : Aligner :=
  let '(path, distance) := computeDTW symbolicChroma acousticChroma in
  let secondsPerFrame := div (Fin (hopSize options)) (Fin (sampleRate options)) in
  let secondsPerBeat := div (Fin 60) (Fin (tempo options)) in
  let secondsPerMeasure := mul secondsPerBeat (Fin (beatsPerMeasure options)) in
  let framesPerMeasure := roundN (div secondsPerMeasure secondsPerFrame) in
  let '(measureToTime, timeToMeasure) :=
    fold_left
      (fun maps step =>
         let '(m2t, t2m) := maps in
         let '(symbolicIdx, acousticIdx) := step in
         let measureNumber := add (floorN (div (ofNat symbolicIdx) framesPerMeasure)) (Fin 1) in
         let timestamp := mul (ofNat acousticIdx) secondsPerFrame in
         let roundedTime := div (roundN (mul timestamp (Fin 10))) (Fin 10) in
         (setIfAbsent m2t measureNumber timestamp,
          setIfAbsent t2m roundedTime measureNumber))
      path ([], []) in
  let maxDistance :=
    ofZ (Zlen symbolicChroma * Zlen acousticChroma) in
  let confidence := sub (Fin 1) (div distance maxDistance) in
  mkAligner (Some (mkAlignmentResult path (max2 (Fin 0) (min2 (Fin 1) confidence)) distance))
            measureToTime timeToMeasure.

(** [keys.sort((a, b) => a - b)], as a stable insertion sort. *)
Fixpoint insertNum (x : num) (l : list num) : list num :=
  match l with
  | [] => [x]
  | y :: l' => if ltb (sub x y) (Fin 0) then x :: y :: l' else y :: insertNum x l'
  end.
Definition sortNums (l : list num) : list num :=
  fold_left (fun acc x => insertNum x acc) l [].

Definition getOr (m : list (num * num)) (k : num) : num :=
  match assocGet keyEqb k m with Some v => v | None => NaN end.

Definition getTimestamp (a : Aligner) (measureNumber : num) : num :=
  match assocGet keyEqb measureNumber (measureToTime a) with
  | Some t => t
  | None =>
      let measures := sortNums (map fst (measureToTime a)) in
      match measures, lastOpt measures with
      | first :: _, Some last =>
          let '(lower, upper) :=
            fold_left
              (fun lu m =>
                 let '(lower, upper) := lu in
                 let lower' := if leb m measureNumber then m else lower in
                 let upper' := if leb measureNumber m && ltb m upper then m else upper in
                 (lower', upper'))
              measures (first, last) in
          if eqb lower upper then getOr (measureToTime a) lower
          else
            let lowerTime := getOr (measureToTime a) lower in
            let upperTime := getOr (measureToTime a) upper in
            let ratio := div (sub measureNumber lower) (sub upper lower) in
            add lowerTime (mul ratio (sub upperTime lowerTime))
      | _, _ => Fin 0
      end
  end.

Definition adjustAlignment (a : Aligner) (measureNumber newTimestamp : num) : Aligner :=
  let set m k v := assocUpd keyEqb k (fun _ => v) m in
  let roundedTime := div (roundN (mul newTimestamp (Fin 10))) (Fin 10) in
  mkAligner
    (match alignmentResult a with
     | Some r =>
         Some (mkAlignmentResult (path r)
                                 (max2 (Fin (5#10)) (sub (confidence r) (Fin (5#100))))
                                 (distance r))
     | None => None
     end)
    (set (measureToTime a) measureNumber newTimestamp)
    (set (timeToMeasure a) roundedTime measureNumber).

Definition absN (a : num) : num :=
  match a with
  | Fin x => Fin (Qabs x)
  | PInf | NInf => PInf
  | NaN => NaN
  end.

(** A number in a condition: zero and NaN count as false. *)
Definition truthyN (a : num) : bool :=
  match a with
  | Fin x => negb (Qeqb x 0)
  | NaN => false
  | _ => true
  end.

(** [this.timeToMeasure.get(closestTime) || 1]: a missing time, and a
    measure number that is zero or NaN, give 1. *)
Definition getMeasure (a : Aligner) (timestamp : num) : num :=
  let roundedTime := div (roundN (mul timestamp (Fin 10))) (Fin 10) in
  match assocGet keyEqb roundedTime (timeToMeasure a) with
  | Some measure => measure
  | None =>
      let '(closestTime, minDiff) :=
        fold_left
          (fun cm time =>
             let '(closestTime, minDiff) := cm in
             let diff := absN (sub time timestamp) in
             if ltb diff minDiff then (time, diff) else (closestTime, minDiff))
          (map fst (timeToMeasure a)) (Fin 0, PInf) in
      match assocGet keyEqb closestTime (timeToMeasure a) with
      | Some measure => if truthyN measure then measure else Fin 1
      | None => Fin 1
      end
  end.

End WithSqrt.

(** ** The chroma of a score *)

Local Open Scope string_scope.

Definition chromaPitchClasses : list (string * Z) :=
  [("C", 0); ("C#", 1); ("Db", 1); ("D", 2); ("D#", 3); ("Eb", 3);
   ("E", 4); ("F", 5); ("F#", 6); ("Gb", 6); ("G", 7); ("G#", 8);
   ("Ab", 8); ("A", 9); ("A#", 10); ("Bb", 10); ("B", 11)]%Z.

Fixpoint updateAt {A} (i : nat) (f : A -> A) (l : list A) : list A :=
  match l, i with
  | [], _ => []
  | x :: l', O => f x :: l'
  | x :: l', S i' => x :: updateAt i' f l'
  end.

(** [for (let f = startFrame; f <= endFrame; f++)
      if (f >= 0 && f < totalFrames) chroma[f][pc] += 1]. *)
Definition markFrames (totalFrames startFrame endFrame pc : Z) (chroma : Chroma) : Chroma :=
  fold_left
    (fun chroma f =>
       if (0 <=? f)%Z && (f <? totalFrames)%Z
       then updateAt (Z.to_nat f) (updateAt (Z.to_nat pc) (fun v => (v + 1)%Q)) chroma
       else chroma)
    (map (fun k => (startFrame + Z.of_nat k)%Z)
         (seq 0 (Z.to_nat (endFrame - startFrame + 1))))
    chroma.

(** [Array(totalFrames)] throws a [RangeError] for a length that is
    negative or above [2^32 - 1]: the result is then [None]. *)
Definition generateSymbolicChroma (notes : list RuleEngine.Note)
           (totalMeasures framesPerMeasure : Z) : option Chroma :=
  let totalFrames := (totalMeasures * framesPerMeasure)%Z in
  if (totalFrames <? 0)%Z || (4294967295 <? totalFrames)%Z then None
  else
    let chroma := repeat (repeat 0%Q 12) (Z.to_nat totalFrames) in
    let chroma :=
      fold_left
        (fun chroma note =>
           match RuleEngine.n_pitch note with
           | None | Some EmptyString => chroma
           | Some pitch =>
               match assocGet String.eqb (removeDigits pitch) chromaPitchClasses with
               | None => chroma
               | Some pc =>
                   let startFrame :=
                     floor (inject_Z ((RuleEngine.n_measureNumber note - 1) * framesPerMeasure)
                            + (RuleEngine.n_beat note / 4) * inject_Z framesPerMeasure)%Q in
                   let endFrame :=
                     Z.min (startFrame
                            + Qceiling (RuleEngine.n_duration note
                                        * inject_Z framesPerMeasure / 4)%Q)
                           (totalFrames - 1) in
                   markFrames totalFrames startFrame endFrame pc chroma
               end
           end)
        notes chroma in
    Some (map (fun frame =>
                 let sum := QorElse (Qsum frame) 1 in
                 map (fun v => (v / sum)%Q) frame)
              chroma).

End DTWAligner.

(* ================================================================== *)
(** * PreferenceManager *)

Module PreferenceManager.

Import Js.
Local Open Scope string_scope.
Local Open Scope list_scope.
Local Open Scope Z_scope.

Record FeatureWeights := mkFeatureWeights {
  w_structureType : Q;
  w_confidence : Q;
  w_duration : Q;
  w_materialVariation : Q;
  w_cadenceType : Q;
  w_periodType : Q;
  w_emotionTempo : Q;
  w_emotionDynamics : Q;
  w_emotionTension : Q
}.

(** The musical features of a structure; an absent key is [None]. *)
Record Features := mkFeatures {
  type : option string;
  startMeasure : Z;
  endMeasure : Z;
  material : option string;
  confidence : option Q;
  cadence : option RuleEngine.Cadence;
  periodType : option string;
  closure : option string;
  emotionTempo : option string;
  emotionDynamics : option string;
  emotionTension : option string
}.

Section WithScheme.

(** Visual schemes are stored and handed back, never inspected here. *)
Variable Scheme : Type.

Record Example := mkExample {
  ex_features : list Q;
  ex_scheme : Scheme;
  ex_reward : Q;
  ex_timestamp : Z
}.

Record Manager := mkManager {
  examples : list Example;
  k : Z;
  exampleCount : Z;
  featureWeights : FeatureWeights;
  recencyDecay : Q;
  minExamplesForRecommendation : Z
}.

(** The state the constructor sets up. *)
Definition newManager : Manager :=
  {| examples := [];
     k := 5;
     exampleCount := 0;
     featureWeights :=
       mkFeatureWeights 1 (5#10) (8#10) (7#10) (9#10) (8#10) (6#10) (6#10) (7#10);
     recencyDecay := 95#100;
     minExamplesForRecommendation := 2 |}.

Definition oneHot (value : string) (names : list string) : list Q :=
  map (fun name => if String.eqb value name then 1%Q else 0%Q) names.

Definition truthy (s : option string) : option string :=
  match s with
  | Some (String c r) => Some (String c r)
  | _ => None
  end.

Definition encode (table : list (string * Q)) (key : option string) : Q :=
  match key with
  | Some name => match assocGet String.eqb name table with
                 | Some v => v
                 | None => 5#10
                 end
  | None => 5#10
  end.

Definition extractFeatureVector (features : Features) : list Q :=
  let structureTypes := ["motive"; "subphrase"; "phrase"; "period"; "theme"; "section"] in
  let typeCells :=
    map (fun name => match type features with
                     | Some t => if String.eqb t name then 1%Q else 0%Q
                     | None => 0%Q
                     end) structureTypes in
  let confidenceCell :=
    match confidence features with
    | Some c => QorElse c (5#10)
    | None => 5#10
    end in
  let duration := (inject_Z (endMeasure features - startMeasure features + 1) / 16)%Q in
  let durationCell := Qmin 1 duration in
  let variationCell :=
    match material features with
    | Some m => if includesChar "'"%char m then 1%Q else 0%Q
    | None => 0%Q
    end in
  let compoundCell :=
    match material features with
    | Some m => if (1 <? Z.of_nat (String.length m)) then 1%Q else 0%Q
    | None => 0%Q
    end in
  let cadenceTypes :=
    ["perfect_authentic"; "imperfect_authentic"; "half"; "deceptive"; "none"] in
  let cadenceType :=
    match cadence features with
    | Some c => if String.eqb (RuleEngine.cad_type c) "" then "none"
                else RuleEngine.cad_type c
    | None => "none"
    end in
  let periodTypes := ["parallel"; "contrasting"; "sequential"; "none"] in
  let periodType :=
    match truthy (periodType features) with
    | Some p => p
    | None => "none"
    end in
  typeCells
  ++ [confidenceCell]
  ++ [durationCell]
  ++ [variationCell; compoundCell]
  ++ oneHot cadenceType cadenceTypes
  ++ oneHot periodType periodTypes
  ++ [encode [("fast", 1%Q); ("moderate", 5#10); ("slow", 0%Q)] (emotionTempo features);
      encode [("strong", 1%Q); ("moderate", 5#10); ("soft", 0%Q)] (emotionDynamics features);
      encode [("tense", 1%Q); ("neutral", 5#10); ("relaxed", 0%Q)] (emotionTension features)].

(** [Date.now()] is the argument [now]. *)
Definition recordSelection (m : Manager) (now : Z) (features : Features) (scheme : Scheme)
           (reward : Q) : Manager :=
  let featureVector := extractFeatureVector features in
  {| examples := examples m ++ [mkExample featureVector scheme reward now];
     k := k m;
     exampleCount := exampleCount m + 1;
     featureWeights := featureWeights m;
     recencyDecay := recencyDecay m;
     minExamplesForRecommendation := minExamplesForRecommendation m |}.

Definition addExample (m : Manager) (now : Z) (features : Features) (scheme : Scheme)
  : Manager :=
  recordSelection m now features scheme 1.

Definition getWeightVector (m : Manager) : list Q :=
  let w := featureWeights m in
  [w_structureType w; w_structureType w; w_structureType w;
   w_structureType w; w_structureType w; w_structureType w;
   w_confidence w;
   w_duration w;
   w_materialVariation w; w_materialVariation w;
   w_cadenceType w; w_cadenceType w; w_cadenceType w; w_cadenceType w; w_cadenceType w;
   w_periodType w; w_periodType w; w_periodType w; w_periodType w;
   w_emotionTempo w; w_emotionDynamics w; w_emotionTension w].

Definition clampWeight (w : Q) : Q := Qmax (1#10) (Qmin 2 w).

Definition updateFeatureWeights (m : Manager) (features : Features) (accepted : bool)
  : Manager :=
  let adjustment := if accepted then 5#100 else (- (3#100))%Q in
  let w := featureWeights m in
  let structureType' :=
    match truthy (type features) with
    | Some _ => clampWeight (w_structureType w + adjustment)%Q
    | None => w_structureType w
    end in
  let cadenceType' :=
    match cadence features with
    | Some _ => clampWeight (w_cadenceType w + adjustment)%Q
    | None => w_cadenceType w
    end in
  let periodType' :=
    match truthy (periodType features) with
    | Some _ => clampWeight (w_periodType w + adjustment)%Q
    | None => w_periodType w
    end in
  {| examples := examples m;
     k := k m;
     exampleCount := exampleCount m;
     featureWeights :=
       mkFeatureWeights structureType' (w_confidence w) (w_duration w)
                        (w_materialVariation w) cadenceType' periodType'
                        (w_emotionTempo w) (w_emotionDynamics w) (w_emotionTension w);
     recencyDecay := recencyDecay m;
     minExamplesForRecommendation := minExamplesForRecommendation m |}.

Definition getExampleCount (m : Manager) : Z := exampleCount m.

Definition clear (m : Manager) : Manager :=
  {| examples := [];
     k := k m;
     exampleCount := 0;
     featureWeights := featureWeights m;
     recencyDecay := recencyDecay m;
     minExamplesForRecommendation := minExamplesForRecommendation m |}.

Definition adjustK (m : Manager) : Manager :=
  {| examples := examples m;
     k := if 20 <? exampleCount m then 7 else if 10 <? exampleCount m then 5 else 3;
     exampleCount := exampleCount m;
     featureWeights := featureWeights m;
     recencyDecay := recencyDecay m;
     minExamplesForRecommendation := minExamplesForRecommendation m |}.

(** The object [export] hands out and [import] reads; an absent field
    is [None]. *)
Record SessionData := mkSessionData {
  sd_examples : option (list Example);
  sd_exampleCount : option Z
}.

Definition export (m : Manager) : SessionData :=
  mkSessionData (Some (examples m)) (Some (exampleCount m)).

Definition import (m : Manager) (data : SessionData) : Manager :=
  match sd_examples data with
  | Some examples' =>
      {| examples := examples';
         k := k m;
         exampleCount :=
           match sd_exampleCount data with
           | Some count => ZorElse count (Zlen examples')
           | None => Zlen examples'
           end;
         featureWeights := featureWeights m;
         recencyDecay := recencyDecay m;
         minExamplesForRecommendation := minExamplesForRecommendation m |}
  | None => m
  end.

Record Stats := mkStats {
  st_total : Z;
  st_accepts : Z;
  st_modifies : Z;
  st_rejects : Z;
  st_acceptRate : Q;
  st_featureWeights : FeatureWeights;
  st_kValue : Z
}.

Definition getStats (m : Manager) : Stats :=
  let countOf reward :=
    Zlen (filter (fun e => Qeqb (ex_reward e) reward) (examples m)) in
  let accepts := countOf 1%Q in
  let modifies := countOf (5#10) in
  let rejects := countOf (-1)%Q in
  {| st_total := exampleCount m;
     st_accepts := accepts;
     st_modifies := modifies;
     st_rejects := rejects;
     st_acceptRate :=
       if 0 <? exampleCount m then (inject_Z accepts / inject_Z (exampleCount m))%Q
       else 0%Q;
     st_featureWeights := featureWeights m;
     st_kValue := k m |}.

End WithScheme.

End PreferenceManager.

(* ================================================================== *)
(** * VisualSchemeRecommender: recording a selection *)

Module VisualSchemeRecommender.

Import Js.
Local Open Scope string_scope.

Definition extractNodeFeatures (node : StructureAnalyzer.Node) : PreferenceManager.Features :=
  {| PreferenceManager.type := Some (StructureAnalyzer.nd_type node);
     PreferenceManager.startMeasure := StructureAnalyzer.nd_startMeasure node;
     PreferenceManager.endMeasure := StructureAnalyzer.nd_endMeasure node;
     PreferenceManager.material := Some (StructureAnalyzer.nd_material node);
     PreferenceManager.confidence := Some (StructureAnalyzer.nd_confidence node);
     PreferenceManager.cadence :=
       StructureAnalyzer.f_cadence (StructureAnalyzer.nd_features node);
     PreferenceManager.periodType :=
       StructureAnalyzer.f_periodType (StructureAnalyzer.nd_features node);
     PreferenceManager.closure :=
       StructureAnalyzer.f_closure (StructureAnalyzer.nd_features node);
     PreferenceManager.emotionTempo := None;
     PreferenceManager.emotionDynamics := None;
     PreferenceManager.emotionTension := None |}.

(** The recommender owns one preference manager; it is the state here. *)
Definition recordSelection {Scheme} (preferenceManager : PreferenceManager.Manager Scheme)
           (now : Z) (node : StructureAnalyzer.Node) (scheme : Scheme) (action : string)
  : PreferenceManager.Manager Scheme :=
  let reward :=
    match assocGet String.eqb action [("accept", 1%Q); ("modify", 5#10); ("reject", (-1)%Q)] with
    | Some r => QorElse r 0
    | None => 0%Q
    end in
  let features := extractNodeFeatures node in
  PreferenceManager.recordSelection preferenceManager now features scheme reward.

(** ** Emotion features and the parts of a scheme

    The tables of the source are read by their own keys; a key that
    names an inherited member of [Object] is not modelled. *)

Local Open Scope list_scope.
Local Open Scope Z_scope.

Record EmotionFeatures := mkEmotionFeatures {
  ef_tempo : option string;
  ef_dynamics : option string;
  ef_tension : option string
}.

Record AudioFeatures := mkAudioFeatures {
  rms : option Q;
  spectralCentroid : option Q
}.

(** [EMOTION_MAPPINGS]. *)
Definition tempoAnimations : list (string * list string) :=
  [("fast", ["flash"; "bounce"; "spin"]);
   ("moderate", ["pulse"; "wave"; "slide"]);
   ("slow", ["fade"; "grow"; "rotate"])].
Definition tempoColors : list (string * string) :=
  [("fast", "warm"); ("moderate", "mixed"); ("slow", "cool")].
Definition dynamicsShapes : list (string * list string) :=
  [("strong", ["star5"; "burst"; "sun"]);
   ("moderate", ["hexagon"; "diamond"; "octagon"]);
   ("soft", ["circle"; "wave"; "flower"])].
Definition dynamicsSizes : list (string * string) :=
  [("strong", "large"); ("moderate", "medium"); ("soft", "small")].
Definition tensionColors : list (string * list string) :=
  [("tense", ["#FF5252"; "#FF7043"; "#FF6B6B"]);
   ("neutral", ["#FFD93D"; "#FFAB40"; "#FFA07A"]);
   ("relaxed", ["#4D96FF"; "#6BCB77"; "#1ABC9C"])].
Definition tensionAnimations : list (string * list string) :=
  [("tense", ["shake"; "flash"]);
   ("neutral", ["pulse"; "wave"]);
   ("relaxed", ["fade"; "grow"])].

(** [COLOR_PALETTE] and [ANIMATIONS]. *)
Definition warm : list string :=
  ["#FF6B6B"; "#FFA07A"; "#FFD93D"; "#FF8C42"; "#FF5252"; "#FF7043"; "#FFAB40"; "#FFD740"].
Definition cool : list string :=
  ["#6BCB77"; "#4D96FF"; "#9B59B6"; "#3498DB"; "#1ABC9C"; "#00BCD4"; "#7E57C2"; "#5C6BC0"].
Definition ANIMATIONS : list string :=
  ["flash"; "rotate"; "bounce"; "pulse"; "slide"; "fade"; "shake"; "grow"; "spin"; "wave"].

(** [table[key]] for a key that may be missing. *)
Definition lookup {V} (table : list (string * V)) (key : option string) : option V :=
  match key with
  | Some name => assocGet String.eqb name table
  | None => None
  end.

(** [arr[i]]: [None] outside the array. *)
Definition at_ {A} (l : list A) (i : Z) : option A :=
  if i <? 0 then None else nth_error l (Z.to_nat i).

Definition extractEmotionFeatures (node : StructureAnalyzer.Node)
           (audioFeatures : option AudioFeatures) : EmotionFeatures :=
  let duration :=
    StructureAnalyzer.nd_endMeasure node - StructureAnalyzer.nd_startMeasure node + 1 in
  let children := Zlen (StructureAnalyzer.nd_children node) in
  (* children.length / duration: a positive count over zero is Infinity *)
  let tempo :=
    if 0 <? children then
      if duration =? 0 then "fast"
      else
        let childDensity := (inject_Z children / inject_Z duration)%Q in
        if Qgtb childDensity 2 then "fast"
        else if Qltb childDensity (5#10) then "slow"
        else "moderate"
    else "moderate" in
  let levelDynamics :=
    [("motive", "soft"); ("subphrase", "soft"); ("phrase", "moderate");
     ("period", "moderate"); ("theme", "strong"); ("section", "strong")] in
  let dynamics :=
    match assocGet String.eqb (StructureAnalyzer.nd_type node) levelDynamics with
    | Some d => d
    | None => "moderate"
    end in
  let tension := "neutral" in
  let tension :=
    match StructureAnalyzer.f_cadence (StructureAnalyzer.nd_features node) with
    | Some cadence =>
        let cadenceType := RuleEngine.cad_type cadence in
        if String.eqb cadenceType "perfect_authentic" then "relaxed"
        else if String.eqb cadenceType "half" || String.eqb cadenceType "deceptive"
             then "tense"
             else tension
    | None => tension
    end in
  let tension :=
    match StructureAnalyzer.f_closure (StructureAnalyzer.nd_features node) with
    | Some closure =>
        if String.eqb closure "open" then "tense"
        else if String.eqb closure "closed" then "relaxed"
        else tension
    | None => tension
    end in
  let dynamics :=
    match audioFeatures with
    | Some audio =>
        match rms audio with
        | Some r => if Qgtb r (7#10) then "strong"
                    else if Qltb r (3#10) then "soft"
                    else dynamics
        | None => dynamics
        end
    | None => dynamics
    end in
  let tension :=
    match audioFeatures with
    | Some audio =>
        match spectralCentroid audio with
        | Some c => if Qgtb c 3000 then "tense"
                    else if Qltb c 1000 then "relaxed"
                    else tension
        | None => tension
        end
    | None => tension
    end in
  mkEmotionFeatures (Some tempo) (Some dynamics) (Some tension).

Definition getShapeCount (features : PreferenceManager.Features) : Z :=
  let duration :=
    PreferenceManager.endMeasure features - PreferenceManager.startMeasure features + 1 in
  if duration <=? 2 then 1
  else if duration <=? 4 then 2
  else if duration <=? 8 then 3
  else 4.

Definition getShapeSize (features : PreferenceManager.Features) : string :=
  let sizeMap :=
    [("motive", "small"); ("subphrase", "small"); ("phrase", "medium");
     ("period", "medium"); ("theme", "large"); ("section", "large")] in
  match lookup sizeMap (PreferenceManager.type features) with
  | Some size => size
  | None => "medium"
  end.

(** A shape; [type] is [None] where the source reads outside its list
    of preferred shapes. *)
Record Shape := mkShape {
  sh_type : option string;
  sh_size : string
}.

Definition selectShapes (features : PreferenceManager.Features) (variant : Z)
           (emotionFeatures : EmotionFeatures) : list Shape :=
  let shapeCount := getShapeCount features in
  let typeShapeMap :=
    [("motive", ["circle"; "diamond"; "star4"]);
     ("subphrase", ["square"; "triangle"; "hexagon"]);
     ("phrase", ["circle"; "square"; "star5"]);
     ("period", ["hexagon"; "octagon"; "star6"]);
     ("theme", ["star5"; "sun"; "burst"]);
     ("section", ["octagon"; "spiral"; "wave"])] in
  let preferredShapes :=
    match lookup dynamicsShapes (ef_dynamics emotionFeatures) with
    | Some shapes => shapes
    | None =>
        match lookup typeShapeMap (PreferenceManager.type features) with
        | Some shapes => shapes
        | None => ["circle"; "square"; "triangle"]
        end
    end in
  let dynamicsSize := lookup dynamicsSizes (ef_dynamics emotionFeatures) in
  map (fun i =>
         let shapeIndex := Z.rem (variant + i) (Zlen preferredShapes) in
         mkShape (at_ preferredShapes shapeIndex)
                 (match dynamicsSize with
                  | Some size => size
                  | None => getShapeSize features
                  end))
      (RuleEngine.Zrange shapeCount).

Definition selectColors (features : PreferenceManager.Features) (variant : Z)
           (emotionFeatures : EmotionFeatures) : list (option string) :=
  let colorCount := Z.min 3 (getShapeCount features) in
  let fromPalette :=
    let isStable :=
      match PreferenceManager.closure features with
      | Some closure => String.eqb closure "closed"
      | None => false
      end
      || match PreferenceManager.cadence features with
         | Some cadence => String.eqb (RuleEngine.cad_type cadence) "perfect_authentic"
         | None => false
         end in
    let tempoMapping := lookup tempoColors (ef_tempo emotionFeatures) in
    let palette :=
      match tempoMapping with
      | Some mapping =>
          if String.eqb mapping "warm" then warm
          else if String.eqb mapping "cool" then cool
          else if isStable then warm else cool
      | None => if isStable then warm else cool
      end in
    map (fun i => at_ palette (Z.rem (variant + i) (Zlen palette)))
        (RuleEngine.Zrange colorCount) in
  match lookup tensionColors (ef_tension emotionFeatures) with
  | Some colors =>
      if variant =? 0 then map Some (RuleEngine.jsSlice colors 0 colorCount) else fromPalette
  | None => fromPalette
  end.

Definition selectAnimation (features : PreferenceManager.Features) (variant : Z)
           (emotionFeatures : EmotionFeatures) : option string :=
  let typeAnimationMap :=
    [("motive", ["flash"; "pulse"; "bounce"]);
     ("subphrase", ["slide"; "fade"; "pulse"]);
     ("phrase", ["wave"; "grow"; "slide"]);
     ("period", ["rotate"; "spin"; "wave"]);
     ("theme", ["grow"; "spin"; "bounce"]);
     ("section", ["fade"; "wave"; "rotate"])] in
  let byType :=
    match lookup typeAnimationMap (PreferenceManager.type features) with
    | Some animations => animations
    | None => ANIMATIONS
    end in
  let byTension :=
    match lookup tensionAnimations (ef_tension emotionFeatures) with
    | Some animations => if variant <? Zlen animations then animations else byType
    | None => byType
    end in
  let preferredAnimations :=
    match lookup tempoAnimations (ef_tempo emotionFeatures) with
    | Some animations => if variant <? Zlen animations then animations else byTension
    | None => byTension
    end in
  at_ preferredAnimations (Z.rem variant (Zlen preferredAnimations)).

Definition selectArrangement (features : PreferenceManager.Features) : string :=
  let duration :=
    PreferenceManager.endMeasure features - PreferenceManager.startMeasure features + 1 in
  if duration <=? 2 then "single"
  else if duration <=? 8 then "sequence"
  else "grid".

Record Scheme := mkScheme {
  sc_id : Id;
  sc_shapes : list Shape;
  sc_colors : list (option string);
  sc_animation : option string;
  sc_arrangement : string
}.

(** The key of [deduplicateSchemes] is the JSON text of the shape
    types, the colors and the animation; two such texts are equal exactly
    when these three are. *)
Definition SchemeKey : Type :=
  (list (option string) * list (option string) * option string)%type.

Definition schemeKey (scheme : Scheme) : SchemeKey :=
  (map sh_type (sc_shapes scheme), sc_colors scheme, sc_animation scheme).

Definition optionEqb (a b : option string) : bool :=
  match a, b with
  | Some x, Some y => String.eqb x y
  | None, None => true
  | _, _ => false
  end.

Fixpoint listEqb (a b : list (option string)) : bool :=
  match a, b with
  | [], [] => true
  | x :: a', y :: b' => optionEqb x y && listEqb a' b'
  | _, _ => false
  end.

Definition schemeKeyEqb (a b : SchemeKey) : bool :=
  let '(shapes1, colors1, animation1) := a in
  let '(shapes2, colors2, animation2) := b in
  listEqb shapes1 shapes2 && listEqb colors1 colors2 && optionEqb animation1 animation2.

Fixpoint filterUnseen (schemes : list Scheme) (seen : list SchemeKey) : list Scheme :=
  match schemes with
  | [] => []
  | scheme :: rest =>
      let key := schemeKey scheme in
      if existsb (schemeKeyEqb key) seen then filterUnseen rest seen
      else scheme :: filterUnseen rest (key :: seen)
  end.

Definition deduplicateSchemes (schemes : list Scheme) : list Scheme :=
  filterUnseen schemes [].

End VisualSchemeRecommender.

(* ================================================================== *)
(** * Statements: notions and sample inputs used by the theorems *)

Import Js RuleEngine.

Local Open Scope string_scope.
Local Open Scope list_scope.
Local Open Scope Z_scope.

(** A source of identifiers that repeats one identifier, and one that
    numbers them: the first collides at every draw, the second never. *)
Definition constId : Rand := fun _ => "id".
Definition countId : Rand := fun n => Z_to_string (Z.of_nat n).

Module CadenceSpec.

(** A minor-key passage whose bass moves from the subdominant (D, degree 3)
    to the dominant (E, degree 4) of A minor. *)
Definition phrygianNotes : list Note :=
  [mkNote (Some "D3") 4 1 0 1 None false;
   mkNote (Some "A4") 4 1 0 1 None false;
   mkNote (Some "E3") 4 2 0 1 None false;
   mkNote (Some "B4") 4 2 0 1 None false].

Definition aMinor : KeySignature := mkKey 0 "minor".

End CadenceSpec.

Module PhraseSpec.

(** What the specification asks of a phrase, without the upper bound on
    its length. *)
Definition phraseOk (p : Phrase) : Prop :=
  ph_length p = ph_endMeasure p - ph_startMeasure p + 1
  /\ 2 <= ph_length p
  /\ (ph_closure p = "closed" <-> (7#10 < getCadenceStrength (ph_cadence p))%Q).

(** The phrases one turn of the cadence loop adds, for a phrase that
    starts at [phraseStart]. *)
Definition emitted (notes : list Note) (subPhrases : list SubPhrase)
           (phraseStart phraseIndex : Z) (cadence : Cadence) (rnd : Rand) (n : nat)
  : list Phrase :=
  fst (fst (fst (phraseStep notes subPhrases ([], phraseStart, phraseIndex) cadence rnd n))).

Definition bassNote (pitch : string) (m : Z) : Note :=
  mkNote (Some pitch) 4 m 0 1 None false.

(** Twenty-four measures in C major over a C bass, with F in measure 23:
    the one cadence is the plagal cadence of measure 24. *)
Definition longSpanNotes : list Note :=
  map (fun m => bassNote (if m =? 23 then "F3" else "C3") m) (map Z.of_nat (seq 1 24)).

Definition longSpanCadences : list Cadence :=
  run (detectCadences longSpanNotes defaultKey) constId.

Definition longSpanPhrases : list Phrase :=
  run (detectPhrases longSpanNotes longSpanCadences []) constId.

(** Thirteen measures over a C bass: no cadence at all. *)
Definition pedalNotes : list Note :=
  map (fun m => bassNote "C3" m) (map Z.of_nat (seq 1 13)).

End PhraseSpec.

Module FormSpec.

(** A later period varies the theme when its similarity to it lies
    strictly between 0.3 and 0.9. *)
Definition variesTheme (theme p : Period) : bool :=
  Qgtb (calculatePeriodSimilarity p theme) (3#10)
  && Qltb (calculatePeriodSimilarity p theme) (9#10).

(** The fraction of the periods 1 ... N-1 that vary period 0. *)
Definition variationFraction (periods : list Period) : Q :=
  match periods with
  | theme :: later =>
      (inject_Z (Zlen (filter (variesTheme theme) later)) / inject_Z (Zlen periods - 1))%Q
  | [] => 0%Q
  end.

Definition tone (pitch : string) (m : Z) (b : Q) : Note :=
  mkNote (Some pitch) 1 m b 1 None false.

Definition themeNotes (m : Z) : list Note :=
  [tone "C4" m 0; tone "E4" m 1; tone "G4" m 2; tone "C5" (m + 1) 0].
Definition variedNotes (m : Z) : list Note :=
  [tone "C4" m 0; tone "C4" m 1; tone "C4" m 2; tone "C4" (m + 1) 0].

Definition onePhrasePeriod (index : Z) (notes : Z -> list Note) : Period :=
  let m := 2 * index + 1 in
  let phrase :=
    mkPhrase "phrase" index m (m + 1) 2 None (notes m) [] (assignMaterialLabel index) "open"
             None None in
  run (createPeriod [phrase] index) (fun _ => "period").

(** Six one-phrase periods: a theme, three variations of it (same rhythm,
    other intervals: similarity 0.4) and two restatements (similarity 1).
    Three of the five later periods vary the theme: exactly 60%. *)
Definition sixPeriods : list Period :=
  [onePhrasePeriod 0 themeNotes; onePhrasePeriod 1 variedNotes;
   onePhrasePeriod 2 variedNotes; onePhrasePeriod 3 variedNotes;
   onePhrasePeriod 4 themeNotes; onePhrasePeriod 5 themeNotes].


(** ** Where floating point and exact arithmetic agree

    The engine computes similarities in binary floating point, the model
    in exact rationals.  On notes whose durations are multiples of 1/1024
    below 2^40 and whose MIDI numbers are below 2^40, the differences the
    engine compares with 1 are computed without rounding, and a similarity
    is rounded by less than 1e-15: whether it exceeds a threshold is then
    the same in both, provided the exact value is clear of the threshold
    by a billionth. *)
Definition clearOf (threshold s : Q) : bool :=
  Qleb s (threshold - (1 # 1000000000)) || Qleb (threshold + (1 # 1000000000)) s.

Definition exactNote (n : Note) : bool :=
  (1024 mod Z.pos (Qden (Qred (n_duration n))) =? 0)
  && Qleb (Qabs (n_duration n)) (inject_Z (2 ^ 40))
  && (Z.abs (pitchToMidi (n_pitch n)) <=? 2 ^ 40).

Definition exactPeriod (p : Period) : bool :=
  forallb exactNote (flat_map ph_notes (pe_phrases p)).

(** A list of periods on which the variation probe decides alike in
    floating point and in exact arithmetic: exact notes, and every
    similarity to period 0 clear of the thresholds 0.3 and 0.9. *)
Definition decisive (periods : list Period) : bool :=
  match periods with
  | theme :: later =>
      exactPeriod theme
      && forallb (fun p =>
                    exactPeriod p
                    && clearOf (3 # 10) (calculatePeriodSimilarity p theme)
                    && clearOf (9 # 10) (calculatePeriodSimilarity p theme))
                 later
  | [] => true
  end.

End FormSpec.

Module PreferenceSpec.

Import PreferenceManager.

(** The layout of the feature vector, component by component. *)
Definition typeOneHot (f : Features) : list Q :=
  map (fun name => match type f with
                   | Some t => if String.eqb t name then 1%Q else 0%Q
                   | None => 0%Q
                   end)
      ["motive"; "subphrase"; "phrase"; "period"; "theme"; "section"].

Definition confidenceCell (f : Features) : Q :=
  match confidence f with Some c => QorElse c (5#10) | None => 5#10 end.

Definition lengthCell (f : Features) : Q :=
  Qmin 1 (inject_Z (endMeasure f - startMeasure f + 1) / 16)%Q.

Definition hasPrime (f : Features) : Q :=
  match material f with
  | Some m => if Js.includesChar "'"%char m then 1%Q else 0%Q
  | None => 0%Q
  end.

Definition isCompound (f : Features) : Q :=
  match material f with
  | Some m => if (1 <? Z.of_nat (String.length m)) then 1%Q else 0%Q
  | None => 0%Q
  end.

Definition cadenceOneHot (f : Features) : list Q :=
  oneHot (match cadence f with
          | Some c => if String.eqb (cad_type c) "" then "none" else cad_type c
          | None => "none"
          end)
         ["perfect_authentic"; "imperfect_authentic"; "half"; "deceptive"; "none"].

Definition periodOneHot (f : Features) : list Q :=
  oneHot (match truthy (periodType f) with Some p => p | None => "none" end)
         ["parallel"; "contrasting"; "sequential"; "none"].

Definition tempoCell (f : Features) : Q :=
  encode [("fast", 1%Q); ("moderate", 5#10); ("slow", 0%Q)] (emotionTempo f).
Definition dynamicsCell (f : Features) : Q :=
  encode [("strong", 1%Q); ("moderate", 5#10); ("soft", 0%Q)] (emotionDynamics f).
Definition tensionCell (f : Features) : Q :=
  encode [("tense", 1%Q); ("neutral", 5#10); ("relaxed", 0%Q)] (emotionTension f).

Definition featureLayout (f : Features) : list Q :=
  typeOneHot f ++ [confidenceCell f] ++ [lengthCell f] ++ [hasPrime f; isCompound f]
  ++ cadenceOneHot f ++ periodOneHot f ++ [tempoCell f; dynamicsCell f; tensionCell f].

Definition isLevel (q : Q) : Prop := q = 0%Q \/ q = (5#10)%Q \/ q = 1%Q.

(** The operations a session applies to its preference manager. *)
Inductive Op (Scheme : Type) : Type :=
| OpRecord (now : Z) (features : Features) (scheme : Scheme) (reward : Q)
| OpAdd (now : Z) (features : Features) (scheme : Scheme)
| OpUpdateWeights (features : Features) (accepted : bool)
| OpAdjustK
| OpClear.

Definition applyOp {Scheme} (m : Manager Scheme) (op : Op Scheme) : Manager Scheme :=
  match op with
  | OpRecord now f s r => recordSelection m now f s r
  | OpAdd now f s => addExample m now f s
  | OpUpdateWeights _ f a => updateFeatureWeights m f a
  | OpAdjustK _ => adjustK m
  | OpClear _ => clear m
  end.

Definition runOps {Scheme} (ops : list (Op Scheme)) : Manager Scheme :=
  fold_left applyOp ops (newManager Scheme).

(** The features of a phrase node of four measures labelled [a']. *)
Definition someFeatures : Features :=
  mkFeatures (Some "phrase") 1 4 (Some "a'") (Some (8#10)) None None None None None None.

(** A feature weight within the bounds of [updateFeatureWeights]. *)
Definition inRange (w : Q) : Prop := (1 # 10 <= w <= 2)%Q.

(** Feature weights that are all within bounds. *)
Definition boundedWeights (w : FeatureWeights) : Prop :=
  inRange (w_structureType w) /\ inRange (w_confidence w) /\ inRange (w_duration w)
  /\ inRange (w_materialVariation w) /\ inRange (w_cadenceType w)
  /\ inRange (w_periodType w) /\ inRange (w_emotionTempo w)
  /\ inRange (w_emotionDynamics w) /\ inRange (w_emotionTension w).

(** The invariant of a preference manager: the count is the number of
    examples, the weights are within bounds, k is 3, 5 or 7. *)
Definition sound {Scheme} (m : Manager Scheme) : Prop :=
  exampleCount m = Zlen (examples m)
  /\ boundedWeights (featureWeights m)
  /\ (k m = 3 \/ k m = 5 \/ k m = 7).


(** ** Keys and texts on which the tables are read as written

    A table of the source is an object literal: read at a name that every
    object inherits from [Object.prototype], it yields the inherited
    member and not [undefined].  These are the inherited names. *)
Definition inheritedKeys : list string :=
  ["constructor"; "hasOwnProperty"; "isPrototypeOf"; "propertyIsEnumerable";
   "toLocaleString"; "toString"; "valueOf"; "__proto__";
   "__defineGetter__"; "__defineSetter__"; "__lookupGetter__"; "__lookupSetter__"].

(** A key that is missing, or that is no inherited name. *)
Definition ownKey (key : option string) : bool :=
  match key with
  | Some name => negb (existsb (String.eqb name) inheritedKeys)
  | None => true
  end.

(** A text of characters below 128, whose length in characters is its
    length in JavaScript. *)
Fixpoint asciiText (s : string) : bool :=
  match s with
  | EmptyString => true
  | String c s' => (nat_of_ascii c <? 128)%nat && asciiText s'
  end.

(** Features whose emotion fields are read from the tables as written
    and whose material is plain text. *)
Definition plainFeatures (f : Features) : bool :=
  ownKey (emotionTempo f) && ownKey (emotionDynamics f) && ownKey (emotionTension f)
  && match material f with
     | Some m => asciiText m
     | None => true
     end.

End PreferenceSpec.

Module AlignmentSpec.

Import DTWAligner.

(** Costs are never negative: a finite non-negative number or infinity. *)
Definition nonneg (a : num) : Prop :=
  match a with
  | Fin q => (0 <= q)%Q
  | PInf => True
  | _ => False
  end.

(** A finite number equal to zero. *)
Definition zeroish (a : num) : Prop :=
  match a with
  | Fin q => (q == 0)%Q
  | _ => False
  end.

(** The diagonal path [(0,0), ..., (n-1,n-1)]. *)
Definition diagonal (n : nat) : list (nat * nat) := map (fun i => (i, i)) (seq 0 n).

Definition row0 (m : nat) : list num := Fin 0 :: repeat PInf m.

(** A square root to three decimals, to run the aligner on examples. *)
Definition approxSqrt (x : Q) : Q :=
  (inject_Z (Z.sqrt (Qfloor (x * 1000000))) / 1000)%Q.

Definition twoFrames : Chroma := [[1%Q; 0%Q]; [1#2; 1#2]].

(** One step of a warping path: each index stays or advances by one,
    and at least one advances. *)
Definition advance (a b : nat * nat) : Prop :=
  (fst b = fst a \/ fst b = S (fst a))
  /\ (snd b = snd a \/ snd b = S (snd a))
  /\ a <> b.

(** A path whose consecutive steps all advance. *)
Fixpoint warping (p : list (nat * nat)) : Prop :=
  match p with
  | a :: ((b :: _) as p') => advance a b /\ warping p'
  | _ => True
  end.

(** A finite number. *)
Definition isFin (a : num) : Prop := exists q, a = Fin q.

(** A finite number or positive infinity. *)
Definition finOrInf (a : num) : Prop := a = PInf \/ isFin a.

(** A row below the first: infinity in column 0, finite costs after. *)
Definition inner (m : nat) (row : list num) : Prop :=
  exists cells, row = PInf :: cells /\ List.length cells = m /\ Forall isFin cells.

(** The cost matrix of two sequences that are not empty: zero in the
    corner, infinity along the first row and the first column, a finite
    cost everywhere else. *)
Definition shaped (dtw : list (list num)) (n m : nat) : Prop :=
  cell dtw 0 0 = Fin 0
  /\ (forall j, (1 <= j <= m)%nat -> cell dtw 0 j = PInf)
  /\ (forall i, (1 <= i <= n)%nat -> cell dtw i 0 = PInf)
  /\ (forall i j, (1 <= i <= n)%nat -> (1 <= j <= m)%nat -> isFin (cell dtw i j)).

(** A frame of twelve pitch-class weights between 0 and 1 that sum to 1,
    or that are all 0. *)
Definition normalised (frame : list Q) : Prop :=
  List.length frame = 12%nat
  /\ Forall (fun v => (0 <= v <= 1)%Q) frame
  /\ ((Qsum frame == 1)%Q \/ Forall (fun v => (v == 0)%Q) frame).

(** A frame of twelve counts, none negative. *)
Definition counts (frame : list Q) : Prop :=
  List.length frame = 12%nat /\ Forall (fun v => (0 <= v)%Q) frame.


(** Frames whose entries are at most 10^100 in absolute value: the
    squares of their differences and the sums of these stay finite in
    floating point. *)
Definition boundedFrames (seq : Chroma) : bool :=
  forallb (forallb (fun x => Qleb (Qabs x) (inject_Z (10 ^ 100)))) seq.

End AlignmentSpec.

(** ** Agreement of two analyses up to identifiers

    Two results are compared field by field.  Identifiers are compared by a
    relation [I] (how the identifiers of one run correspond to those of the
    other), and the sub-phrase lists that phrases carry by a relation [SP]:
    - [I := fun _ _ => True] ignores identifiers;
    - [I := sameDraw rnd1 rnd2] asks that corresponding identifiers were
      drawn at the same position of the two sources. *)

Module Agreement.

Definition ropt {A B} (R : A -> B -> Prop) (a : option A) (b : option B) : Prop :=
  match a, b with
  | Some x, Some y => R x y
  | None, None => True
  | _, _ => False
  end.

Definition anyId : Id -> Id -> Prop := fun _ _ => True.

Definition sameDraw (rnd1 rnd2 : Rand) : Id -> Id -> Prop :=
  fun a b => exists k : nat, a = rnd1 k /\ b = rnd2 k.

Definition injective (rnd : Rand) : Prop :=
  forall i j : nat, rnd i = rnd j -> i = j.

Definition rprod {A A' B B'} (R : A -> A' -> Prop) (S : B -> B' -> Prop)
           (p : A * B) (q : A' * B') : Prop :=
  R (fst p) (fst q) /\ S (snd p) (snd q).

(** Every run of [m] returns a value that satisfies [P]. *)
Definition Post {A} (P : A -> Prop) (m : M A) : Prop :=
  forall (rnd : Rand) (n : nat), P (fst (m rnd n)).

(** [m] on the first source and [m'] on the second, started with
    corresponding counters ([C]), return related values and leave
    corresponding counters. *)
Definition RelM (rnd1 rnd2 : Rand) (C : nat -> nat -> Prop) {A B} (R : A -> B -> Prop)
           (m : M A) (m' : M B) : Prop :=
  forall n1 n2 : nat,
    C n1 n2 ->
    R (fst (m rnd1 n1)) (fst (m' rnd2 n2)) /\ C (snd (m rnd1 n1)) (snd (m' rnd2 n2)).

Definition anyCounter : nat -> nat -> Prop := fun _ _ => True.

(** No comparison of the sub-phrase lists that phrases carry. *)
Definition anySubPhrases : list SubPhrase -> list SubPhrase -> Prop := fun _ _ => True.

(** An identifier source that never repeats: n letters x. *)
Definition unaryId : Rand := fun n => Js.repeatStr "x" n.
Definition unaryId' : Rand := fun n => String "y" (Js.repeatStr "x" n).

Section Relations.

Variable I : Id -> Id -> Prop.
Variable SP : list SubPhrase -> list SubPhrase -> Prop.

Record Rmotive (a b : Motive) : Prop := mkRmotive {
  r_mo_id : I (mo_id a) (mo_id b);
  r_mo_index : mo_index a = mo_index b;
  r_mo_notes : mo_notes a = mo_notes b;
  r_mo_measureNumber : mo_measureNumber a = mo_measureNumber b;
  r_mo_startBeat : mo_startBeat a = mo_startBeat b;
  r_mo_intervalPattern : mo_intervalPattern a = mo_intervalPattern b;
  r_mo_rhythmPattern : mo_rhythmPattern a = mo_rhythmPattern b;
  r_mo_contour : mo_contour a = mo_contour b;
  r_mo_relationship : mo_relationship a = mo_relationship b;
  r_mo_relatedTo : ropt I (mo_relatedTo a) (mo_relatedTo b)
}.

Record RsubPhrase (a b : SubPhrase) : Prop := mkRsubPhrase {
  r_sp_id : I (sp_id a) (sp_id b);
  r_sp_index : sp_index a = sp_index b;
  r_sp_startMeasure : sp_startMeasure a = sp_startMeasure b;
  r_sp_endMeasure : sp_endMeasure a = sp_endMeasure b;
  r_sp_startBeat : sp_startBeat a = sp_startBeat b;
  r_sp_endBeat : sp_endBeat a = sp_endBeat b;
  r_sp_notes : sp_notes a = sp_notes b;
  r_sp_motives : Forall2 Rmotive (sp_motives a) (sp_motives b);
  r_sp_material : sp_material a = sp_material b;
  r_sp_similarTo : ropt I (sp_similarTo a) (sp_similarTo b);
  r_sp_similarity : sp_similarity a = sp_similarity b
}.

Record Rcadence (a b : Cadence) : Prop := mkRcadence {
  r_cad_id : I (cad_id a) (cad_id b);
  r_cad_measureNumber : cad_measureNumber a = cad_measureNumber b;
  r_cad_beat : cad_beat a = cad_beat b;
  r_cad_type : cad_type a = cad_type b;
  r_cad_strength : cad_strength a = cad_strength b;
  r_cad_confidence : cad_confidence a = cad_confidence b
}.

Record Rphrase (a b : Phrase) : Prop := mkRphrase {
  r_ph_id : I (ph_id a) (ph_id b);
  r_ph_index : ph_index a = ph_index b;
  r_ph_startMeasure : ph_startMeasure a = ph_startMeasure b;
  r_ph_endMeasure : ph_endMeasure a = ph_endMeasure b;
  r_ph_length : ph_length a = ph_length b;
  r_ph_cadence : ropt Rcadence (ph_cadence a) (ph_cadence b);
  r_ph_notes : ph_notes a = ph_notes b;
  r_ph_subPhrases : SP (ph_subPhrases a) (ph_subPhrases b);
  r_ph_material : ph_material a = ph_material b;
  r_ph_closure : ph_closure a = ph_closure b;
  r_ph_relationship : ph_relationship a = ph_relationship b;
  r_ph_headSimilarity : ph_headSimilarity a = ph_headSimilarity b
}.

Record Rperiod (a b : Period) : Prop := mkRperiod {
  r_pe_id : I (pe_id a) (pe_id b);
  r_pe_index : pe_index a = pe_index b;
  r_pe_startMeasure : pe_startMeasure a = pe_startMeasure b;
  r_pe_endMeasure : pe_endMeasure a = pe_endMeasure b;
  r_pe_length : pe_length a = pe_length b;
  r_pe_phrases : Forall2 Rphrase (pe_phrases a) (pe_phrases b);
  r_pe_phraseCount : pe_phraseCount a = pe_phraseCount b;
  r_pe_type : pe_type a = pe_type b;
  r_pe_proportion : pe_proportion a = pe_proportion b;
  r_pe_closure : pe_closure a = pe_closure b;
  r_pe_material : pe_material a = pe_material b;
  r_pe_cadence : ropt Rcadence (pe_cadence a) (pe_cadence b)
}.

Record RcompoundPeriod (a b : CompoundPeriod) : Prop := mkRcompoundPeriod {
  r_cp_id : I (cp_id a) (cp_id b);
  r_cp_type : cp_type a = cp_type b;
  r_cp_periods : Forall2 Rperiod (cp_periods a) (cp_periods b);
  r_cp_startMeasure : cp_startMeasure a = cp_startMeasure b;
  r_cp_endMeasure : cp_endMeasure a = cp_endMeasure b;
  r_cp_structure : cp_structure a = cp_structure b
}.

Record RthemeRef (a b : ThemeRef) : Prop := mkRthemeRef {
  r_tr_period : Rperiod (tr_period a) (tr_period b);
  r_tr_startMeasure : tr_startMeasure a = tr_startMeasure b;
  r_tr_endMeasure : tr_endMeasure a = tr_endMeasure b
}.

Record RtransitionRef (a b : TransitionRef) : Prop := mkRtransitionRef {
  r_tn_periods : Forall2 Rperiod (tn_periods a) (tn_periods b);
  r_tn_startMeasure : tn_startMeasure a = tn_startMeasure b;
  r_tn_endMeasure : tn_endMeasure a = tn_endMeasure b
}.

Record RexpositionComponents (a b : ExpositionComponents) : Prop :=
  mkRexpositionComponents {
  r_ec_primaryTheme : ropt RthemeRef (ec_primaryTheme a) (ec_primaryTheme b);
  r_ec_transition : ropt RtransitionRef (ec_transition a) (ec_transition b);
  r_ec_secondaryTheme : ropt RthemeRef (ec_secondaryTheme a) (ec_secondaryTheme b)
}.

Record RrecapPrimary (a b : RecapPrimary) : Prop := mkRrecapPrimary {
  r_rp_period : Rperiod (rp_period a) (rp_period b);
  r_rp_similarity : rp_similarity a = rp_similarity b;
  r_rp_isVaried : rp_isVaried a = rp_isVaried b
}.

Record RrecapSecondary (a b : RecapSecondary) : Prop := mkRrecapSecondary {
  r_rs_period : Rperiod (rs_period a) (rs_period b);
  r_rs_similarity : rs_similarity a = rs_similarity b;
  r_rs_isInTonic : rs_isInTonic a = rs_isInTonic b
}.

Record RrecapComponents (a b : RecapComponents) : Prop := mkRrecapComponents {
  r_rc_primaryTheme : ropt RrecapPrimary (rc_primaryTheme a) (rc_primaryTheme b);
  r_rc_secondaryTheme : ropt RrecapSecondary (rc_secondaryTheme a) (rc_secondaryTheme b);
  r_rc_isComplete : rc_isComplete a = rc_isComplete b;
  r_rc_isVaried : rc_isVaried a = rc_isVaried b
}.

Definition Rcomponents (a b : Components) : Prop :=
  match a, b with
  | ExpositionC x, ExpositionC y => RexpositionComponents x y
  | RecapitulationC x, RecapitulationC y => RrecapComponents x y
  | _, _ => False
  end.

Record Rsection (a b : Section) : Prop := mkRsection {
  r_sec_id : I (sec_id a) (sec_id b);
  r_sec_name : sec_name a = sec_name b;
  r_sec_type : sec_type a = sec_type b;
  r_sec_startMeasure : sec_startMeasure a = sec_startMeasure b;
  r_sec_endMeasure : sec_endMeasure a = sec_endMeasure b;
  r_sec_function : sec_function a = sec_function b;
  r_sec_periods : Forall2 Rperiod (sec_periods a) (sec_periods b);
  r_sec_middleType : sec_middleType a = sec_middleType b;
  r_sec_internalForm : sec_internalForm a = sec_internalForm b;
  r_sec_recapitulationType : sec_recapitulationType a = sec_recapitulationType b;
  r_sec_variationType : sec_variationType a = sec_variationType b;
  r_sec_components : ropt Rcomponents (sec_components a) (sec_components b);
  r_sec_isRecurrence : sec_isRecurrence a = sec_isRecurrence b
}.

Record Rvariation (a b : Variation) : Prop := mkRvariation {
  r_var_index : var_index a = var_index b;
  r_var_period : Rperiod (var_period a) (var_period b);
  r_var_similarity : var_similarity a = var_similarity b;
  r_var_variationType : var_variationType a = var_variationType b
}.

Record Rform (a b : FormAnalysis) : Prop := mkRform {
  r_fa_formType : fa_formType a = fa_formType b;
  r_fa_sections : ropt (Forall2 Rsection) (fa_sections a) (fa_sections b);
  r_fa_confidence : fa_confidence a = fa_confidence b;
  r_fa_description : fa_description a = fa_description b;
  r_fa_theme : ropt Rperiod (fa_theme a) (fa_theme b);
  r_fa_variations : ropt (Forall2 Rvariation) (fa_variations a) (fa_variations b);
  r_fa_mainThemeCount : fa_mainThemeCount a = fa_mainThemeCount b;
  r_fa_episodeCount : fa_episodeCount a = fa_episodeCount b;
  r_fa_pattern : fa_pattern a = fa_pattern b
}.

Record Rauxiliary (a b : Auxiliary) : Prop := mkRauxiliary {
  r_aux_id : I (aux_id a) (aux_id b);
  r_aux_type : aux_type a = aux_type b;
  r_aux_name : aux_name a = aux_name b;
  r_aux_startMeasure : aux_startMeasure a = aux_startMeasure b;
  r_aux_endMeasure : aux_endMeasure a = aux_endMeasure b;
  r_aux_length : aux_length a = aux_length b;
  r_aux_notes : aux_notes a = aux_notes b;
  r_aux_function : aux_function a = aux_function b
}.

Record Rtransition (a b : Transition) : Prop := mkRtransition {
  r_trn_id : I (trn_id a) (trn_id b);
  r_trn_type : trn_type a = trn_type b;
  r_trn_name : trn_name a = trn_name b;
  r_trn_startMeasure : trn_startMeasure a = trn_startMeasure b;
  r_trn_endMeasure : trn_endMeasure a = trn_endMeasure b;
  r_trn_length : trn_length a = trn_length b;
  r_trn_fromSection : I (trn_fromSection a) (trn_fromSection b);
  r_trn_toSection : I (trn_toSection a) (trn_toSection b);
  r_trn_function : trn_function a = trn_function b
}.

Record Rextension (a b : Extension) : Prop := mkRextension {
  r_ext_id : I (ext_id a) (ext_id b);
  r_ext_type : ext_type a = ext_type b;
  r_ext_phraseId : I (ext_phraseId a) (ext_phraseId b);
  r_ext_estimatedLength : ext_estimatedLength a = ext_estimatedLength b;
  r_ext_position : ext_position a = ext_position b
}.

Record Roccurrence (a b : Occurrence) : Prop := mkRoccurrence {
  r_oc_periodIndex : oc_periodIndex a = oc_periodIndex b;
  r_oc_periodId : I (oc_periodId a) (oc_periodId b);
  r_oc_startMeasure : oc_startMeasure a = oc_startMeasure b;
  r_oc_endMeasure : oc_endMeasure a = oc_endMeasure b;
  r_oc_similarity : oc_similarity a = oc_similarity b;
  r_oc_isExact : oc_isExact a = oc_isExact b;
  r_oc_isVariation : oc_isVariation a = oc_isVariation b
}.

Record Rtheme (a b : Theme) : Prop := mkRtheme {
  r_th_id : I (th_id a) (th_id b);
  r_th_name : th_name a = th_name b;
  r_th_type : th_type a = th_type b;
  r_th_periods : Forall2 Rperiod (th_periods a) (th_periods b);
  r_th_startMeasure : th_startMeasure a = th_startMeasure b;
  r_th_endMeasure : th_endMeasure a = th_endMeasure b;
  r_th_occurrences : Forall2 Roccurrence (th_occurrences a) (th_occurrences b)
}.

Definition Rmapping (a b : list (Id * list Id)) : Prop :=
  Forall2 (fun e e' => I (fst e) (fst e') /\ Forall2 I (snd e) (snd e')) a b.

Record Rrelationships (a b : Relationships) : Prop := mkRrelationships {
  r_motiveToSubPhrase : Rmapping (motiveToSubPhrase a) (motiveToSubPhrase b);
  r_subPhraseToPhrase : Rmapping (subPhraseToPhrase a) (subPhraseToPhrase b);
  r_phraseToperiod : Rmapping (phraseToperiod a) (phraseToperiod b);
  r_periodToSection : Rmapping (periodToSection a) (periodToSection b)
}.

(** The five level counts of the hierarchy. *)
Definition levelCounts (h : Hierarchy) : list Z :=
  [level1_motives h; level2_subPhrases h; level3_phrases h; level4_periods h;
   level5_sections h].

Record RauxiliaryStructures (a b : AuxiliaryStructures) : Prop :=
  mkRauxiliaryStructures {
  r_introduction : ropt Rauxiliary (introduction a) (introduction b);
  r_coda : ropt Rauxiliary (coda a) (coda b);
  r_transitions : Forall2 Rtransition (transitions a) (transitions b);
  r_extensions : Forall2 Rextension (extensions a) (extensions b)
}.

(** Everything in a result but the themes and the identifier maps of
    the hierarchy. *)
Record Ranalysis (a b : FullAnalysis) : Prop := mkRanalysis {
  r_keySignature : fa_keySignature a = fa_keySignature b;
  r_timeSignature : fa_timeSignature a = fa_timeSignature b;
  r_modeAnalysis : modeAnalysis a = modeAnalysis b;
  r_levelCounts : levelCounts (hierarchy a) = levelCounts (hierarchy b);
  r_motives : Forall2 Rmotive (motives a) (motives b);
  r_subPhrases : Forall2 RsubPhrase (subPhrases a) (subPhrases b);
  r_phrases : Forall2 Rphrase (phrases a) (phrases b);
  r_periods : Forall2 Rperiod (periods a) (periods b);
  r_compoundPeriods : Forall2 RcompoundPeriod (compoundPeriods a) (compoundPeriods b);
  r_cadences : Forall2 Rcadence (cadences a) (cadences b);
  r_form : Rform (form a) (form b);
  r_auxiliaryStructures :
    RauxiliaryStructures (auxiliaryStructures a) (auxiliaryStructures b);
  r_statistics : statistics a = statistics b;
  r_processingInfo : processingInfo a = processingInfo b
}.

(** The themes and the identifier maps. *)
Record Rlinked (a b : FullAnalysis) : Prop := mkRlinked {
  r_themes : Forall2 Rtheme (themes a) (themes b);
  r_relationships :
    Rrelationships (relationships (hierarchy a)) (relationships (hierarchy b))
}.

(** What the chunked analysis shares with the complete one. *)
Record Rglobal (a b : FullAnalysis) : Prop := mkRglobal {
  g_cadences : Forall2 Rcadence (cadences a) (cadences b);
  g_phrases : Forall2 Rphrase (phrases a) (phrases b);
  g_periods : Forall2 Rperiod (periods a) (periods b);
  g_compoundPeriods : Forall2 RcompoundPeriod (compoundPeriods a) (compoundPeriods b);
  g_form : Rform (form a) (form b)
}.

(** Loop states in correspondence. *)
Definition RmoAcc : list Motive * Z -> list Motive * Z -> Prop :=
  rprod (Forall2 Rmotive) eq.
Definition RspAcc : list SubPhrase * Z -> list SubPhrase * Z -> Prop :=
  rprod (Forall2 RsubPhrase) eq.
Definition RphAcc : list Phrase * Z * Z -> list Phrase * Z * Z -> Prop :=
  rprod (rprod (Forall2 Rphrase) eq) eq.
Definition RsecAcc : list Section * Z * Z -> list Section * Z * Z -> Prop :=
  rprod (rprod (Forall2 Rsection) eq) eq.

(** The sub-phrase lists two phrase detections are given: whatever
    range of measures is cut out of them, the cuts correspond. *)
Definition SPin (sps sps' : list SubPhrase) : Prop :=
  forall g : Z -> Z -> bool,
    SP (filter (fun sp => g (sp_startMeasure sp) (sp_endMeasure sp)) sps)
       (filter (fun sp => g (sp_startMeasure sp) (sp_endMeasure sp)) sps').

End Relations.


(** The steps both analyses run once the motives and the sub-phrases
    are known (steps 4 to 12 of [analyzeComplete], 5 to 12 of
    [analyzeCompleteChunked]). *)
Local Open Scope idgen_scope.

Definition analysisTail (notes : list Note) (options : Options)
           (modeAnalysis : ModeAnalysis) (info : option ProcessingInfo)
           (motives : list Motive) (subPhrases : list SubPhrase) : M FullAnalysis :=
  cadences <- detectCadences notes (keySignature options) ;;
  phrases <- detectPhrases notes cadences subPhrases ;;
  periods <- detectPeriods phrases ;;
  compoundPeriods <- detectCompoundPeriods periods ;;
  formAnalysis0 <- detectForm periods ;;
  popFormAnalysis <- detectPopularMusicForm periods ;;
  let formAnalysis :=
    if Qgtb (fa_confidence popFormAnalysis) (fa_confidence formAnalysis0)
    then assignForm formAnalysis0 popFormAnalysis else formAnalysis0 in
  themes <- identifyThemes periods formAnalysis ;;
  introduction <-
    match periods with
    | p0 :: _ => detectIntroduction notes p0
    | [] => ret None
    end ;;
  coda <-
    match lastOpt periods with
    | Some pl => detectCoda notes pl (lastOpt cadences)
    | None => ret None
    end ;;
  transitions <- detectTransitions periods ;;
  extensions <- detectExtensions phrases ;;
  let hierarchy := buildHierarchy motives subPhrases phrases periods formAnalysis in
  ret {| fa_keySignature := keySignature options;
         fa_timeSignature := timeSignature options;
         modeAnalysis := modeAnalysis;
         hierarchy := hierarchy;
         motives := motives;
         subPhrases := subPhrases;
         phrases := phrases;
         periods := periods;
         compoundPeriods := compoundPeriods;
         cadences := cadences;
         form := formAnalysis;
         themes := themes;
         auxiliaryStructures := mkAuxiliaryStructures introduction coda transitions extensions;
         statistics := calculateStatistics notes motives subPhrases phrases periods cadences;
         processingInfo := info |}.

(** What a result owes to the motives and sub-phrases it was given. *)
Definition carries (notes : list Note) (options : Options) (modeAnalysis : ModeAnalysis)
           (info : option ProcessingInfo) (ms : list Motive) (sps : list SubPhrase)
           (r : FullAnalysis) : Prop :=
  fa_keySignature r = keySignature options
  /\ fa_timeSignature r = timeSignature options
  /\ RuleEngine.modeAnalysis r = modeAnalysis
  /\ processingInfo r = info
  /\ motives r = ms
  /\ subPhrases r = sps
  /\ hierarchy r = buildHierarchy ms sps (phrases r) (periods r) (form r)
  /\ statistics r = calculateStatistics notes ms sps (phrases r) (periods r) (cadences r).


(** Eight measures in C major, one note a measure: two periods of two
    phrases each, both closed by a perfect authentic cadence, the second
    unlike the first in intervals and in rhythm. *)
Definition twoPeriodNotes : list Note :=
  [PhraseSpec.bassNote "C3" 1; PhraseSpec.bassNote "G3" 2;
   PhraseSpec.bassNote "G3" 3; PhraseSpec.bassNote "C3" 4;
   mkNote (Some "C4") 1 5 0 1 None false; mkNote (Some "G3") 1 6 0 1 None false;
   mkNote (Some "G2") 1 7 0 1 None false; mkNote (Some "C3") 1 8 0 1 None false].

End Agreement.

(** ** The measure ranges of the structure tree *)

Module TreeSpec.

Import StructureAnalyzer.

(** A tree of measure ranges: what is left of a node when everything
    but [startMeasure], [endMeasure] and [children] is forgotten. *)
Inductive Ranges : Type := Range (s e : Z) (children : list Ranges).

Definition r_start (r : Ranges) : Z := match r with Range s _ _ => s end.
Definition r_end (r : Ranges) : Z := match r with Range _ e _ => e end.
Definition r_children (r : Ranges) : list Ranges := match r with Range _ _ cs => cs end.

Fixpoint ranges (n : Node) : Ranges :=
  match n with
  | mkNode _ _ s e cs _ _ _ _ _ => Range s e (map ranges cs)
  end.

Definition within (parent child : Ranges) : Prop :=
  r_start parent <= r_start child /\ r_end child <= r_end parent.

Definition before (a b : Ranges) : Prop := r_end a < r_start b.

(** Two ranges that share no measure. *)
Definition apart (a b : Ranges) : Prop := before a b \/ before b a.

(** Each range starts on the measure after the one before it ends. *)
Fixpoint adjacent (l : list Ranges) : Prop :=
  match l with
  | a :: (b :: _) as rest => r_start b = r_end a + 1 /\ adjacent rest
  | _ => True
  end.

(** The tree property: every node has [start <= end], holds the ranges
    of its children, and its children are pairwise apart; below the root
    the children of a node follow one another without a gap. *)
Inductive consistent (root : bool) : Ranges -> Prop :=
| Consistent :
    forall (s e : Z) (cs : list Ranges),
      s <= e ->
      Forall (within (Range s e cs)) cs ->
      Forall (consistent false) cs ->
      ForallOrdPairs apart cs ->
      (root = false -> adjacent cs) ->
      consistent root (Range s e cs).

(** The invariants of a parsed score: the measures are numbered 1, 2, ...
    in order, and every note lies in one of them. *)
Definition wellFormed (parsedScore : ParsedScore) : Prop :=
  map number (measures parsedScore)
  = map Z.of_nat (seq 1 (List.length (measures parsedScore)))
  /\ Forall (fun n => In (n_measureNumber n) (map number (measures parsedScore)))
            (notes parsedScore).

(** The ranges the tree builder produces, computed without the nodes. *)
Definition motiveRanges (startMeasure endMeasure : Z) : list Ranges :=
  let totalMeasures := endMeasure - startMeasure + 1 in
  let motiveSize := if totalMeasures <=? 2 then 1 else 2 in
  map (fun m => Range m (Z.min (m + motiveSize - 1) endMeasure) [])
      (motiveStarts startMeasure endMeasure motiveSize).

Definition withMotives (startMeasure endMeasure : Z) : Ranges :=
  Range startMeasure endMeasure (motiveRanges startMeasure endMeasure).

Definition phraseRanges (phrase : Phrase) : Ranges :=
  let s := ph_startMeasure phrase in
  let e := ph_endMeasure phrase in
  let phraseMeasures := e - s + 1 in
  if 4 <=? phraseMeasures then
    let midPoint := s + phraseMeasures / 2 - 1 in
    Range s e [withMotives s midPoint; withMotives (midPoint + 1) e]
  else withMotives s e.

Definition periodRanges (period : Period) : Ranges :=
  Range (match pe_phrases period with p :: _ => ZorElse (ph_startMeasure p) 0 | [] => 0 end)
        (match jsSliceFrom (pe_phrases period) (-1) with
         | p :: _ => ZorElse (ph_endMeasure p) 0
         | [] => 0
         end)
        (map phraseRanges (pe_phrases period)).

Definition sectionRanges (section : Section) : Ranges :=
  Range (sec_startMeasure section) (sec_endMeasure section) [].

Definition holds (s periodRange : Ranges) : bool :=
  (r_start s <=? r_start periodRange) && (r_end periodRange <=? r_end s).

Fixpoint attachRanges (rootChildren : list Ranges) (periodRange : Ranges) : list Ranges :=
  match rootChildren with
  | [] => [periodRange]
  | s :: rest =>
      if holds s periodRange
      then Range (r_start s) (r_end s) (r_children s ++ [periodRange]) :: rest
      else s :: attachRanges rest periodRange
  end.

Definition treeRanges (measureCount : Z) (periods : list Period) (sections : list Section)
  : Ranges :=
  Range 1 measureCount
        (fold_left attachRanges (map periodRanges periods) (map sectionRanges sections)).

(** Phrases that follow one another from measure [s] on, each with
    [start <= end]. *)
Fixpoint phraseChain (s : Z) (l : list Phrase) : Prop :=
  match l with
  | [] => True
  | p :: l' =>
      ph_startMeasure p = s /\ s <= ph_endMeasure p /\ phraseChain (ph_endMeasure p + 1) l'
  end.

(** The measure after the last phrase of a chain. *)
Fixpoint chainEnd (s : Z) (l : list Phrase) : Z :=
  match l with
  | [] => s
  | p :: l' => chainEnd (ph_endMeasure p + 1) l'
  end.

(** Periods that divide a chain of phrases among themselves, in order,
    each taking at least one phrase. *)
Fixpoint periodChain (s : Z) (l : list Period) : Prop :=
  match l with
  | [] => True
  | p :: l' =>
      pe_phrases p <> []
      /\ phraseChain s (pe_phrases p)
      /\ pe_startMeasure p = s
      /\ pe_endMeasure p = chainEnd s (pe_phrases p) - 1
      /\ periodChain (pe_endMeasure p + 1) l'
  end.

(** The measure after the last period of a chain. *)
Fixpoint periodChainEnd (s : Z) (l : list Period) : Z :=
  match l with
  | [] => s
  | p :: l' => periodChainEnd (pe_endMeasure p + 1) l'
  end.

(** Sections laid over the periods: each spans a run of one or more
    consecutive periods, the runs come in order and share no period;
    periods may be left out. *)
Inductive sliced : list Period -> list Section -> Prop :=
| sliced_done : forall ps, sliced ps []
| sliced_skip : forall p ps ss, sliced ps ss -> sliced (p :: ps) ss
| sliced_take :
    forall g ps s ss,
      g <> [] ->
      sec_startMeasure s = periodsStart g ->
      sec_endMeasure s = periodsEnd g ->
      sliced ps ss ->
      sliced (g ++ ps) (s :: ss).

(** A section that spans exactly one period. *)
Definition owns (p : Period) (s : Section) : Prop :=
  sec_startMeasure s = pe_startMeasure p /\ sec_endMeasure s = pe_endMeasure p.

(** The sections made for a run of periods: none for an empty run, one
    that spans it otherwise. *)
Definition spans (g : list Period) (gs : list Section) : Prop :=
  match g with
  | [] => gs = []
  | _ => exists s, gs = [s] /\ sec_startMeasure s = periodsStart g
                   /\ sec_endMeasure s = periodsEnd g
  end.

(** The state of the search for the middle part, before index [k]. *)
Definition middleInv (k : Z) (st : Z * Z * bool) : Prop :=
  let '(middleStart, middleEnd, _) := st in
  (middleStart = -1 \/ (1 <= middleStart /\ middleStart < k))
  /\ (middleEnd = -1 \/ (middleStart <> -1 /\ middleStart <= middleEnd /\ middleEnd + 1 < k)).

(** The score with no measure and no note. *)
Definition emptyScore : ParsedScore := mkParsedScore [] [] defaultKey None 120.

(** The measures a score of the given notes is made of: one measure for
    each number from 1 to [n]. *)
Definition scoreOf (n : nat) (notes : list Note) : ParsedScore :=
  mkParsedScore
    (map (fun k => mkMeasureInfo (Z.of_nat k)
                     (filter (fun x => n_measureNumber x =? Z.of_nat k) notes) 0 4)
         (seq 1 n))
    notes defaultKey (Some defaultTime) 120.

(** Four measures that keep the numbers 17 to 20 they had in a larger
    score. *)
Definition excerptScore : ParsedScore :=
  let notes := map (fun m => PhraseSpec.bassNote "C3" m) [17; 18; 19; 20] in
  mkParsedScore
    (map (fun m => mkMeasureInfo m (filter (fun x => n_measureNumber x =? m) notes) 0 4)
         [17; 18; 19; 20])
    notes defaultKey (Some defaultTime) 120.

End TreeSpec.

(** ** The items of the chunked analysis *)

Module ChunkSpec.

(** What a motive holds besides its identifier, its index and its
    relationship to the motive before it. *)
Definition MotiveContent : Type := (Z * Z * list Note * list Z * list Q * string)%type.

Definition motiveContent (m : Motive) : MotiveContent :=
  (mo_measureNumber m, mo_startBeat m, mo_notes m, mo_intervalPattern m,
   mo_rhythmPattern m, mo_contour m).

(** What a sub-phrase holds besides its identifier, its index, its
    motives and its material label. *)
Definition SubPhraseContent : Type := (Z * Z * Z * Z * list Note)%type.

Definition subPhraseContent (sp : SubPhrase) : SubPhraseContent :=
  (sp_startMeasure sp, sp_endMeasure sp, sp_startBeat sp, sp_endBeat sp, sp_notes sp).

(** Two lists hold the same items, whatever their order and number. *)
Definition sameItems {A K : Type} (content : A -> K) (l l' : list A) : Prop :=
  forall c : K, In c (map content l) <-> In c (map content l').

Definition noZeroMeasure (notes : list Note) : Prop :=
  Forall (fun n => n_measureNumber n <> 0) notes.

(** The motives of one measure, as [detectMotives] cuts them out of the
    notes of the measure: the loop over the beats with everything but
    the content of the motives left out. *)
Definition contentOf (measureNum startBeat : Z) (notes : list Note) : MotiveContent :=
  (measureNum, startBeat, notes, extractIntervalPattern notes,
   extractRhythmPattern notes, extractContour notes).

Definition pushContent (measureNum startBeat : Z) (currentMotive : list Note)
           (out : list MotiveContent) : list MotiveContent :=
  if 2 <=? Zlen currentMotive then out ++ [contentOf measureNum startBeat currentMotive]
  else out.

Definition beatContentStep (beatsPerMeasure measureNum : Z) (beatGroups : list (Z * list Note))
           (st : list MotiveContent * (list Note * Z)) (beat : Z)
  : list MotiveContent * (list Note * Z) :=
  let '(out, (currentMotive, motiveStartBeat)) := st in
  let beatNotes := groupOf beatGroups beat in
  let isStrongBeat := (beat =? 0) || ((beatsPerMeasure =? 4) && (beat =? 2)) in
  if isStrongBeat && (0 <? Zlen currentMotive)
  then (pushContent measureNum motiveStartBeat currentMotive out, (beatNotes, beat))
  else (out, (currentMotive ++ beatNotes, motiveStartBeat)).

Definition measureMotives (beatsPerMeasure : Z) (measureNum : Z) (measureNotes : list Note)
  : list MotiveContent :=
  match measureNotes with
  | [] => []
  | _ =>
      let beatGroups := groupNotesByBeat measureNotes beatsPerMeasure in
      let '(out, (currentMotive, motiveStartBeat)) :=
        fold_left (beatContentStep beatsPerMeasure measureNum beatGroups)
                  (Zrange beatsPerMeasure) ([], ([], 0)) in
      pushContent measureNum motiveStartBeat currentMotive out
  end.

(** The sub-phrases of one measure. *)
Definition measureSubPhrases (measureNum : Z) (measureNotes : list Note)
  : list SubPhraseContent :=
  if hasRhythmicBreak measureNotes && (4 <? Zlen measureNotes) then
    let midPoint := Zlen measureNotes / 2 in
    [(measureNum, measureNum, 0, 2, jsSlice measureNotes 0 midPoint);
     (measureNum, measureNum, 2, 4, jsSliceFrom measureNotes midPoint)]
  else [(measureNum, measureNum, 0, 4, measureNotes)].

(** The measures the chunks of a score span: first and last measure of
    each chunk. *)
Definition chunkRanges (notes : list Note) : list (Z * Z) :=
  let measureNumbers := sortedKeys (groupNotesByMeasure notes) in
  map (fun i =>
         (nth (Z.to_nat i) measureNumbers 0,
          nth (Z.to_nat (Z.min (i + maxMeasuresPerChunk) (Zlen measureNumbers) - 1))
              measureNumbers 0))
      (chunkStarts (Zlen measureNumbers) maxMeasuresPerChunk).

(** A measure at least two measures away from the first and the last
    measure of every chunk. *)
Definition awayFromBoundaries (notes : list Note) (measure : Z) : Prop :=
  Forall (fun b => 2 <= Z.abs (measure - fst b) /\ 2 <= Z.abs (measure - snd b))
         (chunkRanges notes).

(** The claim on motives as the specification states it: every motive of
    the chunked analysis that lies away from the chunk boundaries is, up
    to its identifiers, a motive of the complete analysis. *)
Definition motivesAgree (notes : list Note) (complete chunked : FullAnalysis) : Prop :=
  forall m,
    In m (motives chunked) -> awayFromBoundaries notes (mo_measureNumber m) ->
    exists m', In m' (motives complete) /\ Agreement.Rmotive Agreement.anyId m' m.

Definition pairNote (pitch : string) (m : Z) (b : Q) : Note :=
  mkNote (Some pitch) 1 m b 1 None false.

(** Sixty-four measures of two notes each: the smallest score the
    chunked path splits (chunks 1-32, 29-60 and 57-64). *)
Definition longNotes : list Note :=
  flat_map (fun m => [pairNote "C4" m 0; pairNote "E4" m 1]) (map Z.of_nat (seq 1 64)).

(** The measure a note is filed under by [groupNotesByMeasure]. *)
Definition keyOf (n : Note) : Z := ZorElse (n_measureNumber n) 1.

(** The notes of a chunk: those of the measures between two bounds. *)
Definition chunkOf (notes : list Note) (lo hi : Z) : list Note :=
  filter (fun n => (lo <=? n_measureNumber n) && (n_measureNumber n <=? hi)) notes.

(** What a detector working measure by measure yields on a list of
    notes: the items [per] cuts out of each measure, in the order of the
    measures, and nothing below [least] notes. *)
Definition itemsOf {K : Type} (per : Z -> list Note -> list K) (least : Z)
           (ns : list Note) : list K :=
  if Zlen ns <? least then []
  else flat_map (fun k => per k (groupOf (groupNotesByMeasure ns) k))
                (sortedKeys (groupNotesByMeasure ns)).

(** The notes of the chunk that starts at the measure of index [i]. *)
Definition chunkAt (notes : list Note) (i : Z) : list Note :=
  let measureNumbers := sortedKeys (groupNotesByMeasure notes) in
  chunkOf notes (nth (Z.to_nat i) measureNumbers 0)
          (nth (Z.to_nat (Z.min (i + maxMeasuresPerChunk) (Zlen measureNumbers) - 1))
               measureNumbers 0).

(** The sixty-four measures with one more note, numbered 0. *)
Definition zeroMeasureNotes : list Note :=
  mkNote (Some "G4") 1 0 2 1 None false :: longNotes.

End ChunkSpec.

(* ================================================================== *)

Module EngineSpec.

Import ChunkSpec.




(** The number of sharps of a key, kept within seven flats and seven sharps. *)
Definition clampFifths (fifths : Z) : Z := Z.max (-7) (Z.min 7 fifths).

(** The beat of the measure a note falls on. *)
Definition beatOf (beatsPerMeasure : Z) (n : Note) : Z :=
  floor (jsRem (n_beat n) beatsPerMeasure).

(** The MIDI number of the pitch of a note. *)
Definition midiOf (n : Note) : Z := pitchToMidi (n_pitch n).

(** A period numbered [index] that holds one to four phrases, counts
    them, and spans from the start of its first phrase to the end of its
    last. *)
Definition periodOf (index : Z) (pe : Period) : Prop :=
  1 <= Zlen (pe_phrases pe) <= 4
  /\ pe_index pe = index
  /\ pe_phraseCount pe = Zlen (pe_phrases pe)
  /\ pe_startMeasure pe = firstStart (pe_phrases pe)
  /\ pe_endMeasure pe = lastEnd (pe_phrases pe)
  /\ pe_length pe = pe_endMeasure pe - pe_startMeasure pe + 1.

(** Periods numbered [index], [index + 1], ... in the order of the list. *)
Fixpoint numbered (index : Z) (l : list Period) : Prop :=
  match l with
  | [] => True
  | pe :: l' => periodOf index pe /\ numbered (index + 1) l'
  end.



(** The extension reported for a phrase: four measures less than the
    phrase. *)
Definition extensionOf (p : Phrase) (e : Extension) : Prop :=
  ext_phraseId e = ph_id p /\ ext_estimatedLength e = ph_length p - 4.

(** A transition that fills the measures between the end of one period
    and the start of another. *)
Definition fillsGap (t : Transition) : Prop :=
  exists from to_,
    trn_fromSection t = pe_id from /\ trn_toSection t = pe_id to_
    /\ trn_startMeasure t = pe_endMeasure from + 1
    /\ trn_endMeasure t = pe_startMeasure to_ - 1
    /\ trn_length t = trn_endMeasure t - trn_startMeasure t + 1
    /\ 0 < trn_length t.

(** The content of a motive found in measure [measureNum] among [notes]. *)
Definition motiveFrom (notes : list Note) (measureNum : Z) (c : MotiveContent) : Prop :=
  let '(m, _, ns, intervals, rhythm, contour) := c in
  m = measureNum
  /\ 2 <= Zlen ns
  /\ (forall n, In n ns -> In n notes)
  /\ intervals = extractIntervalPattern ns
  /\ rhythm = extractRhythmPattern ns
  /\ contour = extractContour ns.

(** A motive of at least two notes of the score, all of the measure it
    is filed under, with the patterns and the contour of these notes. *)
Definition wellFormedMotive (notes : list Note) (m : Motive) : Prop :=
  2 <= Zlen (mo_notes m)
  /\ (forall n, In n (mo_notes m) -> In n notes /\ keyOf n = mo_measureNumber m)
  /\ mo_intervalPattern m = extractIntervalPattern (mo_notes m)
  /\ mo_rhythmPattern m = extractRhythmPattern (mo_notes m)
  /\ mo_contour m = extractContour (mo_notes m).

(** A sub-phrase that starts and ends in the measure of its notes. *)
Definition withinMeasure (sp : SubPhrase) : Prop :=
  sp_startMeasure sp = sp_endMeasure sp
  /\ forall n, In n (sp_notes sp) -> keyOf n = sp_startMeasure sp.

(** A list of themes that starts with a primary theme. *)
Definition headedByPrimary (themes : list Theme) : Prop :=
  match themes with
  | t :: _ => th_type t = "primary"
  | [] => False
  end.

(** An occurrence that names a period of the list at its index, with a
    similarity above 0.6, exact above 0.9 and a variation otherwise. *)
Definition occurrenceIn (allPeriods : list Period) (oc : Occurrence) : Prop :=
  Qgtb (oc_similarity oc) (6 # 10) = true
  /\ oc_isExact oc = Qgtb (oc_similarity oc) (9 # 10)
  /\ oc_isVariation oc = negb (oc_isExact oc)
  /\ exists p,
       nth_error allPeriods (Z.to_nat (oc_periodIndex oc)) = Some p
       /\ 0 <= oc_periodIndex oc
       /\ oc_periodId oc = pe_id p
       /\ oc_startMeasure oc = pe_startMeasure p
       /\ oc_endMeasure oc = pe_endMeasure p.

(** The number of cadences of a type. *)
Definition countOf (type : string) (cadences : list Cadence) : Z :=
  Zlen (filter (fun c => String.eqb (cad_type c) type) cadences).

(** A mode and its score that are listed among [scores], no listed
    score being higher. *)
Definition bestOf (scores : list (string * Q)) (mode : string) (confidence : Q) : Prop :=
  In (mode, confidence) scores
  /\ forall name score, In (name, score) scores -> (score <= confidence)%Q.


(** A form analysis whose sections that state a theme (function
    exposition, main_theme or theme) each hold at least one period, as
    the sections the form analyzers build do. *)
Definition themesHoldPeriods (formAnalysis : FormAnalysis) : bool :=
  match fa_sections formAnalysis with
  | Some sections =>
      forallb (fun section =>
                 let f := sec_function section in
                 negb (String.eqb f "exposition" || String.eqb f "main_theme"
                       || String.eqb f "theme")
                 || negb (Zlen (sec_periods section) =? 0))
              sections
  | None => true
  end.

End EngineSpec.

(* ================================================================== *)

Module AnalyzerSpec.

Import StructureAnalyzer.

(** A property of a node and of every node below it. *)
Fixpoint everyNode (P : Node -> Prop) (n : Node) : Prop :=
  P n /\ (fix all (cs : list Node) : Prop :=
            match cs with
            | [] => True
            | c :: cs' => everyNode P c /\ all cs'
            end) (nd_children n).

(** A node with a confidence between 0 and 1 and the visual style of
    this confidence. *)
Definition rated (n : Node) : Prop :=
  (0 <= nd_confidence n <= 1)%Q
  /\ nd_visualStyle n = Some (getConfidenceVisualStyle (nd_confidence n)).

(** A tree with its materials blanked. *)
Fixpoint eraseMaterial (n : Node) : Node :=
  mkNode (nd_id n) (nd_type n) (nd_startMeasure n) (nd_endMeasure n)
         (map eraseMaterial (nd_children n)) "" (nd_confidence n) (nd_features n)
         (nd_visualStyle n) (nd_tooltipData n).

(** A rated node whose tooltip repeats its identifier, type, material,
    measures, confidence and style, and names the features of its type. *)
Definition described (n : Node) : Prop :=
  rated n
  /\ match nd_tooltipData n with
     | Some t =>
         tt_nodeId t = nd_id n /\ tt_nodeType t = nd_type n
         /\ tt_material t = nd_material n
         /\ tt_startMeasure t = nd_startMeasure n /\ tt_endMeasure t = nd_endMeasure n
         /\ tt_confidence t = nd_confidence n
         /\ tt_visualStyle t = nd_visualStyle n
         /\ tt_usedFeatures t = getNodeFeatures n
     | None => False
     end.

End AnalyzerSpec.
(* ================================================================== *)
(** * Theorems *)

From Stdlib Require Import Lqa Sorted.

Module MonadFacts.

Lemma foldM_invariant :
  forall (A S : Type) (P : S -> Prop) (f : S -> A -> M S),
    (forall s a rnd n, P s -> P (fst (f s a rnd n))) ->
    forall l s rnd n, P s -> P (fst (foldM f l s rnd n)).
Proof.
  intros A S P f Hf l. induction l as [|a l IH]; intros s rnd n Hs; cbn; [exact Hs|].
  unfold bind. specialize (Hf s a rnd n Hs).
  destruct (f s a rnd n) as [s' n']. cbn in Hf. apply IH. exact Hf.
Qed.

End MonadFacts.

Module PostFacts.

Import Agreement.

Lemma Post_ret : forall (A : Type) (P : A -> Prop) a, P a -> Post P (ret a).
Proof. intros A P a H rnd n. exact H. Qed.

Lemma Post_bind :
  forall (A B : Type) (P : A -> Prop) (Q : B -> Prop) (m : M A) (k : A -> M B),
    Post P m -> (forall a, P a -> Post Q (k a)) -> Post Q (bind m k).
Proof.
  intros A B P Q m k Hm Hk rnd n. unfold bind.
  specialize (Hm rnd n). destruct (m rnd n) as [a n']. cbn in Hm.
  exact (Hk a Hm rnd n').
Qed.

Lemma Post_any : forall (A : Type) (m : M A), Post (fun _ => True) m.
Proof. intros A m rnd n. exact Logic.I. Qed.

Lemma Post_weaken :
  forall (A : Type) (P Q : A -> Prop) (m : M A),
    Post P m -> (forall a, P a -> Q a) -> Post Q m.
Proof. intros A P Q m H HPQ rnd n. apply HPQ, H. Qed.

Lemma Post_mapM :
  forall (A B : Type) (P : A -> B -> Prop) (f : A -> M B) l,
    (forall a, In a l -> Post (P a) (f a)) -> Post (Forall2 P l) (mapM f l).
Proof.
  intros A B P f l. induction l as [|a l IH]; intros H; cbn.
  - apply Post_ret. constructor.
  - eapply Post_bind; [apply H; now left|]. intros b Hb.
    eapply Post_bind; [apply IH; intros; apply H; now right|]. intros bs Hbs.
    apply Post_ret. now constructor.
Qed.

Lemma Post_foldM :
  forall (A S : Type) (P : S -> Prop) (f : S -> A -> M S) l,
    (forall s a, In a l -> P s -> Post P (f s a)) ->
    forall s, P s -> Post P (foldM f l s).
Proof.
  intros A S P f l. induction l as [|a l IH]; intros H s Hs; cbn.
  - now apply Post_ret.
  - eapply Post_bind; [apply H; [now left|exact Hs]|]. intros s' Hs'.
    apply IH; [|exact Hs']. intros; apply H; [now right|assumption].
Qed.

(** A loop whose state after the elements [done] satisfies [P done]. *)
Lemma Post_foldM_prefix :
  forall (A S : Type) (P : list A -> S -> Prop) (f : S -> A -> M S),
    (forall done s a, P done s -> Post (P (done ++ [a])) (f s a)) ->
    forall l done s, P done s -> Post (P (done ++ l)) (foldM f l s).
Proof.
  intros A S P f H l. induction l as [|a l IH]; intros done s Hs; cbn.
  - rewrite app_nil_r. now apply Post_ret.
  - eapply Post_bind; [apply H; exact Hs|]. intros s' Hs'.
    replace (done ++ a :: l) with ((done ++ [a]) ++ l) by now rewrite <- app_assoc.
    now apply IH.
Qed.

End PostFacts.

(** ** Agreement of two runs up to identifiers *)

Module AgreementFacts.

Import Agreement.

(** *** Lists in correspondence *)

Lemma Forall2_length_Z :
  forall (A B : Type) (R : A -> B -> Prop) l l', Forall2 R l l' -> Zlen l = Zlen l'.
Proof. intros A B R l l' H. unfold Zlen. now rewrite (Forall2_length H). Qed.

Lemma Forall2_map_eq :
  forall (A B X : Type) (R : A -> B -> Prop) (f : A -> X) (g : B -> X) l l',
    Forall2 R l l' -> (forall x y, R x y -> f x = g y) -> map f l = map g l'.
Proof.
  intros A B X R f g l l' H Hf. induction H as [|x y l l' Hxy _ IH]; cbn; [reflexivity|].
  now rewrite (Hf _ _ Hxy), IH.
Qed.

Lemma Forall2_flat_map_eq :
  forall (A B X : Type) (R : A -> B -> Prop) (f : A -> list X) (g : B -> list X) l l',
    Forall2 R l l' -> (forall x y, R x y -> f x = g y) -> flat_map f l = flat_map g l'.
Proof.
  intros A B X R f g l l' H Hf. induction H as [|x y l l' Hxy _ IH]; cbn; [reflexivity|].
  now rewrite (Hf _ _ Hxy), IH.
Qed.

Lemma Forall2_filter :
  forall (A B : Type) (R : A -> B -> Prop) (p : A -> bool) (q : B -> bool) l l',
    Forall2 R l l' -> (forall x y, R x y -> p x = q y) ->
    Forall2 R (filter p l) (filter q l').
Proof.
  intros A B R p q l l' H Hp. induction H as [|x y l l' Hxy _ IH]; cbn; [constructor|].
  rewrite (Hp _ _ Hxy). destruct (q y); [constructor|]; assumption.
Qed.

Lemma Forall2_existsb :
  forall (A B : Type) (R : A -> B -> Prop) (p : A -> bool) (q : B -> bool) l l',
    Forall2 R l l' -> (forall x y, R x y -> p x = q y) -> existsb p l = existsb q l'.
Proof.
  intros A B R p q l l' H Hp. induction H as [|x y l l' Hxy _ IH]; cbn; [reflexivity|].
  now rewrite (Hp _ _ Hxy), IH.
Qed.

Lemma Forall2_firstn :
  forall (A B : Type) (R : A -> B -> Prop) n l l',
    Forall2 R l l' -> Forall2 R (firstn n l) (firstn n l').
Proof.
  intros A B R n. induction n as [|n IH]; intros l l' H; cbn; [constructor|].
  destruct H; constructor; auto.
Qed.

Lemma Forall2_skipn :
  forall (A B : Type) (R : A -> B -> Prop) n l l',
    Forall2 R l l' -> Forall2 R (skipn n l) (skipn n l').
Proof.
  intros A B R n. induction n as [|n IH]; intros l l' H; cbn; [assumption|].
  destruct H; [constructor|auto].
Qed.

Lemma Forall2_jsSlice :
  forall (A B : Type) (R : A -> B -> Prop) s e l l',
    Forall2 R l l' -> Forall2 R (jsSlice l s e) (jsSlice l' s e).
Proof.
  intros A B R s e l l' H. unfold jsSlice, slice.
  rewrite <- (Forall2_length_Z H). now apply Forall2_firstn, Forall2_skipn.
Qed.

Lemma Forall2_jsSliceFrom :
  forall (A B : Type) (R : A -> B -> Prop) s l l',
    Forall2 R l l' -> Forall2 R (jsSliceFrom l s) (jsSliceFrom l' s).
Proof.
  intros A B R s l l' H. unfold jsSliceFrom.
  rewrite <- (Forall2_length_Z H). now apply Forall2_jsSlice.
Qed.

Lemma Forall2_nth_error :
  forall (A B : Type) (R : A -> B -> Prop) n l l',
    Forall2 R l l' -> ropt R (nth_error l n) (nth_error l' n).
Proof.
  intros A B R n. induction n as [|n IH]; intros l l' H; destruct H; cbn; auto.
Qed.

Lemma Forall2_lastOpt :
  forall (A B : Type) (R : A -> B -> Prop) l l',
    Forall2 R l l' -> ropt R (lastOpt l) (lastOpt l').
Proof.
  intros A B R l l' H. unfold lastOpt. rewrite <- (Forall2_length H).
  now apply Forall2_nth_error.
Qed.

Lemma Forall2_snoc :
  forall (A B : Type) (R : A -> B -> Prop) l l' x y,
    Forall2 R l l' -> R x y -> Forall2 R (l ++ [x]) (l' ++ [y]).
Proof. intros. apply Forall2_app; [assumption|]. constructor; [assumption|constructor]. Qed.

Lemma Forall2_combine_l :
  forall (A B X : Type) (R : A -> B -> Prop) (xs : list X) l l',
    Forall2 R l l' ->
    Forall2 (fun p q => fst p = fst q /\ R (snd p) (snd q)) (combine xs l) (combine xs l').
Proof.
  intros A B X R xs. induction xs as [|x xs IH]; intros l l' H; cbn; [constructor|].
  destruct H; constructor; cbn; auto.
Qed.

Lemma Forall2_combine_r :
  forall (A B X : Type) (R : A -> B -> Prop) (xs : list X) l l',
    Forall2 R l l' ->
    Forall2 (fun p q => R (fst p) (fst q) /\ snd p = snd q) (combine l xs) (combine l' xs).
Proof.
  intros A B X R xs l l' H. revert xs.
  induction H; intros xs; cbn; [constructor|]. destruct xs; constructor; cbn; auto.
Qed.

Lemma Forall2_combine :
  forall (A B A' B' : Type) (R : A -> B -> Prop) (S : A' -> B' -> Prop) l l' k k',
    Forall2 R l l' -> Forall2 S k k' ->
    Forall2 (rprod R S) (combine l k) (combine l' k').
Proof.
  intros A B A' B' R S l l' k k' H. revert k k'.
  induction H; intros k k' Hk; cbn; [constructor|].
  destruct Hk; constructor; [split; assumption|]. auto.
Qed.

Lemma Forall2_tl :
  forall (A B : Type) (R : A -> B -> Prop) l l', Forall2 R l l' -> Forall2 R (tl l) (tl l').
Proof. intros A B R l l' H. destruct H; cbn; [constructor|assumption]. Qed.

Lemma Forall2_insertBy :
  forall (A B : Type) (R : A -> B -> Prop) (f : A -> Z) (g : B -> Z) x y l l',
    (forall a b, R a b -> f a = g b) ->
    R x y -> Forall2 R l l' -> Forall2 R (insertBy f x l) (insertBy g y l').
Proof.
  intros A B R f g x y l l' Hf Hxy H. induction H as [|a b l l' Hab H IH]; cbn.
  - constructor; [assumption|constructor].
  - rewrite (Hf _ _ Hxy), (Hf _ _ Hab).
    destruct (g y <? g b); repeat (constructor; try assumption).
Qed.

Lemma Forall2_sortBy :
  forall (A B : Type) (R : A -> B -> Prop) (f : A -> Z) (g : B -> Z) l l',
    (forall a b, R a b -> f a = g b) ->
    Forall2 R l l' -> Forall2 R (sortBy f l) (sortBy g l').
Proof.
  intros A B R f g l l' Hf H. unfold sortBy.
  assert (G : forall acc acc', Forall2 R acc acc' ->
            Forall2 R (fold_left (fun a x => insertBy f x a) l acc)
                      (fold_left (fun a x => insertBy g x a) l' acc')).
  { induction H; intros acc acc' Ha; cbn; [assumption|].
    apply IHForall2. now apply Forall2_insertBy. }
  apply G. constructor.
Qed.

Lemma ropt_eq : forall (A : Type) (a b : option A), ropt eq a b -> a = b.
Proof. intros A [x|] [y|]; cbn; intros H; try contradiction; congruence. Qed.

Section Runs.

Variables rnd1 rnd2 : Rand.
Variable C : nat -> nat -> Prop.
Variable I : Id -> Id -> Prop.
Hypothesis C_next : forall n1 n2, C n1 n2 -> C (S n1) (S n2).
Hypothesis I_draw : forall n1 n2, C n1 n2 -> I (rnd1 n1) (rnd2 n2).

Abbreviation RM := (RelM rnd1 rnd2 C).

Lemma RelM_ret :
  forall (A B : Type) (R : A -> B -> Prop) a b, R a b -> RM R (ret a) (ret b).
Proof. intros A B R a b H n1 n2 Hn. cbn. auto. Qed.

Lemma RelM_bind :
  forall (A B A' B' : Type) (R : A -> B -> Prop) (S : A' -> B' -> Prop)
         (m : M A) (m' : M B) (k : A -> M A') (k' : B -> M B'),
    RM R m m' -> (forall a b, R a b -> RM S (k a) (k' b)) ->
    RM S (bind m k) (bind m' k').
Proof.
  intros A B A' B' R S m m' k k' Hm Hk n1 n2 Hn. unfold bind.
  destruct (Hm n1 n2 Hn) as [Hr Hc].
  destruct (m rnd1 n1) as [a n1'], (m' rnd2 n2) as [b n2']. cbn in *.
  exact (Hk a b Hr n1' n2' Hc).
Qed.

Lemma RelM_generateId : RM I generateId generateId.
Proof. intros n1 n2 Hn. cbn. auto. Qed.

Lemma RelM_weaken :
  forall (A B : Type) (R R' : A -> B -> Prop) m m',
    RM R m m' -> (forall a b, R a b -> R' a b) -> RM R' m m'.
Proof. intros A B R R' m m' H HR n1 n2 Hn. destruct (H n1 n2 Hn). auto. Qed.

Lemma RelM_foldM :
  forall (A B S S' : Type) (RA : A -> B -> Prop) (RS : S -> S' -> Prop)
         (f : S -> A -> M S) (f' : S' -> B -> M S'),
    (forall s s' a b, RS s s' -> RA a b -> RM RS (f s a) (f' s' b)) ->
    forall l l', Forall2 RA l l' ->
    forall s s', RS s s' -> RM RS (foldM f l s) (foldM f' l' s').
Proof.
  intros A B S S' RA RS f f' Hf l l' H.
  induction H as [|a b l l' Hab _ IH]; intros s s' Hs; cbn.
  - now apply RelM_ret.
  - eapply RelM_bind; [apply Hf; eassumption|]. intros; now apply IH.
Qed.

Lemma RelM_foldM_same :
  forall (A S S' : Type) (RS : S -> S' -> Prop)
         (f : S -> A -> M S) (f' : S' -> A -> M S'),
    (forall s s' a, RS s s' -> RM RS (f s a) (f' s' a)) ->
    forall l s s', RS s s' -> RM RS (foldM f l s) (foldM f' l s').
Proof.
  intros A S S' RS f f' Hf l. induction l as [|a l IH]; intros s s' Hs; cbn.
  - now apply RelM_ret.
  - eapply RelM_bind; [apply Hf; eassumption|]. intros; now apply IH.
Qed.

Lemma RelM_mapM :
  forall (A B X Y : Type) (RA : A -> B -> Prop) (RX : X -> Y -> Prop)
         (f : A -> M X) (f' : B -> M Y),
    (forall a b, RA a b -> RM RX (f a) (f' b)) ->
    forall l l', Forall2 RA l l' -> RM (Forall2 RX) (mapM f l) (mapM f' l').
Proof.
  intros A B X Y RA RX f f' Hf l l' H. induction H as [|a b l l' Hab _ IH]; cbn.
  - apply RelM_ret. constructor.
  - eapply RelM_bind; [apply Hf; eassumption|]. intros x y Hxy.
    eapply RelM_bind; [exact IH|]. intros xs ys Hxs. apply RelM_ret. now constructor.
Qed.


(** *** Motives *)

Variable SP : list SubPhrase -> list SubPhrase -> Prop.

Abbreviation Rmo := (Rmotive I).
Abbreviation Rsp := (RsubPhrase I).
Abbreviation Rcad := (Rcadence I).
Abbreviation Rph := (Rphrase I SP).
Abbreviation Rpe := (Rperiod I SP).
Abbreviation AccMo := (Agreement.RmoAcc I).
Abbreviation AccSp := (Agreement.RspAcc I).
Abbreviation AccPh := (Agreement.RphAcc I SP).
Abbreviation AccSec := (Agreement.RsecAcc I SP).
Abbreviation SPok := (Agreement.SPin SP).

Ltac same H := destruct H; repeat match goal with E : ?f _ = ?f _ |- _ => try rewrite <- E; clear E end.

Lemma analyzeMotiveRelationship_rel :
  forall a a' b b', Rmo a a' -> Rmo b b' ->
    analyzeMotiveRelationship a b = analyzeMotiveRelationship a' b'.
Proof.
  intros a a' b b' Ha Hb. unfold analyzeMotiveRelationship, isFragmentation.
  same Ha. same Hb. reflexivity.
Qed.

Lemma setRelationship_rel :
  forall a a' b b', Rmo a a' -> Rmo b b' -> Rmo (setRelationship a b) (setRelationship a' b').
Proof.
  intros a a' b b' Ha Hb. unfold setRelationship.
  rewrite <- (analyzeMotiveRelationship_rel Ha Hb).
  destruct Ha, Hb. constructor; cbn; try assumption; try reflexivity.
  destruct (negb _); cbn; auto.
Qed.

Lemma labelAfter_rel :
  forall l l', Forall2 Rmo l l' -> forall a a', Rmo a a' ->
    Forall2 Rmo (labelAfter a l) (labelAfter a' l').
Proof.
  intros l l' H. induction H as [|b b' l l' Hb _ IH]; intros a a' Ha; cbn; constructor.
  - now apply setRelationship_rel.
  - apply IH. now apply setRelationship_rel.
Qed.

Lemma labelMotiveRelationships_rel :
  forall l l', Forall2 Rmo l l' ->
    Forall2 Rmo (labelMotiveRelationships l) (labelMotiveRelationships l').
Proof.
  intros l l' H. destruct H; cbn; constructor; [assumption|]. now apply labelAfter_rel.
Qed.


Lemma pushMotive_rel :
  forall measureNum startBeat current acc acc', AccMo acc acc' ->
    RM AccMo (pushMotive measureNum startBeat current acc)
              (pushMotive measureNum startBeat current acc').
Proof.
  intros measureNum startBeat current [ms k] [ms' k'] [Hms Hk]. cbn in Hms, Hk. subst k'.
  unfold pushMotive. destruct (2 <=? Zlen current).
  - eapply RelM_bind; [apply RelM_generateId; assumption|]. intros i i' Hi.
    apply RelM_ret. split; cbn; [|reflexivity].
    apply Forall2_snoc; [assumption|]. constructor; cbn; auto.
  - apply RelM_ret. split; cbn; auto.
Qed.

Lemma motiveBeatStep_rel :
  forall bpm measureNum groups st st' beat, rprod AccMo eq st st' ->
    RM (rprod AccMo eq) (motiveBeatStep bpm measureNum groups st beat)
                         (motiveBeatStep bpm measureNum groups st' beat).
Proof.
  intros bpm measureNum groups [acc [cur sb]] [acc' cs'] beat [Hacc Hcs].
  cbn in Hacc, Hcs. subst cs'. unfold motiveBeatStep.
  destruct (_ && _).
  - eapply RelM_bind; [apply pushMotive_rel; eassumption|]. intros a b Hab.
    apply RelM_ret. split; cbn; auto.
  - apply RelM_ret. split; cbn; auto.
Qed.

Lemma motiveMeasureStep_rel :
  forall bpm groups acc acc' measureNum, AccMo acc acc' ->
    RM AccMo (motiveMeasureStep bpm groups acc measureNum)
              (motiveMeasureStep bpm groups acc' measureNum).
Proof.
  intros bpm groups acc acc' measureNum Hacc. unfold motiveMeasureStep.
  destruct (groupOf groups measureNum) as [|n ns]; [now apply RelM_ret|].
  eapply RelM_bind.
  - apply RelM_foldM_same with (RS := rprod AccMo eq).
    + intros; now apply motiveBeatStep_rel.
    + split; cbn; auto.
  - intros [a [cur sb]] [a' cs'] [Ha Hcs]. cbn in Ha, Hcs. subst cs'.
    now apply pushMotive_rel.
Qed.

Lemma detectMotives_rel :
  forall notes timeSignature,
    RM (Forall2 Rmo) (detectMotives notes timeSignature) (detectMotives notes timeSignature).
Proof.
  intros notes timeSignature. unfold detectMotives.
  destruct (Zlen notes <? 2); [apply RelM_ret; constructor|].
  eapply RelM_bind.
  - apply RelM_foldM_same with (RS := AccMo).
    + intros; now apply motiveMeasureStep_rel.
    + split; cbn; auto.
  - intros [ms k] [ms' k'] [Hms _]. apply RelM_ret.
    now apply labelMotiveRelationships_rel.
Qed.


(** *** Sub-phrases *)

Lemma getMotivesInRange_rel :
  forall ms ms' measureNum startBeat endBeat, Forall2 Rmo ms ms' ->
    Forall2 Rmo (getMotivesInRange ms measureNum startBeat endBeat)
                (getMotivesInRange ms' measureNum startBeat endBeat).
Proof.
  intros. unfold getMotivesInRange. apply Forall2_filter; [assumption|].
  intros x y Hxy. same Hxy. reflexivity.
Qed.

Lemma calculateSubPhraseSimilarity_rel :
  forall a a' b b', Rsp a a' -> Rsp b b' ->
    calculateSubPhraseSimilarity a b = calculateSubPhraseSimilarity a' b'.
Proof.
  intros a a' b b' Ha Hb. unfold calculateSubPhraseSimilarity. same Ha. same Hb. reflexivity.
Qed.

Lemma setSpMaterial_rel :
  forall a a' material similarTo similarTo' similarity,
    Rsp a a' -> ropt I similarTo similarTo' ->
    Rsp (setSpMaterial a material similarTo similarity)
        (setSpMaterial a' material similarTo' similarity).
Proof. intros a a' material s s' q Ha Hs. destruct Ha. constructor; cbn; auto. Qed.

Lemma findSimilarSp_rel :
  forall l l', Forall2 Rsp l l' -> forall a a', Rsp a a' ->
    ropt Rsp (findSimilarSp a l) (findSimilarSp a' l').
Proof.
  intros l l' H. induction H as [|b b' l l' Hb _ IH]; intros a a' Ha; cbn; [exact Logic.I|].
  rewrite <- (calculateSubPhraseSimilarity_rel Ha Hb).
  pose proof (r_sp_material Hb) as Em. pose proof (r_sp_id Hb) as Ei. rewrite <- Em.
  destruct (Qgtb _ (8#10)); [cbn; now apply setSpMaterial_rel|].
  destruct (Qgtb _ (5#10)); [cbn; now apply setSpMaterial_rel|]. now apply IH.
Qed.


Lemma subPhraseMaterialStep_rel :
  forall st st' a a', AccSp st st' -> Rsp a a' ->
    AccSp (subPhraseMaterialStep st a) (subPhraseMaterialStep st' a').
Proof.
  intros [l k] [l' k'] a a' [Hl Hk] Ha. cbn in Hl, Hk. subst k'.
  unfold subPhraseMaterialStep. pose proof (findSimilarSp_rel Hl Ha) as Hf.
  destruct (findSimilarSp a l), (findSimilarSp a' l'); cbn in Hf; try contradiction.
  - split; cbn; [|reflexivity]. now apply Forall2_snoc.
  - split; cbn; [|reflexivity]. apply Forall2_snoc; [assumption|].
    pose proof (r_sp_similarity Ha) as Es. rewrite <- Es.
    apply setSpMaterial_rel; [assumption|]. exact (r_sp_similarTo Ha).
Qed.

Lemma analyzeSubPhraseMaterials_rel :
  forall l l', Forall2 Rsp l l' ->
    Forall2 Rsp (analyzeSubPhraseMaterials l) (analyzeSubPhraseMaterials l').
Proof.
  intros l l' H. unfold analyzeSubPhraseMaterials.
  assert (G : forall st st', AccSp st st' ->
            AccSp (fold_left subPhraseMaterialStep l st)
                   (fold_left subPhraseMaterialStep l' st')).
  { induction H; intros st st' Hst; cbn; [assumption|].
    apply IHForall2. now apply subPhraseMaterialStep_rel. }
  apply G. split; cbn; auto.
Qed.

Lemma newSubPhrase_rel :
  forall index measureNum startBeat endBeat notes ms ms', Forall2 Rmo ms ms' ->
    RM Rsp (newSubPhrase index measureNum startBeat endBeat notes ms)
           (newSubPhrase index measureNum startBeat endBeat notes ms').
Proof.
  intros. unfold newSubPhrase.
  eapply RelM_bind; [apply RelM_generateId; assumption|]. intros i i' Hi.
  apply RelM_ret. constructor; cbn; auto. now apply getMotivesInRange_rel.
Qed.

Lemma subPhraseMeasureStep_rel :
  forall groups ms ms' acc acc' measureNum, Forall2 Rmo ms ms' -> AccSp acc acc' ->
    RM AccSp (subPhraseMeasureStep groups ms acc measureNum)
              (subPhraseMeasureStep groups ms' acc' measureNum).
Proof.
  intros groups ms ms' [l k] [l' k'] measureNum Hms [Hl Hk]. cbn in Hl, Hk. subst k'.
  unfold subPhraseMeasureStep. destruct (_ && _).
  - eapply RelM_bind; [now apply newSubPhrase_rel|]. intros a a' Ha.
    eapply RelM_bind; [now apply newSubPhrase_rel|]. intros b b' Hb.
    apply RelM_ret. split; cbn; [|reflexivity].
    apply Forall2_app; [assumption|]. constructor; [assumption|]. constructor; [assumption|constructor].
  - eapply RelM_bind; [now apply newSubPhrase_rel|]. intros a a' Ha.
    apply RelM_ret. split; cbn; [|reflexivity]. now apply Forall2_snoc.
Qed.

Lemma detectSubPhrases_rel :
  forall notes ms ms', Forall2 Rmo ms ms' ->
    RM (Forall2 Rsp) (detectSubPhrases notes ms) (detectSubPhrases notes ms').
Proof.
  intros notes ms ms' Hms. unfold detectSubPhrases.
  eapply RelM_bind.
  - apply RelM_foldM_same with (RS := AccSp).
    + intros; now apply subPhraseMeasureStep_rel.
    + split; cbn; auto.
  - intros [l k] [l' k'] [Hl _]. apply RelM_ret. now apply analyzeSubPhraseMaterials_rel.
Qed.

(** *** Cadences *)

Lemma newCadence_rel :
  forall measureNumber type strength confidence,
    RM (ropt Rcad) (newCadence measureNumber type strength confidence)
                   (newCadence measureNumber type strength confidence).
Proof.
  intros. unfold newCadence.
  eapply RelM_bind; [apply RelM_generateId; assumption|]. intros i i' Hi.
  apply RelM_ret. cbn. constructor; cbn; auto.
Qed.

Lemma classifyCadence_rel :
  forall prevDegree currDegree melodyDegree measureNumber mode,
    RM (ropt Rcad) (classifyCadence prevDegree currDegree melodyDegree measureNumber mode)
                   (classifyCadence prevDegree currDegree melodyDegree measureNumber mode).
Proof.
  intros. unfold classifyCadence.
  repeat match goal with
         | |- RelM _ _ _ _ (if ?b then _ else _) _ => destruct b
         end; try apply newCadence_rel.
  apply RelM_ret. exact Logic.I.
Qed.

Lemma cadenceStep_rel :
  forall tonic mode groups cs cs' pair, Forall2 Rcad cs cs' ->
    RM (Forall2 Rcad) (cadenceStep tonic mode groups cs pair)
                      (cadenceStep tonic mode groups cs' pair).
Proof.
  intros tonic mode groups cs cs' [p c] H. unfold cadenceStep.
  destruct (getLowestNote (groupOf groups p)); [|now apply RelM_ret].
  destruct (getLowestNote (groupOf groups c)); [|now apply RelM_ret].
  eapply RelM_bind; [apply classifyCadence_rel|].
  intros [x|] [y|] Hxy; cbn in Hxy; try contradiction; apply RelM_ret; [|assumption].
  now apply Forall2_snoc.
Qed.

Lemma detectCadences_rel :
  forall notes keySignature,
    RM (Forall2 Rcad) (detectCadences notes keySignature) (detectCadences notes keySignature).
Proof.
  intros. unfold detectCadences. apply RelM_foldM_same.
  - intros; now apply cadenceStep_rel.
  - constructor.
Qed.

Lemma getCadenceStrength_rel :
  forall c c', ropt Rcad c c' -> getCadenceStrength c = getCadenceStrength c'.
Proof.
  intros [c|] [c'|] H; cbn in H; try contradiction; [|reflexivity].
  unfold getCadenceStrength. now rewrite (r_cad_type H).
Qed.


(** *** Phrases *)


Lemma newPhrase_rel :
  forall index startMeasure endMeasure length c c' notes sps sps' closure,
    ropt Rcad c c' -> SP sps sps' ->
    RM Rph (newPhrase index startMeasure endMeasure length c notes sps closure)
           (newPhrase index startMeasure endMeasure length c' notes sps' closure).
Proof.
  intros. unfold newPhrase.
  eapply RelM_bind; [apply RelM_generateId; assumption|]. intros i i' Hi.
  apply RelM_ret. constructor; cbn; auto.
Qed.


Lemma closureOf_rel : forall c c', ropt Rcad c c' -> closureOf c = closureOf c'.
Proof. intros c c' H. unfold closureOf. now rewrite (getCadenceStrength_rel _ _ H). Qed.

Lemma phraseStep_rel :
  forall notes sps sps' st st' c c', SPok sps sps' -> AccPh st st' -> Rcad c c' ->
    RM AccPh (phraseStep notes sps st c) (phraseStep notes sps' st' c').
Proof.
  intros notes sps sps' [[l s] k] [[l' s'] k'] c c' Hsp [[Hl Hs] Hk] Hc.
  cbn in Hl, Hs, Hk. subst s' k'. unfold phraseStep.
  rewrite <- (r_cad_measureNumber Hc).
  assert (Ec : closureOf (Some c) = closureOf (Some c')) by now apply closureOf_rel.
  rewrite <- Ec.
  destruct (_ && _).
  - eapply RelM_bind.
    + apply newPhrase_rel; [exact Hc|].
      apply (Hsp (fun a b => (s <=? a) && (b <=? cad_measureNumber c))).
    + intros p p' Hp. apply RelM_ret. repeat split; cbn; auto. now apply Forall2_snoc.
  - destruct (12 <? _).
    + eapply RelM_bind.
      * apply newPhrase_rel; [exact Logic.I|].
        apply (Hsp (fun a b => (s <=? a)
                               && (b <=? s + (cad_measureNumber c - s + 1) / 2))).
      * intros p p' Hp. eapply RelM_bind.
        -- apply newPhrase_rel; [exact Hc|].
           apply (Hsp (fun a b => (s + (cad_measureNumber c - s + 1) / 2 <? a)
                                  && (b <=? cad_measureNumber c))).
        -- intros q q' Hq. apply RelM_ret. repeat split; cbn; auto.
           apply Forall2_app; [assumption|].
           constructor; [assumption|]. constructor; [assumption|constructor].
    + apply RelM_ret. repeat split; cbn; auto.
Qed.

Lemma phraseRemainder_rel :
  forall notes sps sps' lastMeasure st st', SPok sps sps' -> AccPh st st' ->
    RM (Forall2 Rph) (phraseRemainder notes sps lastMeasure st)
                     (phraseRemainder notes sps' lastMeasure st').
Proof.
  intros notes sps sps' lastMeasure [[l s] k] [[l' s'] k'] Hsp [[Hl Hs] Hk].
  cbn in Hl, Hs, Hk. subst s' k'. unfold phraseRemainder.
  destruct (s <=? lastMeasure); [|now apply RelM_ret].
  destruct (2 <=? _); [|now apply RelM_ret].
  eapply RelM_bind.
  - apply newPhrase_rel; [exact Logic.I|]. apply (Hsp (fun a b => s <=? a)).
  - intros p p' Hp. apply RelM_ret. now apply Forall2_snoc.
Qed.

Lemma comparePhraseHeads_rel :
  forall a a' b b', Rph a a' -> Rph b b' ->
    comparePhraseHeads a b = comparePhraseHeads a' b'.
Proof.
  intros a a' b b' Ha Hb. unfold comparePhraseHeads.
  now rewrite (r_ph_notes Ha), (r_ph_notes Hb).
Qed.

Lemma comparePhraseTails_rel :
  forall a a' b b', Rph a a' -> Rph b b' ->
    comparePhraseTails a b = comparePhraseTails a' b'.
Proof.
  intros a a' b b' Ha Hb. unfold comparePhraseTails.
  now rewrite (r_ph_notes Ha), (r_ph_notes Hb).
Qed.

Lemma setPhraseMaterial_rel :
  forall a a' material relationship headSimilarity, Rph a a' ->
    Rph (setPhraseMaterial a material relationship headSimilarity)
        (setPhraseMaterial a' material relationship headSimilarity).
Proof. intros a a' m r h Ha. destruct Ha. constructor; cbn; auto. Qed.

Lemma relatePhrase_rel :
  forall a a' b b', Rph a a' -> Rph b b' -> Rph (relatePhrase a b) (relatePhrase a' b').
Proof.
  intros a a' b b' Ha Hb. unfold relatePhrase.
  rewrite <- (comparePhraseHeads_rel Ha Hb), <- (comparePhraseTails_rel Ha Hb).
  rewrite <- (r_ph_material Ha), <- (r_ph_material Hb), <- (r_ph_headSimilarity Hb).
  repeat match goal with
         | |- Rphrase _ _ (if ?c then _ else _) _ => destruct c
         end; now apply setPhraseMaterial_rel.
Qed.

Lemma relateAfter_rel :
  forall l l', Forall2 Rph l l' -> forall a a', Rph a a' ->
    Forall2 Rph (relateAfter a l) (relateAfter a' l').
Proof.
  intros l l' H. induction H as [|b b' l l' Hb _ IH]; intros a a' Ha; cbn; constructor.
  - now apply relatePhrase_rel.
  - apply IH. now apply relatePhrase_rel.
Qed.

Lemma analyzePhraseMaterials_rel :
  forall l l', Forall2 Rph l l' ->
    Forall2 Rph (analyzePhraseMaterials l) (analyzePhraseMaterials l').
Proof.
  intros l l' H. destruct H; cbn; constructor; [assumption|]. now apply relateAfter_rel.
Qed.

Lemma detectPhrases_rel :
  forall notes cs cs' sps sps', Forall2 Rcad cs cs' -> SPok sps sps' ->
    RM (Forall2 Rph) (detectPhrases notes cs sps) (detectPhrases notes cs' sps').
Proof.
  intros notes cs cs' sps sps' Hcs Hsp. unfold detectPhrases.
  destruct (sortedKeys (groupNotesByMeasure notes)) as [|first ks]; [apply RelM_ret; constructor|].
  destruct (lastOpt (first :: ks)) as [lastMeasure|]; [|apply RelM_ret; constructor].
  eapply RelM_bind.
  - apply RelM_foldM with (RA := Rcad) (RS := AccPh).
    + intros; now apply phraseStep_rel.
    + apply Forall2_sortBy; [|assumption]. intros a b Hab. exact (r_cad_measureNumber Hab).
    + repeat split; cbn; auto.
  - intros st st' Hst. eapply RelM_bind; [now apply phraseRemainder_rel|].
    intros l l' Hl. apply RelM_ret. now apply analyzePhraseMaterials_rel.
Qed.


(** *** Periods *)

Lemma isNewSection_rel :
  forall a a' b b', Rph a a' -> Rph b b' -> isNewSection a b = isNewSection a' b'.
Proof.
  intros a a' b b' Ha Hb. unfold isNewSection.
  now rewrite (comparePhraseHeads_rel Ha Hb), (getCadenceStrength_rel _ _ (r_ph_cadence Ha)).
Qed.

Lemma isSequentialRelation_rel :
  forall a a' b b', Rph a a' -> Rph b b' ->
    isSequentialRelation a b = isSequentialRelation a' b'.
Proof.
  intros a a' b b' Ha Hb. unfold isSequentialRelation.
  now rewrite (r_ph_notes Ha), (r_ph_notes Hb).
Qed.

Lemma classifyPeriodType_rel :
  forall l l', Forall2 Rph l l' -> classifyPeriodType l = classifyPeriodType l'.
Proof.
  intros l l' H. unfold classifyPeriodType.
  destruct H as [|a a' l l' Ha H]; [reflexivity|].
  destruct H as [|b b' l l' Hb H]; [reflexivity|].
  destruct H as [|c c' l l' Hc H].
  { now rewrite (r_ph_relationship Hb), (r_ph_headSimilarity Hb),
      (isSequentialRelation_rel Ha Hb). }
  destruct H as [|d d' l l' Hd H]; [reflexivity|].
  destruct H; reflexivity.
Qed.

Lemma classifyProportion_rel :
  forall l l', Forall2 Rph l l' -> classifyProportion l = classifyProportion l'.
Proof.
  intros l l' H. unfold classifyProportion.
  assert (E : map ph_length l = map ph_length l').
  { eapply Forall2_map_eq; [exact H|]. intros x y Hxy. exact (r_ph_length Hxy). }
  destruct H as [|a a' l l' Ha H]; [reflexivity|].
  destruct H as [|b b' l l' Hb H]; [reflexivity|].
  rewrite E, (r_ph_length Ha). reflexivity.
Qed.

Lemma derivePeriodMaterial_rel :
  forall l l', Forall2 Rph l l' -> derivePeriodMaterial l = derivePeriodMaterial l'.
Proof.
  intros l l' H. unfold derivePeriodMaterial.
  assert (E : map (fun p => charAt0 (ph_material p)) l
              = map (fun p => charAt0 (ph_material p)) l').
  { eapply Forall2_map_eq; [exact H|]. intros x y Hxy. now rewrite (r_ph_material Hxy). }
  destruct H; [reflexivity|]. now rewrite E.
Qed.

Lemma firstStart_rel : forall l l', Forall2 Rph l l' -> firstStart l = firstStart l'.
Proof. intros l l' H. destruct H as [|a b l l' Hab H]; cbn; [reflexivity|]. exact (r_ph_startMeasure Hab). Qed.

Lemma lastEnd_rel : forall l l', Forall2 Rph l l' -> lastEnd l = lastEnd l'.
Proof.
  intros l l' H. unfold lastEnd. pose proof (Forall2_lastOpt H) as HL.
  destruct (lastOpt l), (lastOpt l'); cbn in HL; try contradiction; [|reflexivity].
  exact (r_ph_endMeasure HL).
Qed.

Lemma lastCadenceOf_rel :
  forall l l', Forall2 Rph l l' -> ropt Rcad (lastCadenceOf l) (lastCadenceOf l').
Proof.
  intros l l' H. unfold lastCadenceOf. pose proof (Forall2_lastOpt H) as HL.
  destruct (lastOpt l), (lastOpt l'); cbn in HL; try contradiction; [|exact Logic.I].
  exact (r_ph_cadence HL).
Qed.

Lemma createPeriod_rel :
  forall l l' index, Forall2 Rph l l' -> RM Rpe (createPeriod l index) (createPeriod l' index).
Proof.
  intros l l' index H. unfold createPeriod.
  eapply RelM_bind; [apply RelM_generateId; assumption|]. intros i i' Hi.
  apply RelM_ret. constructor; cbn; auto.
  - now apply firstStart_rel.
  - now apply lastEnd_rel.
  - now rewrite (firstStart_rel H), (lastEnd_rel H).
  - now apply Forall2_length_Z with (R := Rph).
  - now apply classifyPeriodType_rel.
  - now apply classifyProportion_rel.
  - now rewrite (getCadenceStrength_rel _ _ (lastCadenceOf_rel H)).
  - now apply derivePeriodMaterial_rel.
  - now apply lastCadenceOf_rel.
Qed.

Lemma periodLoop_rel :
  forall rest rest', Forall2 Rph rest rest' ->
  forall current current' periods periods' index,
    Forall2 Rph current current' -> Forall2 Rpe periods periods' ->
    RM (Forall2 Rpe) (periodLoop rest current periods index)
                     (periodLoop rest' current' periods' index).
Proof.
  intros rest rest' H.
  induction H as [|p p' rest rest' Hp Hrest IH];
    intros current current' periods periods' index Hc Hps; cbn; [now apply RelM_ret|].
  assert (Hpp : Forall2 Rph (current ++ [p]) (current' ++ [p'])) by now apply Forall2_snoc.
  rewrite <- (Forall2_length_Z Hpp), <- (getCadenceStrength_rel _ _ (r_ph_cadence Hp)).
  assert (E : match rest with next :: _ => isNewSection p next | [] => false end
              = match rest' with next :: _ => isNewSection p' next | [] => false end).
  { destruct Hrest; [reflexivity|]. now apply isNewSection_rel. }
  rewrite <- E.
  assert (E' : match rest with [] => true | _ => false end
               = match rest' with [] => true | _ => false end).
  { destruct Hrest; reflexivity. }
  rewrite <- E'.
  destruct (_ || _).
  - eapply RelM_bind; [now apply createPeriod_rel|]. intros q q' Hq.
    apply IH; [constructor|]. now apply Forall2_snoc.
  - now apply IH.
Qed.

Lemma detectPeriods_rel :
  forall l l', Forall2 Rph l l' -> RM (Forall2 Rpe) (detectPeriods l) (detectPeriods l').
Proof. intros. unfold detectPeriods. apply periodLoop_rel; auto. Qed.

(** *** Compound periods *)

Abbreviation Rcp := (RcompoundPeriod I SP).

Lemma arePeriodsParallel_rel :
  forall a a' b b', Rpe a a' -> Rpe b b' -> arePeriodsParallel a b = arePeriodsParallel a' b'.
Proof.
  intros a a' b b' Ha Hb. unfold arePeriodsParallel.
  pose proof (r_pe_phrases Ha) as Hpa. pose proof (r_pe_phrases Hb) as Hpb.
  rewrite <- (getCadenceStrength_rel _ _ (r_pe_cadence Ha)),
          <- (getCadenceStrength_rel _ _ (r_pe_cadence Hb)).
  destruct Hpa as [|x x' ? ? Hx _]; [reflexivity|].
  destruct Hpb as [|y y' ? ? Hy _]; [reflexivity|].
  now rewrite (comparePhraseHeads_rel Hx Hy).
Qed.

Lemma compoundLoop_rel :
  forall n l l' acc acc', (List.length l <= n)%nat -> Forall2 Rpe l l' -> Forall2 Rcp acc acc' ->
    RM (Forall2 Rcp) (compoundLoop l acc) (compoundLoop l' acc').
Proof.
  induction n as [|n IH]; intros l l' acc acc' Hn H Hacc.
  - destruct H; [|cbn in Hn; lia]. cbn. now apply RelM_ret.
  - destruct H as [|a a' l l' Ha H]; [cbn; now apply RelM_ret|].
    destruct H as [|b b' l l' Hb H]; [cbn; now apply RelM_ret|].
    cbn [compoundLoop]. rewrite <- (arePeriodsParallel_rel Ha Hb).
    cbn in Hn.
    destruct (arePeriodsParallel a b).
    + eapply RelM_bind; [apply RelM_generateId; assumption|]. intros i i' Hi.
      apply IH; [lia|assumption|]. apply Forall2_snoc; [assumption|].
      pose proof (r_pe_startMeasure Ha). pose proof (r_pe_endMeasure Hb).
      constructor; cbn; auto.
    + apply IH; [lia|assumption|assumption].
Qed.

Lemma detectCompoundPeriods_rel :
  forall l l', Forall2 Rpe l l' ->
    RM (Forall2 Rcp) (detectCompoundPeriods l) (detectCompoundPeriods l').
Proof.
  intros l l' H. unfold detectCompoundPeriods.
  apply compoundLoop_rel with (n := List.length l); auto.
Qed.


(** *** Forms *)

Abbreviation Rsec := (Rsection I SP).
Abbreviation Rfo := (Rform I SP).

Lemma newSection_rel :
  forall name type startMeasure endMeasure function ps ps', Forall2 Rpe ps ps' ->
    RM Rsec (newSection name type startMeasure endMeasure function ps)
            (newSection name type startMeasure endMeasure function ps').
Proof.
  intros. unfold newSection.
  eapply RelM_bind; [apply RelM_generateId; assumption|]. intros i i' Hi.
  apply RelM_ret. constructor; cbn; auto.
Qed.

Lemma withExtras_rel :
  forall a a' middleType internalForm recapitulationType variationType c c' isRecurrence,
    Rsec a a' -> ropt (Rcomponents I SP) c c' ->
    Rsec (withExtras a middleType internalForm recapitulationType variationType c isRecurrence)
         (withExtras a' middleType internalForm recapitulationType variationType c'
                     isRecurrence).
Proof. intros. destruct H. constructor; cbn; auto. Qed.

Lemma plainForm_rel :
  forall formType ss ss' confidence description, ropt (Forall2 Rsec) ss ss' ->
    Rfo (plainForm formType ss confidence description)
        (plainForm formType ss' confidence description).
Proof. intros. constructor; cbn; auto. Qed.

Lemma single_rel : forall p p', Rpe p p' -> Forall2 Rpe [p] [p'].
Proof. intros. constructor; [assumption|constructor]. Qed.

Lemma periodsStart_rel : forall l l', Forall2 Rpe l l' -> periodsStart l = periodsStart l'.
Proof.
  intros l l' H. destruct H as [|a b l l' Hab H]; cbn; [reflexivity|].
  exact (r_pe_startMeasure Hab).
Qed.

Lemma periodsEnd_rel : forall l l', Forall2 Rpe l l' -> periodsEnd l = periodsEnd l'.
Proof.
  intros l l' H. unfold periodsEnd. pose proof (Forall2_lastOpt H) as HL.
  destruct (lastOpt l), (lastOpt l'); cbn in HL; try contradiction; [|reflexivity].
  exact (r_pe_endMeasure HL).
Qed.

Lemma phrases_notes_rel :
  forall l l', Forall2 Rph l l' -> flat_map ph_notes l = flat_map ph_notes l'.
Proof.
  intros l l' H. eapply Forall2_flat_map_eq; [exact H|].
  intros x y Hxy. exact (r_ph_notes Hxy).
Qed.

Lemma calculatePeriodSimilarity_rel :
  forall a a' b b', Rpe a a' -> Rpe b b' ->
    calculatePeriodSimilarity a b = calculatePeriodSimilarity a' b'.
Proof.
  intros a a' b b' Ha Hb. unfold calculatePeriodSimilarity.
  pose proof (r_pe_phrases Ha) as Hpa. pose proof (r_pe_phrases Hb) as Hpb.
  rewrite <- (phrases_notes_rel Hpa), <- (phrases_notes_rel Hpb).
  destruct Hpa; [reflexivity|]. destruct Hpb; reflexivity.
Qed.

Lemma compareRhythms_rel :
  forall a a' b b', Rpe a a' -> Rpe b b' -> compareRhythms a b = compareRhythms a' b'.
Proof.
  intros a a' b b' Ha Hb. unfold compareRhythms.
  assert (G : forall l l', Forall2 Rph l l' ->
            flat_map (fun p => map (fun n => QorElse (n_duration n) 1) (ph_notes p)) l
            = flat_map (fun p => map (fun n => QorElse (n_duration n) 1) (ph_notes p)) l').
  { intros l l' H. eapply Forall2_flat_map_eq; [exact H|].
    intros x y Hxy. now rewrite (r_ph_notes Hxy). }
  now rewrite (G _ _ (r_pe_phrases Ha)), (G _ _ (r_pe_phrases Hb)).
Qed.

Lemma hasRecapitulation_rel :
  forall a a' b b', Rpe a a' -> Rpe b b' -> hasRecapitulation a b = hasRecapitulation a' b'.
Proof.
  intros a a' b b' Ha Hb. unfold hasRecapitulation.
  pose proof (r_pe_phrases Ha) as Hpa. pose proof (Forall2_lastOpt (r_pe_phrases Hb)) as HL.
  destruct (lastOpt (pe_phrases b)), (lastOpt (pe_phrases b')); cbn in HL;
    try contradiction; [|reflexivity].
  destruct Hpa as [|x x' ? ? Hx _]; [reflexivity|].
  now rewrite (comparePhraseHeads_rel Hx HL).
Qed.

Lemma Zrange_combine_rel :
  forall (A B : Type) (R : A -> B -> Prop) l l', Forall2 R l l' ->
    Forall2 (fun p q => fst p = fst q /\ R (snd p) (snd q))
            (combine (Zrange (Zlen l)) l) (combine (Zrange (Zlen l')) l').
Proof.
  intros A B R l l' H. rewrite <- (Forall2_length_Z H). now apply Forall2_combine_l.
Qed.

Lemma createSections_rel :
  forall l l' formType, Forall2 Rpe l l' ->
    RM (Forall2 Rsec) (createSections l formType) (createSections l' formType).
Proof.
  intros l l' formType H. unfold createSections.
  eapply RelM_mapM; [|apply Zrange_combine_rel; exact H].
  intros [i p] [i' p'] [Hi Hp]. cbn in Hi, Hp. subst i'.
  rewrite <- (r_pe_startMeasure Hp), <- (r_pe_endMeasure Hp).
  apply newSection_rel. now apply single_rel.
Qed.

Lemma analyzeMaterialPattern_rel :
  forall l l', Forall2 Rpe l l' -> analyzeMaterialPattern l = analyzeMaterialPattern l'.
Proof.
  intros l l' H. unfold analyzeMaterialPattern.
  assert (E : map (fun p => charAt0 (pe_material p)) l
              = map (fun p => charAt0 (pe_material p)) l').
  { eapply Forall2_map_eq; [exact H|]. intros x y Hxy. now rewrite (r_pe_material Hxy). }
  now rewrite E.
Qed.

Lemma analyzeOnePartForm_rel :
  forall l l', Forall2 Rpe l l' -> RM Rfo (analyzeOnePartForm l) (analyzeOnePartForm l').
Proof.
  intros l l' H. unfold analyzeOnePartForm. destruct H as [|a a' l l' Ha H].
  - apply RelM_ret. apply plainForm_rel. cbn. constructor.
  - rewrite <- (r_pe_startMeasure Ha), <- (r_pe_endMeasure Ha).
    eapply RelM_bind; [apply newSection_rel; now apply single_rel|]. intros s s' Hs.
    apply RelM_ret. apply plainForm_rel. cbn. constructor; [assumption|constructor].
Qed.

Lemma analyzeBinaryForm_rel :
  forall l l' mp, Forall2 Rpe l l' ->
    RM Rfo (analyzeBinaryForm l mp) (analyzeBinaryForm l' mp).
Proof.
  intros l l' mp H. unfold analyzeBinaryForm.
  destruct H as [|a a' l l' Ha H]; [apply RelM_ret, plainForm_rel; cbn; constructor|].
  destruct H as [|b b' l l' Hb H]; [apply RelM_ret, plainForm_rel; cbn; constructor|].
  rewrite <- (hasRecapitulation_rel Ha Hb).
  rewrite <- (r_pe_startMeasure Ha), <- (r_pe_endMeasure Ha).
  rewrite <- (r_pe_startMeasure Hb), <- (r_pe_endMeasure Hb).
  eapply RelM_bind; [apply newSection_rel; now apply single_rel|]. intros s s' Hs.
  eapply RelM_bind; [apply newSection_rel; now apply single_rel|]. intros t t' Ht.
  apply RelM_ret, plainForm_rel. cbn.
  constructor; [assumption|]. constructor; [assumption|constructor].
Qed.

Lemma classifyMiddleSection_rel :
  forall a a' b b', Rpe a a' -> Rpe b b' ->
    classifyMiddleSection a b = classifyMiddleSection a' b'.
Proof.
  intros a a' b b' Ha Hb. unfold classifyMiddleSection.
  now rewrite (calculatePeriodSimilarity_rel Ha Hb), (r_pe_closure Ha),
    (r_pe_phraseCount Ha).
Qed.

Lemma analyzeTernaryForm_rel :
  forall l l' mp, Forall2 Rpe l l' ->
    RM Rfo (analyzeTernaryForm l mp) (analyzeTernaryForm l' mp).
Proof.
  intros l l' mp H. unfold analyzeTernaryForm.
  destruct H as [|a a' l l' Ha H]; [apply RelM_ret, plainForm_rel; cbn; constructor|].
  destruct H as [|b b' l l' Hb H]; [apply RelM_ret, plainForm_rel; cbn; constructor|].
  destruct H as [|c c' l l' Hc H]; [apply RelM_ret, plainForm_rel; cbn; constructor|].
  rewrite <- (classifyMiddleSection_rel Hb Ha).
  rewrite <- (r_pe_startMeasure Ha), <- (r_pe_endMeasure Ha).
  rewrite <- (r_pe_startMeasure Hb), <- (r_pe_endMeasure Hb).
  rewrite <- (r_pe_startMeasure Hc), <- (r_pe_endMeasure Hc).
  destruct (mp_hasRecapitulation mp).
  - eapply RelM_bind; [apply newSection_rel; now apply single_rel|]. intros s s' Hs.
    eapply RelM_bind; [apply newSection_rel; now apply single_rel|]. intros t t' Ht.
    eapply RelM_bind; [apply newSection_rel; now apply single_rel|]. intros u u' Hu.
    apply RelM_ret, plainForm_rel. cbn.
    constructor; [assumption|]. constructor; [|constructor; [assumption|constructor]].
    apply withExtras_rel; [assumption|exact Logic.I].
  - eapply RelM_bind; [apply newSection_rel; now apply single_rel|]. intros s s' Hs.
    eapply RelM_bind; [apply newSection_rel; now apply single_rel|]. intros t t' Ht.
    eapply RelM_bind; [apply newSection_rel; now apply single_rel|]. intros u u' Hu.
    apply RelM_ret, plainForm_rel. cbn.
    constructor; [assumption|]. constructor; [assumption|].
    constructor; [assumption|constructor].
Qed.

Lemma analyzeInternalForm_rel :
  forall l l', Forall2 Rpe l l' -> analyzeInternalForm l = analyzeInternalForm l'.
Proof.
  intros l l' H. unfold analyzeInternalForm.
  destruct H as [|a a' l l' Ha H]; [reflexivity|].
  destruct H as [|b b' l l' Hb H]; [reflexivity|].
  destruct H as [|c c' l l' Hc H]; [now rewrite (arePeriodsParallel_rel Ha Hb)|].
  destruct H; reflexivity.
Qed.

Lemma classifyRecapitulation_rel :
  forall l l' k k', Forall2 Rpe l l' -> Forall2 Rpe k k' ->
    classifyRecapitulation l k = classifyRecapitulation l' k'.
Proof.
  intros l l' k k' Hl Hk. unfold classifyRecapitulation.
  assert (G : forall x x', Forall2 Rpe x x' -> map pe_length x = map pe_length x').
  { intros x x' H. eapply Forall2_map_eq; [exact H|]. intros p q Hpq. exact (r_pe_length Hpq). }
  rewrite <- (G _ _ Hl), <- (G _ _ Hk).
  destruct Hl; [reflexivity|]. destruct Hk; reflexivity.
Qed.

Lemma analyzeCompoundTernaryForm_rel :
  forall l l' mp, Forall2 Rpe l l' ->
    RM Rfo (analyzeCompoundTernaryForm l mp) (analyzeCompoundTernaryForm l' mp).
Proof.
  intros l l' mp H. unfold analyzeCompoundTernaryForm.
  destruct (negb (mp_hasRecapitulation mp)).
  { eapply RelM_bind; [now apply createSections_rel|]. intros ss ss' Hss.
    now apply RelM_ret, plainForm_rel. }
  destruct (fold_left _ _ _) as [[ms0 me0] stopped].
  rewrite <- (Forall2_length_Z H).
  set (ms := if ms0 =? -1 then 1 else ms0).
  set (me := if me0 =? -1 then Zlen l - 2 else me0).
  assert (HA : Forall2 Rpe (jsSlice l 0 ms) (jsSlice l' 0 ms)) by now apply Forall2_jsSlice.
  assert (HB : Forall2 Rpe (jsSlice l ms (me + 1)) (jsSlice l' ms (me + 1)))
    by now apply Forall2_jsSlice.
  assert (HC : Forall2 Rpe (jsSliceFrom l (me + 1)) (jsSliceFrom l' (me + 1)))
    by now apply Forall2_jsSliceFrom.
  rewrite <- (Forall2_length_Z HA), <- (periodsStart_rel HA), <- (periodsEnd_rel HA).
  rewrite <- (analyzeInternalForm_rel HA).
  eapply RelM_bind; [now apply newSection_rel|]. intros a a' Ha.
  eapply RelM_bind with (R := Forall2 Rsec).
  { rewrite <- (Forall2_length_Z HB), <- (periodsStart_rel HB), <- (periodsEnd_rel HB).
    rewrite <- (analyzeInternalForm_rel HB).
    destruct HB as [|b b' ? ? Hb HB']; [apply RelM_ret; constructor|].
    destruct HA as [|x x' ? ? Hx HA']; [apply RelM_ret; constructor|].
    rewrite <- (classifyMiddleSection_rel Hb Hx).
    eapply RelM_bind; [apply newSection_rel; now constructor|]. intros s s' Hs.
    apply RelM_ret. constructor; [|constructor].
    apply withExtras_rel; [assumption|exact Logic.I]. }
  intros bs bs' Hbs.
  eapply RelM_bind with (R := Forall2 Rsec).
  { rewrite <- (Forall2_length_Z HC), <- (periodsStart_rel HC), <- (periodsEnd_rel HC).
    rewrite <- (classifyRecapitulation_rel HA HC).
    destruct HC as [|c c' ? ? Hc HC']; [apply RelM_ret; constructor|].
    eapply RelM_bind; [apply newSection_rel; now constructor|]. intros s s' Hs.
    apply RelM_ret. constructor; [|constructor].
    apply withExtras_rel; [assumption|exact Logic.I]. }
  intros cs cs' Hcs.
  apply RelM_ret, plainForm_rel. cbn.
  constructor; [apply withExtras_rel; [assumption|exact Logic.I]|].
  now apply Forall2_app.
Qed.


Abbreviation Rvar := (Rvariation I SP).

Lemma classifyVariationType_rel :
  forall a a' b b', Rpe a a' -> Rpe b b' ->
    classifyVariationType a b = classifyVariationType a' b'.
Proof.
  intros a a' b b' Ha Hb. unfold classifyVariationType.
  rewrite <- (compareRhythms_rel Ha Hb).
  assert (G : forall x x', Rpe x x' ->
            match pe_phrases x with p :: _ => ph_notes p | [] => [] end
            = match pe_phrases x' with p :: _ => ph_notes p | [] => [] end).
  { intros x x' Hx. destruct (r_pe_phrases Hx) as [|p p' ? ? Hp _]; [reflexivity|].
    exact (r_ph_notes Hp). }
  now rewrite <- (G _ _ Ha), <- (G _ _ Hb).
Qed.

Lemma findVariations_rel :
  forall theme theme' l l', Rpe theme theme' -> Forall2 Rpe l l' ->
    Forall2 Rvar (findVariations theme l) (findVariations theme' l').
Proof.
  intros theme theme' l l' Ht H. unfold findVariations.
  pose proof (Forall2_tl (Zrange_combine_rel H)) as HT.
  induction HT as [|[i p] [i' p'] k k' [Hi Hp] _ IH]; cbn; [constructor|].
  cbn in Hi, Hp. subst i'.
  rewrite <- (calculatePeriodSimilarity_rel Hp Ht), <- (classifyVariationType_rel Ht Hp).
  destruct (_ && _); cbn; [|assumption].
  constructor; [|assumption]. constructor; cbn; auto.
Qed.

Lemma createVariationSections_rel :
  forall theme theme' vs vs', Rpe theme theme' -> Forall2 Rvar vs vs' ->
    RM (Forall2 Rsec) (createVariationSections theme vs)
                      (createVariationSections theme' vs').
Proof.
  intros theme theme' vs vs' Ht Hvs. unfold createVariationSections.
  rewrite <- (r_pe_startMeasure Ht), <- (r_pe_endMeasure Ht).
  eapply RelM_bind; [apply newSection_rel; now apply single_rel|]. intros s s' Hs.
  eapply RelM_bind with (R := Forall2 Rsec).
  - eapply RelM_mapM; [|apply Zrange_combine_rel; exact Hvs].
    intros [i v] [i' v'] [Hi Hv]. cbn in Hi, Hv. subst i'.
    pose proof (r_var_period Hv) as Hp.
    rewrite <- (r_pe_startMeasure Hp), <- (r_pe_endMeasure Hp), <- (r_var_variationType Hv).
    eapply RelM_bind; [apply newSection_rel; now apply single_rel|]. intros t t' Ht'.
    apply RelM_ret. apply withExtras_rel; [assumption|exact Logic.I].
  - intros rest rest' Hrest. apply RelM_ret. now constructor.
Qed.

Lemma detectVariationForm_rel :
  forall l l', Forall2 Rpe l l' -> RM Rfo (detectVariationForm l) (detectVariationForm l').
Proof.
  intros l l' H. unfold detectVariationForm.
  rewrite <- (Forall2_length_Z H).
  destruct H as [|a a' l l' Ha H]; [now apply RelM_ret, plainForm_rel|].
  destruct (_ <? 3); [now apply RelM_ret, plainForm_rel|].
  assert (Hall : Forall2 Rpe (a :: l) (a' :: l')) by now constructor.
  pose proof (findVariations_rel Ha Hall) as Hv.
  rewrite <- (Forall2_length_Z Hv).
  destruct (Qgtb _ _); [|now apply RelM_ret, plainForm_rel].
  eapply RelM_bind; [now apply createVariationSections_rel|]. intros ss ss' Hss.
  apply RelM_ret. constructor; cbn; auto.
Qed.


Lemma rondoStep_rel :
  forall mainMaterial st st' pm pm', AccSec st st' -> rprod Rpe eq pm pm' ->
    RM AccSec (rondoStep mainMaterial st pm) (rondoStep mainMaterial st' pm').
Proof.
  intros mainMaterial [[ss i] j] [[ss' i'] j'] [p m] [p' m'] [[Hss Hi] Hj] [Hp Hm].
  cbn in Hss, Hi, Hj, Hp, Hm. subst i' j' m'. unfold rondoStep.
  rewrite <- (r_pe_startMeasure Hp), <- (r_pe_endMeasure Hp).
  destruct (String.eqb m mainMaterial).
  - eapply RelM_bind; [apply newSection_rel; now apply single_rel|]. intros s s' Hs.
    apply RelM_ret. repeat split; cbn; auto. apply Forall2_snoc; [assumption|].
    apply withExtras_rel; [assumption|exact Logic.I].
  - eapply RelM_bind; [apply newSection_rel; now apply single_rel|]. intros s s' Hs.
    apply RelM_ret. repeat split; cbn; auto. now apply Forall2_snoc.
Qed.

Lemma detectRondoForm_rel :
  forall l l' mp, Forall2 Rpe l l' -> RM Rfo (detectRondoForm l mp) (detectRondoForm l' mp).
Proof.
  intros l l' mp H. unfold detectRondoForm.
  destruct (_ <? 3); [now apply RelM_ret, plainForm_rel|].
  destruct (_ <? 2); [now apply RelM_ret, plainForm_rel|].
  eapply RelM_bind.
  - apply RelM_foldM with (RA := rprod Rpe eq) (RS := AccSec).
    + intros; now apply rondoStep_rel.
    + apply Forall2_combine; [assumption|]. clear. induction (mp_materials mp); constructor; auto.
    + repeat split; cbn; auto.
  - intros [[ss i] j] [[ss' i'] j'] [[Hss _] _]. cbn in Hss.
    apply RelM_ret. constructor; cbn; auto.
Qed.

Lemma themeRef_rel : forall p p', Rpe p p' -> RthemeRef I SP (themeRef p) (themeRef p').
Proof.
  intros p p' H. unfold themeRef. constructor; cbn; auto.
  - exact (r_pe_startMeasure H).
  - exact (r_pe_endMeasure H).
Qed.

Lemma analyzeExposition_rel :
  forall l l', Forall2 Rpe l l' ->
    RexpositionComponents I SP (analyzeExposition l) (analyzeExposition l').
Proof.
  intros l l' H. unfold analyzeExposition.
  pose proof (Forall2_lastOpt H) as HL. pose proof (Forall2_length_Z H) as EL.
  assert (HS : Forall2 Rpe (jsSlice l 1 (-1)) (jsSlice l' 1 (-1))) by now apply Forall2_jsSlice.
  assert (HT : ropt (RthemeRef I SP)
                 (match lastOpt l with Some pl => Some (themeRef pl) | None => None end)
                 (match lastOpt l' with Some pl => Some (themeRef pl) | None => None end)).
  { destruct (lastOpt l), (lastOpt l'); cbn in HL; try contradiction; cbn;
      [now apply themeRef_rel|exact Logic.I]. }
  rewrite <- EL.
  destruct H as [|a a' k k' Ha H]; [constructor; cbn; auto|].
  constructor; cbn [ec_primaryTheme ec_transition ec_secondaryTheme].
  - cbn. now apply themeRef_rel.
  - destruct (3 <=? _); [|exact Logic.I]. constructor; cbn [tn_periods tn_startMeasure tn_endMeasure].
    + exact HS.
    + now apply periodsStart_rel.
    + now apply periodsEnd_rel.
  - destruct (2 <=? _); [|exact Logic.I]. exact HT.
Qed.

Lemma analyzeRecapitulation_rel :
  forall l l' k k', Forall2 Rpe l l' -> Forall2 Rpe k k' ->
    RrecapComponents I SP (analyzeRecapitulation l k) (analyzeRecapitulation l' k').
Proof.
  intros l l' k k' Hl Hk. unfold analyzeRecapitulation.
  rewrite <- (Forall2_length_Z Hl), <- (Forall2_length_Z Hk).
  pose proof (Forall2_lastOpt Hl) as HLl. pose proof (Forall2_lastOpt Hk) as HLk.
  constructor; cbn; auto.
  - destruct Hl as [|a a' ? ? Ha _]; [exact Logic.I|].
    destruct Hk as [|b b' ? ? Hb _]; [exact Logic.I|].
    cbn. rewrite <- (calculatePeriodSimilarity_rel Ha Hb). constructor; cbn; auto.
  - destruct (_ && _); [|exact Logic.I].
    destruct (lastOpt k), (lastOpt k'); cbn in HLk; try contradiction; [|exact Logic.I].
    destruct (lastOpt l), (lastOpt l'); cbn in HLl; try contradiction; [|exact Logic.I].
    cbn. rewrite <- (calculatePeriodSimilarity_rel HLl HLk). constructor; cbn; auto.
Qed.

Lemma detectSonataForm_rel :
  forall l l', Forall2 Rpe l l' -> RM Rfo (detectSonataForm l) (detectSonataForm l').
Proof.
  intros l l' H. unfold detectSonataForm.
  rewrite <- (Forall2_length_Z H).
  destruct H as [|a a' l l' Ha H]; [now apply RelM_ret, plainForm_rel|].
  destruct (_ <? 3); [now apply RelM_ret, plainForm_rel|].
  assert (Hall : Forall2 Rpe (a :: l) (a' :: l')) by now constructor.
  set (n := Zlen (a :: l)).
  assert (E : existsb (fun p => Qgtb (calculatePeriodSimilarity p a) (5#10))
                      (jsSliceFrom (a :: l) (2 * n / 3))
              = existsb (fun p => Qgtb (calculatePeriodSimilarity p a') (5#10))
                        (jsSliceFrom (a' :: l') (2 * n / 3))).
  { eapply Forall2_existsb; [apply Forall2_jsSliceFrom; exact Hall|].
    intros x y Hxy. now rewrite (calculatePeriodSimilarity_rel Hxy Ha). }
  rewrite <- E. destruct (negb _); [now apply RelM_ret, plainForm_rel|].
  assert (HA : Forall2 Rpe (jsSlice (a :: l) 0 (n / 3 + 1)) (jsSlice (a' :: l') 0 (n / 3 + 1)))
    by now apply Forall2_jsSlice.
  assert (HB : Forall2 Rpe (jsSlice (a :: l) (n / 3 + 1) (2 * n / 3 + 1))
                           (jsSlice (a' :: l') (n / 3 + 1) (2 * n / 3 + 1)))
    by now apply Forall2_jsSlice.
  assert (HC : Forall2 Rpe (jsSliceFrom (a :: l) (2 * n / 3 + 1))
                           (jsSliceFrom (a' :: l') (2 * n / 3 + 1)))
    by now apply Forall2_jsSliceFrom.
  rewrite <- (periodsStart_rel HA), <- (periodsEnd_rel HA).
  eapply RelM_bind; [now apply newSection_rel|]. intros e e' He.
  eapply RelM_bind with (R := Forall2 Rsec).
  { rewrite <- (periodsStart_rel HB), <- (periodsEnd_rel HB).
    destruct HB as [|b b' ? ? Hb HB']; [apply RelM_ret; constructor|].
    eapply RelM_bind; [apply newSection_rel; now constructor|]. intros s s' Hs.
    apply RelM_ret. constructor; [assumption|constructor]. }
  intros ds ds' Hds.
  eapply RelM_bind with (R := Forall2 Rsec).
  { rewrite <- (periodsStart_rel HC), <- (periodsEnd_rel HC).
    pose proof (analyzeRecapitulation_rel HC HA) as HR.
    destruct HC as [|c c' ? ? Hc HC']; [apply RelM_ret; constructor|].
    eapply RelM_bind; [apply newSection_rel; now constructor|]. intros s s' Hs.
    apply RelM_ret. constructor; [|constructor].
    apply withExtras_rel; [assumption|]. exact HR. }
  intros rs rs' Hrs.
  apply RelM_ret, plainForm_rel. cbn. constructor.
  - apply withExtras_rel; [assumption|]. cbn. now apply analyzeExposition_rel.
  - now apply Forall2_app.
Qed.

(** *** Popular forms and the cascade *)

Lemma verseChorusStep_rel :
  forall verseMaterial st st' pm pm', AccSec st st' -> rprod Rpe eq pm pm' ->
    RM AccSec (verseChorusStep verseMaterial st pm) (verseChorusStep verseMaterial st' pm').
Proof.
  intros verseMaterial [[ss i] j] [[ss' i'] j'] [p m] [p' m'] [[Hss Hi] Hj] [Hp Hm].
  cbn in Hss, Hi, Hj, Hp, Hm. subst i' j' m'. unfold verseChorusStep.
  rewrite <- (r_pe_startMeasure Hp), <- (r_pe_endMeasure Hp).
  destruct (String.eqb m verseMaterial).
  - eapply RelM_bind; [apply newSection_rel; now apply single_rel|]. intros s s' Hs.
    apply RelM_ret. repeat split; cbn; auto. now apply Forall2_snoc.
  - eapply RelM_bind; [apply newSection_rel; now apply single_rel|]. intros s s' Hs.
    apply RelM_ret. repeat split; cbn; auto. now apply Forall2_snoc.
Qed.

Lemma Forall2_eq_refl : forall (A : Type) (l : list A), Forall2 eq l l.
Proof. intros A l. induction l; constructor; auto. Qed.

Lemma createVerseChorusSections_rel :
  forall l l' materials, Forall2 Rpe l l' ->
    RM (Forall2 Rsec) (createVerseChorusSections l materials)
                      (createVerseChorusSections l' materials).
Proof.
  intros l l' materials H. unfold createVerseChorusSections.
  eapply RelM_bind.
  - apply RelM_foldM with (RA := rprod Rpe eq) (RS := AccSec).
    + intros; now apply verseChorusStep_rel.
    + apply Forall2_combine; [assumption|apply Forall2_eq_refl].
    + repeat split; cbn; auto.
  - intros [[ss i] j] [[ss' i'] j'] [[Hss _] _]. cbn in Hss. now apply RelM_ret.
Qed.

Lemma createAABASections_rel :
  forall l l', Forall2 Rpe l l' ->
    RM (Forall2 Rsec) (createAABASections l) (createAABASections l').
Proof.
  intros l l' H. unfold createAABASections.
  eapply RelM_mapM; [|apply Zrange_combine_rel; exact H].
  intros [i p] [i' p'] [Hi Hp]. cbn in Hi, Hp. subst i'.
  rewrite <- (r_pe_startMeasure Hp), <- (r_pe_endMeasure Hp).
  apply newSection_rel. now apply single_rel.
Qed.

Lemma detectPopularMusicForm_rel :
  forall l l', Forall2 Rpe l l' ->
    RM Rfo (detectPopularMusicForm l) (detectPopularMusicForm l').
Proof.
  intros l l' H. unfold detectPopularMusicForm.
  rewrite <- (Forall2_length_Z H), <- (analyzeMaterialPattern_rel H).
  destruct (_ <? 2); [now apply RelM_ret, plainForm_rel|].
  destruct (_ && _).
  { eapply RelM_bind; [now apply createVerseChorusSections_rel|]. intros ss ss' Hss.
    now apply RelM_ret, plainForm_rel. }
  destruct (_ && _).
  { eapply RelM_bind; [now apply createAABASections_rel|]. intros ss ss' Hss.
    now apply RelM_ret, plainForm_rel. }
  now apply RelM_ret, plainForm_rel.
Qed.

Lemma detectForm_rel :
  forall l l', Forall2 Rpe l l' -> RM Rfo (detectForm l) (detectForm l').
Proof.
  intros l l' H. unfold detectForm.
  rewrite <- (Forall2_length_Z H), <- (analyzeMaterialPattern_rel H).
  destruct (_ =? 0); [apply RelM_ret, plainForm_rel; cbn; constructor|].
  destruct (_ =? 1); [now apply analyzeOnePartForm_rel|].
  destruct (_ =? 2); [now apply analyzeBinaryForm_rel|].
  destruct (_ =? 3); [now apply analyzeTernaryForm_rel|].
  eapply RelM_bind; [now apply detectVariationForm_rel|]. intros v v' Hv.
  rewrite <- (r_fa_confidence Hv).
  destruct (Qgtb _ _); [now apply RelM_ret|].
  eapply RelM_bind with (R := ropt Rfo).
  { destruct (5 <=? _); [|now apply RelM_ret].
    eapply RelM_bind; [now apply detectRondoForm_rel|]. intros r r' Hr.
    rewrite <- (r_fa_confidence Hr). apply RelM_ret. destruct (Qgtb _ _); cbn; auto. }
  intros [r|] [r'|] Hr; cbn in Hr; try contradiction; [now apply RelM_ret|].
  eapply RelM_bind with (R := ropt Rfo).
  { destruct (3 <=? _); [|now apply RelM_ret].
    eapply RelM_bind; [now apply detectSonataForm_rel|]. intros x x' Hx.
    rewrite <- (r_fa_confidence Hx). apply RelM_ret. destruct (Qgtb _ _); cbn; auto. }
  intros [x|] [x'|] Hx; cbn in Hx; try contradiction; [now apply RelM_ret|].
  destruct (4 <=? _); [now apply analyzeCompoundTernaryForm_rel|].
  eapply RelM_bind; [now apply createSections_rel|]. intros ss ss' Hss.
  now apply RelM_ret, plainForm_rel.
Qed.

Lemma assignForm_rel :
  forall a a' b b', Rfo a a' -> Rfo b b' -> Rfo (assignForm a b) (assignForm a' b').
Proof.
  intros a a' b b' Ha Hb. unfold assignForm. destruct Ha, Hb.
  constructor; cbn;
    try (repeat match goal with E : _ = _ |- _ => try rewrite <- E; clear E end; reflexivity).
  - destruct (fa_sections b), (fa_sections b'); cbn in *; try contradiction; auto.
  - destruct (fa_theme b), (fa_theme b'); cbn in *; try contradiction; auto.
  - destruct (fa_variations b), (fa_variations b'); cbn in *; try contradiction; auto.
Qed.


(** *** Auxiliary structures *)

Abbreviation Raux := (Rauxiliary I).

Lemma detectIntroduction_rel :
  forall notes p p', Rpe p p' ->
    RM (ropt Raux) (detectIntroduction notes p) (detectIntroduction notes p').
Proof.
  intros notes p p' Hp. unfold detectIntroduction.
  rewrite <- (r_pe_startMeasure Hp).
  destruct notes as [|n ns]; [now apply RelM_ret|].
  destruct (_ <=? 1); [now apply RelM_ret|].
  destruct (filter _ _) as [|x xs]; [now apply RelM_ret|].
  eapply RelM_bind; [apply RelM_generateId; assumption|]. intros i i' Hi.
  apply RelM_ret. cbn. constructor; cbn; auto.
Qed.

Lemma detectCoda_rel :
  forall notes p p' c c', Rpe p p' ->
    RM (ropt Raux) (detectCoda notes p c) (detectCoda notes p' c').
Proof.
  intros notes p p' c c' Hp. unfold detectCoda.
  rewrite <- (r_pe_endMeasure Hp).
  destruct notes as [|n ns]; [now apply RelM_ret|].
  destruct (lastOpt _) as [lastMeasure|]; [|now apply RelM_ret].
  destruct (_ <=? _); [now apply RelM_ret|].
  destruct (filter _ _) as [|x xs]; [now apply RelM_ret|].
  eapply RelM_bind; [apply RelM_generateId; assumption|]. intros i i' Hi.
  apply RelM_ret. cbn. constructor; cbn; auto.
Qed.

Lemma transitionStep_rel :
  forall acc acc' x x',
    Forall2 (Rtransition I) acc acc' ->
    fst x = fst x' /\ rprod Rpe Rpe (snd x) (snd x') ->
    RM (Forall2 (Rtransition I)) (transitionStep acc x) (transitionStep acc' x').
Proof.
  intros acc acc' [i [a b]] [i' [a' b']] Hacc [Hi [Ha Hb]]. cbn in Hi, Ha, Hb. subst i'.
  unfold transitionStep.
  rewrite <- (r_pe_startMeasure Hb), <- (r_pe_endMeasure Ha).
  destruct (0 <? _); [|now apply RelM_ret].
  eapply RelM_bind; [apply RelM_generateId; assumption|]. intros j j' Hj.
  apply RelM_ret. apply Forall2_snoc; [assumption|].
  constructor; cbn; auto.
  - exact (r_pe_id Ha).
  - exact (r_pe_id Hb).
Qed.

Lemma adjacentPairs_rel :
  forall (A B : Type) (R : A -> B -> Prop) l l', Forall2 R l l' ->
    Forall2 (rprod R R) (adjacentPairs l) (adjacentPairs l').
Proof.
  intros A B R l l' H. unfold adjacentPairs.
  apply Forall2_combine; [assumption|now apply Forall2_tl].
Qed.

Lemma detectTransitions_rel :
  forall l l', Forall2 Rpe l l' ->
    RM (Forall2 (Rtransition I)) (detectTransitions l) (detectTransitions l').
Proof.
  intros l l' H. unfold detectTransitions.
  apply RelM_foldM
    with (RA := fun x x' => fst x = fst x' /\ rprod Rpe Rpe (snd x) (snd x')).
  - intros; now apply transitionStep_rel.
  - apply Zrange_combine_rel. now apply adjacentPairs_rel.
  - constructor.
Qed.

Lemma extensionStep_rel :
  forall acc acc' p p', Forall2 (Rextension I) acc acc' -> Rph p p' ->
    RM (Forall2 (Rextension I)) (extensionStep acc p) (extensionStep acc' p').
Proof.
  intros acc acc' p p' Hacc Hp. unfold extensionStep.
  rewrite <- (r_ph_length Hp).
  destruct (Qgtb _ _); [|now apply RelM_ret].
  eapply RelM_bind; [apply RelM_generateId; assumption|]. intros j j' Hj.
  apply RelM_ret. apply Forall2_snoc; [assumption|].
  constructor; cbn; auto. exact (r_ph_id Hp).
Qed.

Lemma detectExtensions_rel :
  forall l l', Forall2 Rph l l' ->
    RM (Forall2 (Rextension I)) (detectExtensions l) (detectExtensions l').
Proof.
  intros l l' H. unfold detectExtensions.
  apply RelM_foldM with (RA := Rph); [|exact H|constructor].
  intros; now apply extensionStep_rel.
Qed.

(** *** Statistics and level counts *)

Lemma getCadenceDistribution_rel :
  forall l l', Forall2 Rcad l l' -> getCadenceDistribution l = getCadenceDistribution l'.
Proof.
  intros l l' H. unfold getCadenceDistribution.
  generalize (@nil (string * Z)) as acc.
  induction H as [|a b l l' Hab _ IH]; intros acc; cbn; [reflexivity|].
  now rewrite (r_cad_type Hab), IH.
Qed.

Lemma calculateMaterialDiversity_rel :
  forall l l', Forall2 Rph l l' ->
    calculateMaterialDiversity l = calculateMaterialDiversity l'.
Proof.
  intros l l' H. unfold calculateMaterialDiversity.
  assert (E : map (fun p => charAt0 (ph_material p)) l
              = map (fun p => charAt0 (ph_material p)) l').
  { eapply Forall2_map_eq; [exact H|]. intros x y Hxy. now rewrite (r_ph_material Hxy). }
  rewrite <- (Forall2_length_Z H). destruct H; [reflexivity|]. now rewrite E.
Qed.

Lemma calculateStatistics_rel :
  forall notes ms ms' sps sps' phs phs' pes pes' cs cs',
    Forall2 Rmo ms ms' -> Forall2 Rsp sps sps' -> Forall2 Rph phs phs' ->
    Forall2 Rpe pes pes' -> Forall2 Rcad cs cs' ->
    calculateStatistics notes ms sps phs pes cs
    = calculateStatistics notes ms' sps' phs' pes' cs'.
Proof.
  intros notes ms ms' sps sps' phs phs' pes pes' cs cs' Hm Hs Hp He Hc.
  unfold calculateStatistics.
  rewrite <- (Forall2_length_Z Hm), <- (Forall2_length_Z Hs), <- (Forall2_length_Z Hp),
          <- (Forall2_length_Z He), <- (Forall2_length_Z Hc),
          <- (getCadenceDistribution_rel Hc), <- (calculateMaterialDiversity_rel Hp).
  assert (E1 : map ph_length phs = map ph_length phs').
  { eapply Forall2_map_eq; [exact Hp|]. intros x y Hxy. exact (r_ph_length Hxy). }
  assert (E2 : map pe_length pes = map pe_length pes').
  { eapply Forall2_map_eq; [exact He|]. intros x y Hxy. exact (r_pe_length Hxy). }
  now rewrite <- E1, <- E2.
Qed.

Lemma sectionsOrEmpty_rel :
  forall f f', Rfo f f' -> Forall2 Rsec (sectionsOrEmpty f) (sectionsOrEmpty f').
Proof.
  intros f f' H. unfold sectionsOrEmpty. pose proof (r_fa_sections H) as Hs.
  destruct (fa_sections f), (fa_sections f'); cbn in Hs; try contradiction;
    [assumption|constructor].
Qed.

Lemma levelCounts_rel :
  forall ms ms' sps sps' phs phs' pes pes' f f',
    Forall2 Rmo ms ms' -> Forall2 Rsp sps sps' -> Forall2 Rph phs phs' ->
    Forall2 Rpe pes pes' -> Rfo f f' ->
    levelCounts (buildHierarchy ms sps phs pes f)
    = levelCounts (buildHierarchy ms' sps' phs' pes' f').
Proof.
  intros ms ms' sps sps' phs phs' pes pes' f f' Hm Hs Hp He Hf.
  unfold levelCounts, buildHierarchy. cbn.
  now rewrite (Forall2_length_Z Hm), (Forall2_length_Z Hs), (Forall2_length_Z Hp),
    (Forall2_length_Z He), (Forall2_length_Z (sectionsOrEmpty_rel Hf)).
Qed.

(** *** Themes and identifier maps: identifiers must be told apart alike *)

Section Linked.

Hypothesis I_eqb :
  forall a a' b b', I a a' -> I b b' -> String.eqb a b = String.eqb a' b'.

Abbreviation Rth := (Rtheme I SP).

Lemma findThemeOccurrences_rel :
  forall p p' l l', Rpe p p' -> Forall2 Rpe l l' ->
    Forall2 (Roccurrence I) (findThemeOccurrences p l) (findThemeOccurrences p' l').
Proof.
  intros p p' l l' Hp H. unfold findThemeOccurrences.
  pose proof (Zrange_combine_rel H) as HT.
  induction HT as [|[i x] [i' x'] k k' [Hi Hx] _ IH]; cbn; [constructor|].
  cbn in Hi, Hx. subst i'.
  rewrite <- (calculatePeriodSimilarity_rel Hx Hp).
  destruct (Qgtb _ (6#10)); cbn; [|assumption].
  constructor; [|assumption]. constructor; cbn; auto.
  - exact (r_pe_id Hx).
  - exact (r_pe_startMeasure Hx).
  - exact (r_pe_endMeasure Hx).
Qed.

Lemma themeOfSection_rel :
  forall l l' acc acc' s s', Forall2 Rpe l l' -> Forall2 Rth acc acc' -> Rsec s s' ->
    RM (Forall2 Rth) (themeOfSection l acc s) (themeOfSection l' acc' s').
Proof.
  intros l l' acc acc' s s' Hl Hacc Hs. unfold themeOfSection.
  rewrite <- (r_sec_function Hs), <- (r_sec_name Hs).
  destruct (_ || _); [|now apply RelM_ret].
  eapply RelM_bind; [apply RelM_generateId; assumption|]. intros j j' Hj.
  apply RelM_ret. apply Forall2_snoc; [assumption|].
  pose proof (r_sec_periods Hs) as Hps. pose proof (Forall2_lastOpt Hps) as HL.
  constructor; cbn [th_id th_name th_type th_periods th_startMeasure th_endMeasure
                    th_occurrences]; auto.
  - destruct Hps as [|x x' ? ? Hx _]; [reflexivity|]. now rewrite (r_pe_startMeasure Hx).
  - destruct (lastOpt (sec_periods s)), (lastOpt (sec_periods s')); cbn in HL;
      try contradiction; [|reflexivity].
    now rewrite (r_pe_endMeasure HL).
  - destruct Hps as [|x x' ? ? Hx _]; [constructor|]. now apply findThemeOccurrences_rel.
Qed.

Lemma secondaryThemeStep_rel :
  forall l l' m m' ths ths' p p',
    Forall2 Rpe l l' -> Rpe m m' -> Forall2 Rth ths ths' -> Rpe p p' ->
    RM (Forall2 Rth) (secondaryThemeStep l m ths p) (secondaryThemeStep l' m' ths' p').
Proof.
  intros l l' m m' ths ths' p p' Hl Hm Hths Hp. unfold secondaryThemeStep.
  rewrite <- (calculatePeriodSimilarity_rel Hp Hm), <- (r_pe_closure Hp).
  destruct (_ && _); [|now apply RelM_ret].
  assert (E : existsb (fun t => existsb (fun q => String.eqb (pe_id q) (pe_id p))
                                        (th_periods t)) ths
              = existsb (fun t => existsb (fun q => String.eqb (pe_id q) (pe_id p'))
                                          (th_periods t)) ths').
  { eapply Forall2_existsb; [exact Hths|]. intros t t' Ht.
    eapply Forall2_existsb; [exact (r_th_periods Ht)|]. intros q q' Hq.
    apply I_eqb; [exact (r_pe_id Hq)|exact (r_pe_id Hp)]. }
  rewrite <- E. destruct (negb _); [|now apply RelM_ret].
  eapply RelM_bind; [apply RelM_generateId; assumption|]. intros j j' Hj.
  apply RelM_ret. apply Forall2_snoc; [assumption|].
  rewrite <- (Forall2_length_Z Hths), <- (r_pe_startMeasure Hp), <- (r_pe_endMeasure Hp).
  constructor; cbn [th_id th_name th_type th_periods th_startMeasure th_endMeasure th_occurrences]; auto; now apply findThemeOccurrences_rel.
Qed.

Lemma identifyThemes_rel :
  forall l l' f f', Forall2 Rpe l l' -> Rfo f f' ->
    RM (Forall2 Rth) (identifyThemes l f) (identifyThemes l' f').
Proof.
  intros l l' f f' Hl Hf. unfold identifyThemes.
  destruct Hl as [|p p' k k' Hp Hk]; [apply RelM_ret; constructor|].
  assert (Hall : Forall2 Rpe (p :: k) (p' :: k')) by now constructor.
  eapply RelM_bind with (R := Forall2 Rth).
  { pose proof (r_fa_sections Hf) as Hs.
    destruct (fa_sections f), (fa_sections f'); cbn in Hs; try contradiction;
      [|apply RelM_ret; constructor].
    apply RelM_foldM with (RA := Rsec); [|exact Hs|constructor].
    intros; now apply themeOfSection_rel. }
  intros t1 t1' Ht1.
  eapply RelM_bind with (R := Forall2 Rth).
  { destruct Ht1 as [|x x' ? ? Hx Ht1]; [|apply RelM_ret; now constructor].
    eapply RelM_bind; [apply RelM_generateId; assumption|]. intros j j' Hj.
    apply RelM_ret. constructor; [|constructor].
    rewrite <- (r_pe_startMeasure Hp), <- (r_pe_endMeasure Hp).
    constructor; cbn [th_id th_name th_type th_periods th_startMeasure th_endMeasure th_occurrences]; auto; now apply findThemeOccurrences_rel. }
  intros t2 t2' Ht2.
  destruct Hk as [|q q' k k' Hq Hk]; [now apply RelM_ret|].
  destruct Ht2 as [|x x' t2 t2' Hx Ht2]; [apply RelM_ret; constructor|].
  pose proof (r_th_periods Hx) as Hxp.
  destruct Hxp as [|m m' ? ? Hm _]; [apply RelM_ret; now constructor|].
  apply RelM_foldM with (RA := Rpe).
  - intros; now apply secondaryThemeStep_rel.
  - now constructor.
  - now constructor.
Qed.

Lemma assocUpd_rel :
  forall (m m' : list (Id * list Id)) key key' value value',
    Rmapping I m m' -> I key key' -> Forall2 I value value' ->
    Rmapping I (assocUpd String.eqb key (fun _ => value) m)
               (assocUpd String.eqb key' (fun _ => value') m').
Proof.
  intros m m' key key' value value' H Hk Hv.
  induction H as [|[a v] [a' v'] m m' [Ha Hav] H IH]; cbn.
  - constructor; [split; assumption|constructor].
  - cbn in Ha, Hav. rewrite <- (I_eqb Hk Ha).
    destruct (String.eqb key a).
    + constructor; [split; assumption|assumption].
    + constructor; [split; assumption|assumption].
Qed.

Lemma mappingOf_rel :
  forall (A : Type) (R : A -> A -> Prop) (key value key' value' : _) l l',
    (forall x y, R x y -> I (key x) (key' y)) ->
    (forall x y, R x y -> Forall2 I (value x) (value' y)) ->
    Forall2 R l l' -> Rmapping I (mappingOf key value l) (mappingOf key' value' l').
Proof.
  intros A R key value key' value' l l' Hkey Hvalue H. unfold mappingOf.
  assert (G : forall acc acc', Rmapping I acc acc' ->
            Rmapping I
              (fold_left (fun mapping x =>
                            assocUpd String.eqb (key x) (fun _ => value x) mapping) l acc)
              (fold_left (fun mapping x =>
                            assocUpd String.eqb (key' x) (fun _ => value' x) mapping) l' acc')).
  { induction H as [|x y l l' Hxy _ IH]; intros acc acc' Hacc; cbn; [assumption|].
    apply IH. apply assocUpd_rel; auto. }
  apply G. constructor.
Qed.

Lemma Forall2_map2 :
  forall (A B X Y : Type) (R : A -> B -> Prop) (S : X -> Y -> Prop) f g l l',
    Forall2 R l l' -> (forall x y, R x y -> S (f x) (g y)) ->
    Forall2 S (map f l) (map g l').
Proof.
  intros A B X Y R S f g l l' H Hf. induction H; cbn; constructor; auto.
Qed.

Lemma relationships_rel :
  forall ms ms' sps sps' phs phs' pes pes' f f',
    Forall2 Rmo ms ms' -> Forall2 Rsp sps sps' -> Forall2 Rph phs phs' ->
    Forall2 Rpe pes pes' -> Rfo f f' ->
    Rrelationships I (relationships (buildHierarchy ms sps phs pes f))
                     (relationships (buildHierarchy ms' sps' phs' pes' f')).
Proof.
  intros ms ms' sps sps' phs phs' pes pes' f f' Hm Hs Hp He Hf.
  unfold buildHierarchy. cbn [relationships]. constructor; cbn.
  - unfold mapMotivesToSubPhrases. eapply mappingOf_rel; [| |exact Hs].
    + intros x y Hxy. exact (r_sp_id Hxy).
    + intros x y Hxy. rewrite <- (r_sp_startMeasure Hxy), <- (r_sp_endMeasure Hxy).
      eapply Forall2_map2; [|intros a b Hab; exact (r_mo_id Hab)].
      apply Forall2_filter; [assumption|].
      intros a b Hab. now rewrite (r_mo_measureNumber Hab).
  - unfold mapSubPhrasesToPhrases. eapply mappingOf_rel; [| |exact Hp].
    + intros x y Hxy. exact (r_ph_id Hxy).
    + intros x y Hxy. rewrite <- (r_ph_startMeasure Hxy), <- (r_ph_endMeasure Hxy).
      eapply Forall2_map2; [|intros a b Hab; exact (r_sp_id Hab)].
      apply Forall2_filter; [assumption|].
      intros a b Hab. now rewrite (r_sp_startMeasure Hab), (r_sp_endMeasure Hab).
  - unfold mapPhrasesToPeriods. eapply mappingOf_rel; [| |exact He].
    + intros x y Hxy. exact (r_pe_id Hxy).
    + intros x y Hxy.
      eapply Forall2_map2; [exact (r_pe_phrases Hxy)|intros a b Hab; exact (r_ph_id Hab)].
  - unfold mapPeriodsToSections. eapply mappingOf_rel; [| |exact (sectionsOrEmpty_rel Hf)].
    + intros x y Hxy. exact (r_sec_id Hxy).
    + intros x y Hxy.
      eapply Forall2_map2; [exact (r_sec_periods Hxy)|intros a b Hab; exact (r_pe_id Hab)].
Qed.

End Linked.


(** *** The analysis *)

Section Tail.

Variable RT : list Theme -> list Theme -> Prop.
Hypothesis themes_ok :
  forall l l' f f', Forall2 Rpe l l' -> Rfo f f' ->
    RM RT (identifyThemes l f) (identifyThemes l' f').

Lemma analysisTail_rel :
  forall notes options ma ma' info info' ms ms' sps sps', SPok sps sps' ->
    RM (fun a b =>
          Rglobal I SP a b /\ RT (themes a) (themes b)
          /\ RauxiliaryStructures I (auxiliaryStructures a) (auxiliaryStructures b)
          /\ carries notes options ma info ms sps a
          /\ carries notes options ma' info' ms' sps' b)
       (analysisTail notes options ma info ms sps)
       (analysisTail notes options ma' info' ms' sps').
Proof.
  intros notes options ma ma' info info' ms ms' sps sps' Hsp. unfold analysisTail.
  eapply RelM_bind; [apply detectCadences_rel|]. intros cs cs' Hcs.
  eapply RelM_bind; [now apply detectPhrases_rel|]. intros phs phs' Hphs.
  eapply RelM_bind; [now apply detectPeriods_rel|]. intros pes pes' Hpes.
  eapply RelM_bind; [now apply detectCompoundPeriods_rel|]. intros cps cps' Hcps.
  eapply RelM_bind; [now apply detectForm_rel|]. intros f0 f0' Hf0.
  eapply RelM_bind; [now apply detectPopularMusicForm_rel|]. intros pf pf' Hpf.
  rewrite <- (r_fa_confidence Hf0), <- (r_fa_confidence Hpf).
  set (f := if Qgtb _ _ then assignForm f0 pf else f0).
  set (f' := if Qgtb _ _ then assignForm f0' pf' else f0').
  assert (Hf : Rfo f f').
  { subst f f'. destruct (Qgtb _ _); [now apply assignForm_rel|assumption]. }
  clearbody f f'.
  eapply RelM_bind; [now apply themes_ok|]. intros ths ths' Hths.
  eapply RelM_bind with (R := ropt Raux).
  { destruct Hpes as [|p p' ? ? Hp _]; [now apply RelM_ret|].
    now apply detectIntroduction_rel. }
  intros intro intro' Hintro.
  eapply RelM_bind with (R := ropt Raux).
  { pose proof (Forall2_lastOpt Hpes) as HL.
    destruct (lastOpt pes), (lastOpt pes'); cbn in HL; try contradiction;
      [|now apply RelM_ret].
    now apply detectCoda_rel. }
  intros coda coda' Hcoda.
  eapply RelM_bind; [now apply detectTransitions_rel|]. intros ts ts' Hts.
  eapply RelM_bind; [now apply detectExtensions_rel|]. intros es es' Hes.
  apply RelM_ret. cbn.
  split; [constructor; cbn; assumption|].
  split; [assumption|].
  split; [constructor; cbn; assumption|].
  split; repeat split.
Qed.

Hypothesis SP_ok : forall sps sps', Forall2 Rsp sps sps' -> SPok sps sps'.

Lemma analyzeComplete_rel :
  forall notes options,
    RM (fun a b =>
          Ranalysis I SP a b /\ RT (themes a) (themes b)
          /\ hierarchy a = buildHierarchy (motives a) (subPhrases a) (phrases a)
                                          (periods a) (form a)
          /\ hierarchy b = buildHierarchy (motives b) (subPhrases b) (phrases b)
                                          (periods b) (form b))
       (analyzeComplete notes options) (analyzeComplete notes options).
Proof.
  intros notes options.
  change (analyzeComplete notes options)
    with (bind (detectMotives notes (timeSignature options))
            (fun ms => bind (detectSubPhrases notes ms)
               (fun sps => analysisTail notes options
                             (detectMode notes (keySignature options)) None ms sps))).
  eapply RelM_bind; [apply detectMotives_rel|]. intros ms ms' Hms.
  eapply RelM_bind; [now apply detectSubPhrases_rel|]. intros sps sps' Hsps.
  eapply RelM_weaken; [apply analysisTail_rel; now apply SP_ok|].
  intros a b (Hg & Ht & Hx & Ha & Hb).
  destruct Ha as (Ea1 & Ea2 & Ea3 & Ea4 & Ea5 & Ea6 & Ea7 & Ea8).
  destruct Hb as (Eb1 & Eb2 & Eb3 & Eb4 & Eb5 & Eb6 & Eb7 & Eb8).
  destruct Hg as [G1 G2 G3 G4 G5].
  split; [|split; [assumption|]].
  - constructor; try congruence; try assumption.
    + rewrite Ea7, Eb7. now apply levelCounts_rel.
    + rewrite Ea8, Eb8. now apply calculateStatistics_rel.
  - now rewrite Ea7, Eb7, Ea5, Eb5, Ea6, Eb6.
Qed.

End Tail.

End Runs.

(** *** The two readings of the identifiers *)

Lemma RelM_any :
  forall (rnd1 rnd2 : Rand) (A B : Type) (m : M A) (m' : M B),
    RelM rnd1 rnd2 anyCounter (fun _ _ => True) m m'.
Proof. intros rnd1 rnd2 A B m m' n1 n2 _. split; exact Logic.I. Qed.

Lemma SPin_Forall2 :
  forall (I : Id -> Id -> Prop) sps sps',
    Forall2 (RsubPhrase I) sps sps' -> SPin (Forall2 (RsubPhrase I)) sps sps'.
Proof.
  intros I sps sps' H g. apply Forall2_filter; [assumption|].
  intros x y Hxy. now rewrite (r_sp_startMeasure Hxy), (r_sp_endMeasure Hxy).
Qed.

Lemma sameDraw_eqb :
  forall rnd1 rnd2 : Rand, injective rnd1 -> injective rnd2 ->
  forall a a' b b', sameDraw rnd1 rnd2 a a' -> sameDraw rnd1 rnd2 b b' ->
    String.eqb a b = String.eqb a' b'.
Proof.
  intros rnd1 rnd2 H1 H2 a a' b b' [k [Ea Ea']] [j [Eb Eb']]. subst.
  destruct (String.eqb_spec (rnd1 k) (rnd1 j)) as [E|E],
           (String.eqb_spec (rnd2 k) (rnd2 j)) as [E'|E']; try reflexivity.
  - apply H1 in E. subst j. now elim E'.
  - apply H2 in E'. subst j. now elim E.
Qed.

Lemma unaryId_injective : injective unaryId.
Proof.
  intros i. unfold unaryId. induction i as [|i IH]; intros [|j]; cbn; try discriminate; auto.
  intros E. f_equal. apply IH. now inversion E.
Qed.

Lemma unaryId'_injective : injective unaryId'.
Proof.
  intros i j E. unfold unaryId' in E. apply unaryId_injective. now inversion E.
Qed.

Lemma analyzeComplete_anyId :
  forall notes options rnd1 rnd2,
    Ranalysis anyId (Forall2 (RsubPhrase anyId))
      (run (analyzeComplete notes options) rnd1) (run (analyzeComplete notes options) rnd2).
Proof.
  intros notes options rnd1 rnd2.
  refine (proj1 (proj1 (@analyzeComplete_rel rnd1 rnd2 anyCounter anyId _ _
                          (Forall2 (RsubPhrase anyId)) (fun _ _ => True) _ _
                          notes options 0%nat 0%nat Logic.I))).
  - intros; exact Logic.I.
  - intros; exact Logic.I.
  - intros; apply RelM_any.
  - apply SPin_Forall2.
Qed.

Lemma analyzeComplete_sameDraw :
  forall notes options rnd1 rnd2, injective rnd1 -> injective rnd2 ->
    let I := sameDraw rnd1 rnd2 in
    let r1 := run (analyzeComplete notes options) rnd1 in
    let r2 := run (analyzeComplete notes options) rnd2 in
    Ranalysis I (Forall2 (RsubPhrase I)) r1 r2 /\ Rlinked I (Forall2 (RsubPhrase I)) r1 r2.
Proof.
  intros notes options rnd1 rnd2 H1 H2 I r1 r2.
  assert (C_next : forall n1 n2 : nat, n1 = n2 -> S n1 = S n2) by (intros; congruence).
  assert (I_draw : forall n1 n2 : nat, n1 = n2 -> I (rnd1 n1) (rnd2 n2)).
  { intros n1 n2 E. subst n2. now exists n1. }
  pose proof (sameDraw_eqb H1 H2) as I_eqb.
  assert (Hth : forall l l' f f',
             Forall2 (Rperiod I (Forall2 (RsubPhrase I))) l l' ->
             Rform I (Forall2 (RsubPhrase I)) f f' ->
             RelM rnd1 rnd2 eq (Forall2 (Rtheme I (Forall2 (RsubPhrase I))))
                  (identifyThemes l f) (identifyThemes l' f')).
  { intros l l' f f' Hl Hf.
    exact (@identifyThemes_rel rnd1 rnd2 eq I C_next I_draw _ I_eqb l l' f f' Hl Hf). }
  destruct (@analyzeComplete_rel rnd1 rnd2 eq I C_next I_draw _ _ Hth
              (@SPin_Forall2 I) notes options 0%nat 0%nat eq_refl)
    as [(Ha & Ht & Eh1 & Eh2) _].
  change (fst (analyzeComplete notes options rnd1 0%nat)) with r1 in Ha, Ht, Eh1, Eh2.
  change (fst (analyzeComplete notes options rnd2 0%nat)) with r2 in Ha, Ht, Eh1, Eh2.
  split; [exact Ha|].
  constructor; [exact Ht|]. rewrite Eh1, Eh2.
  apply (@relationships_rel I (Forall2 (RsubPhrase I)) I_eqb).
  - exact (r_motives Ha).
  - exact (r_subPhrases Ha).
  - exact (r_phrases Ha).
  - exact (r_periods Ha).
  - exact (r_form Ha).
Qed.

(** C3.  Two runs of [analyzeComplete] on the same notes and options, each
    with its own source of identifiers, return results that agree in every
    field but the identifiers: the same mode analysis, level counts and
    statistics, and motives, sub-phrases, phrases, periods, compound
    periods, cadences, form sections and auxiliary structures that
    correspond item by item with equal measures, material labels,
    relationships and confidences.  When neither source repeats an
    identifier, the themes and the identifier maps of the hierarchy
    correspond as well, and the identifiers that correspond are those drawn
    at the same position of the two sources. *)
Theorem analyzeComplete_deterministic :
  forall (notes : list Note) (options : Options) (rnd1 rnd2 : Rand),
    let r1 := run (analyzeComplete notes options) rnd1 in
    let r2 := run (analyzeComplete notes options) rnd2 in
    Ranalysis anyId (Forall2 (RsubPhrase anyId)) r1 r2
    /\ (injective rnd1 -> injective rnd2 ->
        Ranalysis (sameDraw rnd1 rnd2) (Forall2 (RsubPhrase (sameDraw rnd1 rnd2))) r1 r2
        /\ Rlinked (sameDraw rnd1 rnd2) (Forall2 (RsubPhrase (sameDraw rnd1 rnd2))) r1 r2).
Proof.
  intros notes options rnd1 rnd2 r1 r2. split.
  - apply analyzeComplete_anyId.
  - intros H1 H2. now apply analyzeComplete_sameDraw.
Qed.


Lemma analyzeComplete_deterministic_witness :
  injective unaryId /\ injective unaryId'
  /\ Rlinked (sameDraw unaryId unaryId') (Forall2 (RsubPhrase (sameDraw unaryId unaryId')))
       (run (analyzeComplete twoPeriodNotes defaultOptions) unaryId)
       (run (analyzeComplete twoPeriodNotes defaultOptions) unaryId').
Proof.
  split; [exact unaryId_injective|]. split; [exact unaryId'_injective|].
  exact (proj2 (proj2 (analyzeComplete_deterministic twoPeriodNotes defaultOptions
                         unaryId unaryId')
                      unaryId_injective unaryId'_injective)).
Defined.

(** Why the themes ask for identifiers that do not repeat:
    [identifyThemes] tells periods apart by their identifiers, so a source
    that repeats one identifier hides the secondary theme of the second
    period. *)
Example themes_of_colliding_ids :
  map th_name (themes (run (analyzeComplete twoPeriodNotes defaultOptions) constId)) = ["A"]
  /\ map th_name (themes (run (analyzeComplete twoPeriodNotes defaultOptions) unaryId))
     = ["A"; "Secondary Theme 1"].
Proof. split; vm_compute; reflexivity. Qed.


(** *** The chunked analysis *)

Lemma analyzeComplete_unfold :
  forall notes options,
    analyzeComplete notes options
    = bind (detectMotives notes (timeSignature options))
        (fun ms => bind (detectSubPhrases notes ms)
           (fun sps => analysisTail notes options
                         (detectMode notes (keySignature options)) None ms sps)).
Proof. reflexivity. Qed.

Lemma analyzeCompleteChunked_unfold :
  forall notes options,
    analyzeCompleteChunked notes options
    = if (Zlen notes <? maxNotesPerChunk * 2)
         && (Zlen (groupNotesByMeasure notes) <? maxMeasuresPerChunk * 2)
      then analyzeComplete notes options
      else
        bind (processInChunks (fun m => ZorElse (mo_measureNumber m) 0) notes
                (fun chunkNotes => detectMotives chunkNotes (timeSignature options)))
          (fun ms =>
             bind (processInChunks (fun sp => ZorElse (sp_startMeasure sp) 0) notes
                     (fun chunkNotes =>
                        detectSubPhrases chunkNotes
                          (filter (fun m =>
                                     existsb (fun n => n_measureNumber n =? mo_measureNumber m)
                                             chunkNotes) ms)))
               (fun sps =>
                  analysisTail notes options
                    (detectMode (jsSlice notes 0 (Z.min 500 (Zlen notes)))
                                (keySignature options))
                    (Some (mkProcessingInfo true (Zlen notes)
                                            (Zlen (groupNotesByMeasure notes))
                                            RULE_ENGINE_VERSION))
                    ms sps)).
Proof. reflexivity. Qed.

Lemma chunked_global :
  forall notes options rnd1 rnd2,
    Rglobal anyId anySubPhrases
      (run (analyzeComplete notes options) rnd1)
      (run (analyzeCompleteChunked notes options) rnd2).
Proof.
  intros notes options rnd1 rnd2.
  assert (C_next : forall n1 n2 : nat, anyCounter n1 n2 -> anyCounter (S n1) (S n2))
    by (intros; exact Logic.I).
  assert (I_draw : forall n1 n2 : nat, anyCounter n1 n2 -> anyId (rnd1 n1) (rnd2 n2))
    by (intros; exact Logic.I).
  assert (Htail : forall ma ma' info info' ms ms' sps sps',
             RelM rnd1 rnd2 anyCounter (Rglobal anyId anySubPhrases)
                  (analysisTail notes options ma info ms sps)
                  (analysisTail notes options ma' info' ms' sps')).
  { intros. eapply RelM_weaken.
    - apply (@analysisTail_rel rnd1 rnd2 anyCounter anyId C_next I_draw anySubPhrases
               (fun _ _ => True)).
      + intros; apply RelM_any.
      + intros g; exact Logic.I.
    - intros a b H. exact (proj1 H). }
  assert (G : RelM rnd1 rnd2 anyCounter (Rglobal anyId anySubPhrases)
                   (analyzeComplete notes options) (analyzeCompleteChunked notes options)).
  { rewrite analyzeCompleteChunked_unfold, analyzeComplete_unfold.
    destruct (_ && _).
    - eapply RelM_bind; [apply RelM_any|]. intros ms ms' _.
      eapply RelM_bind; [apply RelM_any|]. intros sps sps' _. apply Htail.
    - eapply RelM_bind; [apply RelM_any|]. intros ms ms' _.
      eapply RelM_bind; [apply RelM_any|]. intros sps sps' _. apply Htail. }
  exact (proj1 (G 0%nat 0%nat Logic.I)).
Qed.

End AgreementFacts.

(** ** Cadence classification *)

Module CadenceFacts.

Import CadenceSpec.

(** C5 (evaluation).  On the passage above, in A minor, the detector
    reports one cadence at measure 2, and it is a half cadence of
    confidence 0.8, not a Phrygian cadence of confidence 0.7. *)
Example detectCadences_phrygian_passage :
  forall rnd : Rand,
    run (detectCadences phrygianNotes aMinor) rnd
    = [mkCadence (rnd 0%nat) 2 0 CadenceTypes.HALF "weak" (8#10)].
Proof. intros rnd. reflexivity. Qed.

(** C5.  Whatever the mode, the melody and the measure, a bass motion
    from degree 3 to degree 4 is classified as a half cadence (strength
    weak, confidence 0.8): the test [currDegree === 4] comes first, so
    the Phrygian branch below it is never taken. *)
Theorem classifyCadence_iv_V_is_half :
  forall (melodyDegree measureNumber : Z) (mode : string) (rnd : Rand) (n : nat),
    fst (classifyCadence 3 4 melodyDegree measureNumber mode rnd n)
    = Some (mkCadence (rnd n) measureNumber 0 CadenceTypes.HALF "weak" (8#10)).
Proof. intros. reflexivity. Qed.

(** No input makes [classifyCadence] return a Phrygian cadence. *)
Lemma classifyCadence_never_phrygian :
  forall (prevDegree currDegree melodyDegree measureNumber : Z) (mode : string)
         (rnd : Rand) (n : nat) (c : Cadence),
    fst (classifyCadence prevDegree currDegree melodyDegree measureNumber mode rnd n) = Some c ->
    cad_type c <> CadenceTypes.PHRYGIAN.
Proof.
  intros prevDegree currDegree melodyDegree measureNumber mode rnd n c.
  unfold classifyCadence, newCadence, bind, generateId, ret.
  destruct ((prevDegree =? 4) && (currDegree =? 0)) eqn:E1.
  { destruct (melodyDegree =? 0); cbn; intros H; inversion H; subst; cbn; discriminate. }
  destruct (((prevDegree =? 4) || (prevDegree =? 6)) && (currDegree =? 0)
            && negb (melodyDegree =? 0)) eqn:E2.
  { cbn; intros H; inversion H; subst; cbn; discriminate. }
  destruct (currDegree =? 4) eqn:E3.
  { cbn; intros H; inversion H; subst; cbn; discriminate. }
  destruct ((prevDegree =? 4) && (currDegree =? 5)) eqn:E4.
  { cbn; intros H; inversion H; subst; cbn; discriminate. }
  destruct ((prevDegree =? 3) && (currDegree =? 0)) eqn:E5.
  { cbn; intros H; inversion H; subst; cbn; discriminate. }
  rewrite andb_false_r. cbn. discriminate.
Qed.

End CadenceFacts.

(** ** Phrase detection *)

Module PhraseFacts.

Import PhraseSpec.

Lemma closureOf_spec :
  forall c, closureOf c = "closed" <-> (7#10 < getCadenceStrength c)%Q.
Proof.
  intros c. unfold closureOf, Qgtb, Qltb.
  destruct (Qle_bool (getCadenceStrength c) (7#10)) eqn:E; cbn.
  - apply Qle_bool_iff in E. split; [discriminate|]. intros H. exfalso.
    apply (Qlt_not_le _ _ H). exact E.
  - split; [|reflexivity]. intros _. apply Qnot_le_lt. intros H.
    apply Qle_bool_iff in H. congruence.
Qed.

Lemma open_spec : "open" = "closed" <-> (7#10 < getCadenceStrength None)%Q.
Proof. cbn. split; [discriminate|]. intros H. exfalso. revert H. apply Qle_not_lt. discriminate. Qed.

Lemma phraseStep_ok :
  forall notes subPhrases st cadence rnd n,
    Forall phraseOk (fst (fst st)) ->
    Forall phraseOk (fst (fst (fst (phraseStep notes subPhrases st cadence rnd n)))).
Proof.
  intros notes subPhrases [[phrases phraseStart] phraseIndex] cadence rnd n H.
  cbn in H. unfold phraseStep, newPhrase, bind, generateId, ret.
  destruct ((2 <=? cad_measureNumber cadence - phraseStart + 1)
            && (cad_measureNumber cadence - phraseStart + 1 <=? 12)) eqn:E1.
  - cbn. apply Forall_app. split; [exact H|]. constructor; [|constructor].
    apply andb_prop in E1. destruct E1 as [E1 E2].
    apply Z.leb_le in E1. unfold phraseOk; cbn -[getCadenceStrength closureOf].
    repeat split; try lia; apply closureOf_spec.
  - destruct (12 <? cad_measureNumber cadence - phraseStart + 1) eqn:E2.
    + cbn. apply Forall_app. split; [exact H|].
      apply Z.ltb_lt in E2.
      pose proof (Z.div_mod (cad_measureNumber cadence - phraseStart + 1) 2 ltac:(lia)).
      pose proof (Z.mod_pos_bound (cad_measureNumber cadence - phraseStart + 1) 2 ltac:(lia)).
      constructor; [|constructor; [|constructor]];
        unfold phraseOk; cbn -[getCadenceStrength closureOf Z.div];
        repeat split; try lia; try apply closureOf_spec; try apply open_spec.
    + cbn. exact H.
Qed.

Lemma phraseRemainder_ok :
  forall notes subPhrases lastMeasure st rnd n,
    Forall phraseOk (fst (fst st)) ->
    Forall phraseOk (fst (phraseRemainder notes subPhrases lastMeasure st rnd n)).
Proof.
  intros notes subPhrases lastMeasure [[phrases phraseStart] phraseIndex] rnd n H.
  cbn in H. unfold phraseRemainder, newPhrase, bind, generateId, ret.
  destruct (phraseStart <=? lastMeasure); [|exact H].
  destruct (2 <=? lastMeasure - phraseStart + 1) eqn:E; [|exact H].
  cbn. apply Forall_app. split; [exact H|]. constructor; [|constructor].
  apply Z.leb_le in E. unfold phraseOk; cbn -[getCadenceStrength].
  repeat split; try lia; apply open_spec.
Qed.

(** The material pass rewrites [material], [relationship] and
    [headSimilarity] only. *)
Lemma relatePhrase_fields :
  forall prev curr,
    ph_startMeasure (relatePhrase prev curr) = ph_startMeasure curr
    /\ ph_endMeasure (relatePhrase prev curr) = ph_endMeasure curr
    /\ ph_length (relatePhrase prev curr) = ph_length curr
    /\ ph_cadence (relatePhrase prev curr) = ph_cadence curr
    /\ ph_closure (relatePhrase prev curr) = ph_closure curr
    /\ ph_notes (relatePhrase prev curr) = ph_notes curr
    /\ ph_id (relatePhrase prev curr) = ph_id curr
    /\ ph_index (relatePhrase prev curr) = ph_index curr
    /\ ph_subPhrases (relatePhrase prev curr) = ph_subPhrases curr.
Proof.
  intros prev curr. unfold relatePhrase.
  destruct (Qgtb _ _ && Qltb _ _); [cbn; repeat split; reflexivity|].
  destruct (Qgtb _ _ && Qgtb _ _); [cbn; repeat split; reflexivity|].
  destruct (Qltb _ _); cbn; repeat split; reflexivity.
Qed.

Lemma relatePhrase_ok :
  forall prev curr, phraseOk curr -> phraseOk (relatePhrase prev curr).
Proof.
  intros prev curr H. unfold phraseOk in *.
  destruct (relatePhrase_fields prev curr) as (-> & -> & -> & -> & -> & _).
  exact H.
Qed.

Lemma relateAfter_ok :
  forall rest prev, Forall phraseOk rest -> Forall phraseOk (relateAfter prev rest).
Proof.
  intros rest. induction rest as [|curr rest IH]; intros prev H; cbn; [constructor|].
  inversion H; subst. constructor; [apply relatePhrase_ok; assumption|].
  apply IH. assumption.
Qed.

Lemma analyzePhraseMaterials_ok :
  forall phrases, Forall phraseOk phrases -> Forall phraseOk (analyzePhraseMaterials phrases).
Proof.
  intros [|p0 rest] H; cbn; [constructor|].
  inversion H; subst. constructor; [assumption|]. apply relateAfter_ok. assumption.
Qed.

Lemma detectPhrases_ok :
  forall notes cadences subPhrases rnd n,
    Forall phraseOk (fst (detectPhrases notes cadences subPhrases rnd n)).
Proof.
  intros notes cadences subPhrases rnd n. unfold detectPhrases.
  destruct (sortedKeys (groupNotesByMeasure notes)) as [|first rest] eqn:EK;
    [constructor|].
  destruct (lastOpt (first :: rest)) as [lastMeasure|]; [|constructor].
  unfold bind.
  pose proof (@MonadFacts.foldM_invariant _ _
                (fun st : list Phrase * Z * Z => Forall phraseOk (fst (fst st)))
                (phraseStep notes subPhrases)
                (fun s a rnd n H => phraseStep_ok notes subPhrases s a rnd n H)
                (sortBy cad_measureNumber cadences) ([], first, 0) rnd n
                (Forall_nil _)) as Hst.
  destruct (foldM _ _ _ rnd n) as [st n1].
  pose proof (phraseRemainder_ok notes subPhrases lastMeasure st rnd n1 Hst) as Hr.
  destruct (phraseRemainder _ _ _ _ rnd n1) as [phrases n2].
  cbn. apply analyzePhraseMaterials_ok. exact Hr.
Qed.

Lemma emitted_bound :
  forall notes subPhrases phraseStart phraseIndex cadence rnd n,
    Forall (fun p => ph_length p
                     <= Z.max 12 ((cad_measureNumber cadence - phraseStart + 1) / 2 + 1))
           (emitted notes subPhrases phraseStart phraseIndex cadence rnd n).
Proof.
  intros. unfold emitted, phraseStep, newPhrase, bind, generateId, ret.
  destruct ((2 <=? cad_measureNumber cadence - phraseStart + 1)
            && (cad_measureNumber cadence - phraseStart + 1 <=? 12)) eqn:E1.
  - cbn. apply andb_prop in E1. destruct E1 as [_ E1]. apply Z.leb_le in E1.
    constructor; [cbn; lia|constructor].
  - destruct (12 <? cad_measureNumber cadence - phraseStart + 1) eqn:E2; [|constructor].
    apply Z.ltb_lt in E2.
    pose proof (Z.div_mod (cad_measureNumber cadence - phraseStart + 1) 2 ltac:(lia)).
    pose proof (Z.mod_pos_bound (cad_measureNumber cadence - phraseStart + 1) 2 ltac:(lia)).
    cbn -[Z.div]. constructor; [cbn -[Z.div]; lia|].
    constructor; [cbn -[Z.div]; lia|constructor].
Qed.

(** C2 (counterexample).  On twenty-four measures closed by a single
    cadence the span is split once, and the first half, measures 1 to 13,
    is a phrase of length 13: not every emitted phrase has its length in
    [2, 12]. *)
Lemma detectPhrases_long_span :
  ~ Forall (fun p => 2 <= ph_length p <= 12) longSpanPhrases.
Proof.
  assert (E : map (fun p => (ph_startMeasure p, ph_endMeasure p, ph_length p))
                  longSpanPhrases = [(1, 13, 13); (14, 24, 11)])
    by (vm_compute; reflexivity).
  intros H. destruct longSpanPhrases as [|p l]; [discriminate|].
  inversion H as [|? ? Hp _]; subst. cbn in E. inversion E. lia.
Qed.

(** The trailing phrase has no upper bound either: thirteen measures
    without a cadence make one phrase of length 13. *)
Example detectPhrases_pedal :
  map (fun p => (ph_startMeasure p, ph_endMeasure p, ph_length p, ph_closure p))
      (run (detectPhrases pedalNotes (run (detectCadences pedalNotes defaultKey) constId) [])
           constId)
  = [(1, 13, 13, "open")].
Proof. vm_compute. reflexivity. Qed.

(** C2 (amended).  Every phrase [detectPhrases] emits has
    length = endMeasure - startMeasure + 1, at least 2, and is closed
    exactly when the strength of its cadence exceeds 0.7 (no cadence:
    strength 0).  The phrases added at a cadence that closes a span of L
    measures have length at most max(12, L/2 + 1): within [2, 12] for a
    span that is not split and for both halves of a split span of up to
    23 measures. *)
Theorem detectPhrases_invariant :
  forall (notes : list Note) (cadences : list Cadence) (subPhrases : list SubPhrase)
         (rnd : Rand),
    Forall phraseOk (run (detectPhrases notes cadences subPhrases) rnd)
    /\ forall (phraseStart phraseIndex : Z) (cadence : Cadence) (n : nat),
         Forall (fun p => ph_length p
                          <= Z.max 12 ((cad_measureNumber cadence - phraseStart + 1) / 2 + 1))
                (emitted notes subPhrases phraseStart phraseIndex cadence rnd n).
Proof.
  intros notes cadences subPhrases rnd. split.
  - apply detectPhrases_ok.
  - intros. apply emitted_bound.
Qed.

End PhraseFacts.

(** ** The variation probe of the form cascade *)

Module FormFacts.

Import FormSpec.

Lemma flat_map_variations_length :
  forall theme later (idx : list Z),
    (List.length later <= List.length idx)%nat ->
    List.length
      (flat_map
         (fun ip : Z * Period =>
            let '(i, p) := ip in
            let similarity := calculatePeriodSimilarity p theme in
            if Qgtb similarity (3#10) && Qltb similarity (9#10)
            then [mkVariation i p similarity (classifyVariationType theme p)]
            else [])
         (combine idx later))
    = List.length (filter (variesTheme theme) later).
Proof.
  intros theme later. induction later as [|p later IH]; intros idx H.
  - destruct idx; reflexivity.
  - destruct idx as [|i idx]; [cbn in H; lia|].
    cbn [combine flat_map filter]. rewrite length_app.
    rewrite IH by (cbn in H; lia).
    unfold variesTheme at 2.
    destruct (Qgtb _ _ && Qltb _ _); reflexivity.
Qed.

Lemma findVariations_count :
  forall theme later,
    Zlen (findVariations theme (theme :: later)) = Zlen (filter (variesTheme theme) later).
Proof.
  intros theme later. unfold findVariations, Zlen, Zrange. f_equal.
  rewrite Nat2Z.id. cbn [List.length seq map combine tl].
  apply flat_map_variations_length.
  rewrite length_map, length_seq. lia.
Qed.

(** C8 (amended).  For a list of at least four periods on which the
    variation probe decides alike in floating point and in exact
    arithmetic (exact notes, similarities to period 0 clear of 0.3 and
    0.9), if strictly more than 60% of the periods 1 ... N-1 have a
    similarity to period 0 strictly between 0.3 and 0.9, [detectForm]
    returns the variation form with confidence 0.7 + 0.2 * ratio (the
    number the engine rounds to a double). *)
Theorem detectForm_variation :
  forall (periods : list Period) (rnd : Rand),
    4 <= Zlen periods ->
    decisive periods = true ->
    (6#10 < variationFraction periods)%Q ->
    fa_formType (run (detectForm periods) rnd) = FormTypes.VARIATION
    /\ fa_confidence (run (detectForm periods) rnd)
       = ((7#10) + variationFraction periods * (2#10))%Q.
Proof.
  intros periods rnd HN _ Hr.
  destruct periods as [|theme later]; [cbn in HN; lia|].
  unfold run, detectForm.
  destruct (Zlen (theme :: later) =? 0) eqn:E0; [apply Z.eqb_eq in E0; lia|].
  destruct (Zlen (theme :: later) =? 1) eqn:E1; [apply Z.eqb_eq in E1; lia|].
  destruct (Zlen (theme :: later) =? 2) eqn:E2; [apply Z.eqb_eq in E2; lia|].
  destruct (Zlen (theme :: later) =? 3) eqn:E3; [apply Z.eqb_eq in E3; lia|].
  unfold bind at 1. unfold detectVariationForm.
  destruct (Zlen (theme :: later) <? 3) eqn:E4; [apply Z.ltb_lt in E4; lia|].
  rewrite findVariations_count.
  unfold variationFraction in Hr |- *.
  set (ratio := (inject_Z (Zlen (filter (variesTheme theme) later))
                 / inject_Z (Zlen (theme :: later) - 1))%Q) in *.
  assert (G1 : Qgtb ratio (6#10) = true).
  { unfold Qgtb, Qltb. apply negb_true_iff. apply not_true_is_false. intros H.
    apply Qle_bool_iff in H. apply (Qlt_not_le _ _ Hr H). }
  rewrite G1. unfold bind.
  destruct (createVariationSections theme (findVariations theme (theme :: later)) rnd 0%nat)
    as [sections n1].
  cbn [ret fa_confidence].
  assert (G2 : Qgtb ((7#10) + ratio * (2#10)) (7#10) = true).
  { unfold Qgtb, Qltb. apply negb_true_iff. apply not_true_is_false. intros H.
    apply Qle_bool_iff in H. lra. }
  rewrite G2. cbn. split; reflexivity.
Qed.

Lemma detectForm_variation_witness :
  4 <= Zlen (firstn 5 sixPeriods)
  /\ decisive (firstn 5 sixPeriods) = true
  /\ (6#10 < variationFraction (firstn 5 sixPeriods))%Q
  /\ fa_formType (run (detectForm (firstn 5 sixPeriods)) constId) = FormTypes.VARIATION
  /\ fa_confidence (run (detectForm (firstn 5 sixPeriods)) constId)
     = ((7#10) + variationFraction (firstn 5 sixPeriods) * (2#10))%Q.
Proof.
  assert (H1 : 4 <= Zlen (firstn 5 sixPeriods)) by (vm_compute; discriminate).
  assert (H2 : decisive (firstn 5 sixPeriods) = true) by (vm_compute; reflexivity).
  assert (H3 : (6#10 < variationFraction (firstn 5 sixPeriods))%Q)
    by (vm_compute; reflexivity).
  split; [exact H1|]. split; [exact H2|]. split; [exact H3|].
  exact (detectForm_variation (firstn 5 sixPeriods) constId H1 H2 H3).
Defined.

(** C8 (counterexample).  Six periods of which exactly three of the five
    later ones vary the first: the fraction is 60%, and the form returned
    is not the variation form. *)
Lemma detectForm_at_sixty_percent :
  4 <= Zlen sixPeriods
  /\ (6#10 <= variationFraction sixPeriods)%Q
  /\ fa_formType (run (detectForm sixPeriods) constId) <> FormTypes.VARIATION.
Proof.
  split; [vm_compute; discriminate|]. split; [vm_compute; discriminate|].
  vm_compute. discriminate.
Qed.

End FormFacts.

(** ** The preference learner *)

Module PreferenceFacts.

Import PreferenceManager.

Import PreferenceSpec.

Lemma encode_level :
  forall (a b c : string) (key : option string),
    isLevel (encode [(a, 1%Q); (b, 5#10); (c, 0%Q)] key).
Proof.
  intros a b c [name|]; unfold encode, isLevel; cbn; [|auto].
  destruct (String.eqb name a); [auto|].
  destruct (String.eqb name b); [auto|].
  destruct (String.eqb name c); auto.
Qed.

(** C6 (counterexample).  The vector extracted from a phrase node has
    22 entries, not 23. *)
Lemma extractFeatureVector_not_23 :
  List.length (extractFeatureVector someFeatures) <> 23%nat.
Proof. cbv. discriminate. Qed.

Lemma extractFeatureVector_length :
  forall f : Features, List.length (extractFeatureVector f) = 22%nat.
Proof. intros f. reflexivity. Qed.

Lemma stored_vectors_22 :
  forall (Scheme : Type) (ops : list (Op Scheme)) (m : Manager Scheme),
    Forall (fun e => List.length (ex_features e) = 22%nat) (examples m) ->
    Forall (fun e => List.length (ex_features e) = 22%nat)
           (examples (fold_left applyOp ops m)).
Proof.
  intros Scheme ops. induction ops as [|op ops IH]; intros m Hm; cbn; [exact Hm|].
  apply IH. destruct op; cbn; try exact Hm.
  - apply Forall_app. split; [exact Hm|]. constructor; [reflexivity|constructor].
  - apply Forall_app. split; [exact Hm|]. constructor; [reflexivity|constructor].
  - constructor.
Qed.

(** C6 (amended).  The feature vector has dimension 22 (6 + 1 + 1 + 2 +
    5 + 4 + 3) for every feature record, the weight vector has the same
    dimension, and every example a session stores carries a vector of that
    dimension.  For features whose emotion fields are no inherited name
    of an object and whose material is plain text, the vector is laid out
    as the one-hot of the type, the confidence, the capped length, the two
    material flags, the one-hot of the cadence, the one-hot of the period
    type and the three emotion levels, each of these in {0, 0.5, 1}. *)
Theorem extractFeatureVector_layout :
  forall (Scheme : Type) (f : Features),
    List.length (extractFeatureVector f) = 22%nat
    /\ List.length (getWeightVector (newManager Scheme)) = 22%nat
    /\ (forall ops : list (Op Scheme),
          Forall (fun e => List.length (ex_features e) = 22%nat) (examples (runOps ops)))
    /\ (plainFeatures f = true ->
        extractFeatureVector f = featureLayout f
        /\ List.length (typeOneHot f) = 6%nat
        /\ List.length (cadenceOneHot f) = 5%nat
        /\ List.length (periodOneHot f) = 4%nat
        /\ isLevel (tempoCell f) /\ isLevel (dynamicsCell f) /\ isLevel (tensionCell f)).
Proof.
  intros Scheme f. split; [reflexivity|]. split; [reflexivity|]. split.
  - intros ops. unfold runOps. apply stored_vectors_22. constructor.
  - intros _. repeat split; try reflexivity; apply encode_level.
Qed.

Lemma extractFeatureVector_layout_witness :
  List.length (extractFeatureVector someFeatures) = 22%nat
  /\ List.length (getWeightVector (newManager unit)) = 22%nat
  /\ (forall ops : list (Op unit),
        Forall (fun e => List.length (ex_features e) = 22%nat) (examples (runOps ops)))
  /\ plainFeatures someFeatures = true
  /\ extractFeatureVector someFeatures = featureLayout someFeatures
  /\ List.length (typeOneHot someFeatures) = 6%nat
  /\ List.length (cadenceOneHot someFeatures) = 5%nat
  /\ List.length (periodOneHot someFeatures) = 4%nat
  /\ isLevel (tempoCell someFeatures) /\ isLevel (dynamicsCell someFeatures)
  /\ isLevel (tensionCell someFeatures).
Proof.
  destruct (extractFeatureVector_layout unit someFeatures) as (H1 & H2 & H3 & H4).
  assert (P : plainFeatures someFeatures = true) by reflexivity.
  split; [exact H1|]. split; [exact H2|]. split; [exact H3|]. split; [exact P|].
  exact (H4 P).
Defined.

(** C7 (evaluation).  A fresh manager records the acceptance of a scheme
    for a phrase: the structure-type weight is still 1.0, not 1.05. *)
Example recordSelection_fresh_accept :
  forall (Scheme : Type) (now : Z) (scheme : Scheme),
    w_structureType
      (featureWeights (recordSelection (newManager Scheme) now someFeatures scheme 1)) = 1%Q.
Proof. intros. reflexivity. Qed.

(** C7.  Recording a selection, through the manager or through the
    recommender, appends the example and leaves every feature weight, and
    so the weight vector, as it was: [updateFeatureWeights] is not called. *)
Theorem recordSelection_keeps_weights :
  forall (Scheme : Type) (m : Manager Scheme) (now : Z) (features : Features)
         (node : StructureAnalyzer.Node) (scheme : Scheme) (reward : Q) (action : string),
    featureWeights (recordSelection m now features scheme reward) = featureWeights m
    /\ getWeightVector (recordSelection m now features scheme reward) = getWeightVector m
    /\ getWeightVector (VisualSchemeRecommender.recordSelection m now node scheme action)
       = getWeightVector m.
Proof. intros. repeat split; reflexivity. Qed.

(** What the weight update does when it is called. *)
Lemma updateFeatureWeights_structureType :
  forall (Scheme : Type) (m : Manager Scheme) (features : Features) (accepted : bool)
         (c : ascii) (t : string),
    type features = Some (String c t) ->
    w_structureType (featureWeights (updateFeatureWeights m features accepted))
    = clampWeight (w_structureType (featureWeights m)
                   + (if accepted then 5#100 else - (3#100)))%Q.
Proof. intros Scheme m features accepted c t H. cbn. rewrite H. cbn. reflexivity. Qed.

End PreferenceFacts.

(** ** The aligner *)

Module AlignmentFacts.

Import DTWAligner.

(** C10.  When either chroma sequence is empty, [computeDTW] returns the
    empty path and an infinite distance, and after the alignment
    [getTimestamp] answers 0 for every measure number. *)
Theorem degenerate_alignment :
  forall (sqrtQ : Q -> Q) (seq1 seq2 : Chroma) (options : AlignOptions),
    seq1 = [] \/ seq2 = [] ->
    computeDTW sqrtQ seq1 seq2 = ([], PInf)
    /\ forall measureNumber : num,
         getTimestamp (align sqrtQ seq1 seq2 options) measureNumber = Fin 0.
Proof.
  intros sqrtQ seq1 seq2 options H.
  assert (E : computeDTW sqrtQ seq1 seq2 = ([], PInf)).
  { unfold computeDTW. destruct H as [-> | ->]; cbn; [reflexivity|].
    rewrite orb_true_r. reflexivity. }
  split; [exact E|].
  intros measureNumber. unfold align. rewrite E. cbn. reflexivity.
Qed.

Lemma degenerate_alignment_witness :
  computeDTW (fun x => x) [] [[1%Q; 0%Q]] = ([], PInf)
  /\ forall measureNumber : num,
       getTimestamp (align (fun x => x) [] [[1%Q; 0%Q]] defaultAlignOptions) measureNumber
       = Fin 0.
Proof. apply degenerate_alignment. left. reflexivity. Defined.

End AlignmentFacts.

Module DiagonalFacts.

Import DTWAligner.

Import AlignmentSpec.

Lemma zeroish_nonneg : forall a, zeroish a -> nonneg a.
Proof. intros [q| | |]; cbn; try tauto. intros H. rewrite H. apply Qle_refl. Qed.

Lemma Qltb_false_iff : forall a b, Qltb a b = false <-> (b <= a)%Q.
Proof.
  intros a b. unfold Qltb. rewrite negb_false_iff. apply Qle_bool_iff.
Qed.

Lemma Qltb_true_iff : forall a b, Qltb a b = true <-> (a < b)%Q.
Proof.
  intros a b. unfold Qltb. rewrite negb_true_iff. split.
  - intros H. apply Qnot_le_lt. intros H'. apply Qle_bool_iff in H'. congruence.
  - intros H. apply not_true_is_false. intros H'. apply Qle_bool_iff in H'.
    apply (Qlt_not_le _ _ H H').
Qed.

Lemma add_nonneg : forall a b, nonneg a -> nonneg b -> nonneg (add a b).
Proof.
  intros [x| | |] [y| | |]; cbn; try tauto. intros Hx Hy.
  apply Qle_trans with (0 + 0)%Q; [discriminate|]. apply Qplus_le_compat; assumption.
Qed.

Lemma add_zeroish : forall a b, zeroish a -> zeroish b -> zeroish (add a b).
Proof.
  intros [x| | |] [y| | |]; cbn; try tauto. intros Hx Hy. rewrite Hx, Hy. reflexivity.
Qed.

Lemma min2_nonneg : forall a b, nonneg a -> nonneg b -> nonneg (min2 a b).
Proof.
  intros a b Ha Hb. unfold min2.
  destruct a as [x| | |], b as [y| | |]; cbn in *; try tauto.
  destruct (Qltb y x); cbn; assumption.
Qed.

Lemma min2_zeroish_r : forall a d, nonneg a -> zeroish d -> zeroish (min2 a d).
Proof.
  intros a d Ha Hd. unfold min2.
  destruct a as [x| | |], d as [y| | |]; cbn in *; try tauto.
  destruct (Qltb y x) eqn:E; cbn; [assumption|].
  apply Qltb_false_iff in E. rewrite Hd in E. apply Qle_antisym; assumption.
Qed.

Lemma min3_zeroish :
  forall up left diag, nonneg up -> nonneg left -> zeroish diag ->
                       zeroish (min3 up left diag).
Proof.
  intros. unfold min3. apply min2_zeroish_r; [apply min2_nonneg|]; assumption.
Qed.

Lemma min3_nonneg :
  forall up left diag, nonneg up -> nonneg left -> nonneg diag -> nonneg (min3 up left diag).
Proof. intros. unfold min3. repeat apply min2_nonneg; assumption. Qed.

Lemma leb_zeroish_nonneg : forall d a, zeroish d -> nonneg a -> leb d a = true.
Proof.
  intros [x| | |] [y| | |]; cbn; try tauto. intros Hx Hy.
  apply Qle_bool_iff. rewrite Hx. exact Hy.
Qed.

Section WithSqrt.

Variable sqrtQ : Q -> Q.
Hypothesis sqrt_zero : forall x : Q, (x == 0)%Q -> (sqrtQ x == 0)%Q.
Hypothesis sqrt_nonneg : forall x : Q, (0 <= x)%Q -> (0 <= sqrtQ x)%Q.

Lemma sumSquares_nonneg :
  forall vec1 vec2 sum, (0 <= sum)%Q -> (0 <= sumSquares vec1 vec2 sum)%Q.
Proof.
  induction vec1 as [|a vec1 IH]; intros [|b vec2] sum H; cbn; try assumption.
  apply IH. set (d := (QorElse a 0 - QorElse b 0)%Q).
  assert (0 <= d * d)%Q by nra. lra.
Qed.

Lemma sumSquares_self :
  forall vec sum, (sum == 0)%Q -> (sumSquares vec vec sum == 0)%Q.
Proof.
  induction vec as [|a vec IH]; intros sum H; cbn; [assumption|].
  apply IH. rewrite H. ring.
Qed.

Lemma euclideanDistance_nonneg :
  forall vec1 vec2, nonneg (euclideanDistance sqrtQ vec1 vec2).
Proof.
  intros. unfold euclideanDistance, sqrtN.
  pose proof (sumSquares_nonneg vec1 vec2 (Qle_refl 0)) as H.
  destruct (Qltb _ 0) eqn:E.
  - apply Qltb_true_iff in E. exfalso. apply (Qlt_not_le _ _ E H).
  - cbn. apply sqrt_nonneg. exact H.
Qed.

Lemma euclideanDistance_self :
  forall vec, zeroish (euclideanDistance sqrtQ vec vec).
Proof.
  intros. unfold euclideanDistance, sqrtN.
  pose proof (sumSquares_self vec (Qeq_refl 0)) as H.
  destruct (Qltb _ 0) eqn:E.
  - apply Qltb_true_iff in E. rewrite H in E. exfalso. revert E. apply Qlt_irrefl.
  - cbn. apply sqrt_zero. exact H.
Qed.

(** Rows of the cost matrix. *)
Lemma fillRow_length :
  forall s seq2 prevRow left,
    List.length prevRow = S (List.length seq2) ->
    List.length (fillRow sqrtQ s seq2 prevRow left) = List.length seq2.
Proof.
  intros s seq2. induction seq2 as [|a seq2 IH]; intros prevRow left H; [reflexivity|].
  destruct prevRow as [|diag [|up prevRow]]; cbn in H; try lia.
  cbn. f_equal. apply IH. cbn. lia.
Qed.

Lemma fillRow_nonneg :
  forall s seq2 prevRow left,
    Forall nonneg prevRow -> nonneg left ->
    Forall nonneg (fillRow sqrtQ s seq2 prevRow left).
Proof.
  intros s seq2. induction seq2 as [|a seq2 IH]; intros prevRow left Hp Hl;
    [constructor|].
  destruct prevRow as [|diag [|up prevRow]]; cbn; try constructor.
  - inversion Hp as [|? ? Hd Hp']; subst. inversion Hp' as [|? ? Hu _]; subst.
    apply add_nonneg; [apply euclideanDistance_nonneg|].
    apply min3_nonneg; assumption.
  - inversion Hp as [|? ? Hd Hp']; subst. inversion Hp' as [|? ? Hu _]; subst.
    apply IH; [assumption|].
    apply add_nonneg; [apply euclideanDistance_nonneg|].
    apply min3_nonneg; assumption.
Qed.

Lemma fillRow_diagonal :
  forall s seq2 k prevRow left,
    Forall nonneg prevRow -> nonneg left ->
    List.length prevRow = S (List.length seq2) ->
    nth_error seq2 k = Some s ->
    zeroish (nth k prevRow NaN) ->
    zeroish (nth k (fillRow sqrtQ s seq2 prevRow left) NaN).
Proof.
  intros s seq2. induction seq2 as [|a seq2 IH]; intros k prevRow left Hp Hl Hlen Hk Hz.
  - destruct k; discriminate.
  - destruct prevRow as [|diag [|up prevRow]]; cbn in Hlen; try lia.
    inversion Hp as [|? ? Hd Hp']; subst. inversion Hp' as [|? ? Hu _]; subst.
    destruct k as [|k]; cbn.
    + cbn in Hk. inversion Hk; subst. cbn in Hz.
      apply add_zeroish; [apply euclideanDistance_self|].
      apply min3_zeroish; assumption.
    + apply IH; try assumption.
      * apply add_nonneg; [apply euclideanDistance_nonneg|].
        apply min3_nonneg; assumption.
      * cbn. lia.
Qed.

(** The rows below a row that is non-negative and holds a zero at
    column [k], when the frames still to come are [seq2] from column
    [k] on: row [t] is non-negative and holds a zero at column
    [k + t + 1]. *)
Lemma fillRows_spec :
  forall seq2 seq1 k prevRow,
    Forall nonneg prevRow ->
    List.length prevRow = S (List.length seq2) ->
    zeroish (nth k prevRow NaN) ->
    (forall t, (t < List.length seq1)%nat -> nth_error seq2 (k + t) = nth_error seq1 t) ->
    forall t, (t < List.length seq1)%nat ->
      let row := nth t (fillRows sqrtQ seq1 seq2 prevRow) [] in
      Forall nonneg row
      /\ List.length row = S (List.length seq2)
      /\ zeroish (nth (k + t + 1) row NaN).
Proof.
  intros seq2 seq1. induction seq1 as [|s seq1 IH]; intros k prevRow Hp Hlen Hz Hs t Ht;
    [cbn in Ht; lia|].
  assert (Hrow : Forall nonneg (PInf :: fillRow sqrtQ s seq2 prevRow PInf)).
  { constructor; [exact I|]. apply fillRow_nonneg; [assumption|exact I]. }
  assert (Hrl : List.length (PInf :: fillRow sqrtQ s seq2 prevRow PInf)
                = S (List.length seq2)).
  { cbn. f_equal. apply fillRow_length. exact Hlen. }
  assert (Hrz : zeroish (nth (S k) (PInf :: fillRow sqrtQ s seq2 prevRow PInf) NaN)).
  { cbn. apply fillRow_diagonal; try assumption; [exact I|].
    specialize (Hs 0%nat ltac:(cbn; lia)). rewrite Nat.add_0_r in Hs. exact Hs. }
  destruct t as [|t]; cbn [fillRows nth].
  - cbv zeta. split; [assumption|]. split; [assumption|].
    replace (k + 0 + 1)%nat with (S k) by lia. exact Hrz.
  - cbv zeta.
    replace (k + S t + 1)%nat with (S k + t + 1)%nat by lia.
    apply IH; try assumption.
    + intros t' Ht'. specialize (Hs (S t') ltac:(cbn; lia)).
      replace (S k + t')%nat with (k + S t')%nat by lia. exact Hs.
    + cbn in Ht. lia.
Qed.

Lemma row0_nonneg : forall m, Forall nonneg (row0 m).
Proof.
  intros m. constructor; [cbn; apply Qle_refl|].
  induction m; cbn; constructor; [exact I|assumption].
Qed.

(** The matrix of a sequence against itself. *)
Lemma self_matrix :
  forall (S0 : Chroma) (i : nat),
    (i <= List.length S0)%nat ->
    let row := nth i (costMatrix sqrtQ S0 S0) [] in
    Forall nonneg row
    /\ List.length row = S (List.length S0)
    /\ zeroish (nth i row NaN).
Proof.
  intros S0 i Hi. unfold costMatrix. fold (row0 (List.length S0)).
  destruct i as [|i]; cbn [nth].
  - cbv zeta. split; [apply row0_nonneg|]. split; [|cbn; reflexivity].
    cbn. rewrite repeat_length. reflexivity.
  - pose proof (@fillRows_spec S0 S0 0%nat (row0 (List.length S0))
                  (row0_nonneg _)) as H.
    cbv zeta in H |- *.
    specialize (H ltac:(cbn; rewrite repeat_length; reflexivity)
                  ltac:(cbn; reflexivity) ltac:(intros t _; reflexivity) i ltac:(lia)).
    replace (0 + i + 1)%nat with (S i) in H by lia. exact H.
Qed.

Lemma self_cell_nonneg :
  forall (S0 : Chroma) (i j : nat),
    (i <= List.length S0)%nat -> (j <= List.length S0)%nat ->
    nonneg (cell (costMatrix sqrtQ S0 S0) i j).
Proof.
  intros S0 i j Hi Hj. unfold cell.
  destruct (self_matrix S0 Hi) as (Hn & Hl & _).
  cbv zeta in Hn, Hl.
  rewrite Forall_forall in Hn. apply Hn. apply nth_In. lia.
Qed.

Lemma self_cell_diagonal :
  forall (S0 : Chroma) (i : nat),
    (i <= List.length S0)%nat -> zeroish (cell (costMatrix sqrtQ S0 S0) i i).
Proof.
  intros S0 i Hi. unfold cell. destruct (self_matrix S0 Hi) as (_ & _ & Hz). exact Hz.
Qed.

Lemma diagonal_S : forall n, diagonal (S n) = diagonal n ++ [(n, n)].
Proof. intros n. unfold diagonal. rewrite seq_S, map_app. reflexivity. Qed.

Lemma backtrack_self :
  forall (S0 : Chroma) (i fuel : nat) (path : list (nat * nat)),
    (i <= List.length S0)%nat -> (i <= fuel)%nat ->
    backtrackLoop fuel (costMatrix sqrtQ S0 S0) i i path = diagonal i ++ path.
Proof.
  intros S0 i. induction i as [|i IH]; intros fuel path Hi Hf.
  - destruct fuel; reflexivity.
  - destruct fuel as [|fuel]; [lia|]. cbn [backtrackLoop].
    rewrite (leb_zeroish_nonneg _ _ (self_cell_diagonal S0 (i:=i) ltac:(lia))
               (self_cell_nonneg S0 (i:=S i) (j:=i) Hi ltac:(lia))).
    rewrite (leb_zeroish_nonneg _ _ (self_cell_diagonal S0 (i:=i) ltac:(lia))
               (self_cell_nonneg S0 (i:=i) (j:=S i) ltac:(lia) Hi)).
    cbn [andb]. rewrite IH by lia. rewrite diagonal_S, <- app_assoc. reflexivity.
Qed.

Lemma computeDTW_self :
  forall S0 : Chroma,
    S0 <> [] ->
    fst (computeDTW sqrtQ S0 S0) = diagonal (List.length S0)
    /\ zeroish (snd (computeDTW sqrtQ S0 S0)).
Proof.
  intros S0 H. unfold computeDTW.
  destruct S0 as [|s S1]; [congruence|].
  set (S0 := s :: S1). cbn [List.length Nat.eqb orb].
  change (S (List.length S1)) with (List.length S0).
  cbn [fst snd]. split.
  - unfold backtrack. rewrite backtrack_self by lia. apply app_nil_r.
  - apply self_cell_diagonal. lia.
Qed.

Lemma align_self_confidence :
  forall (S0 : Chroma) (options : AlignOptions),
    S0 <> [] ->
    option_map (@confidence) (alignmentResult (align sqrtQ S0 S0 options)) = Some (Fin 1).
Proof.
  intros S0 options H. unfold align.
  destruct (computeDTW_self H) as (_ & Hz).
  destruct (computeDTW sqrtQ S0 S0) as [p d]. cbn [snd] in Hz.
  destruct (fold_left _ p ([], [])) as [m2t t2m]. cbn [alignmentResult option_map confidence].
  f_equal. destruct d as [q| | |]; cbn in Hz; try tauto.
  unfold ofZ, div, sub, add, neg.
  assert (Hn : Qeqb (inject_Z (Zlen S0 * Zlen S0)) 0 = false).
  { destruct S0 as [|s S1]; [congruence|].
    unfold Qeqb. apply not_true_is_false. intros E. apply Qeq_bool_iff in E.
    unfold Qeq in E. cbn in E. unfold Zlen in E. cbn [List.length] in E. lia. }
  rewrite Hn. unfold min2, max2. cbn [isNaN orb ltb].
  assert (Hc : Qltb (1 + - (q / inject_Z (Zlen S0 * Zlen S0))) 1 = false).
  { apply Qltb_false_iff. rewrite Hz. unfold Qdiv. rewrite Qmult_0_l. discriminate. }
  rewrite Hc. reflexivity.
Qed.

Lemma align_self :
  forall (S0 : Chroma) (options : AlignOptions),
    S0 <> [] ->
    exists d : Q,
      alignmentResult (align sqrtQ S0 S0 options)
      = Some (mkAlignmentResult (diagonal (List.length S0)) (Fin 1) (Fin d))
      /\ (d == 0)%Q.
Proof.
  intros S0 options H.
  pose proof (align_self_confidence options H) as Hc.
  destruct (computeDTW_self H) as (Hp & Hz).
  unfold align in *.
  destruct (computeDTW sqrtQ S0 S0) as [p d]. cbn [fst snd] in Hp, Hz.
  destruct (fold_left _ p ([], [])) as [m2t t2m].
  cbn [alignmentResult option_map confidence] in Hc |- *.
  destruct d as [q| | |]; cbn in Hz; try tauto.
  exists q. split; [|exact Hz]. subst p. f_equal. f_equal. injection Hc as Hc'. exact Hc'.
Qed.

(** C9.  For every non-empty chroma sequence, aligned with itself: the
    path of [computeDTW] is the diagonal [(0,0), ..., (n-1,n-1)], the
    accumulated distance is zero, and [align] reports that path and
    distance with confidence exactly 1.  [Math.sqrt] enters through
    two facts: the root of zero is zero, and a root is not negative. *)
Theorem self_alignment_is_diagonal :
  forall (S0 : Chroma) (options : AlignOptions),
    S0 <> [] ->
    fst (computeDTW sqrtQ S0 S0) = diagonal (List.length S0)
    /\ zeroish (snd (computeDTW sqrtQ S0 S0))
    /\ exists d : Q,
         alignmentResult (align sqrtQ S0 S0 options)
         = Some (mkAlignmentResult (diagonal (List.length S0)) (Fin 1) (Fin d))
         /\ (d == 0)%Q.
Proof.
  intros S0 options H.
  destruct (computeDTW_self H) as (Hp & Hz).
  split; [exact Hp|]. split; [exact Hz|]. apply align_self. exact H.
Qed.

End WithSqrt.

Lemma approxSqrt_zero : forall x : Q, (x == 0)%Q -> (approxSqrt x == 0)%Q.
Proof.
  intros x H. unfold approxSqrt. rewrite H. reflexivity.
Qed.

Lemma approxSqrt_nonneg : forall x : Q, (0 <= x)%Q -> (0 <= approxSqrt x)%Q.
Proof.
  intros x _. unfold approxSqrt.
  apply Qle_shift_div_l; [reflexivity|]. rewrite Qmult_0_l.
  change 0%Q with (inject_Z 0). rewrite <- Zle_Qle. apply Z.sqrt_nonneg.
Qed.

Lemma self_alignment_is_diagonal_witness :
  fst (computeDTW approxSqrt twoFrames twoFrames) = diagonal 2
  /\ zeroish (snd (computeDTW approxSqrt twoFrames twoFrames))
  /\ exists d : Q,
       alignmentResult (align approxSqrt twoFrames twoFrames defaultAlignOptions)
       = Some (mkAlignmentResult (diagonal 2) (Fin 1) (Fin d))
       /\ (d == 0)%Q.
Proof.
  apply (@self_alignment_is_diagonal approxSqrt approxSqrt_zero approxSqrt_nonneg
           twoFrames defaultAlignOptions).
  discriminate.
Defined.

End DiagonalFacts.

(** ** The structure tree *)

Module TreeFacts.

Import Agreement StructureAnalyzer TreeSpec PostFacts.

Lemma Node_ind' :
  forall P : Node -> Prop,
    (forall id ty s e cs mat conf feat vs tt,
        Forall P cs -> P (mkNode id ty s e cs mat conf feat vs tt)) ->
    forall n, P n.
Proof.
  intros P H. fix IH 1. intros [id ty s e cs mat conf feat vs tt]. apply H.
  induction cs as [|c cs IHcs]; constructor; [apply IH|exact IHcs].
Qed.

Lemma ranges_eq :
  forall n, ranges n = Range (nd_startMeasure n) (nd_endMeasure n) (map ranges (nd_children n)).
Proof. intros []. reflexivity. Qed.

Lemma map_ext_Forall :
  forall (A B : Type) (f g : A -> B) l, Forall (fun x => f x = g x) l -> map f l = map g l.
Proof. intros A B f g l H. induction H; cbn; congruence. Qed.

Lemma ranges_assignConfidence : forall n, ranges (assignConfidenceNode n) = ranges n.
Proof.
  induction n as [id ty s e cs mat conf feat vs tt IH] using Node_ind'.
  cbn. f_equal. rewrite map_map. now apply map_ext_Forall.
Qed.

Lemma ranges_tooltips : forall n, ranges (generateTreeTooltipsNode n) = ranges n.
Proof.
  induction n as [id ty s e cs mat conf feat vs tt IH] using Node_ind'.
  cbn. f_equal. rewrite map_map. now apply map_ext_Forall.
Qed.

Lemma ranges_labelMaterials :
  forall notes n g, ranges (fst (labelMaterialsNode notes n g)) = ranges n.
Proof.
  intros notes.
  induction n as [id ty s e cs mat conf feat vs tt IH] using Node_ind'.
  intros g. cbn [labelMaterialsNode nd_startMeasure nd_endMeasure nd_children nd_material
                 nd_id nd_type nd_confidence nd_features nd_visualStyle nd_tooltipData].
  match goal with
  | |- context [(fix walk (cs0 : list Node) (g0 : list (list Z * string)) {struct cs0} := _) cs ?g1] =>
      generalize g1
  end.
  intros g1.
  match goal with
  | |- context [(fix walk (cs0 : list Node) (g0 : list (list Z * string)) {struct cs0} := _) cs g1] =>
      set (walk := (fix walk (cs0 : list Node) (g0 : list (list Z * string)) {struct cs0} := _))
  end.
  assert (W : forall g', map ranges (fst (walk cs g')) = map ranges cs).
  { clear g1. induction IH as [|c cs Hc _ IHcs]; intros g'; cbn; [reflexivity|].
    specialize (Hc g'). destruct (labelMaterialsNode notes c g') as [c' g1']. cbn in Hc.
    specialize (IHcs g1'). destruct (walk cs g1') as [cs'' g2']. cbn in IHcs |- *.
    now rewrite Hc, IHcs. }
  specialize (W g1). destruct (walk cs g1) as [children g2]. cbn in W |- *.
  now rewrite W.
Qed.


(** *** The ranges the builder gives its nodes *)

Lemma ranges_withChildren :
  forall n cs,
    ranges (withChildren n cs) = Range (nd_startMeasure n) (nd_endMeasure n) (map ranges cs).
Proof. intros [] cs. reflexivity. Qed.

Lemma Forall2_map_l :
  forall (A B X : Type) (f : A -> X) (g : B -> X) l l',
    Forall2 (fun a b => g b = f a) l l' -> map g l' = map f l.
Proof. intros A B X f g l l' H. induction H; cbn; congruence. Qed.

Lemma addMotives_ranges :
  forall parentNode,
    Post (fun n => ranges n
                   = Range (nd_startMeasure parentNode) (nd_endMeasure parentNode)
                           (map ranges (nd_children parentNode)
                            ++ motiveRanges (nd_startMeasure parentNode)
                                            (nd_endMeasure parentNode)))
         (addMotives parentNode).
Proof.
  intros parentNode. unfold addMotives.
  set (s := nd_startMeasure parentNode). set (e := nd_endMeasure parentNode).
  set (size := if e - s + 1 <=? 2 then 1 else 2).
  eapply Post_bind.
  - apply Post_mapM
      with (P := fun (im : Z * Z) (n : Node) =>
                   ranges n = Range (snd im) (Z.min (snd im + size - 1) e) []).
    intros [i m] _. eapply Post_bind; [apply Post_any|]. intros id _.
    apply Post_ret. reflexivity.
  - intros ms Hms. apply Post_ret. rewrite ranges_withChildren. fold s e.
    f_equal. rewrite map_app. f_equal. unfold motiveRanges. fold size.
    rewrite (Forall2_map_l (fun im : Z * Z => Range (snd im) (Z.min (snd im + size - 1) e) [])
                           ranges Hms).
    generalize (motiveStarts s e size) as starts. intros starts.
    unfold Zrange, Zlen. rewrite Nat2Z.id.
    generalize 0%nat as k. induction starts as [|m starts IH]; intros k; cbn; [reflexivity|].
    now rewrite IH.
Qed.

Lemma phraseNodeOf_ranges :
  forall phrase, Post (fun n => ranges n = phraseRanges phrase) (phraseNodeOf phrase).
Proof.
  intros phrase. unfold phraseNodeOf, phraseRanges.
  destruct (4 <=? _).
  - eapply Post_bind; [apply Post_any|]. intros id1 _.
    eapply Post_bind; [apply Post_any|]. intros id2 _.
    eapply Post_bind; [apply addMotives_ranges|]. intros s1 H1.
    eapply Post_bind; [apply addMotives_ranges|]. intros s2 H2.
    apply Post_ret. rewrite ranges_withChildren. cbn in *. now rewrite H1, H2.
  - eapply Post_weaken; [apply addMotives_ranges|]. intros n Hn. exact Hn.
Qed.

Lemma periodNodeOf_ranges :
  forall period, Post (fun n => ranges n = periodRanges period) (periodNodeOf period).
Proof.
  intros period. unfold periodNodeOf, periodRanges.
  eapply Post_bind.
  - apply Post_mapM with (P := fun p n => ranges n = phraseRanges p).
    intros p _. apply phraseNodeOf_ranges.
  - intros ns Hns. apply Post_ret. rewrite ranges_withChildren. cbn. f_equal.
    now apply Forall2_map_l.
Qed.

Lemma attachPeriod_ranges :
  forall cs pn, map ranges (attachPeriod cs pn) = attachRanges (map ranges cs) (ranges pn).
Proof.
  intros cs pn. induction cs as [|c cs IH]; cbn; [reflexivity|].
  replace (holds (ranges c) (ranges pn)) with (containsRange c pn)
    by (destruct c, pn; reflexivity).
  destruct (containsRange c pn); cbn.
  - rewrite map_app. destruct c; reflexivity.
  - now rewrite IH.
Qed.

Lemma buildTree_ranges :
  forall parsedScore phrases periods formAnalysis,
    Post (fun n => ranges n
                   = treeRanges (Zlen (measures parsedScore)) periods
                                (sectionsOrEmpty formAnalysis))
         (buildTree parsedScore phrases periods formAnalysis).
Proof.
  intros parsedScore phrases periods formAnalysis. unfold buildTree.
  eapply Post_bind; [apply Post_any|]. intros rootId _.
  eapply Post_bind.
  - apply Post_foldM_prefix
      with (P := fun done cs =>
                   map ranges cs
                   = fold_left attachRanges (map periodRanges done)
                               (map sectionRanges (sectionsOrEmpty formAnalysis)))
           (done := []).
    + intros done cs p Hcs.
      eapply Post_bind; [apply periodNodeOf_ranges|]. intros pn Hpn.
      apply Post_ret. rewrite attachPeriod_ranges, map_app, fold_left_app, Hcs, Hpn.
      reflexivity.
    + cbn. rewrite map_map. reflexivity.
  - intros cs Hcs. apply Post_ret. cbn in Hcs. rewrite ranges_withChildren. cbn.
    unfold treeRanges. now rewrite Hcs.
Qed.

Lemma buildHierarchy_ranges :
  forall parsedScore rnd,
  exists analysis n,
    (analysis = fst (analyzeComplete (notes parsedScore)
                       (mkOptions (ps_keySignature parsedScore)
                          (match ps_timeSignature parsedScore with
                           | Some t => t
                           | None => mkTime 4 4
                           end)) rnd n)
     \/ analysis = fst (analyzeCompleteChunked (notes parsedScore)
                          (mkOptions (ps_keySignature parsedScore)
                             (match ps_timeSignature parsedScore with
                              | Some t => t
                              | None => mkTime 4 4
                              end)) rnd n))
    /\ ranges (run (buildHierarchy parsedScore) rnd)
       = treeRanges (Zlen (measures parsedScore)) (periods analysis)
                    (sectionsOrEmpty (form analysis)).
Proof.
  intros parsedScore rnd. unfold run, buildHierarchy, bind.
  set (options := mkOptions _ _).
  destruct ((1000 <? Zlen (notes parsedScore)) || (64 <? Zlen (measures parsedScore))).
  - destruct (analyzeCompleteChunked (notes parsedScore) options rnd 0%nat) as [a n1] eqn:E.
    exists a, 0%nat. split; [right; now rewrite E|].
    pose proof (buildTree_ranges parsedScore (phrases a) (periods a) (form a) rnd n1) as H.
    destruct (buildTree parsedScore (phrases a) (periods a) (form a) rnd n1) as [t n2].
    cbn in H |- *. unfold generateTreeTooltips, labelMaterials, assignConfidence.
    now rewrite ranges_tooltips, ranges_labelMaterials, ranges_assignConfidence.
  - destruct (analyzeComplete (notes parsedScore) options rnd 0%nat) as [a n1] eqn:E.
    exists a, 0%nat. split; [left; now rewrite E|].
    pose proof (buildTree_ranges parsedScore (phrases a) (periods a) (form a) rnd n1) as H.
    destruct (buildTree parsedScore (phrases a) (periods a) (form a) rnd n1) as [t n2].
    cbn in H |- *. unfold generateTreeTooltips, labelMaterials, assignConfidence.
    now rewrite ranges_tooltips, ranges_labelMaterials, ranges_assignConfidence.
Qed.


(** *** Ranges that follow one another *)

Lemma adjacent_before :
  forall l, adjacent l -> Forall (fun r => r_start r <= r_end r) l ->
    ForallOrdPairs before l.
Proof.
  assert (G : forall l a, adjacent (a :: l) -> Forall (fun r => r_start r <= r_end r) l ->
              Forall (before a) l).
  { induction l as [|b l IH]; intros a Ha Hl; [constructor|].
    destruct Ha as [E Ha]. inversion Hl as [|? ? Hb Hl']; subst.
    constructor; [unfold before; lia|].
    assert (Hbl : Forall (before b) l) by now apply IH.
    eapply Forall_impl; [|exact Hbl]. intros r Hr. unfold before in *. lia. }
  induction l as [|a l IH]; intros Hadj Hne; [constructor|].
  inversion Hne; subst. constructor; [now apply G|].
  apply IH; [|assumption]. destruct l; [exact Logic.I|]. now destruct Hadj.
Qed.

Lemma before_apart : forall l, ForallOrdPairs before l -> ForallOrdPairs apart l.
Proof.
  intros l H. induction H; constructor; [|assumption].
  eapply Forall_impl; [|eassumption]. intros r Hr. now left.
Qed.

Lemma apart_sym : forall a b, apart a b -> apart b a.
Proof. intros a b [H|H]; [now right|now left]. Qed.

Lemma motiveRanges_spec :
  forall s e, s <= e ->
    Forall (fun r => s <= r_start r /\ r_start r <= r_end r /\ r_end r <= e
                     /\ r_children r = []) (motiveRanges s e)
    /\ adjacent (motiveRanges s e).
Proof.
  intros s e Hse. unfold motiveRanges, motiveStarts.
  set (size := if e - s + 1 <=? 2 then 1 else 2).
  assert (Hsize : 1 <= size) by (subst size; destruct (_ <=? 2); lia).
  set (cnt := Z.to_nat ((e - s + size) / size)).
  assert (Hcnt : forall k, (k < cnt)%nat -> Z.of_nat k * size <= e - s).
  { intros k Hk. subst cnt.
    assert (Z.of_nat k < (e - s + size) / size) by lia.
    assert (Hd : (e - s + size) / size = (e - s) / size + 1).
    { replace (e - s + size) with (e - s + 1 * size) by lia.
      rewrite Z.div_add by lia. reflexivity. }
    assert (Hk' : Z.of_nat k <= (e - s) / size) by lia.
    pose proof (Z.mul_div_le (e - s) size ltac:(lia)).
    nia. }
  rewrite map_map.
  assert (G : forall c a, (a + c <= cnt)%nat ->
            Forall (fun r => s <= r_start r /\ r_start r <= r_end r /\ r_end r <= e
                             /\ r_children r = [])
                   (map (fun k => Range (s + Z.of_nat k * size)
                                        (Z.min (s + Z.of_nat k * size + size - 1) e) [])
                        (seq a c))
            /\ adjacent (map (fun k => Range (s + Z.of_nat k * size)
                                             (Z.min (s + Z.of_nat k * size + size - 1) e) [])
                             (seq a c))).
  { induction c as [|c IH]; intros a Hac; cbn [seq map]; [split; [constructor|exact Logic.I]|].
    destruct (IH (S a) ltac:(lia)) as [IH1 IH2]. split.
    - constructor; [|exact IH1]. cbn [r_start r_end r_children].
      pose proof (Hcnt a ltac:(lia)). repeat split; lia.
    - destruct c as [|c]; [exact Logic.I|]. cbn [seq map] in IH2 |- *. split; [|exact IH2].
      cbn [r_start r_end]. pose proof (Hcnt (S a) ltac:(lia)) as Hk.
      rewrite Nat2Z.inj_succ in *. lia. }
  apply (G cnt 0%nat). lia.
Qed.

Lemma leaves_consistent :
  forall l, Forall (fun r => r_start r <= r_end r /\ r_children r = []) l ->
    Forall (consistent false) l.
Proof.
  intros l H. eapply Forall_impl; [|exact H]. intros [a b cs] [Hab Hcs]. cbn in *. subst cs.
  constructor; try constructor. exact Hab.
Qed.

Lemma withMotives_consistent :
  forall s e, s <= e -> consistent false (withMotives s e).
Proof.
  intros s e Hse. destruct (motiveRanges_spec Hse) as [H1 H2]. unfold withMotives.
  constructor.
  - exact Hse.
  - eapply Forall_impl; [|exact H1]. intros r (? & ? & ? & ?). unfold within. cbn [r_start r_end]. lia.
  - apply leaves_consistent. eapply Forall_impl; [|exact H1]. intros r (? & ? & ? & ?). tauto.
  - apply before_apart, adjacent_before; [exact H2|].
    eapply Forall_impl; [|exact H1]. intros r (? & ? & ? & ?). tauto.
  - intros _. exact H2.
Qed.

Lemma phraseRanges_spec :
  forall p, ph_startMeasure p <= ph_endMeasure p ->
    consistent false (phraseRanges p)
    /\ r_start (phraseRanges p) = ph_startMeasure p
    /\ r_end (phraseRanges p) = ph_endMeasure p.
Proof.
  intros p Hp. unfold phraseRanges.
  set (s := ph_startMeasure p) in *. set (e := ph_endMeasure p) in *.
  destruct (4 <=? e - s + 1) eqn:E.
  - apply Z.leb_le in E.
    assert (H2 : 2 <= (e - s + 1) / 2) by (apply Z.div_le_lower_bound; lia).
    assert (H3 : (e - s + 1) / 2 <= e - s).
    { apply Z.div_le_upper_bound; lia. }
    split; [|split; reflexivity].
    constructor.
    + exact Hp.
    + constructor; [unfold within; cbn; lia|]. constructor; [unfold within; cbn; lia|constructor].
    + constructor; [apply withMotives_consistent; lia|].
      constructor; [apply withMotives_consistent; lia|constructor].
    + constructor; [|constructor; constructor].
      constructor; [|constructor]. left. unfold before. cbn. lia.
    + intros _. cbn. split; [lia|exact Logic.I].
  - split; [|split; reflexivity]. now apply withMotives_consistent.
Qed.


Lemma ZorElse_0 : forall x, ZorElse x 0 = x.
Proof. intros x. unfold ZorElse. destruct (Z.eqb_spec x 0); congruence. Qed.

Lemma jsSliceFrom_last :
  forall (A : Type) (l : list A) (a : A), jsSliceFrom (l ++ [a]) (-1) = [a].
Proof.
  intros A l a. unfold jsSliceFrom, jsSlice, slice, Zlen.
  rewrite length_app. cbn [List.length].
  replace (if -1 <? 0 then Z.max (Z.of_nat (List.length l + 1) + -1) 0
           else Z.min (-1) (Z.of_nat (List.length l + 1)))
    with (Z.of_nat (List.length l)) by (cbn; lia).
  replace (if Z.of_nat (List.length l + 1) <? 0
           then Z.max (Z.of_nat (List.length l + 1) + Z.of_nat (List.length l + 1)) 0
           else Z.min (Z.of_nat (List.length l + 1)) (Z.of_nat (List.length l + 1)))
    with (Z.of_nat (List.length l + 1)).
  2:{ destruct (Z.ltb_spec (Z.of_nat (List.length l + 1)) 0); lia. }
  rewrite !Nat2Z.id. rewrite skipn_app, skipn_all, Nat.sub_diag. cbn.
  replace (List.length l + 1 - List.length l)%nat with 1%nat by lia. reflexivity.
Qed.

Lemma phraseChain_app :
  forall l t l', phraseChain t (l ++ l') <-> phraseChain t l /\ phraseChain (chainEnd t l) l'.
Proof.
  induction l as [|p l IH]; intros t l'; cbn; [tauto|]. rewrite IH. tauto.
Qed.

Lemma chainEnd_app :
  forall l t l', chainEnd t (l ++ l') = chainEnd (chainEnd t l) l'.
Proof. induction l as [|p l IH]; intros t l'; cbn; [reflexivity|]. apply IH. Qed.

Lemma chainEnd_le : forall l t, phraseChain t l -> t <= chainEnd t l.
Proof.
  induction l as [|p l IH]; intros t H; cbn; [lia|]. destruct H as (E & Hle & H).
  specialize (IH _ H). lia.
Qed.

Lemma phraseChain_spec :
  forall l t, phraseChain t l ->
    Forall (fun p => t <= ph_startMeasure p /\ ph_startMeasure p <= ph_endMeasure p
                     /\ ph_endMeasure p < chainEnd t l) l
    /\ adjacent (map phraseRanges l).
Proof.
  induction l as [|p l IH]; intros t H; cbn [chainEnd map]; [split; [constructor|exact Logic.I]|].
  destruct H as (E & Hle & H). destruct (IH _ H) as [IH1 IH2].
  pose proof (chainEnd_le _ _ H) as Hce. split.
  - constructor; [lia|]. eapply Forall_impl; [|exact IH1]. intros q (? & ? & ?). lia.
  - destruct l as [|q l]; [exact Logic.I|]. cbn [map] in IH2 |- *. split; [|exact IH2].
    destruct H as (Eq & Hq & _).
    destruct (phraseRanges_spec p ltac:(lia)) as (_ & _ & Ee).
    destruct (phraseRanges_spec q ltac:(lia)) as (_ & Es & _). lia.
Qed.

Lemma periodRanges_spec :
  forall p t,
    pe_phrases p <> [] -> phraseChain t (pe_phrases p) ->
    consistent false (periodRanges p)
    /\ r_start (periodRanges p) = t
    /\ r_end (periodRanges p) = chainEnd t (pe_phrases p) - 1
    /\ t < chainEnd t (pe_phrases p).
Proof.
  intros p t Hne Hch. unfold periodRanges.
  destruct (phraseChain_spec _ _ Hch) as [H1 H2].
  destruct (pe_phrases p) as [|q l] eqn:E; [congruence|]. clear Hne.
  assert (Hs : ph_startMeasure q = t) by (destruct Hch; assumption).
  assert (He : match jsSliceFrom (q :: l) (-1) with
               | x :: _ => ZorElse (ph_endMeasure x) 0
               | [] => 0
               end = chainEnd t (q :: l) - 1 /\ t < chainEnd t (q :: l)).
  { destruct (exists_last (l := q :: l) ltac:(discriminate)) as (l0 & x & El). rewrite El in *.
    rewrite jsSliceFrom_last, ZorElse_0, chainEnd_app. cbn [chainEnd].
    apply phraseChain_app in Hch. destruct Hch as [Hc0 (Ex & Hx & _)].
    pose proof (chainEnd_le _ _ Hc0). lia. }
  destruct He as [He Hlt]. rewrite ZorElse_0, Hs, He.
  split; [|split; [reflexivity|split; [reflexivity|exact Hlt]]].
  constructor.
  - lia.
  - apply Forall_map. eapply Forall_impl; [|exact H1]. intros x (? & ? & ?).
    destruct (phraseRanges_spec x ltac:(lia)) as (_ & Es & Ee).
    unfold within. cbn [r_start r_end]. lia.
  - apply Forall_map. eapply Forall_impl; [|exact H1]. intros x (? & ? & ?).
    now apply phraseRanges_spec.
  - apply before_apart, adjacent_before; [exact H2|].
    apply Forall_map. eapply Forall_impl; [|exact H1]. intros x (? & ? & ?).
    destruct (phraseRanges_spec x ltac:(lia)) as (_ & Es & Ee). lia.
  - intros _. exact H2.
Qed.


(** *** Periods in a chain *)

Lemma periodChain_head :
  forall p ps t, periodChain t (p :: ps) ->
    consistent false (periodRanges p)
    /\ r_start (periodRanges p) = t
    /\ r_end (periodRanges p) = pe_endMeasure p
    /\ pe_startMeasure p = t
    /\ t <= pe_endMeasure p
    /\ periodChain (pe_endMeasure p + 1) ps.
Proof.
  intros p ps t (Hne & Hch & Es & Ee & Hrest).
  destruct (@periodRanges_spec p t Hne Hch) as (Hc & Hs & He & Hlt).
  split; [exact Hc|]. split; [exact Hs|]. split; [lia|]. split; [exact Es|].
  split; [lia|exact Hrest].
Qed.

Lemma periodChain_app :
  forall l t l',
    periodChain t (l ++ l') <-> periodChain t l /\ periodChain (periodChainEnd t l) l'.
Proof.
  induction l as [|p l IH]; intros t l'; cbn; [tauto|]. rewrite IH. tauto.
Qed.

Lemma periodChainEnd_app :
  forall l t l', periodChainEnd t (l ++ l') = periodChainEnd (periodChainEnd t l) l'.
Proof. induction l as [|p l IH]; intros t l'; cbn; [reflexivity|]. apply IH. Qed.

Lemma periodChainEnd_le : forall l t, periodChain t l -> t <= periodChainEnd t l.
Proof.
  induction l as [|p l IH]; intros t H; cbn [periodChainEnd]; [lia|].
  destruct (periodChain_head H) as (_ & _ & _ & _ & Hle & Hrest).
  specialize (IH _ Hrest). lia.
Qed.

Lemma periodChain_ranges :
  forall l t, periodChain t l ->
    Forall (fun r => consistent false r /\ t <= r_start r /\ r_start r <= r_end r
                     /\ r_end r < periodChainEnd t l) (map periodRanges l)
    /\ adjacent (map periodRanges l).
Proof.
  induction l as [|p l IH]; intros t H; cbn [periodChainEnd map];
    [split; [constructor|exact Logic.I]|].
  destruct (periodChain_head H) as (Hc & Hs & He & _ & Hle & Hrest).
  destruct (IH _ Hrest) as [IH1 IH2]. pose proof (periodChainEnd_le _ _ Hrest) as Hce. split.
  - constructor; [(split; [assumption|]; repeat split; lia)|].
    eapply Forall_impl; [|exact IH1]. intros r (? & ? & ? & ?). (split; [assumption|]; repeat split; lia).
  - destruct l as [|q l]; [exact Logic.I|]. cbn [map] in IH2 |- *. split; [|exact IH2].
    destruct (periodChain_head Hrest) as (_ & Hs' & _). lia.
Qed.

Lemma hull_spec :
  forall g t, g <> [] -> periodChain t g ->
    periodsStart g = t /\ periodsEnd g = periodChainEnd t g - 1 /\ t < periodChainEnd t g.
Proof.
  intros g t Hne Hch.
  destruct (exists_last Hne) as (g0 & x & E). subst g.
  unfold periodsEnd, lastOpt. rewrite length_app. cbn [List.length].
  replace (List.length g0 + 1 - 1)%nat with (List.length g0) by lia.
  rewrite nth_error_app2, Nat.sub_diag by lia. cbn [nth_error].
  rewrite periodChainEnd_app. cbn [periodChainEnd].
  apply periodChain_app in Hch. destruct Hch as [H0 Hx].
  destruct (periodChain_head Hx) as (_ & _ & _ & Ex & Hle & _).
  pose proof (periodChainEnd_le _ _ H0).
  split; [|split; lia].
  destruct g0 as [|y g0]; cbn [app periodsStart]; [exact Ex|].
  now destruct (periodChain_head H0) as (_ & _ & _ & Ey & _).
Qed.

Lemma sliced_bounds :
  forall ps ss, sliced ps ss -> forall t, periodChain t ps ->
    Forall (fun s => t <= sec_startMeasure s /\ sec_startMeasure s <= sec_endMeasure s
                     /\ sec_endMeasure s < periodChainEnd t ps) ss.
Proof.
  intros ps ss H. induction H as [ps|p ps ss H IH|g ps s ss Hne Es Ee H IH]; intros t Hch.
  - constructor.
  - destruct (periodChain_head Hch) as (_ & _ & _ & _ & Hle & Hrest).
    cbn [periodChainEnd]. eapply Forall_impl; [|exact (IH _ Hrest)].
    intros s (? & ? & ?). lia.
  - apply periodChain_app in Hch. destruct Hch as [Hg Hps].
    destruct (@hull_spec g t Hne Hg) as (Hs & He & Hlt).
    rewrite periodChainEnd_app. pose proof (periodChainEnd_le _ _ Hps).
    constructor; [lia|]. eapply Forall_impl; [|exact (IH _ Hps)].
    intros s' (? & ? & ?). lia.
Qed.

(** *** Attaching the periods *)

Lemma attach_none :
  forall l x, Forall (fun r => holds r x = false) l -> attachRanges l x = l ++ [x].
Proof.
  intros l x H. induction H as [|r l Hr _ IH]; cbn; [reflexivity|]. now rewrite Hr, IH.
Qed.

Lemma attach_hit :
  forall D s rest x,
    Forall (fun r => holds r x = false) D -> holds s x = true ->
    attachRanges (D ++ s :: rest) x
    = D ++ Range (r_start s) (r_end s) (r_children s ++ [x]) :: rest.
Proof.
  intros D s rest x H Hs. induction H as [|r l Hr _ IH]; cbn; [now rewrite Hs|].
  now rewrite Hr, IH.
Qed.

Lemma holds_false_before :
  forall r x, r_end r < r_end x -> holds r x = false.
Proof.
  intros r x H. unfold holds. apply andb_false_iff. right. apply Z.leb_gt. exact H.
Qed.

Lemma holds_false_after :
  forall r x, r_start x < r_start r -> holds r x = false.
Proof.
  intros r x H. unfold holds. apply andb_false_iff. left. apply Z.leb_gt. exact H.
Qed.

Lemma attach_orphans :
  forall ps t l, periodChain t ps -> Forall (fun r => r_end r < t) l ->
    fold_left attachRanges (map periodRanges ps) l = l ++ map periodRanges ps.
Proof.
  induction ps as [|p ps IH]; intros t l Hch Hl; cbn [map fold_left];
    [now rewrite app_nil_r|].
  destruct (periodChain_head Hch) as (_ & Hs & He & _ & Hle & Hrest).
  rewrite attach_none.
  - rewrite (IH (pe_endMeasure p + 1)); [now rewrite <- app_assoc|exact Hrest|].
    apply Forall_app. split.
    + eapply Forall_impl; [|exact Hl]. intros r Hr. cbn beta in Hr. lia.
    + constructor; [lia|constructor].
  - eapply Forall_impl; [|exact Hl]. intros r Hr. apply holds_false_before. cbn beta in Hr. lia.
Qed.

Lemma attach_run :
  forall g t D a b c rest,
    periodChain t g -> Forall (fun r => r_end r < t) D ->
    a <= t -> periodChainEnd t g - 1 <= b ->
    fold_left attachRanges (map periodRanges g) (D ++ Range a b c :: rest)
    = D ++ Range a b (c ++ map periodRanges g) :: rest.
Proof.
  induction g as [|p g IH]; intros t D a b c rest Hch HD Ha Hb; cbn [map fold_left];
    [now rewrite app_nil_r|].
  destruct (periodChain_head Hch) as (_ & Hs & He & _ & Hle & Hrest).
  cbn [periodChainEnd] in Hb. pose proof (periodChainEnd_le _ _ Hrest).
  rewrite attach_hit.
  - cbn [r_start r_end r_children].
    rewrite (IH (pe_endMeasure p + 1)); [now rewrite <- app_assoc|exact Hrest| |lia|lia].
    eapply Forall_impl; [|exact HD]. intros r Hr. cbn beta in Hr. lia.
  - eapply Forall_impl; [|exact HD]. intros r Hr. apply holds_false_before. cbn beta in Hr. lia.
  - unfold holds. cbn [r_start r_end]. apply andb_true_iff. split; apply Z.leb_le; lia.
Qed.

Lemma ForallOrdPairs_insert :
  forall (l1 l2 : list Ranges) x,
    ForallOrdPairs apart (l1 ++ l2) -> Forall (apart x) (l1 ++ l2) ->
    ForallOrdPairs apart (l1 ++ x :: l2).
Proof.
  induction l1 as [|a l1 IH]; intros l2 x H Hx; cbn in *; [now constructor|].
  inversion H as [|? ? Ha H']; subst. inversion Hx as [|? ? Hxa Hx']; subst.
  constructor; [|now apply IH].
  apply Forall_app in Ha. destruct Ha as [Ha1 Ha2].
  apply Forall_app. split; [assumption|]. constructor; [now apply apart_sym|assumption].
Qed.

Lemma attach_sliced :
  forall ps ss, sliced ps ss ->
  forall t D O,
    periodChain t ps ->
    Forall (fun r => r_end r < t) D -> Forall (fun r => r_end r < t) O ->
    exists D' O',
      fold_left attachRanges (map periodRanges ps) (D ++ map sectionRanges ss ++ O)
      = D ++ D' ++ O ++ O'
      /\ Forall (fun r => consistent false r /\ t <= r_start r /\ r_start r <= r_end r
                          /\ r_end r < periodChainEnd t ps) (D' ++ O')
      /\ ForallOrdPairs apart (D' ++ O').
Proof.
  intros ps ss H. induction H as [ps|p ps ss H IH|g ps s ss Hne Es Ee H IH];
    intros t D O Hch HD HO.
  - exists [], (map periodRanges ps). cbn [map app].
    destruct (periodChain_ranges _ _ Hch) as [H1 H2]. split; [|split].
    + rewrite (attach_orphans _ Hch); [now rewrite <- app_assoc|].
      apply Forall_app. now split.
    + exact H1.
    + apply before_apart, adjacent_before; [exact H2|].
      eapply Forall_impl; [|exact H1]. intros r (? & ? & ? & ?). assumption.
  - destruct (periodChain_head Hch) as (Hc & Hs & He & _ & Hle & Hrest).
    pose proof (sliced_bounds H _ Hrest) as Hss.
    pose proof (periodChainEnd_le _ _ Hrest) as Hce.
    cbn [map fold_left periodChainEnd].
    rewrite attach_none.
    2:{ apply Forall_app. split; [|apply Forall_app; split].
        - eapply Forall_impl; [|exact HD]. intros r Hr. apply holds_false_before.
          cbn beta in Hr. lia.
        - apply Forall_map. eapply Forall_impl; [|exact Hss]. intros x (? & ? & ?).
          apply holds_false_after. cbn [sectionRanges r_start]. lia.
        - eapply Forall_impl; [|exact HO]. intros r Hr. apply holds_false_before.
          cbn beta in Hr. lia. }
    rewrite <- !app_assoc.
    destruct (IH (pe_endMeasure p + 1) D (O ++ [periodRanges p]) Hrest) as (D' & O' & E & HF & HP).
    + eapply Forall_impl; [|exact HD]. intros r Hr. cbn beta in Hr. lia.
    + apply Forall_app. split; [|constructor; [lia|constructor]].
      eapply Forall_impl; [|exact HO]. intros r Hr. cbn beta in Hr. lia.
    + exists D', (periodRanges p :: O'). split; [|split].
      * rewrite E. now rewrite <- !app_assoc.
      * apply Forall_app in HF. destruct HF as [HF1 HF2]. apply Forall_app. split.
        -- eapply Forall_impl; [|exact HF1]. intros r (? & ? & ? & ?).
           (split; [assumption|]; repeat split; lia).
        -- constructor; [(split; [assumption|]; repeat split; lia)|].
           eapply Forall_impl; [|exact HF2]. intros r (? & ? & ? & ?).
           (split; [assumption|]; repeat split; lia).
      * apply ForallOrdPairs_insert; [exact HP|].
        eapply Forall_impl; [|exact HF]. intros r (? & ? & ? & ?). left. unfold before. lia.
  - apply periodChain_app in Hch. destruct Hch as [Hg Hps].
    destruct (@hull_spec g t Hne Hg) as (Hs & He & Hlt).
    pose proof (periodChainEnd_le _ _ Hps) as Hce.
    rewrite map_app, fold_left_app. cbn [map app]. unfold sectionRanges at 1.
    rewrite (@attach_run g t D (sec_startMeasure s) (sec_endMeasure s) [] (map sectionRanges ss ++ O) Hg HD); [|lia|lia]. cbn [app].
    destruct (periodChain_ranges _ _ Hg) as [G1 G2].
    set (S := Range (sec_startMeasure s) (sec_endMeasure s) (map periodRanges g)).
    assert (HS : consistent false S).
    { subst S. constructor.
      - lia.
      - eapply Forall_impl; [|exact G1]. intros r (? & ? & ? & ?).
        unfold within. cbn [r_start r_end]. lia.
      - eapply Forall_impl; [|exact G1]. intros r (? & ? & ? & ?). assumption.
      - apply before_apart, adjacent_before; [exact G2|].
        eapply Forall_impl; [|exact G1]. intros r (? & ? & ? & ?). assumption.
      - intros _. exact G2. }
    destruct (IH (periodChainEnd t g) (D ++ [S]) O Hps) as (D' & O' & E & HF & HP).
    + apply Forall_app. split; [|constructor; [subst S; cbn [r_end]; lia|constructor]].
      eapply Forall_impl; [|exact HD]. intros r Hr. cbn beta in Hr. lia.
    + eapply Forall_impl; [|exact HO]. intros r Hr. cbn beta in Hr. lia.
    + exists (S :: D'), O'. rewrite periodChainEnd_app. split; [|split].
      * replace (D ++ S :: map sectionRanges ss ++ O)
          with ((D ++ [S]) ++ map sectionRanges ss ++ O) by now rewrite <- app_assoc.
        rewrite E. now rewrite <- !app_assoc.
      * cbn [app]. constructor; [subst S; cbn [r_start r_end]; (split; [assumption|]; repeat split; lia)|].
        eapply Forall_impl; [|exact HF]. intros r (? & ? & ? & ?).
        (split; [assumption|]; repeat split; lia).
      * cbn [app]. constructor; [|exact HP].
        eapply Forall_impl; [|exact HF]. intros r (? & ? & ? & ?).
        left. unfold before. subst S. cbn [r_end]. lia.
Qed.

(** The tree over a chain of periods and sections laid over them. *)
Lemma treeRanges_consistent :
  forall measureCount periods sections t,
    1 <= measureCount -> 1 <= t ->
    periodChain t periods -> periodChainEnd t periods - 1 <= measureCount ->
    sliced periods sections ->
    consistent true (treeRanges measureCount periods sections).
Proof.
  intros measureCount periods sections t Hm Ht Hch Hend Hsl. unfold treeRanges.
  destruct (attach_sliced Hsl (t := t) (D := []) (O := []) Hch) as (D' & O' & E & HF & HP);
    [constructor|constructor|].
  cbn [app] in E. rewrite app_nil_r in E. rewrite E.
  constructor.
  - exact Hm.
  - eapply Forall_impl; [|exact HF]. intros r (? & ? & ? & ?).
    unfold within. cbn [r_start r_end]. lia.
  - eapply Forall_impl; [|exact HF]. intros r (? & ? & ? & ?). assumption.
  - exact HP.
  - discriminate.
Qed.


(** *** The phrases form a chain *)

Lemma In_insertBy :
  forall (A : Type) (key : A -> Z) x y l, In y (insertBy key x l) <-> y = x \/ In y l.
Proof.
  intros A key x y l. induction l as [|a l IH]; cbn; [intuition|].
  destruct (key x <? key a); cbn; [intuition|]. rewrite IH. intuition.
Qed.

Lemma In_sortBy :
  forall (A : Type) (key : A -> Z) y l, In y (sortBy key l) <-> In y l.
Proof.
  intros A key y l. unfold sortBy.
  assert (G : forall acc, In y (fold_left (fun a x => insertBy key x a) l acc)
                          <-> In y acc \/ In y l).
  { induction l as [|x l IH]; intros acc; cbn; [intuition|].
    rewrite IH, In_insertBy. intuition. }
  rewrite G. cbn. intuition.
Qed.

Lemma assocUpd_keys :
  forall (V : Type) (k k0 : Z) (f : option V -> V) m,
    In k (map fst (assocUpd Z.eqb k0 f m)) -> k = k0 \/ In k (map fst m).
Proof.
  intros V k k0 f m. induction m as [|[a v] m IH]; cbn; [intuition|].
  destruct (Z.eqb k0 a); cbn; intuition.
Qed.

Lemma measure_keys :
  forall notes k, In k (sortedKeys (groupNotesByMeasure notes)) ->
    exists n, In n notes /\ k = ZorElse (n_measureNumber n) 1.
Proof.
  intros notes k. unfold sortedKeys. rewrite In_sortBy. unfold groupNotesByMeasure.
  assert (G : forall acc,
             In k (map fst (fold_left
                              (fun groups note =>
                                 assocUpd Z.eqb (ZorElse (n_measureNumber note) 1)
                                   (fun g => match g with
                                             | Some ns => ns ++ [note]
                                             | None => [note]
                                             end) groups) notes acc)) ->
             In k (map fst acc)
             \/ exists n, In n notes /\ k = ZorElse (n_measureNumber n) 1).
  { induction notes as [|x notes IH]; intros acc H; cbn in H; [now left|].
    destruct (IH _ H) as [H1|(n & Hn & E)].
    - apply assocUpd_keys in H1. destruct H1 as [E|H1]; [|now left].
      right. exists x. split; [now left|exact E].
    - right. exists n. split; [now right|exact E]. }
  intros H. destruct (G [] H) as [[]|H1]. exact H1.
Qed.

Lemma measure_keys_bound :
  forall notes hi k,
    Forall (fun n => 1 <= n_measureNumber n <= hi) notes ->
    In k (sortedKeys (groupNotesByMeasure notes)) -> 1 <= k <= hi.
Proof.
  intros notes hi k H Hk. destruct (measure_keys _ _ Hk) as (n & Hn & E).
  rewrite Forall_forall in H. specialize (H n Hn). subst k. unfold ZorElse.
  destruct (Z.eqb_spec (n_measureNumber n) 0); lia.
Qed.

Lemma classifyCadence_measure :
  forall prevDegree currDegree melodyDegree measureNumber mode,
    Post (fun c => match c with
                   | Some c => cad_measureNumber c = measureNumber
                   | None => True
                   end)
         (classifyCadence prevDegree currDegree melodyDegree measureNumber mode).
Proof.
  intros. unfold classifyCadence, newCadence.
  repeat match goal with
         | |- Post _ (if ?b then _ else _) => destruct b
         end;
    try (eapply Post_bind; [apply Post_any|]; intros id _; apply Post_ret; reflexivity).
  apply Post_ret. exact Logic.I.
Qed.

Lemma detectCadences_measures :
  forall notes keySignature,
    Post (Forall (fun c => In (cad_measureNumber c) (sortedKeys (groupNotesByMeasure notes))))
         (detectCadences notes keySignature).
Proof.
  intros notes keySignature. unfold detectCadences.
  set (keys := sortedKeys (groupNotesByMeasure notes)).
  apply Post_foldM; [|constructor].
  intros cs [p c] Hin Hcs. unfold cadenceStep.
  destruct (getLowestNote _); [|now apply Post_ret].
  destruct (getLowestNote _); [|now apply Post_ret].
  eapply Post_bind; [apply classifyCadence_measure|].
  intros [x|] Hx; apply Post_ret; [|assumption].
  apply Forall_app. split; [assumption|]. constructor; [|constructor].
  rewrite Hx. unfold adjacentPairs in Hin. apply in_combine_r in Hin.
  destruct keys; [destruct Hin|]. now right.
Qed.

Lemma newPhrase_range :
  forall index startMeasure endMeasure length cadence notes subPhrases closure,
    Post (fun p => ph_startMeasure p = startMeasure /\ ph_endMeasure p = endMeasure)
         (newPhrase index startMeasure endMeasure length cadence notes subPhrases closure).
Proof.
  intros. unfold newPhrase. eapply Post_bind; [apply Post_any|]. intros id _.
  apply Post_ret. split; reflexivity.
Qed.

Lemma phraseChain_snoc :
  forall l t p,
    phraseChain t l -> ph_startMeasure p = chainEnd t l ->
    ph_startMeasure p <= ph_endMeasure p ->
    phraseChain t (l ++ [p]) /\ chainEnd t (l ++ [p]) = ph_endMeasure p + 1.
Proof.
  intros l t p H Es Hle. split.
  - apply phraseChain_app. split; [assumption|]. cbn. repeat split; [assumption|lia].
  - rewrite chainEnd_app. reflexivity.
Qed.

Lemma phraseStep_chain :
  forall notes subPhrases first hi st cadence,
    cad_measureNumber cadence <= hi ->
    (let '(phrases, phraseStart, _) := st in
     phraseChain first phrases /\ chainEnd first phrases = phraseStart
     /\ phraseStart - 1 <= hi) ->
    Post (fun st' => let '(phrases, phraseStart, _) := st' in
                     phraseChain first phrases /\ chainEnd first phrases = phraseStart
                     /\ phraseStart - 1 <= hi)
         (phraseStep notes subPhrases st cadence).
Proof.
  intros notes subPhrases first hi [[phrases phraseStart] idx] cadence Hc (Hch & He & Hhi).
  unfold phraseStep.
  destruct (_ && _) eqn:E1.
  - apply andb_true_iff in E1. destruct E1 as [E1 _]. apply Z.leb_le in E1.
    eapply Post_bind; [apply newPhrase_range|]. intros p [Ps Pe].
    apply Post_ret.
    destruct (@phraseChain_snoc phrases first p Hch ltac:(lia) ltac:(lia)) as [H1 H2].
    split; [exact H1|]. split; lia.
  - destruct (12 <? _) eqn:E2; [|apply Post_ret; tauto].
    apply Z.ltb_lt in E2.
    set (len := cad_measureNumber cadence - phraseStart + 1) in *.
    assert (Hd1 : 6 <= len / 2) by (apply Z.div_le_lower_bound; lia).
    assert (Hd2 : len / 2 <= len - 2) by (apply Z.div_le_upper_bound; lia).
    eapply Post_bind; [apply newPhrase_range|]. intros p [Ps Pe].
    eapply Post_bind; [apply newPhrase_range|]. intros q [Qs Qe].
    apply Post_ret.
    destruct (@phraseChain_snoc phrases first p Hch ltac:(lia) ltac:(lia)) as [H1 H2].
    destruct (@phraseChain_snoc (phrases ++ [p]) first q H1 ltac:(lia) ltac:(lia)) as [H3 H4].
    rewrite <- app_assoc in H3, H4. cbn [app] in H3, H4.
    split; [exact H3|]. split; lia.
Qed.

Lemma phraseRemainder_chain :
  forall notes subPhrases first hi lastMeasure st,
    lastMeasure <= hi ->
    (let '(phrases, phraseStart, _) := st in
     phraseChain first phrases /\ chainEnd first phrases = phraseStart
     /\ phraseStart - 1 <= hi) ->
    Post (fun phrases => phraseChain first phrases /\ chainEnd first phrases - 1 <= hi)
         (phraseRemainder notes subPhrases lastMeasure st).
Proof.
  intros notes subPhrases first hi lastMeasure [[phrases phraseStart] idx] Hl (Hch & He & Hhi).
  unfold phraseRemainder.
  destruct (phraseStart <=? lastMeasure) eqn:E1; [|apply Post_ret; split; [assumption|lia]].
  apply Z.leb_le in E1.
  destruct (2 <=? _); [|apply Post_ret; split; [assumption|lia]].
  eapply Post_bind; [apply newPhrase_range|]. intros p [Ps Pe].
  apply Post_ret.
  destruct (@phraseChain_snoc phrases first p Hch ltac:(lia) ltac:(lia)) as [H1 H2].
  split; [exact H1|lia].
Qed.

Lemma phraseChain_ext :
  forall l l' t,
    map ph_startMeasure l' = map ph_startMeasure l ->
    map ph_endMeasure l' = map ph_endMeasure l ->
    phraseChain t l -> phraseChain t l' /\ chainEnd t l' = chainEnd t l.
Proof.
  induction l as [|p l IH]; intros [|p' l'] t Es Ee H; try discriminate; cbn in *;
    [split; [exact Logic.I|reflexivity]|].
  injection Es as Es1 Es2. injection Ee as Ee1 Ee2. destruct H as (Hs & Hle & H).
  rewrite Es1, Ee1. destruct (IH l' _ Es2 Ee2 H) as [H1 H2]. repeat split; assumption.
Qed.

Lemma analyzePhraseMaterials_ranges :
  forall phrases,
    map ph_startMeasure (analyzePhraseMaterials phrases) = map ph_startMeasure phrases
    /\ map ph_endMeasure (analyzePhraseMaterials phrases) = map ph_endMeasure phrases.
Proof.
  assert (G : forall rest prev,
             map ph_startMeasure (relateAfter prev rest) = map ph_startMeasure rest
             /\ map ph_endMeasure (relateAfter prev rest) = map ph_endMeasure rest).
  { induction rest as [|curr rest IH]; intros prev; cbn; [split; reflexivity|].
    destruct (PhraseFacts.relatePhrase_fields prev curr) as (E1 & E2 & _).
    destruct (IH (relatePhrase prev curr)) as [H1 H2]. now rewrite E1, E2, H1, H2. }
  intros [|p rest]; cbn; [split; reflexivity|].
  destruct (G rest p) as [H1 H2]. now rewrite H1, H2.
Qed.

Lemma detectPhrases_chain :
  forall notes cadences subPhrases hi,
    1 <= hi ->
    Forall (fun n => 1 <= n_measureNumber n <= hi) notes ->
    Forall (fun c => cad_measureNumber c <= hi) cadences ->
    Post (fun phrases =>
            exists first, 1 <= first /\ phraseChain first phrases
                          /\ chainEnd first phrases - 1 <= hi)
         (detectPhrases notes cadences subPhrases).
Proof.
  intros notes cadences subPhrases hi Hhi Hn Hc. unfold detectPhrases.
  pose proof (measure_keys_bound (hi := hi) (notes := notes)) as Hk.
  destruct (sortedKeys (groupNotesByMeasure notes)) as [|first ks] eqn:E.
  { apply Post_ret. exists 1. cbn. repeat split; lia. }
  destruct (lastOpt (first :: ks)) as [lastMeasure|] eqn:EL.
  2:{ apply Post_ret. exists 1. cbn. repeat split; lia. }
  assert (Hf : 1 <= first <= hi) by (apply Hk; [assumption|now left]).
  assert (Hl : 1 <= lastMeasure <= hi).
  { apply Hk; [assumption|]. unfold lastOpt in EL. eapply nth_error_In; exact EL. }
  eapply Post_bind.
  - apply Post_foldM
      with (P := fun st : list Phrase * Z * Z =>
                   let '(phrases, phraseStart, _) := st in
                   phraseChain first phrases /\ chainEnd first phrases = phraseStart
                   /\ phraseStart - 1 <= hi).
    + intros st c Hin Hst. apply phraseStep_chain; [|exact Hst].
      apply In_sortBy in Hin. rewrite Forall_forall in Hc. now apply Hc.
    + cbn. repeat split; lia.
  - intros st Hst. eapply Post_bind; [apply phraseRemainder_chain with (hi := hi); [lia|exact Hst]|].
    intros phrases [H1 H2]. apply Post_ret. exists first.
    destruct (analyzePhraseMaterials_ranges phrases) as [Es Ee].
    destruct (@phraseChain_ext phrases (analyzePhraseMaterials phrases) first Es Ee H1) as [H3 H4].
    split; [lia|]. split; [exact H3|]. rewrite H4. exact H2.
Qed.

(** *** The periods divide the chain *)

Lemma createPeriod_fields :
  forall phrases index,
    Post (fun p => pe_phrases p = phrases /\ pe_startMeasure p = firstStart phrases
                   /\ pe_endMeasure p = lastEnd phrases)
         (createPeriod phrases index).
Proof.
  intros. unfold createPeriod. eapply Post_bind; [apply Post_any|]. intros id _.
  apply Post_ret. repeat split; reflexivity.
Qed.

Lemma periodChain_snoc :
  forall l t p,
    periodChain t l -> periodChain (periodChainEnd t l) [p] ->
    periodChain t (l ++ [p])
    /\ periodChainEnd t (l ++ [p]) = pe_endMeasure p + 1.
Proof.
  intros l t p H Hp. split.
  - apply periodChain_app. now split.
  - rewrite periodChainEnd_app. reflexivity.
Qed.

Lemma lastEnd_chain :
  forall l t, l <> [] -> phraseChain t l ->
    firstStart l = t /\ lastEnd l = chainEnd t l - 1.
Proof.
  intros l t Hne Hch. split.
  - destruct l as [|p l]; [congruence|]. cbn. now destruct Hch.
  - destruct (exists_last Hne) as (l0 & x & E). subst l.
    unfold lastEnd, lastOpt. rewrite length_app. cbn [List.length].
    replace (List.length l0 + 1 - 1)%nat with (List.length l0) by lia.
    rewrite nth_error_app2, Nat.sub_diag by lia. cbn [nth_error].
    rewrite chainEnd_app. cbn [chainEnd]. lia.
Qed.

Lemma periodLoop_chain :
  forall rest current periods index t,
    periodChain t periods ->
    phraseChain (periodChainEnd t periods) (current ++ rest) ->
    Post (fun ps => periodChain t ps
                    /\ periodChainEnd t ps
                       <= chainEnd (periodChainEnd t periods) (current ++ rest))
         (periodLoop rest current periods index).
Proof.
  induction rest as [|phrase rest IH]; intros current periods index t Hp Hc; cbn [periodLoop].
  - apply Post_ret. split; [assumption|]. now apply chainEnd_le.
  - destruct (_ || _).
    + eapply Post_bind; [apply createPeriod_fields|]. intros p (Ep & Es & Ee).
      replace (current ++ phrase :: rest) with ((current ++ [phrase]) ++ rest) in *
        by now rewrite <- app_assoc.
      apply phraseChain_app in Hc. destruct Hc as [Hc1 Hc2].
      assert (Hne : current ++ [phrase] <> []) by (destruct current; discriminate).
      destruct (@lastEnd_chain (current ++ [phrase]) _ Hne Hc1) as [F1 F2].
      assert (Hp1 : periodChain (periodChainEnd t periods) [p]).
      { cbn. rewrite Ep, Es, Ee. repeat split; try assumption. }
      destruct (@periodChain_snoc periods t p Hp Hp1) as [G1 G2].
      eapply Post_weaken.
      * apply (IH [] (periods ++ [p]) (index + 1) t G1). cbn [app].
        rewrite G2, Ee, F2. replace (chainEnd _ _ - 1 + 1) with
          (chainEnd (periodChainEnd t periods) (current ++ [phrase])) by lia.
        exact Hc2.
      * intros ps [Q1 Q2]. split; [exact Q1|]. cbn [app] in Q2.
        rewrite G2, Ee, F2 in Q2. rewrite chainEnd_app.
        replace (chainEnd (periodChainEnd t periods) (current ++ [phrase]) - 1 + 1)
          with (chainEnd (periodChainEnd t periods) (current ++ [phrase])) in Q2 by lia.
        exact Q2.
    + replace (current ++ phrase :: rest) with ((current ++ [phrase]) ++ rest) in *
        by now rewrite <- app_assoc.
      now apply IH.
Qed.

Lemma detectPeriods_chain :
  forall phrases t,
    phraseChain t phrases ->
    Post (fun ps => periodChain t ps /\ periodChainEnd t ps <= chainEnd t phrases)
         (detectPeriods phrases).
Proof.
  intros phrases t H. unfold detectPeriods.
  exact (@periodLoop_chain phrases [] [] 0 t Logic.I H).
Qed.


(** *** The sections lie over runs of periods *)

Lemma sliced_skips : forall l ps ss, sliced ps ss -> sliced (l ++ ps) ss.
Proof. induction l as [|p l IH]; intros ps ss H; cbn; [assumption|]. now constructor; apply IH. Qed.

Lemma sliced_app :
  forall ps ss ps' ss', sliced ps ss -> sliced ps' ss' -> sliced (ps ++ ps') (ss ++ ss').
Proof.
  intros ps ss ps' ss' H H'. induction H as [ps|p ps ss H IH|g ps s ss Hne Es Ee H IH]; cbn.
  - now apply sliced_skips.
  - now constructor.
  - rewrite <- app_assoc. now constructor.
Qed.


Lemma sliced_own :
  forall p ps s ss, owns p s -> sliced ps ss -> sliced (p :: ps) (s :: ss).
Proof.
  intros p ps s ss [Hs He] H. apply (@sliced_take [p] ps s ss); try assumption. discriminate.
Qed.

Lemma sliced_Forall2 : forall ps ss, Forall2 owns ps ss -> sliced ps ss.
Proof. intros ps ss H. induction H; [constructor|]. now apply sliced_own. Qed.

Lemma newSection_range :
  forall name type startMeasure endMeasure function periods,
    Post (fun s => sec_startMeasure s = startMeasure /\ sec_endMeasure s = endMeasure)
         (newSection name type startMeasure endMeasure function periods).
Proof.
  intros. unfold newSection. eapply Post_bind; [apply Post_any|]. intros id _.
  apply Post_ret. split; reflexivity.
Qed.

Lemma newSection_owns :
  forall name type function periods p,
    Post (owns p)
         (newSection name type (pe_startMeasure p) (pe_endMeasure p) function periods).
Proof. intros. apply newSection_range. Qed.

Lemma owns_withExtras :
  forall p s a b c d e f, owns p s -> owns p (withExtras s a b c d e f).
Proof. intros p s a b c d e f H. exact H. Qed.

Lemma Forall2_combine_snd :
  forall (A B X : Type) (Q : A -> B -> Prop) (xs : list X) l ss,
    Forall2 (fun (ip : X * A) s => Q (snd ip) s) (combine xs l) ss ->
    exists l1 l2, l = l1 ++ l2 /\ Forall2 Q l1 ss.
Proof.
  intros A B X Q xs. induction xs as [|x xs IH]; intros l ss H; cbn in H.
  - inversion H; subst. exists [], l. split; [reflexivity|constructor].
  - destruct l as [|a l]; cbn in H.
    + inversion H; subst. exists [], []. split; [reflexivity|constructor].
    + inversion H as [|? ? ? ? Ha H']; subst. destruct (IH _ _ H') as (l1 & l2 & E & HF).
      exists (a :: l1), l2. split; [cbn; congruence|]. now constructor.
Qed.

Lemma sliced_prefix :
  forall l1 l2 ss, Forall2 owns l1 ss -> sliced (l1 ++ l2) ss.
Proof.
  intros l1 l2 ss H. rewrite <- (app_nil_r ss). apply sliced_app; [|constructor].
  now apply sliced_Forall2.
Qed.

Lemma createSections_sliced :
  forall periods formType, Post (sliced periods) (createSections periods formType).
Proof.
  intros periods formType. unfold createSections.
  eapply Post_weaken.
  - apply Post_mapM with (P := fun (ip : Z * Period) s => owns (snd ip) s).
    intros [i p] _. apply newSection_owns.
  - intros ss H. destruct (@Forall2_combine_snd Period Section Z owns _ _ _ H) as (l1 & l2 & E & HF).
    subst periods.
    now apply sliced_prefix.
Qed.

Lemma analyzeOnePartForm_sliced :
  forall periods,
    Post (fun f => sliced periods (sectionsOrEmpty f)) (analyzeOnePartForm periods).
Proof.
  intros [|p ps]; cbn [analyzeOnePartForm]; [apply Post_ret; constructor|].
  eapply Post_bind; [apply newSection_owns|]. intros s Hs. apply Post_ret.
  cbn. apply sliced_own; [assumption|constructor].
Qed.

Lemma analyzeBinaryForm_sliced :
  forall periods mp,
    Post (fun f => sliced periods (sectionsOrEmpty f)) (analyzeBinaryForm periods mp).
Proof.
  intros [|a [|b ps]] mp; cbn [analyzeBinaryForm]; try (apply Post_ret; constructor).
  eapply Post_bind; [apply newSection_owns|]. intros s Hs.
  eapply Post_bind; [apply newSection_owns|]. intros t Ht. apply Post_ret.
  cbn. apply sliced_own; [assumption|]. apply sliced_own; [assumption|constructor].
Qed.

Lemma analyzeTernaryForm_sliced :
  forall periods mp,
    Post (fun f => sliced periods (sectionsOrEmpty f)) (analyzeTernaryForm periods mp).
Proof.
  intros [|a [|b [|c ps]]] mp; cbn [analyzeTernaryForm]; try (apply Post_ret; constructor).
  destruct (mp_hasRecapitulation mp).
  - eapply Post_bind; [apply newSection_owns|]. intros s Hs.
    eapply Post_bind; [apply newSection_owns|]. intros t Ht.
    eapply Post_bind; [apply newSection_owns|]. intros u Hu. apply Post_ret.
    cbn. apply sliced_own; [assumption|]. apply sliced_own; [assumption|].
    apply sliced_own; [assumption|constructor].
  - eapply Post_bind; [apply newSection_owns|]. intros s Hs.
    eapply Post_bind; [apply newSection_owns|]. intros t Ht.
    eapply Post_bind; [apply newSection_owns|]. intros u Hu. apply Post_ret.
    cbn. apply sliced_own; [assumption|]. apply sliced_own; [assumption|].
    apply sliced_own; [assumption|constructor].
Qed.

(** Variation form: the theme, then the periods that vary it. *)
Lemma variations_sliced :
  forall theme idxs ps ss,
    Forall2 (fun v s => owns (var_period v) s)
            (flat_map (fun ip : Z * Period =>
                         let '(i, p) := ip in
                         let similarity := calculatePeriodSimilarity p theme in
                         if Qgtb similarity (3#10) && Qltb similarity (9#10)
                         then [mkVariation i p similarity (classifyVariationType theme p)]
                         else [])
                      (combine idxs ps)) ss ->
    sliced ps ss.
Proof.
  intros theme idxs ps. revert idxs.
  induction ps as [|p ps IH]; intros idxs ss H.
  - destruct idxs; cbn in H; inversion H; constructor.
  - destruct idxs as [|i idxs]; cbn in H; [inversion H; constructor|].
    destruct (_ && _); cbn in H.
    + inversion H as [|? ? ? ? Hv H']; subst. cbn in Hv.
      apply sliced_own; [assumption|]. now apply (IH idxs).
    + constructor. now apply (IH idxs).
Qed.

Lemma Forall2_combine_all :
  forall (A B : Type) (Q : A -> B -> Prop) (l : list A) ss,
    Forall2 (fun (ip : Z * A) s => Q (snd ip) s) (combine (Zrange (Zlen l)) l) ss ->
    Forall2 Q l ss.
Proof.
  intros A B Q l ss. unfold Zrange, Zlen. rewrite Nat2Z.id.
  generalize 0%nat as k. revert ss.
  induction l as [|a l IH]; intros ss k H; cbn in H; inversion H; subst; constructor.
  - assumption.
  - now apply (IH _ (S k)).
Qed.

Lemma createVariationSections_owns :
  forall theme variations,
    Post (fun ss => exists s0 rest,
              ss = s0 :: rest /\ owns theme s0
              /\ Forall2 (fun v s => owns (var_period v) s) variations rest)
         (createVariationSections theme variations).
Proof.
  intros theme variations. unfold createVariationSections.
  eapply Post_bind; [apply newSection_owns|]. intros s0 Hs0.
  eapply Post_bind.
  - apply Post_mapM with (P := fun (iv : Z * Variation) s => owns (var_period (snd iv)) s).
    intros [i v] _. eapply Post_bind; [apply newSection_owns|]. intros s Hs.
    apply Post_ret. exact Hs.
  - intros rest Hrest. apply Post_ret. exists s0, rest.
    split; [reflexivity|]. split; [assumption|].
    exact (@Forall2_combine_all Variation Section (fun v s => owns (var_period v) s) _ _ Hrest).
Qed.

Lemma detectVariationForm_sliced :
  forall periods,
    Post (fun f => sliced periods (sectionsOrEmpty f)) (detectVariationForm periods).
Proof.
  intros periods. unfold detectVariationForm.
  destruct periods as [|theme ps] eqn:E; [apply Post_ret; constructor|]. rewrite <- E.
  destruct (_ <? 3); [apply Post_ret; constructor|].
  destruct (Qgtb _ _); [|apply Post_ret; constructor].
  eapply Post_bind; [apply createVariationSections_owns|].
  intros ss (s0 & rest & Ess & Hs0 & Hrest). apply Post_ret.
  cbn [sectionsOrEmpty fa_sections]. subst ss. rewrite E.
  apply sliced_own; [assumption|].
  unfold findVariations in Hrest. rewrite E in Hrest.
  unfold Zrange in Hrest.
  destruct (Z.to_nat (Zlen (theme :: ps))) as [|k] eqn:Ek; cbn [seq map combine tl] in Hrest.
  - inversion Hrest; constructor.
  - now apply (variations_sliced _ _ _ Hrest).
Qed.


Lemma combine_fst_prefix :
  forall (A B : Type) (l : list A) (ms : list B),
    exists rest, l = map fst (combine l ms) ++ rest.
Proof.
  intros A B l. induction l as [|a l IH]; intros ms; cbn; [now exists []|].
  destruct ms as [|m ms]; cbn; [now exists (a :: l)|].
  destruct (IH ms) as (rest & E). exists rest. congruence.
Qed.

Lemma owns_fold :
  forall (step : list Section * Z * Z -> Period * string -> M (list Section * Z * Z))
         periods materials,
    (forall ss i j p m,
        Post (fun st => exists s, fst (fst st) = ss ++ [s] /\ owns p s)
             (step (ss, i, j) (p, m))) ->
    Post (fun st => sliced periods (fst (fst st)))
         (foldM step (combine periods materials) ([], 0, 0)).
Proof.
  intros step periods materials Hstep.
  eapply Post_weaken.
  - apply Post_foldM_prefix
      with (P := fun (done : list (Period * string)) (st : list Section * Z * Z) =>
                   Forall2 owns (map fst done) (fst (fst st)))
           (done := []).
    + intros done [[ss i] j] [p m] Hd. eapply Post_weaken; [apply Hstep|].
      intros st (s & E & Hs). rewrite E, map_app. apply Forall2_app; [exact Hd|].
      constructor; [exact Hs|constructor].
    + constructor.
  - intros st H. cbn [app] in H.
    destruct (combine_fst_prefix periods materials) as (rest & E).
    rewrite E. now apply sliced_prefix.
Qed.

Lemma detectRondoForm_sliced :
  forall periods mp,
    Post (fun f => sliced periods (sectionsOrEmpty f)) (detectRondoForm periods mp).
Proof.
  intros periods mp. unfold detectRondoForm.
  destruct (_ <? 3); [apply Post_ret; constructor|].
  destruct (_ <? 2); [apply Post_ret; constructor|].
  eapply Post_bind.
  - apply owns_fold. intros ss i j p m. unfold rondoStep.
    destruct (String.eqb m _).
    + eapply Post_bind; [apply newSection_owns|]. intros s Hs. apply Post_ret.
      eexists. split; [reflexivity|]. exact Hs.
    + eapply Post_bind; [apply newSection_owns|]. intros s Hs. apply Post_ret.
      eexists. split; [reflexivity|]. exact Hs.
  - intros [[ss i] j] H. apply Post_ret. exact H.
Qed.

Lemma createVerseChorusSections_sliced :
  forall periods materials,
    Post (sliced periods) (createVerseChorusSections periods materials).
Proof.
  intros periods materials. unfold createVerseChorusSections.
  eapply Post_bind.
  - apply owns_fold. intros ss i j p m. unfold verseChorusStep.
    destruct (String.eqb m _).
    + eapply Post_bind; [apply newSection_owns|]. intros s Hs. apply Post_ret.
      eexists. split; [reflexivity|]. exact Hs.
    + eapply Post_bind; [apply newSection_owns|]. intros s Hs. apply Post_ret.
      eexists. split; [reflexivity|]. exact Hs.
  - intros [[ss i] j] H. apply Post_ret. exact H.
Qed.

Lemma createAABASections_sliced :
  forall periods, Post (sliced periods) (createAABASections periods).
Proof.
  intros periods. unfold createAABASections.
  eapply Post_weaken.
  - apply Post_mapM with (P := fun (ip : Z * Period) s => owns (snd ip) s).
    intros [i p] _. apply newSection_owns.
  - intros ss H.
    apply sliced_Forall2. exact (@Forall2_combine_all Period Section owns _ _ H).
Qed.

Lemma detectPopularMusicForm_sliced :
  forall periods,
    Post (fun f => match fa_sections f with
                   | Some ss => sliced periods ss
                   | None => True
                   end)
         (detectPopularMusicForm periods).
Proof.
  intros periods. unfold detectPopularMusicForm.
  destruct (_ <? 2); [apply Post_ret; exact Logic.I|].
  destruct (_ && _).
  { eapply Post_bind; [apply createVerseChorusSections_sliced|]. intros ss H.
    apply Post_ret. exact H. }
  destruct (_ && _).
  { eapply Post_bind; [apply createAABASections_sliced|]. intros ss H.
    apply Post_ret. exact H. }
  apply Post_ret. exact Logic.I.
Qed.

(** Three slices of the periods, one after the other. *)
Lemma jsSlice_partition :
  forall (A : Type) (l : list A) a b,
    0 <= a -> a <= b -> l = jsSlice l 0 a ++ jsSlice l a b ++ jsSliceFrom l b.
Proof.
  intros A l a b Ha Hab. unfold jsSliceFrom, jsSlice, slice.
  set (len := Zlen l).
  assert (Hlen : 0 <= len) by (subst len; unfold Zlen; lia).
  replace (if 0 <? 0 then Z.max (len + 0) 0 else Z.min 0 len) with 0
    by (cbn; lia).
  replace (if a <? 0 then Z.max (len + a) 0 else Z.min a len) with (Z.min a len)
    by (destruct (Z.ltb_spec a 0); lia).
  replace (if b <? 0 then Z.max (len + b) 0 else Z.min b len) with (Z.min b len)
    by (destruct (Z.ltb_spec b 0); lia).
  replace (if len <? 0 then Z.max (len + len) 0 else Z.min len len) with len
    by (destruct (Z.ltb_spec len 0); lia).
  cbn [Z.to_nat skipn]. rewrite Nat.sub_0_r.
  set (a' := Z.to_nat (Z.min a len)). set (b' := Z.to_nat (Z.min b len)).
  assert (Hab' : (a' <= b')%nat) by (subst a' b'; lia).
  assert (Hb' : (b' <= List.length l)%nat) by (subst b' len; unfold Zlen; lia).
  replace (Z.to_nat len) with (List.length l) by (subst len; unfold Zlen; lia).
  rewrite (firstn_all2 (n := List.length l - b')) by (rewrite length_skipn; lia).
  rewrite <- (firstn_skipn a' l) at 1. f_equal.
  rewrite <- (firstn_skipn (b' - a') (skipn a' l)) at 1. f_equal.
  rewrite skipn_skipn. f_equal. lia.
Qed.

Lemma jsSlice_head :
  forall (A : Type) (l : list A) e, l <> [] -> 1 <= e -> jsSlice l 0 e <> [].
Proof.
  intros A l e Hl He. unfold jsSlice, slice.
  assert (Hlen : 0 <= Zlen l) by (unfold Zlen; lia).
  replace (if 0 <? 0 then Z.max (Zlen l + 0) 0 else Z.min 0 (Zlen l)) with 0 by (cbn; lia).
  replace (if e <? 0 then Z.max (Zlen l + e) 0 else Z.min e (Zlen l)) with (Z.min e (Zlen l))
    by (destruct (Z.ltb_spec e 0); lia).
  destruct l as [|x l]; [congruence|]. cbn [Z.to_nat skipn]. rewrite Nat.sub_0_r.
  destruct (Z.to_nat (Z.min e (Zlen (x :: l)))) eqn:Ek;
    [unfold Zlen in Ek; cbn [List.length] in Ek; lia|]. cbn. discriminate.
Qed.

Lemma sliced_spans :
  forall g gs ps ss, spans g gs -> sliced ps ss -> sliced (g ++ ps) (gs ++ ss).
Proof.
  intros g gs ps ss Hg H. destruct g as [|p g].
  - cbn in Hg. subst gs. exact H.
  - destruct Hg as (s & E & Hs & He). subst gs. cbn [app].
    apply (@sliced_take (p :: g) ps s ss); try assumption. discriminate.
Qed.

Lemma detectSonataForm_sliced :
  forall periods,
    Post (fun f => sliced periods (sectionsOrEmpty f)) (detectSonataForm periods).
Proof.
  intros periods. unfold detectSonataForm.
  destruct periods as [|p0 ps] eqn:E; [apply Post_ret; constructor|]. rewrite <- E.
  destruct (_ <? 3); [apply Post_ret; constructor|].
  destruct (negb _); [apply Post_ret; constructor|].
  set (n := Zlen periods).
  assert (Hn : 1 <= n) by (subst n; rewrite E; unfold Zlen; cbn [List.length]; lia).
  assert (H1 : 0 <= n / 3) by (apply Z.div_pos; lia).
  assert (H2 : n / 3 <= 2 * n / 3) by (apply Z.div_le_mono; lia).
  set (A := jsSlice periods 0 (n / 3 + 1)).
  set (B := jsSlice periods (n / 3 + 1) (2 * n / 3 + 1)).
  set (C := jsSliceFrom periods (2 * n / 3 + 1)).
  assert (EP : periods = A ++ B ++ C) by (apply jsSlice_partition; lia).
  assert (HA : A <> []) by (subst A; apply jsSlice_head; [rewrite E; discriminate|lia]).
  eapply Post_bind; [apply newSection_range|]. intros e [Es Ee].
  eapply Post_bind with (P := spans B).
  { destruct B as [|b B']; [apply Post_ret; reflexivity|].
    eapply Post_bind; [apply newSection_range|]. intros d [Ds De].
    apply Post_ret. exists d. repeat split; assumption. }
  intros dev Hdev.
  eapply Post_bind with (P := spans C).
  { destruct C as [|c C']; [apply Post_ret; reflexivity|].
    eapply Post_bind; [apply newSection_range|]. intros r [Rs Re].
    apply Post_ret. eexists. split; [reflexivity|]. split; assumption. }
  intros rec Hrec.
  apply Post_ret. cbn [sectionsOrEmpty fa_sections plainForm].
  rewrite EP at 1.
  apply sliced_spans.
  - destruct A as [|a A']; [congruence|]. eexists. split; [reflexivity|]. split; assumption.
  - apply sliced_spans; [assumption|].
    pose proof (@sliced_spans C rec [] [] Hrec (sliced_done [])) as HC.
    rewrite !app_nil_r in HC. exact HC.
Qed.


(** The bounds of the middle part of a compound ternary form. *)
Lemma middleStep_inv :
  forall mainMaterial k st m,
    1 <= k -> middleInv k st -> middleInv (k + 1) (middleStep mainMaterial st (k, m)).
Proof.
  intros mainMaterial k [[ms me] stopped] m Hk [H1 H2]. unfold middleStep, middleInv.
  destruct stopped; [split; [destruct H1; [now left|right; lia]|destruct H2; [now left|right; lia]]|].
  destruct (String.eqb m mainMaterial); cbn [negb andb].
  - destruct (ms =? -1) eqn:E1; cbn [negb andb].
    + apply Z.eqb_eq in E1. split; [now left|]. destruct H2; [now left|right; lia].
    + apply Z.eqb_neq in E1. destruct (me =? -1) eqn:E2.
      * split; [right; lia|]. right. lia.
      * apply Z.eqb_neq in E2. split; [right; lia|]. right. lia.
  - destruct (ms =? -1) eqn:E1.
    + apply Z.eqb_eq in E1. split; [right; lia|]. destruct H2 as [H2|H2]; [now left|lia].
    + apply Z.eqb_neq in E1. split; [right; lia|]. destruct H2; [now left|right; lia].
Qed.

Lemma middle_fold_inv :
  forall mainMaterial c a (ms : list string) st,
    (1 <= a)%nat ->
    middleInv (Z.of_nat a) st ->
    exists k, Z.of_nat a <= k <= Z.of_nat a + Z.of_nat c
              /\ middleInv k (fold_left (middleStep mainMaterial)
                                        (combine (map Z.of_nat (seq a c)) ms) st).
Proof.
  intros mainMaterial. induction c as [|c IH]; intros a ms st Ha H; cbn [seq map combine].
  - exists (Z.of_nat a). split; [lia|exact H].
  - destruct ms as [|m ms]; cbn [combine fold_left].
    + exists (Z.of_nat a). split; [lia|exact H].
    + pose proof (@middleStep_inv mainMaterial (Z.of_nat a) st m ltac:(lia) H) as H'.
      replace (Z.of_nat a + 1) with (Z.of_nat (S a)) in H' by lia.
      destruct (IH (S a) ms _ ltac:(lia) H') as (k & Hk & Hinv).
      exists k. split; [lia|exact Hinv].
Qed.

Lemma analyzeCompoundTernaryForm_sliced :
  forall periods mp,
    2 <= Zlen periods -> Zlen (mp_materials mp) <= Zlen periods ->
    Post (fun f => sliced periods (sectionsOrEmpty f))
         (analyzeCompoundTernaryForm periods mp).
Proof.
  intros periods mp Hlen Hmat. unfold analyzeCompoundTernaryForm.
  destruct (negb _).
  { eapply Post_bind; [apply createSections_sliced|]. intros ss H. apply Post_ret. exact H. }
  set (materials := mp_materials mp) in *.
  assert (Hfold : exists k, 1 <= k <= Z.max 1 (Zlen materials)
                   /\ middleInv k (fold_left (middleStep (nth 0 materials ""))
                                      (tl (combine (Zrange (Zlen materials)) materials))
                                      (-1, -1, false))).
  { unfold Zrange, Zlen. rewrite Nat2Z.id.
    destruct materials as [|m0 ms]; cbn [List.length seq map combine tl fold_left].
    - exists 1. split; [lia|]. cbn. split; now left.
    - rewrite <- seq_shift, map_map.
      destruct (@middle_fold_inv (nth 0 (m0 :: ms) "") (List.length ms) 1 ms (-1, -1, false))
        as (k & Hk & Hinv); [lia|cbn; split; now left|].
      exists k. split; [lia|].
      rewrite <- seq_shift, map_map in Hinv. exact Hinv. }
  destruct Hfold as (k & Hk & Hinv).
  destruct (fold_left _ _ _) as [[ms0 me0] stopped]. destruct Hinv as [I1 I2].
  set (ms := if ms0 =? -1 then 1 else ms0).
  set (me := if me0 =? -1 then Zlen periods - 2 else me0).
  assert (Hms : 1 <= ms /\ ms <= me + 1).
  { subst ms me. destruct (Z.eqb_spec ms0 (-1)), (Z.eqb_spec me0 (-1)); lia. }
  set (A := jsSlice periods 0 ms).
  set (B := jsSlice periods ms (me + 1)).
  set (C := jsSliceFrom periods (me + 1)).
  assert (EP : periods = A ++ B ++ C) by (apply jsSlice_partition; lia).
  assert (HA : A <> []).
  { subst A. apply jsSlice_head; [|lia]. destruct periods; [unfold Zlen in Hlen; cbn in Hlen; lia|].
    discriminate. }
  eapply Post_bind; [apply newSection_range|]. intros a [As Ae].
  eapply Post_bind with (P := spans B).
  { destruct B as [|b B']; [apply Post_ret; reflexivity|].
    destruct A as [|a0 A']; [congruence|].
    eapply Post_bind; [apply newSection_range|]. intros d [Ds De].
    apply Post_ret. eexists. split; [reflexivity|]. split; assumption. }
  intros bs Hbs.
  eapply Post_bind with (P := spans C).
  { destruct C as [|c C']; [apply Post_ret; reflexivity|].
    eapply Post_bind; [apply newSection_range|]. intros r [Rs Re].
    apply Post_ret. eexists. split; [reflexivity|]. split; assumption. }
  intros cs Hcs.
  apply Post_ret. cbn [sectionsOrEmpty fa_sections plainForm].
  rewrite EP at 1.
  apply sliced_spans.
  - destruct A as [|a0 A']; [congruence|]. eexists. split; [reflexivity|]. split; assumption.
  - apply sliced_spans; [assumption|].
    pose proof (@sliced_spans C cs [] [] Hcs (sliced_done [])) as HC.
    rewrite !app_nil_r in HC. exact HC.
Qed.

Lemma analyzeMaterialPattern_length :
  forall periods, Zlen (mp_materials (analyzeMaterialPattern periods)) = Zlen periods.
Proof. intros periods. unfold analyzeMaterialPattern, Zlen. cbn. now rewrite length_map. Qed.

Lemma detectForm_sliced :
  forall periods, Post (fun f => sliced periods (sectionsOrEmpty f)) (detectForm periods).
Proof.
  intros periods. unfold detectForm.
  destruct (_ =? 0); [apply Post_ret; constructor|].
  destruct (_ =? 1); [apply analyzeOnePartForm_sliced|].
  destruct (_ =? 2); [apply analyzeBinaryForm_sliced|].
  destruct (_ =? 3); [apply analyzeTernaryForm_sliced|].
  eapply Post_bind; [apply detectVariationForm_sliced|]. intros v Hv.
  destruct (Qgtb _ _); [now apply Post_ret|].
  eapply Post_bind
    with (P := fun r => match r with
                        | Some f => sliced periods (sectionsOrEmpty f)
                        | None => True
                        end).
  { destruct (5 <=? _); [|apply Post_ret; exact Logic.I].
    eapply Post_bind; [apply detectRondoForm_sliced|]. intros r Hr.
    apply Post_ret. destruct (Qgtb _ _); [exact Hr|exact Logic.I]. }
  intros [r|] Hr; [now apply Post_ret|].
  eapply Post_bind
    with (P := fun r => match r with
                        | Some f => sliced periods (sectionsOrEmpty f)
                        | None => True
                        end).
  { destruct (3 <=? _); [|apply Post_ret; exact Logic.I].
    eapply Post_bind; [apply detectSonataForm_sliced|]. intros x Hx.
    apply Post_ret. destruct (Qgtb _ _); [exact Hx|exact Logic.I]. }
  intros [x|] Hx; [now apply Post_ret|].
  destruct (4 <=? Zlen periods) eqn:E4.
  - apply Z.leb_le in E4. apply analyzeCompoundTernaryForm_sliced; [lia|].
    rewrite analyzeMaterialPattern_length. lia.
  - eapply Post_bind; [apply createSections_sliced|]. intros ss H. apply Post_ret. exact H.
Qed.

Lemma assignForm_sliced :
  forall periods f pf,
    sliced periods (sectionsOrEmpty f) ->
    match fa_sections pf with Some ss => sliced periods ss | None => True end ->
    sliced periods (sectionsOrEmpty (assignForm f pf)).
Proof.
  intros periods f pf Hf Hpf. unfold assignForm, sectionsOrEmpty in *. cbn [fa_sections].
  destruct (fa_sections pf); [exact Hpf|exact Hf].
Qed.

(** *** The layout of an analysis *)

Lemma analysisTail_layout :
  forall notes options ma info ms sps hi,
    1 <= hi ->
    Forall (fun n => 1 <= n_measureNumber n <= hi) notes ->
    Post (fun r => exists t,
              1 <= t /\ periodChain t (periods r)
              /\ periodChainEnd t (periods r) - 1 <= hi
              /\ sliced (periods r) (sectionsOrEmpty (form r)))
         (analysisTail notes options ma info ms sps).
Proof.
  intros notes options ma info ms sps hi Hhi Hn. unfold analysisTail.
  eapply Post_bind; [apply detectCadences_measures|]. intros cs Hcs.
  eapply Post_bind.
  { apply detectPhrases_chain with (hi := hi); [assumption|assumption|].
    eapply Forall_impl; [|exact Hcs]. intros c Hc.
    exact (proj2 (@measure_keys_bound notes hi _ Hn Hc)). }
  intros phs (t & Ht & Hch & Hend).
  eapply Post_bind; [apply detectPeriods_chain; exact Hch|]. intros pes [Hpc Hpe].
  eapply Post_bind; [apply Post_any|]. intros cps _.
  eapply Post_bind; [apply detectForm_sliced|]. intros f0 Hf0.
  eapply Post_bind; [apply detectPopularMusicForm_sliced|]. intros pf Hpf.
  set (f := if Qgtb _ _ then assignForm f0 pf else f0).
  assert (Hf : sliced pes (sectionsOrEmpty f)).
  { subst f. destruct (Qgtb _ _); [now apply assignForm_sliced|assumption]. }
  clearbody f.
  eapply Post_bind; [apply Post_any|]. intros ths _.
  eapply Post_bind; [apply Post_any|]. intros intro _.
  eapply Post_bind; [apply Post_any|]. intros coda _.
  eapply Post_bind; [apply Post_any|]. intros ts _.
  eapply Post_bind; [apply Post_any|]. intros es _.
  apply Post_ret. cbn. exists t. repeat split; try assumption. lia.
Qed.

Lemma analyses_layout :
  forall notes options hi,
    1 <= hi ->
    Forall (fun n => 1 <= n_measureNumber n <= hi) notes ->
    let layout r :=
      exists t, 1 <= t /\ periodChain t (periods r)
                /\ periodChainEnd t (periods r) - 1 <= hi
                /\ sliced (periods r) (sectionsOrEmpty (form r)) in
    Post layout (analyzeComplete notes options)
    /\ Post layout (analyzeCompleteChunked notes options).
Proof.
  intros notes options hi Hhi Hn layout.
  assert (HC : Post layout (analyzeComplete notes options)).
  { rewrite AgreementFacts.analyzeComplete_unfold.
    eapply Post_bind; [apply Post_any|]. intros ms _.
    eapply Post_bind; [apply Post_any|]. intros sps _.
    now apply analysisTail_layout. }
  split; [exact HC|].
  rewrite AgreementFacts.analyzeCompleteChunked_unfold.
  destruct (_ && _); [exact HC|].
  eapply Post_bind; [apply Post_any|]. intros ms _.
  eapply Post_bind; [apply Post_any|]. intros sps _.
  now apply analysisTail_layout.
Qed.

Lemma wellFormed_bounds :
  forall parsedScore, wellFormed parsedScore ->
    Forall (fun n => 1 <= n_measureNumber n <= Zlen (measures parsedScore))
           (notes parsedScore).
Proof.
  intros parsedScore [Hm Hn]. eapply Forall_impl; [|exact Hn].
  intros n Hin. cbn beta in Hin. rewrite Hm in Hin.
  apply in_map_iff in Hin. destruct Hin as (k & E & Hk). apply in_seq in Hk.
  unfold Zlen. lia.
Qed.

(** C4 (amended).  For a parsed score that has at least one measure and
    keeps the invariants of the data model (measures numbered 1, 2, ...,
    every note in one of them), the tree [buildHierarchy] returns is
    consistent in its measure ranges: every node has
    [startMeasure <= endMeasure], the range of every child lies within the
    range of its parent, the children of a node are pairwise
    non-overlapping and, below the root (sections, periods, phrases,
    sub-phrases), follow one another without a gap. *)
Theorem buildHierarchy_consistent :
  forall (parsedScore : ParsedScore) (rnd : Rand),
    wellFormed parsedScore ->
    measures parsedScore <> [] ->
    consistent true (ranges (run (buildHierarchy parsedScore) rnd)).
Proof.
  intros parsedScore rnd Hwf Hne.
  assert (Hhi : 1 <= Zlen (measures parsedScore)).
  { destruct (measures parsedScore); [congruence|]. unfold Zlen. cbn [List.length]. lia. }
  pose proof (wellFormed_bounds Hwf) as Hn.
  destruct (buildHierarchy_ranges parsedScore rnd) as (a & n & Ha & E). rewrite E.
  destruct (@analyses_layout (notes parsedScore)
              (mkOptions (ps_keySignature parsedScore)
                 (match ps_timeSignature parsedScore with
                  | Some t => t
                  | None => mkTime 4 4
                  end)) _ Hhi Hn) as [L1 L2].
  assert (HL : exists t, 1 <= t /\ periodChain t (periods a)
                        /\ periodChainEnd t (periods a) - 1 <= Zlen (measures parsedScore)
                        /\ sliced (periods a) (sectionsOrEmpty (form a))).
  { destruct Ha as [Ha|Ha]; subst a; [apply L1|apply L2]. }
  destruct HL as (t & Ht & Hch & Hend & Hsl).
  now apply treeRanges_consistent with (t := t).
Qed.

(** C4 (as stated, refuted).  The score with no measure keeps the
    invariants of the data model, and the root of its tree spans measures
    1 to 0: [startMeasure <= endMeasure] fails at the root. *)
Lemma buildHierarchy_empty_score :
  wellFormed emptyScore
  /\ ~ consistent true (ranges (run (buildHierarchy emptyScore) constId)).
Proof.
  split; [split; [reflexivity|constructor]|].
  intros H. vm_compute in H. inversion H; subst. lia.
Qed.

Lemma buildHierarchy_consistent_witness :
  wellFormed (scoreOf 8 twoPeriodNotes)
  /\ measures (scoreOf 8 twoPeriodNotes) <> []
  /\ consistent true (ranges (run (buildHierarchy (scoreOf 8 twoPeriodNotes)) constId)).
Proof.
  assert (W : wellFormed (scoreOf 8 twoPeriodNotes)).
  { split; [reflexivity|].
    repeat (apply Forall_cons; [cbn; auto 20|]). apply Forall_nil. }
  assert (N : measures (scoreOf 8 twoPeriodNotes) <> []) by discriminate.
  split; [exact W|]. split; [exact N|].
  exact (@buildHierarchy_consistent (scoreOf 8 twoPeriodNotes) constId W N).
Defined.

(** Why the numbering matters: the root always spans measures 1 to
    [measures.length], so an excerpt that keeps the numbers 17 to 20 gets
    a period outside the root. *)
Example buildHierarchy_excerpt :
  ~ consistent true (ranges (run (buildHierarchy excerptScore) constId)).
Proof.
  intros H. vm_compute in H. inversion H as [s e cs Hse Hin Hcs Hap Hadj]; subst.
  inversion Hin as [|r l Hr Hl]; subst. unfold within in Hr. cbn in Hr. lia.
Qed.

End TreeFacts.

(* ================================================================== *)
(** * Chunked analysis against complete analysis *)

Module ChunkFacts.

Import Agreement ChunkSpec PostFacts.

(** C1 (as stated, refuted). On sixty-four measures of two notes each the
    chunked analysis has a motive in measure 40, two measures and more
    away from the first and last measure of every chunk (1-32, 29-60,
    57-64), that agrees with no motive of the complete analysis: its index
    counts from the start of its chunk (11), the complete analysis counts
    from the start of the score (39). *)
Lemma chunked_motives_disagree :
  ~ motivesAgree longNotes
      (run (analyzeComplete longNotes defaultOptions) constId)
      (run (analyzeCompleteChunked longNotes defaultOptions) constId).
Proof.
  intros H.
  destruct (find (fun m => mo_measureNumber m =? 40)
                 (motives (run (analyzeCompleteChunked longNotes defaultOptions) constId)))
    as [m|] eqn:E; [|vm_compute in E; discriminate].
  destruct (find_some _ _ E) as [Hin Hm]. apply Z.eqb_eq in Hm.
  assert (Hi : mo_index m = 11) by (vm_compute in E; injection E as <-; reflexivity).
  assert (Haway : awayFromBoundaries longNotes (mo_measureNumber m)).
  { rewrite Hm. unfold awayFromBoundaries.
    replace (chunkRanges longNotes) with [(1, 32); (29, 60); (57, 64)]
      by (vm_compute; reflexivity).
    repeat constructor; cbn; lia. }
  destruct (H m Hin Haway) as (m' & Hin' & Hr).
  assert (F : forallb (fun x => negb ((mo_measureNumber x =? 40) && (mo_index x =? 11)))
                      (motives (run (analyzeComplete longNotes defaultOptions) constId))
              = true) by (vm_compute; reflexivity).
  rewrite forallb_forall in F. specialize (F m' Hin').
  rewrite (r_mo_measureNumber Hr), (r_mo_index Hr), Hm, Hi in F. discriminate.
Qed.


(** *** Grouping by measure *)

Lemma assocGet_assocUpd :
  forall (V : Type) (k k0 : Z) (f : option V -> V) m,
    assocGet Z.eqb k (assocUpd Z.eqb k0 f m)
    = if Z.eqb k k0 then Some (f (assocGet Z.eqb k0 m)) else assocGet Z.eqb k m.
Proof.
  intros V k k0 f m. induction m as [|[a v] m IH]; cbn.
  - destruct (Z.eqb_spec k k0); reflexivity.
  - destruct (Z.eqb_spec k0 a) as [E|E]; cbn.
    + subst a. destruct (Z.eqb_spec k k0); reflexivity.
    + rewrite IH. destruct (Z.eqb_spec k a) as [E1|E1], (Z.eqb_spec k k0) as [E2|E2];
        try reflexivity. congruence.
Qed.

Lemma assocUpd_keys_iff :
  forall (V : Type) (k k0 : Z) (f : option V -> V) m,
    In k (map fst (assocUpd Z.eqb k0 f m)) <-> k = k0 \/ In k (map fst m).
Proof.
  intros V k k0 f m. induction m as [|[a v] m IH]; cbn; [intuition|].
  destruct (Z.eqb_spec k0 a) as [E|E]; cbn; [subst; intuition|]. rewrite IH. intuition.
Qed.

Lemma assocUpd_NoDup :
  forall (V : Type) (k0 : Z) (f : option V -> V) m,
    NoDup (map fst m) -> NoDup (map fst (assocUpd Z.eqb k0 f m)).
Proof.
  intros V k0 f m. induction m as [|[a v] m IH]; intros H; cbn.
  - constructor; [intros []|constructor].
  - inversion H as [|? ? Hn Hm]; subst.
    destruct (Z.eqb_spec k0 a) as [E|E]; cbn; [now constructor|].
    constructor; [|now apply IH].
    rewrite assocUpd_keys_iff. intros [E1|E1]; [congruence|contradiction].
Qed.

Lemma groups_spec :
  forall notes,
    (forall k, groupOf (groupNotesByMeasure notes) k
               = filter (fun n => keyOf n =? k) notes)
    /\ (forall k, In k (map fst (groupNotesByMeasure notes))
                  <-> exists n, In n notes /\ keyOf n = k)
    /\ NoDup (map fst (groupNotesByMeasure notes)).
Proof.
  intros notes. unfold groupNotesByMeasure.
  assert (G : forall acc,
             NoDup (map fst acc) ->
             let r := fold_left
                        (fun groups note =>
                           assocUpd Z.eqb (ZorElse (n_measureNumber note) 1)
                             (fun g => match g with
                                       | Some ns => ns ++ [note]
                                       | None => [note]
                                       end) groups) notes acc in
             (forall k, groupOf r k = groupOf acc k ++ filter (fun n => keyOf n =? k) notes)
             /\ (forall k, In k (map fst r)
                           <-> In k (map fst acc) \/ exists n, In n notes /\ keyOf n = k)
             /\ NoDup (map fst r)).
  { induction notes as [|x notes IH]; intros acc Hacc; cbn [fold_left filter].
    - split; [intros; now rewrite app_nil_r|]. split; [|assumption].
      intros k. split; [now left|]. intros [H|(n & [] & _)]. exact H.
    - match goal with
      | |- context [fold_left _ notes ?a] =>
          destruct (IH a) as (H1 & H2 & H3); [apply assocUpd_NoDup; exact Hacc|]
      end.
      split; [|split; [|exact H3]].
      + intros k. rewrite H1. unfold groupOf at 1. rewrite assocGet_assocUpd.
        fold (keyOf x). rewrite (Z.eqb_sym (keyOf x) k).
        destruct (Z.eqb_spec k (keyOf x)) as [E|E].
        * subst k. unfold groupOf. destruct (assocGet Z.eqb (keyOf x) acc);
            cbn; now rewrite <- ?app_assoc.
        * reflexivity.
      + intros k. rewrite H2, assocUpd_keys_iff. fold (keyOf x). split.
        * intros [[E|H]|(n & Hn & E)]; [right; exists x; split; [now left|now symmetry]
                                       |now left|right; exists n; split; [now right|exact E]].
        * intros [H|(n & [E|Hn] & E')];
            [left; now right|subst n; left; left; now symmetry
            |right; exists n; split; assumption]. }
  destruct (G [] (NoDup_nil _)) as (H1 & H2 & H3). cbn in H1, H2.
  split; [exact H1|]. split; [|exact H3].
  intros k. rewrite H2. split; [intros [[]|H]; exact H|now right].
Qed.

Lemma keys_spec :
  forall notes k,
    In k (sortedKeys (groupNotesByMeasure notes)) <-> exists n, In n notes /\ keyOf n = k.
Proof.
  intros notes k. unfold sortedKeys. rewrite TreeFacts.In_sortBy.
  apply (proj1 (proj2 (groups_spec notes))).
Qed.

Lemma keyOf_noZero :
  forall notes n, noZeroMeasure notes -> In n notes -> keyOf n = n_measureNumber n.
Proof.
  intros notes n H Hn. unfold noZeroMeasure in H. rewrite Forall_forall in H.
  specialize (H n Hn). unfold keyOf, ZorElse. destruct (Z.eqb_spec (n_measureNumber n) 0);
    congruence.
Qed.

Lemma filter_filter_ext :
  forall (A : Type) (p q : A -> bool) l,
    filter p (filter q l) = filter (fun x => q x && p x) l.
Proof.
  intros A p q l. induction l as [|x l IH]; cbn; [reflexivity|].
  destruct (q x); cbn; [destruct (p x); now rewrite IH|exact IH].
Qed.

Lemma filter_ext_in :
  forall (A : Type) (p q : A -> bool) l,
    (forall x, In x l -> p x = q x) -> filter p l = filter q l.
Proof.
  intros A p q l H. induction l as [|x l IH]; cbn; [reflexivity|].
  rewrite (H x (or_introl eq_refl)), IH; [reflexivity|]. intros; apply H; now right.
Qed.

Lemma chunk_groups :
  forall notes lo hi k,
    noZeroMeasure notes -> lo <= k <= hi ->
    groupOf (groupNotesByMeasure (chunkOf notes lo hi)) k
    = groupOf (groupNotesByMeasure notes) k.
Proof.
  intros notes lo hi k H0 Hk.
  rewrite (proj1 (groups_spec _)), (proj1 (groups_spec notes)). unfold chunkOf.
  rewrite filter_filter_ext. apply filter_ext_in. intros n Hn.
  rewrite (@keyOf_noZero notes n H0 Hn).
  destruct (Z.eqb_spec (n_measureNumber n) k) as [E|E]; [|now rewrite andb_false_r].
  rewrite E, andb_true_r. apply andb_true_iff. split; apply Z.leb_le; lia.
Qed.

Lemma chunk_keys :
  forall notes lo hi k,
    noZeroMeasure notes ->
    (In k (sortedKeys (groupNotesByMeasure (chunkOf notes lo hi)))
     <-> In k (sortedKeys (groupNotesByMeasure notes)) /\ lo <= k <= hi).
Proof.
  intros notes lo hi k H0. rewrite !keys_spec. unfold chunkOf. split.
  - intros (n & Hn & E). apply filter_In in Hn. destruct Hn as [Hn Hr].
    apply andb_true_iff in Hr. destruct Hr as [H1 H2]. apply Z.leb_le in H1, H2.
    rewrite (@keyOf_noZero notes n H0 Hn) in E. subst k.
    split; [|lia]. exists n. split; [assumption|]. now apply (@keyOf_noZero notes n H0).
  - intros [(n & Hn & E) Hk]. exists n. split; [|exact E].
    apply filter_In. split; [assumption|].
    rewrite (@keyOf_noZero notes n H0 Hn) in E. subst k.
    apply andb_true_iff. split; apply Z.leb_le; lia.
Qed.


(** *** The motives of a list of notes, measure by measure *)

Lemma pushMotive_contents :
  forall measureNum startBeat current acc,
    Post (fun acc' => map motiveContent (fst acc')
                      = pushContent measureNum startBeat current
                                    (map motiveContent (fst acc)))
         (pushMotive measureNum startBeat current acc).
Proof.
  intros measureNum startBeat current [ms i]. unfold pushMotive, pushContent.
  destruct (2 <=? Zlen current).
  - eapply Post_bind; [apply Post_any|]. intros id _. apply Post_ret.
    cbn [fst]. rewrite map_app. reflexivity.
  - apply Post_ret. reflexivity.
Qed.

Lemma motiveBeatStep_contents :
  forall bpm measureNum groups st beat,
    Post (fun st' => (map motiveContent (fst (fst st')), snd st')
                     = beatContentStep bpm measureNum groups
                         (map motiveContent (fst (fst st)), snd st) beat)
         (motiveBeatStep bpm measureNum groups st beat).
Proof.
  intros bpm measureNum groups [acc [cur sb]] beat. unfold motiveBeatStep, beatContentStep.
  cbn [fst snd]. destruct (_ && _).
  - eapply Post_bind; [apply pushMotive_contents|]. intros acc' H. apply Post_ret.
    cbn [fst snd]. now rewrite H.
  - apply Post_ret. reflexivity.
Qed.

Lemma pushContent_app :
  forall measureNum startBeat current base out,
    pushContent measureNum startBeat current (base ++ out)
    = base ++ pushContent measureNum startBeat current out.
Proof.
  intros. unfold pushContent. destruct (2 <=? _); [now rewrite app_assoc|reflexivity].
Qed.

Lemma beatContent_fold_app :
  forall bpm measureNum groups bs base out cs,
    fold_left (beatContentStep bpm measureNum groups) bs (base ++ out, cs)
    = (base ++ fst (fold_left (beatContentStep bpm measureNum groups) bs (out, cs)),
       snd (fold_left (beatContentStep bpm measureNum groups) bs (out, cs))).
Proof.
  intros bpm measureNum groups bs. induction bs as [|b bs IH]; intros base out cs;
    cbn [fold_left]; [reflexivity|].
  destruct cs as [cur sb]. unfold beatContentStep at 2 4 6. destruct (_ && _).
  - rewrite pushContent_app. apply IH.
  - apply IH.
Qed.

Lemma motiveMeasureStep_contents :
  forall bpm groups acc measureNum,
    Post (fun acc' => map motiveContent (fst acc')
                      = map motiveContent (fst acc)
                        ++ measureMotives bpm measureNum (groupOf groups measureNum))
         (motiveMeasureStep bpm groups acc measureNum).
Proof.
  intros bpm groups acc measureNum. unfold motiveMeasureStep, measureMotives.
  destruct (groupOf groups measureNum) as [|x xs] eqn:E.
  { apply Post_ret. now rewrite app_nil_r. }
  set (beatGroups := groupNotesByBeat (x :: xs) bpm).
  eapply Post_bind.
  - apply Post_foldM_prefix
      with (P := fun (done : list Z) (st : (list Motive * Z) * (list Note * Z)) =>
                   (map motiveContent (fst (fst st)), snd st)
                   = fold_left (beatContentStep bpm measureNum beatGroups) done
                               (map motiveContent (fst acc), ([], 0)))
           (done := []).
    + intros done st b Hd. eapply Post_weaken; [apply motiveBeatStep_contents|].
      intros st' H. rewrite fold_left_app. cbn [fold_left]. rewrite <- Hd. exact H.
    + reflexivity.
  - intros [acc' [cur sb]] Hd. cbn [fst snd app] in Hd.
    eapply Post_weaken; [apply pushMotive_contents|]. intros acc'' H. rewrite H.
    rewrite <- (app_nil_r (map motiveContent (fst acc))) in Hd.
    rewrite beatContent_fold_app in Hd.
    destruct (fold_left (beatContentStep bpm measureNum beatGroups) (Zrange bpm) ([], ([], 0)))
      as [out [cur' sb']].
    cbn [fst snd] in Hd. inversion Hd as [[E1 E2 E3]]. rewrite E1. apply pushContent_app.
Qed.

Lemma setRelationship_content :
  forall prev curr, motiveContent (setRelationship prev curr) = motiveContent curr.
Proof. reflexivity. Qed.

Lemma labelMotiveRelationships_contents :
  forall ms, map motiveContent (labelMotiveRelationships ms) = map motiveContent ms.
Proof.
  assert (G : forall rest prev, map motiveContent (labelAfter prev rest)
                                = map motiveContent rest).
  { induction rest as [|curr rest IH]; intros prev; cbn [labelAfter map]; [reflexivity|].
    now rewrite IH, setRelationship_content. }
  intros [|m ms]; cbn [labelMotiveRelationships map]; [reflexivity|]. now rewrite G.
Qed.

Lemma detectMotives_contents :
  forall notes timeSignature,
    Post (fun ms => map motiveContent ms
                    = if Zlen notes <? 2 then []
                      else flat_map (fun k => measureMotives (beats timeSignature) k
                                                (groupOf (groupNotesByMeasure notes) k))
                                    (sortedKeys (groupNotesByMeasure notes)))
         (detectMotives notes timeSignature).
Proof.
  intros notes timeSignature. unfold detectMotives.
  destruct (Zlen notes <? 2); [apply Post_ret; reflexivity|].
  eapply Post_bind.
  - apply Post_foldM_prefix
      with (P := fun (done : list Z) (acc : list Motive * Z) =>
                   map motiveContent (fst acc)
                   = flat_map (fun k => measureMotives (beats timeSignature) k
                                          (groupOf (groupNotesByMeasure notes) k)) done)
           (done := []).
    + intros done acc k Hd. eapply Post_weaken; [apply motiveMeasureStep_contents|].
      intros acc' H. rewrite H, Hd, flat_map_app. cbn. now rewrite app_nil_r.
    + reflexivity.
  - intros [ms i] H. apply Post_ret. rewrite labelMotiveRelationships_contents. exact H.
Qed.

Lemma pushContent_measure :
  forall measureNum startBeat current out,
    Forall (fun c : MotiveContent => fst (fst (fst (fst (fst c)))) = measureNum) out ->
    Forall (fun c : MotiveContent => fst (fst (fst (fst (fst c)))) = measureNum)
           (pushContent measureNum startBeat current out).
Proof.
  intros measureNum startBeat current out H. unfold pushContent.
  destruct (2 <=? _); [|exact H]. apply Forall_app. split; [exact H|].
  constructor; [reflexivity|constructor].
Qed.

Lemma measureMotives_measure :
  forall bpm measureNum measureNotes c,
    In c (measureMotives bpm measureNum measureNotes) ->
    fst (fst (fst (fst (fst c)))) = measureNum.
Proof.
  intros bpm measureNum measureNotes c. unfold measureMotives.
  destruct measureNotes as [|x xs]; [intros []|].
  set (groups := groupNotesByBeat (x :: xs) bpm).
  assert (G : forall bs st,
             Forall (fun c : MotiveContent => fst (fst (fst (fst (fst c)))) = measureNum)
                    (fst st) ->
             Forall (fun c : MotiveContent => fst (fst (fst (fst (fst c)))) = measureNum)
                    (fst (fold_left (beatContentStep bpm measureNum groups) bs st))).
  { induction bs as [|b bs IH]; intros st H; cbn [fold_left]; [exact H|].
    apply IH. destruct st as [out [cur sb]]. unfold beatContentStep.
    destruct (_ && _); cbn [fst]; [now apply pushContent_measure|exact H]. }
  specialize (G (Zrange bpm) ([], ([], 0)) (Forall_nil _)).
  destruct (fold_left _ _ _) as [out [cur sb]]. cbn [fst] in G.
  intros H. pose proof (@pushContent_measure measureNum sb cur out G) as G'.
  rewrite Forall_forall in G'. now apply G'.
Qed.

(** *** The sub-phrases of a list of notes, measure by measure *)

Lemma subPhraseMeasureStep_contents :
  forall groups motives acc measureNum,
    Post (fun acc' => map subPhraseContent (fst acc')
                      = map subPhraseContent (fst acc)
                        ++ measureSubPhrases measureNum (groupOf groups measureNum))
         (subPhraseMeasureStep groups motives acc measureNum).
Proof.
  intros groups motives [sps i] measureNum. unfold subPhraseMeasureStep, measureSubPhrases.
  assert (N : forall index startBeat endBeat ns,
             Post (fun sp => subPhraseContent sp
                             = (measureNum, measureNum, startBeat, endBeat, ns))
                  (newSubPhrase index measureNum startBeat endBeat ns motives)).
  { intros. unfold newSubPhrase. eapply Post_bind; [apply Post_any|]. intros id _.
    apply Post_ret. reflexivity. }
  destruct (_ && _).
  - eapply Post_bind; [apply N|]. intros sp1 H1.
    eapply Post_bind; [apply N|]. intros sp2 H2.
    apply Post_ret. cbn [fst]. rewrite map_app. cbn [map]. now rewrite H1, H2.
  - eapply Post_bind; [apply N|]. intros sp H1.
    apply Post_ret. cbn [fst]. rewrite map_app. cbn [map]. now rewrite H1.
Qed.

Lemma analyzeSubPhraseMaterials_contents :
  forall sps, map subPhraseContent (analyzeSubPhraseMaterials sps) = map subPhraseContent sps.
Proof.
  intros sps. unfold analyzeSubPhraseMaterials.
  assert (F : forall sp earlier sp',
             findSimilarSp sp earlier = Some sp' -> subPhraseContent sp' = subPhraseContent sp).
  { intros sp earlier. induction earlier as [|p earlier IH]; intros sp' H; cbn in H;
      [discriminate|].
    destruct (Qgtb _ (8#10)); [injection H as <-; reflexivity|].
    destruct (Qgtb _ (5#10)); [injection H as <-; reflexivity|]. now apply IH. }
  assert (G : forall l st,
             map subPhraseContent (fst (fold_left subPhraseMaterialStep l st))
             = map subPhraseContent (fst st) ++ map subPhraseContent l).
  { induction l as [|sp l IH]; intros [done i]; cbn [fold_left map];
      [now rewrite app_nil_r|].
    rewrite IH. unfold subPhraseMaterialStep.
    destruct (findSimilarSp sp done) as [sp'|] eqn:E; cbn [fst];
      rewrite map_app, <- app_assoc; cbn [map app]; [now rewrite (F _ _ _ E)|reflexivity]. }
  rewrite G. reflexivity.
Qed.

Lemma detectSubPhrases_contents :
  forall notes motives,
    Post (fun sps => map subPhraseContent sps
                     = flat_map (fun k => measureSubPhrases k
                                            (groupOf (groupNotesByMeasure notes) k))
                                (sortedKeys (groupNotesByMeasure notes)))
         (detectSubPhrases notes motives).
Proof.
  intros notes motives. unfold detectSubPhrases.
  eapply Post_bind.
  - apply Post_foldM_prefix
      with (P := fun (done : list Z) (acc : list SubPhrase * Z) =>
                   map subPhraseContent (fst acc)
                   = flat_map (fun k => measureSubPhrases k
                                          (groupOf (groupNotesByMeasure notes) k)) done)
           (done := []).
    + intros done acc k Hd. eapply Post_weaken; [apply subPhraseMeasureStep_contents|].
      intros acc' H. rewrite H, Hd, flat_map_app. cbn. now rewrite app_nil_r.
    + reflexivity.
  - intros [sps i] H. apply Post_ret. rewrite analyzeSubPhraseMaterials_contents. exact H.
Qed.

Lemma measureSubPhrases_measure :
  forall measureNum measureNotes c,
    In c (measureSubPhrases measureNum measureNotes) ->
    fst (fst (fst (fst c))) = measureNum.
Proof.
  intros measureNum measureNotes c. unfold measureSubPhrases.
  destruct (_ && _); cbn; intros H; intuition (subst; reflexivity).
Qed.


(** *** The measure numbers are strictly increasing *)

Lemma insertBy_sorted :
  forall x l,
    StronglySorted Z.lt l -> ~ In x l -> StronglySorted Z.lt (insertBy (fun k => k) x l).
Proof.
  intros x l. induction l as [|y l IH]; intros Hs Hn; cbn.
  - constructor; constructor.
  - inversion Hs as [|? ? Hl Hy]; subst.
    destruct (Z.ltb_spec x y).
    + constructor; [exact Hs|]. constructor; [assumption|].
      eapply Forall_impl; [|exact Hy]. intros; lia.
    + constructor.
      * apply IH; [assumption|]. intros Hin; apply Hn; now right.
      * rewrite Forall_forall. intros z Hz. apply TreeFacts.In_insertBy in Hz.
        destruct Hz as [->|Hz].
        -- assert (x <> y) by (intros ->; apply Hn; now left). lia.
        -- rewrite Forall_forall in Hy. now apply Hy.
Qed.

Lemma sortBy_sorted :
  forall l, NoDup l -> StronglySorted Z.lt (sortBy (fun k => k) l).
Proof.
  intros l. unfold sortBy.
  assert (G : forall l acc,
             NoDup l -> (forall x, In x l -> ~ In x acc) -> StronglySorted Z.lt acc ->
             StronglySorted Z.lt (fold_left (fun a x => insertBy (fun k => k) x a) l acc)).
  { clear l. induction l as [|x l IH]; intros acc Hd Hn Hs; cbn; [exact Hs|].
    inversion Hd; subst. apply IH; [assumption| |].
    - intros z Hz Hin. apply TreeFacts.In_insertBy in Hin.
      destruct Hin as [->|Hin]; [contradiction|]. apply (Hn z); [now right|assumption].
    - apply insertBy_sorted; [assumption|]. apply Hn. now left. }
  intros Hd. apply G; [assumption|intros ? ? []|constructor].
Qed.

Lemma sorted_nth :
  forall l, StronglySorted Z.lt l ->
            forall a b, (a < b < List.length l)%nat -> nth a l 0 < nth b l 0.
Proof.
  induction 1 as [|x l Hs IH Hx]; intros a b Hab; cbn in Hab; [lia|].
  destruct b as [|b]; [lia|]. destruct a as [|a]; cbn.
  - rewrite Forall_forall in Hx. apply Hx. apply nth_In. lia.
  - apply IH. lia.
Qed.

Lemma keys_sorted :
  forall notes, StronglySorted Z.lt (sortedKeys (groupNotesByMeasure notes)).
Proof. intros notes. apply sortBy_sorted. apply (proj2 (proj2 (groups_spec notes))). Qed.

Lemma key_lt :
  forall notes a b,
    0 <= a < b -> b < Zlen (sortedKeys (groupNotesByMeasure notes)) ->
    nth (Z.to_nat a) (sortedKeys (groupNotesByMeasure notes)) 0
    < nth (Z.to_nat b) (sortedKeys (groupNotesByMeasure notes)) 0.
Proof.
  intros notes a b Hab Hb. apply sorted_nth; [apply keys_sorted|]. unfold Zlen in Hb. lia.
Qed.

Lemma key_le :
  forall notes a b,
    0 <= a <= b -> b < Zlen (sortedKeys (groupNotesByMeasure notes)) ->
    nth (Z.to_nat a) (sortedKeys (groupNotesByMeasure notes)) 0
    <= nth (Z.to_nat b) (sortedKeys (groupNotesByMeasure notes)) 0.
Proof.
  intros notes a b Hab Hb. destruct (Z.eq_dec a b) as [->|E]; [lia|].
  apply Z.lt_le_incl, key_lt; lia.
Qed.

Lemma key_In :
  forall notes a,
    0 <= a < Zlen (sortedKeys (groupNotesByMeasure notes)) ->
    In (nth (Z.to_nat a) (sortedKeys (groupNotesByMeasure notes)) 0)
       (sortedKeys (groupNotesByMeasure notes)).
Proof. intros notes a Ha. apply nth_In. unfold Zlen in Ha. lia. Qed.

Lemma two_keys :
  forall notes k1 k2,
    In k1 (sortedKeys (groupNotesByMeasure notes)) ->
    In k2 (sortedKeys (groupNotesByMeasure notes)) ->
    k1 <> k2 -> 2 <= Zlen notes.
Proof.
  intros notes k1 k2 H1 H2 Hne.
  apply keys_spec in H1, H2. destruct H1 as (n1 & Hn1 & E1), H2 as (n2 & Hn2 & E2).
  assert (Hd : NoDup [n1; n2]).
  { constructor; [intros [E|[]]; congruence|]. constructor; [intros []|constructor]. }
  assert (Hi : incl [n1; n2] notes) by (intros x [<-|[<-|[]]]; assumption).
  pose proof (NoDup_incl_length Hd Hi) as Hl. cbn in Hl. unfold Zlen. lia.
Qed.

(** *** What a chunk yields *)

Section Chunks.

Variables (R K : Type) (pos : R -> Z) (content : R -> K) (posK : K -> Z).
Variable per : Z -> list Note -> list K.
Variable least : Z.
Variable notes : list Note.
Variable processor : list Note -> M (list R).

Hypothesis least_small : least <= 2.
Hypothesis no_zero : noZeroMeasure notes.
Hypothesis pos_content : forall r, pos r = posK (content r).
Hypothesis per_pos : forall k ns c, In c (per k ns) -> posK c = k.
Hypothesis processor_items :
  forall ns, Post (fun rs => map content rs = itemsOf per least ns) (processor ns).

Abbreviation keys := (sortedKeys (groupNotesByMeasure notes)).
Abbreviation itemsAt k := (per k (groupOf (groupNotesByMeasure notes) k)).

Lemma chunk_items :
  forall lo hi c,
    In c (itemsOf per least (chunkOf notes lo hi)) ->
    exists k, In k keys /\ lo <= k <= hi /\ In c (itemsAt k).
Proof.
  intros lo hi c. unfold itemsOf. destruct (_ <? _); [intros []|].
  rewrite in_flat_map. intros (k & Hk & Hc).
  apply (@chunk_keys notes lo hi k no_zero) in Hk. destruct Hk as [Hk Hr].
  rewrite (@chunk_groups notes lo hi k no_zero Hr) in Hc. eauto.
Qed.

Lemma chunk_items_complete :
  forall lo hi c k,
    least <= Zlen (chunkOf notes lo hi) ->
    In k keys -> lo <= k <= hi -> In c (itemsAt k) ->
    In c (itemsOf per least (chunkOf notes lo hi)).
Proof.
  intros lo hi c k Hl Hk Hr Hc. unfold itemsOf.
  destruct (Z.ltb_spec (Zlen (chunkOf notes lo hi)) least); [lia|].
  rewrite in_flat_map. exists k. split.
  - apply (@chunk_keys notes lo hi k no_zero). now split.
  - now rewrite (@chunk_groups notes lo hi k no_zero Hr).
Qed.

Lemma chunk_two_notes :
  forall lo hi k1 k2,
    In k1 keys -> In k2 keys -> lo <= k1 <= hi -> lo <= k2 <= hi -> k1 <> k2 ->
    least <= Zlen (chunkOf notes lo hi).
Proof.
  intros lo hi k1 k2 H1 H2 R1 R2 Hne.
  assert (2 <= Zlen (chunkOf notes lo hi)); [|lia].
  apply two_keys with (k1 := k1) (k2 := k2); [| |assumption];
    apply (@chunk_keys notes lo hi _ no_zero); now split.
Qed.

Lemma overlap_test :
  forall lo p,
    lo + 2 <= p ->
    Qgeb (inject_Z p) (inject_Z lo + inject_Z overlapMeasures / 2) = true.
Proof.
  intros lo p H. unfold Qgeb, Qleb. apply Qle_bool_iff.
  assert (E : (inject_Z overlapMeasures / 2 == inject_Z 2)%Q) by reflexivity.
  rewrite E, <- inject_Z_plus, <- Zle_Qle. exact H.
Qed.

Lemma chunkStep_items :
  forall results i,
    Post (fun rs' =>
            (forall c, In c (map content results) -> In c (map content rs'))
            /\ (forall c, In c (map content rs') ->
                          In c (map content results)
                          \/ In c (itemsOf per least (chunkAt notes i)))
            /\ (forall c, In c (itemsOf per least (chunkAt notes i)) ->
                          results = [] \/ nth (Z.to_nat i) keys 0 + 2 <= posK c ->
                          In c (map content rs')))
         (chunkStep pos notes keys maxMeasuresPerChunk processor results i).
Proof.
  intros results i. unfold chunkStep.
  eapply Post_bind; [apply (processor_items (chunkAt notes i))|]. intros rs Hrs.
  destruct results as [|r0 results]; apply Post_ret.
  - rewrite Hrs. split; [intros c []|]. split; [intros c H; now right|]. intros c H _. exact H.
  - split; [|split].
    + intros c H. rewrite map_app. apply in_or_app. now left.
    + intros c H. rewrite map_app in H. apply in_app_or in H. destruct H as [H|H]; [now left|].
      right. rewrite <- Hrs. apply in_map_iff in H. destruct H as (r & E & Hr).
      apply filter_In in Hr. apply in_map_iff. exists r. split; [exact E|exact (proj1 Hr)].
    + intros c H [E|Hp]; [discriminate|]. rewrite <- Hrs in H.
      apply in_map_iff in H. destruct H as (r & E & Hr).
      rewrite map_app. apply in_or_app. right. apply in_map_iff. exists r.
      split; [exact E|]. apply filter_In. split; [exact Hr|].
      apply overlap_test. rewrite pos_content, E. exact Hp.
Qed.

Lemma chunks_items :
  forall starts results,
    Post (fun rs' =>
            (forall c, In c (map content results) -> In c (map content rs'))
            /\ (forall c, In c (map content rs') ->
                          In c (map content results)
                          \/ exists i, In i starts
                                       /\ In c (itemsOf per least (chunkAt notes i)))
            /\ (forall i c, In i starts ->
                            In c (itemsOf per least (chunkAt notes i)) ->
                            nth (Z.to_nat i) keys 0 + 2 <= posK c ->
                            In c (map content rs')))
         (foldM (chunkStep pos notes keys maxMeasuresPerChunk processor) starts results).
Proof.
  induction starts as [|i starts IH]; intros results; cbn [foldM].
  - apply Post_ret. split; [auto|]. split; [auto|]. intros i c [].
  - eapply Post_bind; [apply chunkStep_items|]. intros rs (H1 & H2 & H3).
    eapply Post_weaken; [apply IH|]. intros rs' (G1 & G2 & G3). split; [|split].
    + auto.
    + intros c H. destruct (G2 c H) as [H'|(j & Hj & H')].
      * destruct (H2 c H') as [H''|H'']; [now left|].
        right. exists i. split; [now left|exact H''].
      * right. exists j. split; [now right|exact H'].
    + intros j c [<-|Hj] Hc Hp; [apply G1, H3; [exact Hc|now right]|].
      now apply (G3 j c).
Qed.

Lemma processInChunks_items :
  Post (fun rs => forall c, In c (map content rs) <-> In c (itemsOf per least notes))
       (processInChunks pos notes processor).
Proof.
  unfold processInChunks.
  destruct (Z.leb_spec (Zlen keys) maxMeasuresPerChunk) as [Hs|Hl].
  { eapply Post_weaken; [apply processor_items|]. intros rs ->. reflexivity. }
  unfold maxMeasuresPerChunk in Hl.
  assert (Hfull : forall c, In c (itemsOf per least notes)
                            <-> exists k, In k keys /\ In c (itemsAt k)).
  { intros c. unfold itemsOf.
    assert (2 <= Zlen notes).
    { apply two_keys with (k1 := nth (Z.to_nat 0) keys 0) (k2 := nth (Z.to_nat 1) keys 0);
        [apply key_In; lia|apply key_In; lia|].
      pose proof (@key_lt notes 0 1). lia. }
    destruct (Z.ltb_spec (Zlen notes) least); [lia|]. apply in_flat_map. }
  unfold chunkStarts. unfold maxMeasuresPerChunk, overlapMeasures.
  change (32 - 4) with 28.
  set (L := Zlen keys) in *.
  pose proof (Z.div_mod (L + 28 - 1) 28 ltac:(lia)) as Hq.
  pose proof (Z.mod_pos_bound (L + 28 - 1) 28 ltac:(lia)) as Hq'.
  destruct (Z.to_nat ((L + 28 - 1) / 28)) as [|n] eqn:En; [lia|].
  cbn [seq map foldM]. change (Z.of_nat 0 * 28) with 0.
  eapply Post_bind; [apply chunkStep_items|]. intros rs0 (_ & H2 & H3).
  eapply Post_weaken; [apply chunks_items|]. intros rs (G1 & G2 & G3).
  assert (Hsound : forall i c, In c (itemsOf per least (chunkAt notes i)) ->
                               In c (itemsOf per least notes)).
  { intros i c H. apply chunk_items in H. destruct H as (k & Hk & _ & Hc).
    apply Hfull. eauto. }
  assert (KT : forall a b, 0 <= a < b -> b < L ->
                           nth (Z.to_nat a) keys 0 < nth (Z.to_nat b) keys 0)
    by (intros; now apply key_lt).
  assert (KL : forall a b, 0 <= a <= b -> b < L ->
                           nth (Z.to_nat a) keys 0 <= nth (Z.to_nat b) keys 0)
    by (intros; now apply key_le).
  assert (KI : forall a, 0 <= a < L -> In (nth (Z.to_nat a) keys 0) keys)
    by (intros; now apply key_In).
  intros c. split.
  - intros H. destruct (G2 c H) as [H'|(i & _ & H')]; [|now apply (Hsound i)].
    destruct (H2 c H') as [[]|H'']. now apply (Hsound 0).
  - intros H. apply Hfull in H. destruct H as (k & Hk & Hc).
    destruct (In_nth _ _ 0 Hk) as (j & Hj & Ej).
    assert (HjL : Z.of_nat j < L) by (subst L; unfold Zlen; lia).
    rewrite <- (Nat2Z.id j) in Ej.
    destruct (Z.lt_ge_cases (Z.of_nat j) 32) as [Hlow|Hhigh].
    + apply G1, H3; [|now left]. unfold chunkAt, maxMeasuresPerChunk. fold L.
      replace (Z.min (0 + 32) L - 1) with 31 by lia.
      pose proof (KT 0 1 ltac:(lia) ltac:(lia)).
      pose proof (KL 1 31 ltac:(lia) ltac:(lia)).
      pose proof (KL 0 (Z.of_nat j) ltac:(lia) ltac:(lia)).
      pose proof (KL (Z.of_nat j) 31 ltac:(lia) ltac:(lia)).
      apply chunk_items_complete with (k := k); [|exact Hk|lia|exact Hc].
      apply chunk_two_notes
        with (k1 := nth (Z.to_nat 0) keys 0) (k2 := nth (Z.to_nat 1) keys 0);
        [apply KI; lia|apply KI; lia|lia|lia|lia].
    + set (a := (Z.of_nat j - 2) / 28).
      pose proof (Z.div_mod (Z.of_nat j - 2) 28 ltac:(lia)) as Ha.
      pose proof (Z.mod_pos_bound (Z.of_nat j - 2) 28 ltac:(lia)) as Ha'.
      fold a in Ha.
      assert (Hi : In (a * 28) (map (fun k0 : nat => Z.of_nat k0 * 28) (seq 1 n))).
      { apply in_map_iff. exists (Z.to_nat a). split; [lia|]. apply in_seq. lia. }
      pose proof (KT (a * 28) (a * 28 + 1) ltac:(lia) ltac:(lia)).
      pose proof (KT (a * 28 + 1) (Z.of_nat j) ltac:(lia) ltac:(lia)).
      pose proof (KL (Z.of_nat j) (Z.min (a * 28 + 32) L - 1) ltac:(lia) ltac:(lia)).
      apply (G3 (a * 28) c Hi); [|rewrite (per_pos _ _ _ Hc); lia].
      unfold chunkAt, maxMeasuresPerChunk. fold L.
      apply chunk_items_complete with (k := k); [|exact Hk|lia|exact Hc].
      apply chunk_two_notes with (k1 := nth (Z.to_nat (a * 28)) keys 0) (k2 := k);
        [apply KI; lia|exact Hk|lia|lia|lia].
Qed.

End Chunks.


(** *** The two analyses *)

Lemma itemsOf_0 :
  forall (K : Type) (per : Z -> list Note -> list K) ns,
    itemsOf per 0 ns
    = flat_map (fun k => per k (groupOf (groupNotesByMeasure ns) k))
               (sortedKeys (groupNotesByMeasure ns)).
Proof.
  intros K per ns. unfold itemsOf.
  destruct (Z.ltb_spec (Zlen ns) 0) as [H|H]; [unfold Zlen in H; lia|reflexivity].
Qed.

Lemma analysisTail_lists :
  forall notes options ma info ms sps,
    Post (fun r => motives r = ms /\ subPhrases r = sps)
         (analysisTail notes options ma info ms sps).
Proof.
  intros notes options ma info ms sps. unfold analysisTail.
  do 11 (eapply Post_bind; [apply Post_any|]; intros ? _).
  apply Post_ret. split; reflexivity.
Qed.

Lemma detectMotives_items :
  forall notes timeSignature,
    Post (fun ms => map motiveContent ms
                    = itemsOf (measureMotives (beats timeSignature)) 2 notes)
         (detectMotives notes timeSignature).
Proof. intros. apply detectMotives_contents. Qed.

Lemma detectSubPhrases_items :
  forall notes motives,
    Post (fun sps => map subPhraseContent sps = itemsOf measureSubPhrases 0 notes)
         (detectSubPhrases notes motives).
Proof.
  intros notes motives. eapply Post_weaken; [apply detectSubPhrases_contents|].
  intros sps H. now rewrite itemsOf_0.
Qed.

Lemma analyzeComplete_items :
  forall notes options,
    Post (fun r => map motiveContent (motives r)
                   = itemsOf (measureMotives (beats (timeSignature options))) 2 notes
                   /\ map subPhraseContent (subPhrases r)
                      = itemsOf measureSubPhrases 0 notes)
         (analyzeComplete notes options).
Proof.
  intros notes options. rewrite AgreementFacts.analyzeComplete_unfold.
  eapply Post_bind; [apply detectMotives_items|]. intros ms Hms.
  eapply Post_bind; [apply detectSubPhrases_items|]. intros sps Hsps.
  eapply Post_weaken; [apply analysisTail_lists|]. intros r [-> ->]. now split.
Qed.

Lemma analyzeCompleteChunked_items :
  forall notes options,
    noZeroMeasure notes ->
    Post (fun r =>
            (forall c, In c (map motiveContent (motives r))
                       <-> In c (itemsOf (measureMotives (beats (timeSignature options)))
                                         2 notes))
            /\ (forall c, In c (map subPhraseContent (subPhrases r))
                          <-> In c (itemsOf measureSubPhrases 0 notes)))
         (analyzeCompleteChunked notes options).
Proof.
  intros notes options H0. rewrite AgreementFacts.analyzeCompleteChunked_unfold.
  destruct (_ && _).
  { eapply Post_weaken; [apply analyzeComplete_items|]. intros r [-> ->].
    split; reflexivity. }
  eapply Post_bind.
  { apply (@processInChunks_items Motive MotiveContent
             (fun m => ZorElse (mo_measureNumber m) 0) motiveContent
             (fun c => fst (fst (fst (fst (fst c)))))
             (measureMotives (beats (timeSignature options))) 2 notes
             (fun chunkNotes => detectMotives chunkNotes (timeSignature options))).
    - lia.
    - exact H0.
    - intros m. apply TreeFacts.ZorElse_0.
    - intros k ns c. apply measureMotives_measure.
    - intros ns. apply detectMotives_items. }
  intros ms Hms. eapply Post_bind.
  { apply (@processInChunks_items SubPhrase SubPhraseContent
             (fun sp => ZorElse (sp_startMeasure sp) 0) subPhraseContent
             (fun c => fst (fst (fst (fst c))))
             measureSubPhrases 0 notes
             (fun chunkNotes =>
                detectSubPhrases chunkNotes
                  (filter (fun m =>
                             existsb (fun n => n_measureNumber n =? mo_measureNumber m)
                                     chunkNotes) ms))).
    - lia.
    - exact H0.
    - intros sp. apply TreeFacts.ZorElse_0.
    - intros k ns c. apply measureSubPhrases_measure.
    - intros ns. apply detectSubPhrases_items. }
  intros sps Hsps.
  eapply Post_weaken; [apply analysisTail_lists|]. intros r [-> ->]. now split.
Qed.

Lemma longNotes_noZero : noZeroMeasure longNotes.
Proof.
  unfold noZeroMeasure. apply Forall_forall. intros n Hn.
  assert (F : forallb (fun n => negb (n_measureNumber n =? 0)) longNotes = true)
    by (vm_compute; reflexivity).
  rewrite forallb_forall in F. specialize (F n Hn).
  destruct (Z.eqb_spec (n_measureNumber n) 0); [discriminate|assumption].
Defined.

(** C1 (amended). On a note stream none of whose notes carries the
    measure number 0, [analyzeComplete] and [analyzeCompleteChunked] agree,
    up to identifiers, on the cadences, phrases, periods, compound periods
    and form (the sub-phrase lists the phrases carry apart), and their
    motive lists, and their sub-phrase lists, hold the same items: every
    motive of one has a motive of the other with the same measure, start
    beat, notes, interval pattern, rhythm pattern and contour, and every
    sub-phrase of one has a sub-phrase of the other with the same measures,
    beats and notes. *)
Theorem chunked_agreement :
  forall (notes : list Note) (options : Options) (rnd1 rnd2 : Rand),
    noZeroMeasure notes ->
    let complete := run (analyzeComplete notes options) rnd1 in
    let chunked := run (analyzeCompleteChunked notes options) rnd2 in
    Rglobal anyId anySubPhrases complete chunked
    /\ sameItems motiveContent (motives complete) (motives chunked)
    /\ sameItems subPhraseContent (subPhrases complete) (subPhrases chunked).
Proof.
  intros notes options rnd1 rnd2 H0 complete chunked.
  split; [apply AgreementFacts.chunked_global|].
  destruct (analyzeComplete_items notes options rnd1 0%nat) as [C1 C2].
  destruct (@analyzeCompleteChunked_items notes options H0 rnd2 0%nat) as [K1 K2].
  fold (run (analyzeComplete notes options) rnd1) in C1, C2.
  fold (run (analyzeCompleteChunked notes options) rnd2) in K1, K2.
  fold complete in C1, C2. fold chunked in K1, K2.
  split; intros c.
  - rewrite C1. symmetry. apply K1.
  - rewrite C2. symmetry. apply K2.
Qed.

Lemma chunked_agreement_witness :
  noZeroMeasure longNotes
  /\ Rglobal anyId anySubPhrases
       (run (analyzeComplete longNotes defaultOptions) constId)
       (run (analyzeCompleteChunked longNotes defaultOptions) constId)
  /\ sameItems motiveContent
       (motives (run (analyzeComplete longNotes defaultOptions) constId))
       (motives (run (analyzeCompleteChunked longNotes defaultOptions) constId))
  /\ sameItems subPhraseContent
       (subPhrases (run (analyzeComplete longNotes defaultOptions) constId))
       (subPhrases (run (analyzeCompleteChunked longNotes defaultOptions) constId)).
Proof.
  split; [exact longNotes_noZero|].
  exact (@chunked_agreement longNotes defaultOptions constId constId longNotes_noZero).
Defined.

(** What the chunks change in the lists: the items of the measures two
    chunks share come twice (68 motives and sub-phrases for 64 measures),
    and the phrase spanning them carries them all. *)
Example chunked_overlap_twice :
  Zlen (motives (run (analyzeComplete longNotes defaultOptions) constId)) = 64
  /\ Zlen (motives (run (analyzeCompleteChunked longNotes defaultOptions) constId)) = 68
  /\ map (fun p => Zlen (ph_subPhrases p))
         (phrases (run (analyzeComplete longNotes defaultOptions) constId)) = [64]
  /\ map (fun p => Zlen (ph_subPhrases p))
         (phrases (run (analyzeCompleteChunked longNotes defaultOptions) constId)) = [68].
Proof. repeat split; vm_compute; reflexivity. Qed.

(** Why the measure number 0 is left out: the grouping files such a note
    under measure 1, the chunks select notes by their own number and drop
    it. *)
Example chunked_zero_measure :
  ~ sameItems subPhraseContent
      (subPhrases (run (analyzeComplete zeroMeasureNotes defaultOptions) constId))
      (subPhrases (run (analyzeCompleteChunked zeroMeasureNotes defaultOptions) constId)).
Proof.
  intros H.
  assert (F : forallb (fun x => negb (Zlen (sp_notes x) =? 3))
                      (subPhrases (run (analyzeCompleteChunked zeroMeasureNotes
                                                               defaultOptions) constId))
              = true) by (vm_compute; reflexivity).
  rewrite forallb_forall in F.
  assert (G : existsb (fun x => Zlen (sp_notes x) =? 3)
                      (subPhrases (run (analyzeComplete zeroMeasureNotes
                                                        defaultOptions) constId))
              = true) by (vm_compute; reflexivity).
  revert H F G.
  generalize (subPhrases (run (analyzeComplete zeroMeasureNotes defaultOptions) constId)).
  generalize (subPhrases (run (analyzeCompleteChunked zeroMeasureNotes defaultOptions)
                              constId)).
  intros chunked complete H F G.
  apply existsb_exists in G. destruct G as (sp & Hin & Hl). apply Z.eqb_eq in Hl.
  pose proof (proj1 (H (subPhraseContent sp)) (in_map subPhraseContent _ _ Hin)) as Hin'.
  apply in_map_iff in Hin'. destruct Hin' as (sp' & E' & Hin').
  specialize (F sp' Hin').
  assert (E3 : sp_notes sp' = sp_notes sp) by (unfold subPhraseContent in E'; congruence).
  rewrite E3, Hl in F. discriminate.
Qed.

End ChunkFacts.

(* ================================================================== *)
(** * The helpers and detectors of the engine *)

From Stdlib Require Import Permutation.
From Stdlib Require Decimal DecimalPos DecimalZ.

Module HelperFacts.

Import EngineSpec.

Lemma countMatches_bounds :
  forall close a b,
    0 <= countMatches close a b <= Z.min (Zlen a) (Zlen b).
Proof.
  intros close a. induction a as [|x a IH]; intros [|y b]; cbn [countMatches];
    try (unfold Zlen; cbn; lia).
  specialize (IH b). unfold Zlen in *. cbn [List.length]. destruct (close x y); lia.
Qed.

Lemma countMatches_sym :
  forall close a b,
    (forall x y, close x y = close y x) ->
    countMatches close a b = countMatches close b a.
Proof.
  intros close a. induction a as [|x a IH]; intros [|y b] H; cbn [countMatches];
    try reflexivity.
  now rewrite (H x y), (IH b H).
Qed.

Lemma countMatches_refl :
  forall close a, (forall x, close x x = true) -> countMatches close a a = Zlen a.
Proof.
  intros close a H. induction a as [|x a IH]; cbn [countMatches]; [reflexivity|].
  rewrite H, IH. unfold Zlen. cbn [List.length]. lia.
Qed.

Lemma ratio_bounds :
  forall k n : Z, 0 <= k <= n -> 0 < n -> (0 <= inject_Z k / inject_Z n <= 1)%Q.
Proof.
  intros k n Hk Hn.
  assert (Hn' : (0 < inject_Z n)%Q) by (rewrite <- (Zlt_Qlt 0); exact Hn).
  split.
  - apply Qle_shift_div_l; [exact Hn'|]. rewrite Qmult_0_l, <- (Zle_Qle 0). lia.
  - apply Qle_shift_div_r; [exact Hn'|]. rewrite Qmult_1_l, <- Zle_Qle. lia.
Qed.

Lemma close_sym :
  forall x y : Q, Qleb (Qabs (x - y)) 1 = Qleb (Qabs (y - x)) 1.
Proof.
  intros x y. unfold Qleb.
  assert (E : (Qabs (x - y) == Qabs (y - x))%Q).
  { rewrite <- (Qabs_opp (x - y)). apply Qabs_wd. ring. }
  destruct (Qle_bool (Qabs (x - y)) 1) eqn:E1, (Qle_bool (Qabs (y - x)) 1) eqn:E2;
    try reflexivity.
  - apply Qle_bool_iff in E1. rewrite E in E1. apply Qle_bool_iff in E1. congruence.
  - apply Qle_bool_iff in E2. rewrite <- E in E2. apply Qle_bool_iff in E2. congruence.
Qed.

Lemma close_refl : forall x : Q, Qleb (Qabs (x - x)) 1 = true.
Proof.
  intros x. unfold Qleb. apply Qle_bool_iff.
  assert (E : (x - x == 0)%Q) by ring. rewrite E. cbn. discriminate.
Qed.

(** [compareArrays] gives a score between 0 and 1. *)
Lemma compareArrays_range :
  forall arr1 arr2 : list Q, (0 <= compareArrays arr1 arr2 <= 1)%Q.
Proof.
  intros arr1 arr2. unfold compareArrays.
  destruct arr1 as [|x a]; [split; discriminate|].
  destruct arr2 as [|y b]; [split; discriminate|].
  set (l1 := x :: a). set (l2 := y :: b).
  assert (H1 : 0 < Zlen l1) by (unfold Zlen; cbn; lia).
  assert (H2 : 0 < Zlen l2) by (unfold Zlen; cbn; lia).
  pose proof (countMatches_bounds (fun x y => Qleb (Qabs (x - y)) 1) l1 l2) as Hc.
  set (k := countMatches _ l1 l2) in *.
  set (n := Z.min (Zlen l1) (Zlen l2)) in *.
  set (m := Z.max (Zlen l1) (Zlen l2)).
  assert (Hn : 0 < n) by (subst n; lia).
  assert (Hm : n <= m) by (subst n m; lia).
  pose proof (@ratio_bounds k n Hc Hn) as [A1 A2].
  pose proof (@ratio_bounds (m - n) m ltac:(lia) ltac:(lia)) as [B1 B2].
  set (r := (inject_Z k / inject_Z n)%Q) in *.
  set (p := (inject_Z (m - n) / inject_Z m)%Q) in *.
  split; nra.
Qed.

(** [compareArrays] does not depend on the order of its arguments. *)
Lemma compareArrays_sym :
  forall arr1 arr2 : list Q, compareArrays arr1 arr2 = compareArrays arr2 arr1.
Proof.
  intros arr1 arr2. unfold compareArrays.
  destruct arr1 as [|x a], arr2 as [|y b]; try reflexivity.
  rewrite (countMatches_sym _ (x :: a) (y :: b) close_sym).
  now rewrite (Z.min_comm (Zlen (x :: a))), (Z.max_comm (Zlen (x :: a))).
Qed.

(** A non-empty array is fully similar to itself. *)
Lemma compareArrays_self :
  forall arr : list Q, arr <> [] -> (compareArrays arr arr == 1)%Q.
Proof.
  intros arr H. unfold compareArrays. destruct arr as [|x a]; [congruence|].
  rewrite (countMatches_refl _ (x :: a) close_refl), Z.min_id, Z.max_id, Z.sub_diag.
  assert (Hn : ~ (inject_Z (Zlen (x :: a)) == 0)%Q).
  { unfold Zlen. cbn [List.length]. intros E.
    unfold Qeq in E. cbn [inject_Z Qnum Qden] in E. lia. }
  field. exact Hn.
Qed.

(** *** Interval patterns *)










(** *** Melodic similarity *)

Lemma QZ_nil : forall l, QZ l = [] <-> l = [].
Proof. intros [|x l]; cbn; split; congruence. Qed.




(** *** The measures as a whole *)

(** [compareArrays] is a similarity measure: its score lies between 0
    and 1, is 0 when an array is empty, does not depend on the order of
    the two arrays, and is 1 for an array that is not empty against
    itself. *)
Theorem compareArrays_measure :
  forall arr1 arr2 : list Q,
    (0 <= compareArrays arr1 arr2 <= 1)%Q
    /\ compareArrays arr1 arr2 = compareArrays arr2 arr1
    /\ compareArrays [] arr2 = 0%Q
    /\ (arr1 <> [] -> (compareArrays arr1 arr1 == 1)%Q).
Proof.
  intros arr1 arr2. split; [apply compareArrays_range|].
  split; [apply compareArrays_sym|]. split; [reflexivity|]. apply compareArrays_self.
Qed.

Lemma compareArrays_measure_witness :
  (0 <= compareArrays [1%Q; 3 # 2] [2%Q] <= 1)%Q
  /\ compareArrays [1%Q; 3 # 2] [2%Q] = compareArrays [2%Q] [1%Q; 3 # 2]
  /\ compareArrays [] [2%Q] = 0%Q
  /\ (compareArrays [1%Q; 3 # 2] [1%Q; 3 # 2] == 1)%Q.
Proof.
  destruct (compareArrays_measure [1%Q; 3 # 2] [2%Q]) as (H1 & H2 & H3 & H4).
  split; [exact H1|]. split; [exact H2|]. split; [exact H3|]. apply H4. discriminate.
Defined.



End HelperFacts.

Module PitchFacts.

Import EngineSpec.

(** *** Reading back a printed octave *)









(** *** Pitches that cannot be read *)




(** *** Tonic and scale degrees *)

Lemma assocGet_In :
  forall (V : Type) (k : string) (v : V) m,
    assocGet String.eqb k m = Some v -> In (k, v) m.
Proof.
  intros V k v m. induction m as [|[k' v'] m IH]; cbn [assocGet]; [discriminate|].
  destruct (String.eqb_spec k k') as [->|_].
  - intros [= ->]. now left.
  - intros H. right. now apply IH.
Qed.

Lemma pitchClass_range :
  forall name pc, pitchClass name = Some pc -> 0 <= pc <= 11.
Proof.
  intros name pc H. apply assocGet_In in H. unfold pitchClasses in H. cbn [In] in H.
  repeat match type of H with
         | _ \/ _ => destruct H as [H|H]
         end; try contradiction; injection H as _ <-; lia.
Qed.

(** The tonic follows the circle of fifths: it is a note name of the
    table whose pitch class is seven semitones times the number of
    sharps (flats counting negative, at most seven either way), nine
    semitones higher, the relative minor, when the mode is minor. *)
Theorem getTonicFromKey_circle :
  forall keySignature : KeySignature,
    pitchClass (getTonicFromKey keySignature)
    = Some ((7 * clampFifths (fifths keySignature)
             + (if String.eqb (mode keySignature) "minor" then 9 else 0)) mod 12).
Proof.
  intros [f m]. unfold getTonicFromKey, clampFifths. cbn [fifths mode].
  assert (Hm : String.eqb (if String.eqb m "" then "major" else m) "minor"
               = String.eqb m "minor").
  { destruct (String.eqb_spec m "") as [->|_]; reflexivity. }
  rewrite Hm. clear Hm.
  destruct (Z.leb_spec 0 f) as [Hf|Hf].
  - assert (E : Z.min f 7 = 0 \/ Z.min f 7 = 1 \/ Z.min f 7 = 2 \/ Z.min f 7 = 3
                \/ Z.min f 7 = 4 \/ Z.min f 7 = 5 \/ Z.min f 7 = 6 \/ Z.min f 7 = 7)
      by lia.
    replace (Z.max (-7) (Z.min 7 f)) with (Z.min f 7) by lia.
    destruct (String.eqb m "minor");
      repeat match type of E with
             | _ \/ _ => destruct E as [E|E]
             end; rewrite E; reflexivity.
  - assert (E : Z.min (- f) 7 = 1 \/ Z.min (- f) 7 = 2 \/ Z.min (- f) 7 = 3
                \/ Z.min (- f) 7 = 4 \/ Z.min (- f) 7 = 5 \/ Z.min (- f) 7 = 6
                \/ Z.min (- f) 7 = 7) by lia.
    replace (Z.max (-7) (Z.min 7 f)) with (- Z.min (- f) 7) by lia.
    destruct (String.eqb m "minor");
      repeat match type of E with
             | _ \/ _ => destruct E as [E|E]
             end; rewrite E; reflexivity.
Qed.

(** A scale degree is a number from 0 to 6, or -1 for a pitch that is
    missing, is not a note name of the table, or lies outside the major
    scale on the tonic; the mode plays no part. *)
Theorem getScaleDegree_range :
  forall (pitch : option string) (tonic mode mode' : string),
    -1 <= getScaleDegree pitch tonic mode <= 6
    /\ getScaleDegree pitch tonic mode = getScaleDegree pitch tonic mode'.
Proof.
  intros pitch tonic mode mode'. split; [|reflexivity].
  unfold getScaleDegree. destruct pitch as [[|c s]|]; try lia.
  destruct (pitchClass (removeDigits (String c s))) as [p|] eqn:Ep; [|lia].
  apply pitchClass_range in Ep.
  assert (Ht : 0 <= match pitchClass tonic with Some p0 => ZorElse p0 0 | None => 0 end <= 11).
  { destruct (pitchClass tonic) as [t|] eqn:Et; [|lia].
    apply pitchClass_range in Et. rewrite TreeFacts.ZorElse_0. exact Et. }
  set (t := match pitchClass tonic with Some p0 => ZorElse p0 0 | None => 0 end) in *.
  assert (Hi : 0 <= Z.rem (p - t + 12) 12 < 12) by (apply Z.rem_bound_pos; lia).
  set (i := Z.rem (p - t + 12) 12) in *.
  assert (E : i = 0 \/ i = 1 \/ i = 2 \/ i = 3 \/ i = 4 \/ i = 5 \/ i = 6 \/ i = 7
              \/ i = 8 \/ i = 9 \/ i = 10 \/ i = 11) by lia.
  repeat match type of E with
         | _ \/ _ => destruct E as [E|E]
         end; rewrite E; cbn; lia.
Qed.




End PitchFacts.

Module GroupFacts.

Import EngineSpec.

Import ChunkSpec.

(** [groupNotesByMeasure] sorts the notes into one group a measure: the
    measures of the groups are distinct, each group holds the notes of its
    measure (a note numbered 0 counting for measure 1) in the order of the
    input, and no group is empty. *)
Theorem groupNotesByMeasure_partition :
  forall notes : list Note,
    let groups := groupNotesByMeasure notes in
    NoDup (map fst groups)
    /\ (forall k, groupOf groups k = filter (fun n => keyOf n =? k) notes)
    /\ (forall k, In k (map fst groups) <-> groupOf groups k <> []).
Proof.
  intros notes groups.
  destruct (ChunkFacts.groups_spec notes) as (H1 & H2 & H3). fold groups in H1, H2, H3.
  split; [exact H3|]. split; [exact H1|].
  intros k. rewrite H2, H1. split.
  - intros (n & Hn & E) F.
    assert (Hin : In n (filter (fun n => keyOf n =? k) notes))
      by (apply filter_In; split; [exact Hn|now apply Z.eqb_eq]).
    rewrite F in Hin. exact Hin.
  - intros F. destruct (filter (fun n => keyOf n =? k) notes) as [|n l] eqn:E; [congruence|].
    assert (Hin : In n (filter (fun n => keyOf n =? k) notes)) by (rewrite E; now left).
    apply filter_In in Hin. destruct Hin as [Hn Hk]. exists n. split; [exact Hn|].
    now apply Z.eqb_eq.
Qed.

(** *** Grouping by beat *)

Lemma assocGet_keys :
  forall (V : Type) (k : Z) (m : list (Z * V)),
    In k (map fst m) <-> assocGet Z.eqb k m <> None.
Proof.
  intros V k m. induction m as [|[a v] m IH]; cbn [map In assocGet fst].
  - split; [intros []|congruence].
  - destruct (Z.eqb_spec k a) as [->|E].
    + split; [discriminate|now left].
    + rewrite <- IH. split; [intros [?|?]; [congruence|assumption]|now right].
Qed.

Lemma assocUpd_fst :
  forall (V : Type) (k : Z) (f : option V -> V) (m : list (Z * V)),
    In k (map fst m) -> map fst (assocUpd Z.eqb k f m) = map fst m.
Proof.
  intros V k f m. induction m as [|[a v] m IH]; cbn [map In assocUpd fst]; [intros []|].
  destruct (Z.eqb_spec k a) as [->|E]; [reflexivity|].
  intros [?|H]; [congruence|]. cbn [map fst]. now rewrite IH.
Qed.

Lemma Zrange_In : forall n k, In k (Zrange n) <-> 0 <= k < n.
Proof.
  intros n k. unfold Zrange. rewrite in_map_iff. split.
  - intros (i & <- & Hi). apply in_seq in Hi. lia.
  - intros H. exists (Z.to_nat k). split; [lia|]. apply in_seq. lia.
Qed.

Lemma assocGet_blank :
  forall (l : list Z) k,
    assocGet Z.eqb k (map (fun i => (i, @nil Note)) l) = if existsb (Z.eqb k) l then Some [] else None.
Proof.
  intros l k. induction l as [|a l IH]; cbn [map assocGet existsb]; [reflexivity|].
  destruct (Z.eqb k a); [reflexivity|exact IH].
Qed.

(** [groupNotesByBeat] keeps one group for each beat 0, 1, ... of the
    measure, in this order; the group of a beat holds the notes that fall
    on it, in the order of the input, and a note that falls on no beat of
    the measure (a negative beat) is in no group. *)
Lemma groupNotesByBeat_content :
  forall (notes : list Note) (beatsPerMeasure : Z),
    let groups := groupNotesByBeat notes beatsPerMeasure in
    map fst groups = Zrange beatsPerMeasure
    /\ forall beat,
         groupOf groups beat
         = if (0 <=? beat) && (beat <? beatsPerMeasure)
           then filter (fun n => beatOf beatsPerMeasure n =? beat) notes
           else [].
Proof.
  intros notes bpm. unfold groupNotesByBeat.
  set (step := fun (groups : list (Z * list Note)) (note : Note) =>
                 let beat := floor (jsRem (n_beat note) bpm) in
                 match assocGet Z.eqb beat groups with
                 | Some _ => assocUpd Z.eqb beat
                               (fun g => match g with
                                         | Some ns => ns ++ [note]
                                         | None => [note]
                                         end) groups
                 | None => groups
                 end).
  assert (G : forall notes acc,
             map fst (fold_left step notes acc) = map fst acc
             /\ forall beat,
                  groupOf (fold_left step notes acc) beat
                  = if existsb (Z.eqb beat) (map fst acc)
                    then groupOf acc beat ++ filter (fun n => beatOf bpm n =? beat) notes
                    else []).
  { clear notes. induction notes as [|x notes IH]; intros acc; cbn [fold_left filter].
    - split; [reflexivity|]. intros beat. rewrite app_nil_r.
      destruct (existsb (Z.eqb beat) (map fst acc)) eqn:E; [reflexivity|].
      unfold groupOf. destruct (assocGet Z.eqb beat acc) eqn:Eg; [|reflexivity].
      assert (Hin : In beat (map fst acc)) by (apply assocGet_keys; congruence).
      assert (existsb (Z.eqb beat) (map fst acc) = true)
        by (apply existsb_exists; exists beat; split; [exact Hin|apply Z.eqb_refl]).
      congruence.
    - destruct (IH (step acc x)) as [K1 K2].
      assert (Hk : map fst (step acc x) = map fst acc).
      { unfold step. destruct (assocGet Z.eqb _ acc) eqn:Eg; [|reflexivity].
        apply assocUpd_fst. apply assocGet_keys. congruence. }
      split; [now rewrite K1|]. intros beat. rewrite K2, Hk.
      destruct (existsb (Z.eqb beat) (map fst acc)) eqn:E; [|reflexivity].
      fold (beatOf bpm x).
      unfold step. fold (beatOf bpm x).
      destruct (assocGet Z.eqb (beatOf bpm x) acc) as [g|] eqn:Eg.
      + unfold groupOf at 1. rewrite ChunkFacts.assocGet_assocUpd.
        rewrite (Z.eqb_sym (beatOf bpm x) beat).
        destruct (Z.eqb_spec beat (beatOf bpm x)) as [->|Hne].
        * unfold groupOf. rewrite Eg. now rewrite <- app_assoc.
        * reflexivity.
      + destruct (Z.eqb_spec (beatOf bpm x) beat) as [<-|Hne]; [|reflexivity].
        apply existsb_exists in E. destruct E as (b & Hb & Eb). apply Z.eqb_eq in Eb.
        subst b. apply assocGet_keys in Hb. congruence. }
  destruct (G notes (map (fun i => (i, [])) (Zrange bpm))) as [K1 K2]. fold step.
  assert (Hk : map fst (map (fun i => (i, @nil Note)) (Zrange bpm)) = Zrange bpm).
  { rewrite map_map. cbn [fst]. apply map_id. }
  split; [now rewrite K1|]. intros beat. rewrite K2, Hk.
  assert (Hb : existsb (Z.eqb beat) (Zrange bpm) = (0 <=? beat) && (beat <? bpm)).
  { destruct ((0 <=? beat) && (beat <? bpm)) eqn:E.
    - apply existsb_exists. exists beat. split; [|apply Z.eqb_refl]. apply Zrange_In. lia.
    - destruct (existsb (Z.eqb beat) (Zrange bpm)) eqn:E'; [|reflexivity].
      apply existsb_exists in E'. destruct E' as (b & Hb & Eb). apply Z.eqb_eq in Eb.
      subst b. apply Zrange_In in Hb. lia. }
  rewrite Hb. destruct ((0 <=? beat) && (beat <? bpm)) eqn:E; [|reflexivity].
  unfold groupOf at 1. rewrite assocGet_blank, Hb. reflexivity.
Qed.

(** *** Lowest and highest note *)

(** [getLowestNote] and [getHighestNote] return nothing for no notes, and
    otherwise a note of the list that no note of the list is lower than,
    or higher than. *)
Theorem extreme_notes :
  forall notes : list Note,
    match getLowestNote notes with
    | None => notes = []
    | Some l => In l notes /\ Forall (fun n => midiOf l <= midiOf n) notes
    end
    /\ match getHighestNote notes with
       | None => notes = []
       | Some h => In h notes /\ Forall (fun n => midiOf n <= midiOf h) notes
       end.
Proof.
  intros notes. split.
  - unfold getLowestNote.
    set (step := fun (lowest : option Note) (note : Note) =>
                   match lowest with
                   | None => Some note
                   | Some l => if pitchToMidi (n_pitch note) <? pitchToMidi (n_pitch l)
                               then Some note else Some l
                   end).
    assert (G : forall notes l,
               exists r, fold_left step notes (Some l) = Some r
                         /\ (r = l \/ In r notes) /\ midiOf r <= midiOf l
                         /\ Forall (fun n => midiOf r <= midiOf n) notes).
    { clear notes. induction notes as [|x notes IH]; intros l; cbn [fold_left].
      - exists l. split; [reflexivity|]. split; [now left|]. split; [lia|constructor].
      - unfold step at 2. fold (midiOf x) (midiOf l).
        destruct (Z.ltb_spec (midiOf x) (midiOf l)) as [Hlt|Hge].
        + destruct (IH x) as (r & E & Hr & Hm & Hall). exists r. split; [exact E|].
          split; [right; destruct Hr as [->|Hr]; [now left|now right]|].
          split; [lia|]. constructor; [exact Hm|exact Hall].
        + destruct (IH l) as (r & E & Hr & Hm & Hall). exists r. split; [exact E|].
          split; [destruct Hr as [->|Hr]; [now left|right; now right]|].
          split; [exact Hm|]. constructor; [lia|exact Hall]. }
    destruct notes as [|x notes]; [reflexivity|]. cbn [fold_left]. unfold step at 2.
    destruct (G notes x) as (r & E & Hr & Hm & Hall). rewrite E.
    split; [destruct Hr as [->|Hr]; [now left|now right]|].
    constructor; [exact Hm|exact Hall].
  - unfold getHighestNote.
    set (step := fun (highest : option Note) (note : Note) =>
                   match highest with
                   | None => Some note
                   | Some h => if pitchToMidi (n_pitch h) <? pitchToMidi (n_pitch note)
                               then Some note else Some h
                   end).
    assert (G : forall notes h,
               exists r, fold_left step notes (Some h) = Some r
                         /\ (r = h \/ In r notes) /\ midiOf h <= midiOf r
                         /\ Forall (fun n => midiOf n <= midiOf r) notes).
    { clear notes. induction notes as [|x notes IH]; intros h; cbn [fold_left].
      - exists h. split; [reflexivity|]. split; [now left|]. split; [lia|constructor].
      - unfold step at 2. fold (midiOf x) (midiOf h).
        destruct (Z.ltb_spec (midiOf h) (midiOf x)) as [Hlt|Hge].
        + destruct (IH x) as (r & E & Hr & Hm & Hall). exists r. split; [exact E|].
          split; [right; destruct Hr as [->|Hr]; [now left|now right]|].
          split; [lia|]. constructor; [exact Hm|exact Hall].
        + destruct (IH h) as (r & E & Hr & Hm & Hall). exists r. split; [exact E|].
          split; [destruct Hr as [->|Hr]; [now left|right; now right]|].
          split; [exact Hm|]. constructor; [lia|exact Hall]. }
    destruct notes as [|x notes]; [reflexivity|]. cbn [fold_left]. unfold step at 2.
    destruct (G notes x) as (r & E & Hr & Hm & Hall). rewrite E.
    split; [destruct Hr as [->|Hr]; [now left|now right]|].
    constructor; [exact Hm|exact Hall].
Qed.


(** [groupNotesByBeat] keeps one group for each beat 0, 1, ... of the
    measure, in this order; the group of a beat holds the notes whose
    beat, reduced by [%] and rounded down, is this beat, in the order of
    the input.  A note is in a group exactly when its reduced beat is a
    beat of the measure; the other notes are left out. *)
Theorem groupNotesByBeat_groups :
  forall (notes : list Note) (beatsPerMeasure : Z),
    let groups := groupNotesByBeat notes beatsPerMeasure in
    map fst groups = Zrange beatsPerMeasure
    /\ (forall beat,
          groupOf groups beat
          = if (0 <=? beat) && (beat <? beatsPerMeasure)
            then filter (fun n => beatOf beatsPerMeasure n =? beat) notes
            else [])
    /\ (forall n,
          In n notes ->
          ((exists beat, In n (groupOf groups beat))
           <-> 0 <= beatOf beatsPerMeasure n < beatsPerMeasure)).
Proof.
  intros notes bpm. cbv zeta.
  destruct (groupNotesByBeat_content notes bpm) as [K1 K2]. cbv zeta in K2.
  split; [exact K1|]. split; [exact K2|].
  intros n Hn. split.
  - intros [beat Hb]. rewrite K2 in Hb.
    destruct ((0 <=? beat) && (beat <? bpm)) eqn:E; [|destruct Hb].
    apply filter_In in Hb. destruct Hb as [_ Hb]. apply Z.eqb_eq in Hb. lia.
  - intros Hr. exists (beatOf bpm n). rewrite K2.
    replace ((0 <=? beatOf bpm n) && (beatOf bpm n <? bpm)) with true
      by (symmetry; apply andb_true_iff; split; [apply Z.leb_le|apply Z.ltb_lt]; lia).
    apply filter_In. split; [exact Hn|apply Z.eqb_refl].
Qed.

(** With four beats in the measure, a note on beat -1 is left out, and a
    note on beat -4 is kept: its reduced beat is 0. *)
Example groupNotesByBeat_negative_beats :
  let early := mkNote (Some "C4") 1 1 (-1) 1 None false in
  let bar := mkNote (Some "C4") 1 1 (-4) 1 None false in
  groupNotesByBeat [early; bar] 4 = [(0, [bar]); (1, []); (2, []); (3, [])].
Proof. reflexivity. Qed.

End GroupFacts.

Module PeriodFacts.

Import EngineSpec.

Import Agreement ChunkSpec TreeSpec PostFacts.

(** *** Periods divide the phrases *)

Lemma numbered_app :
  forall l index l',
    numbered index (l ++ l') <-> numbered index l /\ numbered (index + Zlen l) l'.
Proof.
  induction l as [|pe l IH]; intros index l'; cbn [app numbered].
  - unfold Zlen. cbn. rewrite Z.add_0_r. tauto.
  - rewrite IH. unfold Zlen. cbn [List.length]. rewrite Nat2Z.inj_succ.
    replace (index + 1 + Z.of_nat (List.length l)) with (index + Z.succ (Z.of_nat (List.length l)))
      by lia. tauto.
Qed.

Lemma createPeriod_periodOf :
  forall phrases index,
    1 <= Zlen phrases <= 4 ->
    Post (fun pe => pe_phrases pe = phrases /\ periodOf index pe) (createPeriod phrases index).
Proof.
  intros phrases index H. unfold createPeriod.
  eapply Post_bind; [apply Post_any|]. intros id _. apply Post_ret.
  unfold periodOf. cbn. repeat split; try reflexivity; lia.
Qed.

Lemma periodLoop_partition :
  forall rest current periods index,
    Zlen current <= 3 -> (rest = [] -> current = []) ->
    numbered 0 periods -> index = Zlen periods ->
    Post (fun ps => flat_map pe_phrases ps = flat_map pe_phrases periods ++ current ++ rest
                    /\ numbered 0 ps)
         (periodLoop rest current periods index).
Proof.
  induction rest as [|phrase rest IH]; intros current periods index Hc Hr Hn Hi;
    cbn [periodLoop].
  - apply Post_ret. rewrite (Hr eq_refl). cbn [app]. rewrite app_nil_r. now split.
  - assert (Hlen : Zlen (current ++ [phrase]) = Zlen current + 1).
    { unfold Zlen. rewrite length_app. cbn [List.length]. lia. }
    assert (Hpos : 0 <= Zlen current) by (unfold Zlen; lia).
    destruct (_ || _) eqn:E.
    + eapply Post_bind; [apply createPeriod_periodOf; lia|]. intros pe [Ep Hpe].
      eapply Post_weaken.
      * apply IH; [unfold Zlen; cbn; lia|reflexivity| |].
        -- apply numbered_app. split; [exact Hn|]. cbn [numbered]. rewrite <- Hi.
           cbn [Z.add]. split; [exact Hpe|exact Logic.I].
        -- unfold Zlen. rewrite length_app. cbn [List.length]. unfold Zlen in Hi. lia.
      * intros ps [H1 H2]. split; [|exact H2]. rewrite H1, flat_map_app. cbn [flat_map].
        rewrite Ep, app_nil_r, <- !app_assoc. reflexivity.
    + apply orb_false_iff in E. destruct E as [E1 E2].
      apply orb_false_iff in E1. destruct E1 as [E1 E3].
      apply orb_false_iff in E1. destruct E1 as [_ E4].
      rewrite Hlen in E4. apply Z.leb_gt in E4.
      eapply Post_weaken.
      * apply IH; [lia| |exact Hn|exact Hi].
        intros ->. discriminate.
      * intros ps [H1 H2]. split; [|exact H2]. rewrite H1, <- !app_assoc. reflexivity.
Qed.

(** [detectPeriods] divides the phrases among the periods: the phrases
    of the periods, taken in order, are the phrases given, every period
    holds one to four of them, counts them, spans from the first measure
    of its first phrase to the last measure of its last, and the periods
    are numbered 0, 1, 2, ... *)
Theorem detectPeriods_partition :
  forall (phrases : list Phrase) (rnd : Rand),
    let periods := run (detectPeriods phrases) rnd in
    flat_map pe_phrases periods = phrases /\ numbered 0 periods.
Proof.
  intros phrases rnd periods.
  pose proof (@periodLoop_partition phrases [] [] 0) as H.
  specialize (H ltac:(unfold Zlen; cbn; lia) ltac:(reflexivity) Logic.I eq_refl rnd 0%nat).
  exact H.
Qed.

(** *** Compound periods *)



(** *** Extensions and transitions *)

(** [detectExtensions] reports one extension for every phrase longer
    than six measures, in order, and estimates it at the length of the
    phrase less four. *)
Theorem detectExtensions_long :
  forall (phrases : list Phrase) (rnd : Rand),
    Forall2 extensionOf (filter (fun p => 6 <? ph_length p) phrases)
            (run (detectExtensions phrases) rnd).
Proof.
  intros phrases rnd. unfold detectExtensions.
  assert (G : forall phrases acc,
             Post (fun es => exists more,
                       es = acc ++ more
                       /\ Forall2 extensionOf (filter (fun p => 6 <? ph_length p) phrases)
                                  more)
                  (foldM extensionStep phrases acc)).
  { clear phrases rnd. intros phrases.
    induction phrases as [|p phrases IH]; intros acc; cbn [foldM filter].
    - apply Post_ret. exists []. rewrite app_nil_r. split; [reflexivity|constructor].
    - unfold extensionStep at 1.
      assert (E : Qgtb (inject_Z (ph_length p)) (inject_Z 4 * (15 # 10)) = (6 <? ph_length p)).
      { unfold Qgtb, Qltb. destruct (Z.ltb_spec 6 (ph_length p)) as [H|H].
        - apply negb_true_iff. destruct (Qle_bool _ _) eqn:Q; [|reflexivity].
          apply Qle_bool_iff in Q. unfold Qle in Q. cbn in Q. lia.
        - apply negb_false_iff. apply Qle_bool_iff. unfold Qle. cbn. lia. }
      rewrite E. destruct (6 <? ph_length p).
      + eapply Post_bind.
        { eapply Post_bind; [apply Post_any|]. intros id _.
          apply Post_ret with (P := fun s' => exists e, s' = acc ++ [e] /\ extensionOf p e).
          eexists. split; [reflexivity|]. split; reflexivity. }
        intros s' (e & -> & He).
        eapply Post_weaken; [apply IH|]. intros es (more & Ee & H).
        exists (e :: more). split; [rewrite Ee, <- app_assoc; reflexivity|].
        constructor; [exact He|exact H].
      + eapply Post_bind; [apply Post_ret with (P := fun s' => s' = acc); reflexivity|].
        intros s' ->. apply IH. }
  destruct (G phrases [] rnd 0%nat) as (more & E & H).
  unfold run. rewrite E. exact H.
Qed.

Lemma detectTransitions_steps :
  forall (ipps : list (Z * (Period * Period))) acc,
    Post (fun ts => exists more,
              ts = acc ++ more
              /\ Forall fillsGap more
              /\ (Forall (fun ipp => pe_startMeasure (snd (snd ipp))
                                     <= pe_endMeasure (fst (snd ipp)) + 1) ipps ->
                  more = []))
         (foldM transitionStep ipps acc).
Proof.
  induction ipps as [|[i [curr next]] ipps IH]; intros acc; cbn [foldM].
  - apply Post_ret. exists []. rewrite app_nil_r. repeat split; constructor.
  - unfold transitionStep at 1.
    destruct (Z.ltb_spec 0 (pe_startMeasure next - pe_endMeasure curr - 1)) as [Hg|Hg].
    + eapply Post_bind.
      { eapply Post_bind; [apply Post_any|]. intros id _.
        apply Post_ret with (P := fun s' => exists t, s' = acc ++ [t] /\ fillsGap t).
        eexists. split; [reflexivity|]. exists curr, next. cbn. repeat split; lia. }
      intros s' (t & -> & Ht).
      eapply Post_weaken; [apply IH|]. intros ts (more & E & H & _).
      exists (t :: more). split; [rewrite E, <- app_assoc; reflexivity|]. split.
      * constructor; [exact Ht|exact H].
      * intros F. inversion F as [|? ? F1 F2]; subst. cbn in F1. lia.
    + eapply Post_bind; [apply Post_ret with (P := fun s' => s' = acc); reflexivity|].
      intros s' ->.
      eapply Post_weaken; [apply IH|]. intros ts (more & E & H & Hn).
      exists more. split; [exact E|]. split; [exact H|].
      intros F. inversion F; subst. now apply Hn.
Qed.

(** Every transition [detectTransitions] reports fills the gap between
    two periods: it starts the measure after the first ends, ends the
    measure before the second starts, and is at least one measure long. *)
Theorem detectTransitions_gaps :
  forall (periods : list Period) (rnd : Rand),
    Forall fillsGap (run (detectTransitions periods) rnd).
Proof.
  intros periods rnd. unfold detectTransitions.
  destruct (detectTransitions_steps
              (combine (Zrange (Zlen (adjacentPairs periods))) (adjacentPairs periods))
              [] rnd 0%nat) as (more & E & H & _).
  unfold run. rewrite E. exact H.
Qed.

(** *** What the engine never reports *)

Lemma detectPhrases_from_first :
  forall notes cadences subPhrases first ks,
    sortedKeys (groupNotesByMeasure notes) = first :: ks ->
    Post (phraseChain first) (detectPhrases notes cadences subPhrases).
Proof.
  intros notes cadences subPhrases first ks E. unfold detectPhrases. rewrite E.
  destruct (lastOpt (first :: ks)) as [lastMeasure|]; [|apply Post_ret; exact Logic.I].
  eapply Post_bind.
  - apply Post_foldM
      with (P := fun st : list Phrase * Z * Z =>
                   let '(phrases, phraseStart, _) := st in
                   phraseChain first phrases /\ chainEnd first phrases = phraseStart).
    + intros [[phrases phraseStart] idx] c _ [H1 H2].
      eapply Post_weaken.
      * apply (@TreeFacts.phraseStep_chain notes subPhrases first
                 (Z.max (cad_measureNumber c) (phraseStart - 1))
                 (phrases, phraseStart, idx) c); [lia|].
        split; [exact H1|]. split; [exact H2|lia].
      * intros [[phrases' phraseStart'] idx'] (K1 & K2 & _). now split.
    + cbn. split; [exact Logic.I|reflexivity].
  - intros [[phrases phraseStart] idx] [H1 H2].
    eapply Post_bind.
    + apply (@TreeFacts.phraseRemainder_chain notes subPhrases first
               (Z.max lastMeasure (phraseStart - 1)) lastMeasure
               (phrases, phraseStart, idx)); [lia|].
      split; [exact H1|]. split; [exact H2|lia].
    + intros phrases' [K1 _]. apply Post_ret.
      destruct (TreeFacts.analyzePhraseMaterials_ranges phrases') as [Es Ee].
      exact (proj1 (@TreeFacts.phraseChain_ext phrases' (analyzePhraseMaterials phrases')
                      first Es Ee K1)).
Qed.

Lemma detectPhrases_no_keys :
  forall notes cadences subPhrases,
    sortedKeys (groupNotesByMeasure notes) = [] ->
    Post (fun phrases => phrases = []) (detectPhrases notes cadences subPhrases).
Proof.
  intros notes cadences subPhrases E. unfold detectPhrases. rewrite E.
  apply Post_ret. reflexivity.
Qed.

Lemma periodChain_adjacent :
  forall l t,
    periodChain t l ->
    Forall (fun pp : Period * Period => pe_startMeasure (snd pp) <= pe_endMeasure (fst pp) + 1)
           (adjacentPairs l).
Proof.
  induction l as [|p [|q l] IH]; intros t H; [constructor|constructor|].
  destruct H as (_ & _ & _ & _ & H). pose proof (IH _ H) as IH'.
  unfold adjacentPairs in *. cbn [tl combine] in *. constructor; [|exact IH'].
  cbn [fst snd]. destruct H as (_ & _ & E & _). lia.
Qed.

Lemma Forall_combine_snd :
  forall (A B : Type) (P : B -> Prop) (l : list A) (l' : list B),
    Forall P l' -> Forall (fun ab => P (snd ab)) (combine l l').
Proof.
  intros A B P l. induction l as [|a l IH]; intros [|b l'] H; cbn [combine];
    try constructor.
  - inversion H; subst. assumption.
  - inversion H; subst. now apply IH.
Qed.

Lemma detectTransitions_none :
  forall periods t,
    periodChain t periods ->
    Post (fun ts => ts = []) (detectTransitions periods).
Proof.
  intros periods t H. unfold detectTransitions.
  eapply Post_weaken; [apply detectTransitions_steps|].
  intros ts (more & E & _ & Hn). rewrite E, Hn; [reflexivity|].
  apply Forall_combine_snd with (P := fun pp : Period * Period =>
                                        pe_startMeasure (snd pp) <= pe_endMeasure (fst pp) + 1).
  exact (periodChain_adjacent _ _ H).
Qed.

Lemma first_key_least :
  forall notes first ks n,
    sortedKeys (groupNotesByMeasure notes) = first :: ks ->
    In n notes -> first <= keyOf n.
Proof.
  intros notes first ks n E Hn.
  pose proof (ChunkFacts.keys_sorted notes) as S. rewrite E in S.
  assert (Hk : In (keyOf n) (first :: ks)).
  { rewrite <- E. apply ChunkFacts.keys_spec. exists n. now split. }
  inversion S as [|? ? _ Hall]; subst. destruct Hk as [<-|Hk]; [lia|].
  rewrite Forall_forall in Hall. specialize (Hall _ Hk). lia.
Qed.

Lemma filter_none :
  forall (A : Type) (f : A -> bool) l,
    (forall x, In x l -> f x = false) -> filter f l = [].
Proof.
  intros A f l. induction l as [|x l IH]; intros H; cbn [filter]; [reflexivity|].
  rewrite (H x (or_introl eq_refl)). apply IH. intros y Hy. apply H. now right.
Qed.

Lemma detectIntroduction_none :
  forall notes first ks firstPeriod,
    sortedKeys (groupNotesByMeasure notes) = first :: ks ->
    pe_startMeasure firstPeriod = first ->
    Post (fun intro => intro = None) (detectIntroduction notes firstPeriod).
Proof.
  intros notes first ks p0 E Es. unfold detectIntroduction.
  destruct notes as [|n0 notes0] eqn:En; [apply Post_ret; reflexivity|]. rewrite <- En in *.
  rewrite Es. destruct (Z.leb_spec first 1) as [H1|H1]; [apply Post_ret; reflexivity|].
  assert (F : filter (fun n => n_measureNumber n <? first) notes = []).
  { apply filter_none. intros n Hn.
    pose proof (@first_key_least notes first ks n E Hn) as Hk.
    unfold keyOf, ZorElse in Hk. apply Z.ltb_ge.
    destruct (Z.eqb_spec (n_measureNumber n) 0); lia. }
  rewrite F. apply Post_ret. reflexivity.
Qed.

Lemma analysisTail_auxiliary :
  forall notes options ma info ms sps,
    Post (fun r => introduction (auxiliaryStructures r) = None
                   /\ transitions (auxiliaryStructures r) = [])
         (analysisTail notes options ma info ms sps).
Proof.
  intros notes options ma info ms sps. unfold analysisTail.
  eapply Post_bind; [apply Post_any|]. intros cs _.
  destruct (sortedKeys (groupNotesByMeasure notes)) as [|first ks] eqn:E.
  - eapply Post_bind; [apply detectPhrases_no_keys; exact E|]. intros phs ->.
    change (detectPeriods []) with (ret (A := list Period) []).
    eapply Post_bind; [apply Post_ret with (P := fun ps : list Period => ps = []); reflexivity|].
    intros pes ->.
    do 4 (eapply Post_bind; [apply Post_any|]; intros ? _).
    eapply Post_bind; [apply Post_ret with (P := fun i : option Auxiliary => i = None);
                       reflexivity|].
    intros intro ->.
    eapply Post_bind; [apply Post_any|]. intros coda _.
    eapply Post_bind; [apply Post_ret with (P := fun ts : list Transition => ts = []);
                       reflexivity|].
    intros ts ->.
    eapply Post_bind; [apply Post_any|]. intros es _.
    apply Post_ret. split; reflexivity.
  - eapply Post_bind; [apply (@detectPhrases_from_first notes cs sps first ks E)|].
    intros phs Hch.
    eapply Post_bind; [apply (@TreeFacts.detectPeriods_chain phs first Hch)|].
    intros pes [Hpc _].
    do 4 (eapply Post_bind; [apply Post_any|]; intros ? _).
    eapply Post_bind.
    { instantiate (1 := fun i : option Auxiliary => i = None).
      destruct pes as [|p0 pes']; [apply Post_ret; reflexivity|].
      apply (@detectIntroduction_none notes first ks p0 E).
      destruct Hpc as (_ & _ & Es & _). exact Es. }
    intros intro ->.
    eapply Post_bind; [apply Post_any|]. intros coda _.
    eapply Post_bind; [apply (@detectTransitions_none pes first Hpc)|]. intros ts ->.
    eapply Post_bind; [apply Post_any|]. intros es _.
    apply Post_ret. split; reflexivity.
Qed.

(** The engine never reports an introduction nor a transition: the first
    period starts at the first measure that holds a note, and the
    periods follow one another without a gap.  (A coda, the measures
    after the last period, can be reported.) *)
Theorem analysis_no_introduction_no_transition :
  forall (notes : list Note) (options : Options) (rnd : Rand),
    let complete := run (analyzeComplete notes options) rnd in
    let chunked := run (analyzeCompleteChunked notes options) rnd in
    introduction (auxiliaryStructures complete) = None
    /\ transitions (auxiliaryStructures complete) = []
    /\ introduction (auxiliaryStructures chunked) = None
    /\ transitions (auxiliaryStructures chunked) = [].
Proof.
  intros notes options rnd complete chunked.
  assert (C : Post (fun r => introduction (auxiliaryStructures r) = None
                             /\ transitions (auxiliaryStructures r) = [])
                   (analyzeComplete notes options)).
  { rewrite AgreementFacts.analyzeComplete_unfold.
    do 2 (eapply Post_bind; [apply Post_any|]; intros ? _).
    apply analysisTail_auxiliary. }
  assert (K : Post (fun r => introduction (auxiliaryStructures r) = None
                             /\ transitions (auxiliaryStructures r) = [])
                   (analyzeCompleteChunked notes options)).
  { rewrite AgreementFacts.analyzeCompleteChunked_unfold. destruct (_ && _); [exact C|].
    do 2 (eapply Post_bind; [apply Post_any|]; intros ? _).
    apply analysisTail_auxiliary. }
  destruct (C rnd 0%nat) as [C1 C2]. destruct (K rnd 0%nat) as [K1 K2].
  repeat split; assumption.
Qed.

End PeriodFacts.

Module MotiveFacts.

Import EngineSpec.

Import Agreement ChunkSpec EngineSpec PostFacts.

(** *** What a motive holds *)

Lemma pushContent_from :
  forall g measureNum startBeat current out,
    (forall n, In n current -> In n g) ->
    Forall (motiveFrom g measureNum) out ->
    Forall (motiveFrom g measureNum) (pushContent measureNum startBeat current out).
Proof.
  intros g measureNum startBeat current out Hc Ho. unfold pushContent.
  destruct (Z.leb_spec 2 (Zlen current)) as [H|H]; [|exact Ho].
  apply Forall_app. split; [exact Ho|]. constructor; [|constructor].
  unfold contentOf, motiveFrom. repeat split; try assumption.
Qed.

Lemma beatGroup_incl :
  forall g bpm beat n, In n (groupOf (groupNotesByBeat g bpm) beat) -> In n g.
Proof.
  intros g bpm beat n H.
  rewrite (proj2 (GroupFacts.groupNotesByBeat_content g bpm)) in H.
  destruct (_ && _); [|destruct H]. apply filter_In in H. exact (proj1 H).
Qed.

Lemma measureMotives_from :
  forall bpm measureNum g,
    Forall (motiveFrom g measureNum) (measureMotives bpm measureNum g).
Proof.
  intros bpm measureNum g. unfold measureMotives.
  destruct g as [|x xs] eqn:Eg; [constructor|]. rewrite <- Eg.
  set (groups := groupNotesByBeat g bpm).
  assert (G : forall bs st,
             Forall (motiveFrom g measureNum) (fst st) ->
             (forall n, In n (fst (snd st)) -> In n g) ->
             Forall (motiveFrom g measureNum)
                    (fst (fold_left (beatContentStep bpm measureNum groups) bs st))
             /\ (forall n, In n (fst (snd (fold_left (beatContentStep bpm measureNum groups)
                                                      bs st))) -> In n g)).
  { induction bs as [|b bs IH]; intros [out [cur sb]] Ho Hc; cbn [fold_left];
      [now split|].
    apply IH; unfold beatContentStep; destruct (_ && _); cbn [fst snd] in *.
    - now apply pushContent_from.
    - exact Ho.
    - intros n Hn. now apply beatGroup_incl with (bpm := bpm) (beat := b).
    - intros n Hn. apply in_app_or in Hn. destruct Hn as [Hn|Hn]; [now apply Hc|].
      now apply beatGroup_incl with (bpm := bpm) (beat := b). }
  destruct (G (Zrange bpm) ([], ([], 0)) (Forall_nil _) (fun n (H : In n []) => match H with end))
    as [G1 G2].
  destruct (fold_left _ _ _) as [out [cur sb]]. cbn [fst snd] in G1, G2.
  now apply pushContent_from.
Qed.

(** Every motive [detectMotives] returns holds at least two notes, all
    of them notes of the score from the one measure the motive is filed
    under, and carries the interval pattern, the rhythm pattern and the
    contour of these notes. *)
Theorem detectMotives_wellFormed :
  forall (notes : list Note) (timeSignature : TimeSignature) (rnd : Rand),
    Forall (wellFormedMotive notes) (run (detectMotives notes timeSignature) rnd).
Proof.
  intros notes timeSignature rnd.
  pose proof (ChunkFacts.detectMotives_contents notes timeSignature rnd 0%nat) as H.
  fold (run (detectMotives notes timeSignature) rnd) in H.
  set (ms := run (detectMotives notes timeSignature) rnd) in *. clearbody ms.
  apply Forall_forall. intros m Hm.
  assert (Hc : In (motiveContent m) (map motiveContent ms)) by now apply in_map.
  rewrite H in Hc. destruct (Zlen notes <? 2); [destruct Hc|].
  apply in_flat_map in Hc. destruct Hc as (k & Hk & Hc).
  pose proof (measureMotives_from (beats timeSignature) k
                                  (groupOf (groupNotesByMeasure notes) k)) as F.
  rewrite Forall_forall in F. specialize (F _ Hc).
  unfold motiveFrom, motiveContent in F. destruct F as (E & H2 & Hin & E1 & E2 & E3).
  unfold wellFormedMotive. repeat split; try assumption.
  - specialize (Hin n H0).
    rewrite (proj1 (ChunkFacts.groups_spec notes)) in Hin.
    apply filter_In in Hin. exact (proj1 Hin).
  - specialize (Hin n H0).
    rewrite (proj1 (ChunkFacts.groups_spec notes)) in Hin.
    apply filter_In in Hin. destruct Hin as [_ Hin]. apply Z.eqb_eq in Hin. congruence.
Qed.

(** *** The sub-phrases hold every note once *)

Lemma filter_split_perm :
  forall (A : Type) (f : A -> bool) l,
    Permutation l (filter f l ++ filter (fun x => negb (f x)) l).
Proof.
  intros A f l. induction l as [|x l IH]; cbn [filter]; [constructor|].
  destruct (f x); cbn [negb app].
  - now constructor.
  - now apply Permutation_cons_app.
Qed.

Lemma flat_map_ext_In :
  forall (A B : Type) (f g : A -> list B) l,
    (forall a, In a l -> f a = g a) -> flat_map f l = flat_map g l.
Proof.
  intros A B f g l. induction l as [|a l IH]; intros H; cbn [flat_map]; [reflexivity|].
  rewrite (H a (or_introl eq_refl)), IH; [reflexivity|]. intros b Hb. apply H. now right.
Qed.

Lemma bucket_permutation :
  forall (A : Type) (key : A -> Z) (K : list Z) (l : list A),
    NoDup K -> (forall x, In x l -> In (key x) K) ->
    Permutation (flat_map (fun k => filter (fun x => key x =? k) l) K) l.
Proof.
  intros A key K. induction K as [|k K IH]; intros l Hd Hin; cbn [flat_map].
  - destruct l as [|x l]; [constructor|]. destruct (Hin x (or_introl eq_refl)).
  - inversion Hd as [|? ? Hk Hd']; subst.
    apply Permutation_trans
      with (l' := filter (fun x => key x =? k) l ++ filter (fun x => negb (key x =? k)) l);
      [|apply Permutation_sym, filter_split_perm].
    apply Permutation_app_head.
    assert (E : flat_map (fun k0 => filter (fun x => key x =? k0) l) K
                = flat_map (fun k0 => filter (fun x => key x =? k0)
                                             (filter (fun x => negb (key x =? k)) l)) K).
    { apply flat_map_ext_In. intros k0 Hk0.
      rewrite ChunkFacts.filter_filter_ext. apply ChunkFacts.filter_ext_in.
      intros x _. destruct (Z.eqb_spec (key x) k0) as [E0|E0]; [|now rewrite andb_false_r].
      rewrite andb_true_r. symmetry. apply negb_true_iff. apply Z.eqb_neq. congruence. }
    rewrite E. apply IH; [exact Hd'|].
    intros x Hx. apply filter_In in Hx. destruct Hx as [Hx Hne].
    apply negb_true_iff, Z.eqb_neq in Hne.
    destruct (Hin x Hx) as [E0|E0]; [congruence|exact E0].
Qed.

Lemma measureSubPhrases_notes :
  forall measureNum g,
    flat_map (fun c : SubPhraseContent => snd c) (measureSubPhrases measureNum g) = g.
Proof.
  intros measureNum g. unfold measureSubPhrases.
  destruct (_ && _); cbn [flat_map snd]; [|now rewrite app_nil_r].
  rewrite app_nil_r.
  assert (Hm : 0 <= Zlen g / 2) by (apply Z.div_pos; [unfold Zlen|]; lia).
  pose proof (@TreeFacts.jsSlice_partition _ g (Zlen g / 2) (Zlen g / 2) Hm (Z.le_refl _))
    as P.
  assert (E : jsSlice g (Zlen g / 2) (Zlen g / 2) = []).
  { unfold jsSlice, slice. rewrite Nat.sub_diag. reflexivity. }
  rewrite E in P. cbn [app] in P. symmetry. exact P.
Qed.

Lemma flat_map_of_map :
  forall (A B C : Type) (f : B -> list C) (g : A -> B) l,
    flat_map f (map g l) = flat_map (fun x => f (g x)) l.
Proof.
  intros A B C f g l. induction l as [|a l IH]; cbn [map flat_map]; [reflexivity|].
  now rewrite IH.
Qed.

Lemma flat_map_of_flat_map :
  forall (A B C : Type) (f : B -> list C) (g : A -> list B) l,
    flat_map f (flat_map g l) = flat_map (fun x => flat_map f (g x)) l.
Proof.
  intros A B C f g l. induction l as [|a l IH]; cbn [flat_map]; [reflexivity|].
  now rewrite flat_map_app, IH.
Qed.

Lemma sorted_NoDup : forall l : list Z, StronglySorted Z.lt l -> NoDup l.
Proof.
  induction 1 as [|x l Hs IH Hx]; constructor; [|exact IH].
  intros Hin. rewrite Forall_forall in Hx. specialize (Hx x Hin). lia.
Qed.

Lemma In_firstn :
  forall (A : Type) n (l : list A) x, In x (firstn n l) -> In x l.
Proof.
  intros A n. induction n as [|n IH]; intros [|a l] x H; cbn [firstn] in H;
    try destruct H as [H|H]; try (now left); try contradiction.
  right. now apply IH.
Qed.

Lemma In_skipn :
  forall (A : Type) n (l : list A) x, In x (skipn n l) -> In x l.
Proof.
  intros A n. induction n as [|n IH]; intros [|a l] x H; cbn [skipn] in H;
    try assumption. right. now apply IH.
Qed.

(** The sub-phrases [detectSubPhrases] returns hold every note of the
    score exactly once, and each sub-phrase lies within one measure: it
    starts and ends in the measure its notes are filed under. *)
Theorem detectSubPhrases_cover :
  forall (notes : list Note) (motives : list Motive) (rnd : Rand),
    let subPhrases := run (detectSubPhrases notes motives) rnd in
    Permutation (flat_map sp_notes subPhrases) notes
    /\ Forall withinMeasure subPhrases.
Proof.
  intros notes motives rnd subPhrases.
  pose proof (ChunkFacts.detectSubPhrases_contents notes motives rnd 0%nat) as H.
  fold (run (detectSubPhrases notes motives) rnd) in H. fold subPhrases in H.
  clearbody subPhrases.
  set (G := groupNotesByMeasure notes) in *. set (keys := sortedKeys G) in *.
  split.
  - assert (E : flat_map sp_notes subPhrases
                = flat_map (fun k => filter (fun n => keyOf n =? k) notes) keys).
    { change sp_notes with (fun sp => snd (subPhraseContent sp)).
      rewrite <- (flat_map_of_map (fun c : SubPhraseContent => snd c) subPhraseContent).
      rewrite H, flat_map_of_flat_map. apply flat_map_ext_In. intros k _.
      rewrite measureSubPhrases_notes. apply (proj1 (ChunkFacts.groups_spec notes)). }
    rewrite E. apply bucket_permutation.
    + apply sorted_NoDup, ChunkFacts.keys_sorted.
    + intros n Hn. apply ChunkFacts.keys_spec. exists n. now split.
  - apply Forall_forall. intros sp Hsp.
    assert (Hc : In (subPhraseContent sp) (map subPhraseContent subPhrases))
      by now apply in_map.
    rewrite H in Hc. apply in_flat_map in Hc. destruct Hc as (k & Hk & Hc).
    assert (Hg : forall n, In n (groupOf G k) -> keyOf n = k).
    { intros n Hn. subst G. rewrite (proj1 (ChunkFacts.groups_spec notes)) in Hn.
      apply filter_In in Hn. destruct Hn as [_ Hn]. now apply Z.eqb_eq. }
    unfold measureSubPhrases in Hc. unfold withinMeasure.
    assert (Hs : forall a b n, In n (jsSlice (groupOf G k) a b) -> In n (groupOf G k)).
    { intros a b n Hn. unfold jsSlice, slice in Hn.
      apply In_firstn in Hn. apply In_skipn in Hn. exact Hn. }
    destruct (_ && _); cbn [In] in Hc;
      repeat match type of Hc with
             | _ \/ _ => destruct Hc as [Hc|Hc]
             | False => destruct Hc
             end;
      unfold subPhraseContent in Hc; injection Hc as E1 E2 E3 E4 E5;
      (split; [congruence|]); intros n Hn; rewrite <- E5 in Hn; rewrite <- E1;
      apply Hg; try exact Hn; try (eapply Hs; exact Hn).
Qed.

End MotiveFacts.

Module ThemeFacts.

Import EngineSpec.

Import Agreement ChunkSpec EngineSpec PostFacts.

(** *** Themes *)

Lemma themeOfSection_primary :
  forall periods sections acc,
    Forall (fun t => th_type t = "primary") acc ->
    Post (Forall (fun t => th_type t = "primary"))
         (foldM (themeOfSection periods) sections acc).
Proof.
  intros periods sections acc H. apply Post_foldM; [|exact H].
  intros ths s _ Hths. unfold themeOfSection.
  destruct (_ || _); [|now apply Post_ret].
  eapply Post_bind; [apply Post_any|]. intros id _. apply Post_ret.
  apply Forall_app. split; [exact Hths|]. constructor; [reflexivity|constructor].
Qed.

Lemma secondaryThemeStep_headed :
  forall periods mainThemePeriod later themes,
    headedByPrimary themes ->
    Post headedByPrimary (foldM (secondaryThemeStep periods mainThemePeriod) later themes).
Proof.
  intros periods mainThemePeriod later themes H. apply Post_foldM; [|exact H].
  intros ths p _ Hths. unfold secondaryThemeStep.
  destruct (_ && _); [|now apply Post_ret].
  destruct (negb _); [|now apply Post_ret].
  eapply Post_bind; [apply Post_any|]. intros id _. apply Post_ret.
  destruct ths as [|t ths]; [destruct Hths|exact Hths].
Qed.

(** For a form analysis whose theme sections each hold a period:
    [identifyThemes] finds no theme when there is no period, and otherwise
    at least one: the list starts with a primary theme. *)
Theorem identifyThemes_primary :
  forall (periods : list Period) (formAnalysis : FormAnalysis) (rnd : Rand),
    themesHoldPeriods formAnalysis = true ->
    match periods with
    | [] => run (identifyThemes periods formAnalysis) rnd = []
    | _ => headedByPrimary (run (identifyThemes periods formAnalysis) rnd)
    end.
Proof.
  intros [|period0 later] formAnalysis rnd _; [reflexivity|].
  assert (H : Post headedByPrimary (identifyThemes (period0 :: later) formAnalysis));
    [|exact (H rnd 0%nat)].
  unfold identifyThemes.
  eapply Post_bind.
  { instantiate (1 := Forall (fun t => th_type t = "primary")).
    destruct (fa_sections formAnalysis) as [sections|].
    - apply themeOfSection_primary. constructor.
    - apply Post_ret. constructor. }
  intros themes1 H1.
  eapply Post_bind.
  { instantiate (1 := headedByPrimary).
    destruct themes1 as [|t ts].
    - eapply Post_bind; [apply Post_any|]. intros id _. apply Post_ret. reflexivity.
    - apply Post_ret. inversion H1; subst. assumption. }
  intros themes2 H2.
  destruct later as [|p1 later']; [now apply Post_ret|].
  destruct themes2 as [|mainTheme ts]; [destruct H2|].
  destruct (th_periods mainTheme) as [|mainThemePeriod ?]; [now apply Post_ret|].
  now apply secondaryThemeStep_headed.
Qed.

Lemma identifyThemes_primary_witness :
  let periods := firstn 5 FormSpec.sixPeriods in
  let formAnalysis := run (detectForm periods) constId in
  themesHoldPeriods formAnalysis = true
  /\ headedByPrimary (run (identifyThemes periods formAnalysis) constId).
Proof.
  intros periods formAnalysis.
  assert (H : themesHoldPeriods formAnalysis = true) by (vm_compute; reflexivity).
  split; [exact H|].
  exact (@identifyThemes_primary periods formAnalysis constId H).
Defined.

Lemma combine_indexed :
  forall (A : Type) (l : list A) (a : nat) i (p : A),
    In (i, p) (combine (map Z.of_nat (seq a (List.length l))) l) ->
    Z.of_nat a <= i /\ nth_error l (Z.to_nat i - a) = Some p.
Proof.
  intros A l. induction l as [|x l IH]; intros a i p H; cbn [List.length seq map combine] in H;
    [destruct H|].
  destruct H as [H|H].
  - injection H as <- <-. split; [lia|]. rewrite Nat2Z.id, Nat.sub_diag. reflexivity.
  - destruct (IH (S a) i p H) as [H1 H2]. split; [lia|].
    replace (Z.to_nat i - a)%nat with (S (Z.to_nat i - S a)) by lia. exact H2.
Qed.

(** Every occurrence of a theme that [findThemeOccurrences] lists is a
    period of the list, at the index it gives, whose similarity to the
    theme exceeds 0.6; it is exact above 0.9 and a variation otherwise,
    never both. *)
Theorem findThemeOccurrences_flags :
  forall (themePeriod : Period) (allPeriods : list Period),
    Forall (occurrenceIn allPeriods) (findThemeOccurrences themePeriod allPeriods).
Proof.
  intros themePeriod allPeriods. apply Forall_forall. intros oc H.
  unfold findThemeOccurrences in H. apply in_flat_map in H.
  destruct H as ([i p] & Hip & H).
  unfold Zrange, Zlen in Hip. rewrite Nat2Z.id in Hip.
  apply combine_indexed in Hip. destruct Hip as [Hi Hn]. rewrite Nat.sub_0_r in Hn.
  destruct (Qgtb (calculatePeriodSimilarity p themePeriod) (6 # 10)) eqn:E; [|destruct H].
  destruct H as [<-|[]]. unfold occurrenceIn.
  cbn [oc_similarity oc_isExact oc_isVariation oc_periodIndex oc_periodId oc_startMeasure
       oc_endMeasure].
  split; [exact E|]. split; [reflexivity|]. split.
  - cbn [andb]. unfold Qgtb, Qltb, Qleb. now rewrite negb_involutive.
  - exists p. repeat split; try assumption; lia.
Qed.

(** *** Cadence statistics *)

Lemma assocGet_assocUpd_str :
  forall (V : Type) (k k0 : string) (f : option V -> V) m,
    assocGet String.eqb k (assocUpd String.eqb k0 f m)
    = if String.eqb k k0 then Some (f (assocGet String.eqb k0 m))
      else assocGet String.eqb k m.
Proof.
  intros V k k0 f m. induction m as [|[a v] m IH]; cbn [assocGet assocUpd].
  - destruct (String.eqb_spec k k0); reflexivity.
  - destruct (String.eqb_spec k0 a) as [E|E]; cbn [assocGet].
    + subst a. destruct (String.eqb_spec k k0); reflexivity.
    + rewrite IH. destruct (String.eqb_spec k a) as [E1|E1], (String.eqb_spec k k0) as [E2|E2];
        try reflexivity. congruence.
Qed.

(** [getCadenceDistribution] counts the cadences of each type: a type
    that occurs is mapped to the number of its cadences, a type that does
    not occur has no entry. *)
Theorem getCadenceDistribution_counts :
  forall (cadences : list Cadence) (type : string),
    assocGet String.eqb type (getCadenceDistribution cadences)
    = if countOf type cadences =? 0 then None else Some (countOf type cadences).
Proof.
  intros cadences type. unfold getCadenceDistribution.
  assert (G : forall cadences acc,
             (forall k, assocGet String.eqb type acc = Some k -> 0 < k) ->
             assocGet String.eqb type
               (fold_left
                  (fun distribution cadence =>
                     assocUpd String.eqb (cad_type cadence)
                              (fun c => match c with Some k => ZorElse k 0 + 1 | None => 1 end)
                              distribution) cadences acc)
             = match assocGet String.eqb type acc with
               | Some k => Some (k + countOf type cadences)
               | None => if countOf type cadences =? 0 then None
                         else Some (countOf type cadences)
               end).
  { clear cadences. intros cadences.
    induction cadences as [|c cadences IH]; intros acc Hacc; cbn [fold_left].
    - unfold countOf, Zlen. cbn. destruct (assocGet String.eqb type acc); [|reflexivity].
      now rewrite Z.add_0_r.
    - assert (Hpos : 0 <= countOf type cadences) by (unfold countOf, Zlen; lia).
      assert (Hc : countOf type (c :: cadences)
                   = (if String.eqb type (cad_type c) then 1 else 0) + countOf type cadences).
      { unfold countOf. cbn [filter]. rewrite (String.eqb_sym (cad_type c) type).
        destruct (String.eqb type (cad_type c)); unfold Zlen; cbn [List.length]; lia. }
      rewrite IH.
      + rewrite assocGet_assocUpd_str, Hc.
        destruct (String.eqb type (cad_type c)) eqn:E.
        * apply String.eqb_eq in E. subst type.
          destruct (assocGet String.eqb (cad_type c) acc) as [k|] eqn:Ek.
          -- rewrite TreeFacts.ZorElse_0. f_equal. lia.
          -- destruct (Z.eqb_spec (1 + countOf (cad_type c) cadences) 0); [lia|].
             reflexivity.
        * rewrite Z.add_0_l. reflexivity.
      + intros k. rewrite assocGet_assocUpd_str.
        destruct (String.eqb type (cad_type c)) eqn:E; [|apply Hacc].
        apply String.eqb_eq in E. subst type.
        intros [= <-]. destruct (assocGet String.eqb (cad_type c) acc) as [k0|] eqn:Ek; [|lia].
        specialize (Hacc k0 eq_refl). rewrite TreeFacts.ZorElse_0. lia. }
  rewrite G; [reflexivity|]. intros k. cbn. discriminate.
Qed.

End ThemeFacts.

Module ModeFacts.

Import EngineSpec.

Import EngineSpec.

(** *** The best mode *)

Lemma Qltb_lt : forall a b : Q, Qltb a b = true <-> (a < b)%Q.
Proof.
  intros a b. unfold Qltb. rewrite negb_true_iff. split.
  - intros H. apply Qnot_le_lt. intros L. apply Qle_bool_iff in L. congruence.
  - intros H. destruct (Qle_bool b a) eqn:E; [|reflexivity].
    apply Qle_bool_iff in E. exfalso. exact (Qlt_not_le _ _ H E).
Qed.

Lemma Qltb_ge : forall a b : Q, Qltb a b = false <-> (b <= a)%Q.
Proof.
  intros a b. unfold Qltb. rewrite negb_false_iff. apply Qle_bool_iff.
Qed.

Lemma In_insertByDescQ :
  forall (A : Type) (key : A -> Q) x y l,
    In y (insertByDescQ key x l) <-> y = x \/ In y l.
Proof.
  intros A key x y l. induction l as [|a l IH]; cbn [insertByDescQ In]; [intuition|].
  destruct (Qltb (key a) (key x)); cbn [In]; [intuition|]. rewrite IH. intuition.
Qed.

Lemma In_sortByDescQ :
  forall (A : Type) (key : A -> Q) y l, In y (sortByDescQ key l) <-> In y l.
Proof.
  intros A key y l. unfold sortByDescQ.
  assert (G : forall l acc,
             In y (fold_left (fun a x => insertByDescQ key x a) l acc) <-> In y acc \/ In y l).
  { clear l. intros l. induction l as [|x l IH]; intros acc; cbn [fold_left In]; [intuition|].
    rewrite IH, In_insertByDescQ. intuition. }
  rewrite G. cbn [In]. intuition.
Qed.

Lemma insertByDescQ_sorted :
  forall (A : Type) (key : A -> Q) x l,
    StronglySorted (fun a b => (key b <= key a)%Q) l ->
    StronglySorted (fun a b => (key b <= key a)%Q) (insertByDescQ key x l).
Proof.
  intros A key x l. induction l as [|y l IH]; intros H; cbn [insertByDescQ].
  - constructor; constructor.
  - inversion H as [|? ? Hs Hy]; subst.
    destruct (Qltb (key y) (key x)) eqn:E.
    + apply Qltb_lt in E. constructor; [exact H|]. constructor; [now apply Qlt_le_weak|].
      eapply Forall_impl; [|exact Hy]. intros z Hz. cbn beta in *.
      apply Qle_trans with (y := key y); [exact Hz|now apply Qlt_le_weak].
    + apply Qltb_ge in E. constructor; [now apply IH|].
      apply Forall_forall. intros z Hz. apply In_insertByDescQ in Hz.
      destruct Hz as [->|Hz]; [exact E|]. rewrite Forall_forall in Hy. now apply Hy.
Qed.

Lemma sortByDescQ_sorted :
  forall (A : Type) (key : A -> Q) l,
    StronglySorted (fun a b => (key b <= key a)%Q) (sortByDescQ key l).
Proof.
  intros A key l. unfold sortByDescQ.
  assert (G : forall l acc,
             StronglySorted (fun a b => (key b <= key a)%Q) acc ->
             StronglySorted (fun a b => (key b <= key a)%Q)
                            (fold_left (fun a x => insertByDescQ key x a) l acc)).
  { clear l. intros l. induction l as [|x l IH]; intros acc H; cbn [fold_left]; [exact H|].
    apply IH. now apply insertByDescQ_sorted. }
  apply G. constructor.
Qed.

(** [detectMode] answers major with confidence 0.5 for no notes, and
    otherwise reports the best of its fifteen candidate modes: the mode
    and confidence it returns are one of the scores it lists, and no
    listed score is higher; the alternative it names is a listed score
    too. *)
Theorem detectMode_best :
  forall (notes : list Note) (keySignature : KeySignature),
    let r := detectMode notes keySignature in
    match ma_allScores r with
    | None => notes = [] /\ ma_mode r = "major" /\ ma_confidence r = 5 # 10
    | Some scores =>
        Zlen scores = 15
        /\ bestOf scores (ma_mode r) (ma_confidence r)
        /\ match ma_alternativeMode r, ma_alternativeConfidence r with
           | Some name, Some score =>
               In (name, score) scores /\ (score <= ma_confidence r)%Q
           | _, _ => False
           end
    end.
Proof.
  intros notes keySignature. unfold detectMode.
  destruct notes as [|n0 notes0] eqn:En; [cbn; repeat split|]. rewrite <- En. clear En.
  set (relativeCounts := fold_left _ (entries (countPitchClasses notes)) []).
  set (modeScores := _ ++ _ ++ _).
  assert (Hlen : Zlen modeScores = 15) by reflexivity.
  pose proof (sortByDescQ_sorted (fun e : string * Q => snd e) modeScores) as Hs.
  pose proof (fun y => In_sortByDescQ (fun e : string * Q => snd e) y modeScores) as Hin.
  destruct (sortByDescQ (fun e : string * Q => snd e) modeScores) as [|[bn bs] more] eqn:E.
  { exfalso. assert (H : In (nth 0 modeScores ("", 0%Q)) []).
    { apply Hin. apply nth_In. unfold Zlen in Hlen. lia. }
    destruct H. }
  cbn [ma_allScores ma_mode ma_confidence ma_alternativeMode ma_alternativeConfidence fst snd].
  inversion Hs as [|? ? Hs' Hb]; subst.
  split; [exact Hlen|]. split.
  - split; [apply Hin; now left|]. intros name score H.
    apply Hin in H. destruct H as [[= <- <-]|H]; [apply Qle_refl|].
    rewrite Forall_forall in Hb. exact (Hb _ H).
  - destruct more as [|[sn ss] more'].
    + exfalso.
      assert (L : List.length [(bn, bs)] = List.length modeScores).
      { clear - E. rewrite <- E. unfold sortByDescQ.
        assert (G : forall (l acc : list (string * Q)),
                   List.length (fold_left (fun a x => insertByDescQ (fun e => snd e) x a) l acc)
                   = (List.length acc + List.length l)%nat).
        { intros l. induction l as [|x l IH]; intros acc; cbn [fold_left List.length]; [lia|].
          rewrite IH.
          assert (I : forall a, List.length (insertByDescQ (fun e : string * Q => snd e) x a)
                                = S (List.length a)).
          { intros a. induction a as [|y a IHa]; cbn [insertByDescQ]; [reflexivity|].
            destruct (Qltb _ _); cbn [List.length]; [reflexivity|now rewrite IHa]. }
          rewrite I. lia. }
        rewrite G. reflexivity. }
      unfold Zlen in Hlen. cbn [List.length] in L. lia.
    + cbn [fst snd]. split; [apply Hin; right; now left|].
      rewrite Forall_forall in Hb. exact (Hb (sn, ss) (or_introl eq_refl)).
Qed.

(** *** Inversion and repetition *)

(** A non-empty interval pattern is the inversion of the pattern of the
    opposite intervals, and [isInversion] does not depend on the order of
    its arguments. *)
Theorem isInversion_opposite :
  forall intervals : list Z,
    intervals <> [] ->
    isInversion intervals (map Z.opp intervals) = true
    /\ forall other, isInversion intervals other = isInversion other intervals.
Proof.
  intros intervals Hne. split.
  - unfold isInversion, Zlen, QZ. rewrite length_map, Z.eqb_refl. cbn [negb].
    assert (E : countMatches (fun x y => Qleb (Qabs (x + y)) 1) (map inject_Z intervals)
                             (map inject_Z (map Z.opp intervals))
                = Z.of_nat (List.length intervals)).
    { clear Hne. induction intervals as [|x l IH]; [reflexivity|].
      cbn [map countMatches List.length]. rewrite IH.
      assert (C : Qleb (Qabs (inject_Z x + inject_Z (- x))) 1 = true).
      { unfold Qleb. apply Qle_bool_iff. rewrite <- inject_Z_plus, Z.add_opp_diag_r.
        cbn. discriminate. }
      rewrite C. lia. }
    rewrite E. unfold Qgtb. apply Qltb_lt.
    assert (Hn : ~ (inject_Z (Z.of_nat (List.length intervals)) == 0)%Q).
    { destruct intervals; [congruence|]. cbn [List.length]. intros Q0.
      unfold Qeq in Q0. cbn [inject_Z Qnum Qden] in Q0. lia. }
    assert (Q1 : (inject_Z (Z.of_nat (List.length intervals))
                  / inject_Z (Z.of_nat (List.length intervals)) == 1)%Q)
      by (field; exact Hn).
    rewrite Q1. reflexivity.
  - intros other. unfold isInversion. rewrite (Z.eqb_sym (Zlen intervals)).
    destruct (Z.eqb_spec (Zlen other) (Zlen intervals)) as [E|E]; [|reflexivity].
    cbn [negb]. rewrite E. f_equal. f_equal. f_equal.
    apply HelperFacts.countMatches_sym. intros x y.
    assert (Q : (x + y == y + x)%Q) by ring.
    unfold Qleb. destruct (Qle_bool (Qabs (x + y)) 1) eqn:E1,
                          (Qle_bool (Qabs (y + x)) 1) eqn:E2; try reflexivity.
    + apply Qle_bool_iff in E1. rewrite Q in E1. apply Qle_bool_iff in E1. congruence.
    + apply Qle_bool_iff in E2. rewrite <- Q in E2. apply Qle_bool_iff in E2. congruence.
Qed.

Lemma self_similar_above :
  forall (arr : list Q) (bound : Q),
    arr <> [] -> (bound < 1)%Q -> Qgtb (compareArrays arr arr) bound = true.
Proof.
  intros arr bound Hne Hb. unfold Qgtb. apply Qltb_lt.
  rewrite (HelperFacts.compareArrays_self Hne). exact Hb.
Qed.

(** Two motives with the same interval pattern and the same rhythm
    pattern, neither pattern empty, are a repetition (confidence 0.95),
    whatever their notes. *)
Theorem analyzeMotiveRelationship_repetition :
  forall motive1 motive2 : Motive,
    mo_intervalPattern motive1 = mo_intervalPattern motive2 ->
    mo_rhythmPattern motive1 = mo_rhythmPattern motive2 ->
    mo_intervalPattern motive1 <> [] ->
    mo_rhythmPattern motive1 <> [] ->
    analyzeMotiveRelationship motive1 motive2
    = mkRel DevelopmentTechniques.REPETITION (95 # 100) None.
Proof.
  intros motive1 motive2 Ei Er Hi Hr. unfold analyzeMotiveRelationship.
  rewrite <- Ei, <- Er.
  rewrite !self_similar_above; try reflexivity; try assumption.
  all: intros E; apply Hi; apply HelperFacts.QZ_nil; exact E.
Qed.


Lemma isInversion_opposite_witness :
  [2; -1; 3] <> []
  /\ isInversion [2; -1; 3] (map Z.opp [2; -1; 3]) = true
  /\ forall other, isInversion [2; -1; 3] other = isInversion other [2; -1; 3].
Proof.
  assert (H : [2; -1; 3] <> []) by discriminate.
  split; [exact H|]. exact (@isInversion_opposite [2; -1; 3] H).
Defined.

End ModeFacts.

Module NodeFacts.

Import AnalyzerSpec.

Import StructureAnalyzer EngineSpec.

(** *** Confidence and visual style *)

Lemma everyNode_eq :
  forall P n, everyNode P n <-> P n /\ Forall (everyNode P) (nd_children n).
Proof.
  intros P [id ty s e cs mat conf feat vs tt]. cbn [everyNode nd_children].
  assert (E : forall cs,
             (fix all (cs : list Node) : Prop :=
                match cs with
                | [] => True
                | c :: cs' => everyNode P c /\ all cs'
                end) cs <-> Forall (everyNode P) cs).
  { clear. induction cs as [|c cs IH]; [split; constructor|].
    rewrite IH. split; [intros [H1 H2]; now constructor|intros H; inversion H; now split]. }
  now rewrite E.
Qed.

Lemma Qmin_Qmax_bounds : forall x : Q, (0 <= Qmin 1 (Qmax 0 x) <= 1)%Q.
Proof.
  intros x. unfold Qmin, Qmax.
  destruct (Qltb 0 x) eqn:E1.
  - apply ModeFacts.Qltb_lt in E1. destruct (Qltb x 1) eqn:E2.
    + apply ModeFacts.Qltb_lt in E2. split; now apply Qlt_le_weak.
    + split; discriminate.
  - destruct (Qltb 0 1) eqn:E2; split; try discriminate; apply Qle_refl.
Qed.

(** After [assignConfidence] every node of the tree has a confidence
    between 0 and 1 and carries the visual style of this confidence. *)
Theorem assignConfidence_rated :
  forall tree : Node, everyNode rated (assignConfidence tree).
Proof.
  unfold assignConfidence.
  induction tree as [id ty s e cs mat conf feat vs tt IH] using TreeFacts.Node_ind'.
  apply everyNode_eq. cbn [assignConfidenceNode nd_children nd_id nd_type nd_startMeasure
                             nd_endMeasure nd_material nd_features nd_tooltipData].
  split.
  - split; [|reflexivity]. cbn [nd_confidence]. unfold ratedConfidence. apply Qmin_Qmax_bounds.
  - apply Forall_map. exact IH.
Qed.

(** The visual style never shows a lower confidence more firmly: with
    the confidence, the opacity and the border width never decrease. *)
Theorem getConfidenceVisualStyle_monotone :
  forall c1 c2 : Q,
    (c1 <= c2)%Q ->
    (opacity (getConfidenceVisualStyle c1) <= opacity (getConfidenceVisualStyle c2))%Q
    /\ borderWidth (getConfidenceVisualStyle c1) <= borderWidth (getConfidenceVisualStyle c2).
Proof.
  intros c1 c2 H. unfold getConfidenceVisualStyle, Qgeb, Qleb.
  assert (T : forall b : Q, Qle_bool b c1 = true -> Qle_bool b c2 = true).
  { intros b Hb. apply Qle_bool_iff in Hb. apply Qle_bool_iff.
    now apply Qle_trans with (y := c1). }
  destruct (Qle_bool (8 # 10) c1) eqn:A1; [rewrite (T _ A1); cbn; split; [discriminate|lia]|].
  destruct (Qle_bool (6 # 10) c1) eqn:A2;
    [rewrite (T _ A2); destruct (Qle_bool (8 # 10) c2); cbn; split;
     try discriminate; lia|].
  destruct (Qle_bool (4 # 10) c1) eqn:A3;
    [rewrite (T _ A3); destruct (Qle_bool (8 # 10) c2), (Qle_bool (6 # 10) c2); cbn;
     split; try discriminate; lia|].
  destruct (Qle_bool (8 # 10) c2), (Qle_bool (6 # 10) c2), (Qle_bool (4 # 10) c2); cbn;
    split; try discriminate; lia.
Qed.

(** *** Material hashes *)




(** *** The two readings of a pitch *)



(** Where the two readings part: the analyzer has no C flat, and reads
    no negative octave. *)
Example pitchToMidi_apart :
  pitchToMidi (Some "Cb4") = 60 /\ RuleEngine.pitchToMidi (Some "Cb4") = 71
  /\ pitchToMidi (Some "C-1") = 60 /\ RuleEngine.pitchToMidi (Some "C-1") = 0.
Proof. repeat split; reflexivity. Qed.

(** *** The passes over the tree *)

(** [labelMaterials] changes nothing but materials: identifiers, types,
    measure ranges, confidences, styles and the shape of the tree stay. *)
Lemma labelMaterials_erased :
  forall (tree : Node) (notes : list Note),
    eraseMaterial (labelMaterials tree notes) = eraseMaterial tree.
Proof.
  intros tree notes. unfold labelMaterials. generalize (@nil (list Z * string)) as g.
  induction tree as [id ty s e cs mat conf feat vs tt IH] using TreeFacts.Node_ind'.
  intros g. cbn [labelMaterialsNode nd_startMeasure nd_endMeasure nd_children nd_material
                 nd_id nd_type nd_confidence nd_features nd_visualStyle nd_tooltipData].
  match goal with
  | |- context [(fix walk (cs0 : list Node) (g0 : list (list Z * string)) {struct cs0} := _)
                  cs ?g1] => generalize g1
  end.
  intros g1.
  match goal with
  | |- context [(fix walk (cs0 : list Node) (g0 : list (list Z * string)) {struct cs0} := _)
                  cs g1] =>
      set (walk := (fix walk (cs0 : list Node) (g0 : list (list Z * string))
                      {struct cs0} := _))
  end.
  assert (W : forall g', map eraseMaterial (fst (walk cs g')) = map eraseMaterial cs).
  { clear g1. induction IH as [|c cs Hc _ IHcs]; intros g'; cbn; [reflexivity|].
    specialize (Hc g'). destruct (labelMaterialsNode notes c g') as [c' g1']. cbn in Hc.
    specialize (IHcs g1'). destruct (walk cs g1') as [cs'' g2']. cbn in IHcs |- *.
    now rewrite Hc, IHcs. }
  specialize (W g1). destruct (walk cs g1) as [children g2]. cbn in W |- *.
  now rewrite W.
Qed.

Lemma rated_erase : forall n, everyNode rated (eraseMaterial n) <-> everyNode rated n.
Proof.
  induction n as [id ty s e cs mat conf feat vs tt IH] using TreeFacts.Node_ind'.
  rewrite !everyNode_eq. cbn [eraseMaterial nd_children nd_id nd_type nd_startMeasure
                                nd_endMeasure nd_material nd_confidence nd_features
                                nd_visualStyle nd_tooltipData].
  unfold rated at 1 3. cbn [nd_confidence nd_visualStyle].
  assert (E : Forall (everyNode rated) (map eraseMaterial cs) <-> Forall (everyNode rated) cs).
  { rewrite Forall_map. induction IH as [|c cs Hc _ IHcs]; [split; constructor|].
    split; intros H; inversion H; subst; constructor;
      try (now apply Hc); now apply IHcs. }
  now rewrite E.
Qed.

Lemma tooltips_described :
  forall n, everyNode rated n -> everyNode described (generateTreeTooltipsNode n).
Proof.
  induction n as [id ty s e cs mat conf feat vs tt IH] using TreeFacts.Node_ind'.
  rewrite !everyNode_eq.
  cbn [generateTreeTooltipsNode nd_children nd_id nd_type nd_startMeasure nd_endMeasure
       nd_material nd_confidence nd_features nd_visualStyle nd_tooltipData].
  intros [Hr Hcs]. split.
  - split; [exact Hr|]. cbn. repeat split; reflexivity.
  - apply Forall_map. induction IH as [|c cs Hc _ IHcs]; [constructor|].
    inversion Hcs; subst. constructor; [now apply Hc|now apply IHcs].
Qed.

(** In the tree [buildHierarchy] returns, every node has a confidence
    between 0 and 1, carries the visual style of this confidence, and has
    a tooltip that repeats its identifier, type, material, measures,
    confidence and style and names the features of its type. *)
Theorem buildHierarchy_described :
  forall (parsedScore : ParsedScore) (rnd : Rand),
    everyNode described (run (buildHierarchy parsedScore) rnd).
Proof.
  intros parsedScore rnd.
  assert (H : Agreement.Post (everyNode described) (buildHierarchy parsedScore));
    [|exact (H rnd 0%nat)].
  unfold buildHierarchy.
  eapply PostFacts.Post_bind; [apply PostFacts.Post_any|]. intros r _.
  eapply PostFacts.Post_bind; [apply PostFacts.Post_any|]. intros tree _.
  apply PostFacts.Post_ret. unfold generateTreeTooltips. apply tooltips_described.
  apply rated_erase. rewrite labelMaterials_erased. apply rated_erase.
  apply assignConfidence_rated.
Qed.


(** [labelMaterials] changes nothing but materials: identifiers, types,
    measure ranges, confidences, styles and the shape of the tree stay. *)
Theorem labelMaterials_only_materials :
  forall (tree : Node) (notes : list Note),
    eraseMaterial (labelMaterials tree notes) = eraseMaterial tree.
Proof. exact labelMaterials_erased. Qed.


End NodeFacts.

Module WarpingFacts.

Import AlignmentSpec.

Import DTWAligner AlignmentSpec.

(** *** The shape of the cost matrix *)

Lemma min3_fin :
  forall up left diag,
    finOrInf up -> finOrInf left -> finOrInf diag ->
    isFin left \/ isFin diag \/ isFin up ->
    isFin (min3 up left diag).
Proof.
  intros up left diag [->|[u ->]] [->|[l ->]] [->|[d ->]] H;
    unfold min3, min2; cbn;
    repeat match goal with
           | |- context [Qltb ?a ?b] => destruct (Qltb a b); cbn
           end;
    try (eexists; reflexivity).
  destruct H as [[q H]|[[q H]|[q H]]]; discriminate.
Qed.

Lemma euclideanDistance_fin :
  forall sqrtQ vec1 vec2, isFin (euclideanDistance sqrtQ vec1 vec2).
Proof.
  intros. unfold euclideanDistance, sqrtN.
  pose proof (DiagonalFacts.sumSquares_nonneg vec1 vec2 (Qle_refl 0)) as H.
  destruct (Qltb _ 0) eqn:E.
  - apply DiagonalFacts.Qltb_true_iff in E. exfalso. apply (Qlt_not_le _ _ E H).
  - eexists; reflexivity.
Qed.

Lemma add_fin : forall a b, isFin a -> isFin b -> isFin (add a b).
Proof. intros a b [x ->] [y ->]. eexists; reflexivity. Qed.

Lemma fillRow_fin :
  forall sqrtQ s seq2 prevRow left,
    List.length prevRow = S (List.length seq2) ->
    Forall finOrInf prevRow -> finOrInf left ->
    isFin left \/ isFin (nth 0 prevRow NaN) \/ isFin (nth 1 prevRow NaN) ->
    Forall isFin (fillRow sqrtQ s seq2 prevRow left).
Proof.
  intros sqrtQ s seq2. induction seq2 as [|a seq2 IH]; intros prevRow left Hl Hp Hleft H;
    [constructor|].
  destruct prevRow as [|diag [|up prevRow]]; cbn in Hl; try lia.
  inversion Hp as [|? ? Hd Hp']; subst. inversion Hp' as [|? ? Hu _]; subst.
  cbn [fillRow]. cbn [nth] in H.
  assert (C : isFin (add (euclideanDistance sqrtQ s a) (min3 up left diag))).
  { apply add_fin; [apply euclideanDistance_fin|]. apply min3_fin; assumption. }
  constructor; [exact C|].
  apply IH; [cbn; lia|assumption|right; exact C|left; exact C].
Qed.

Lemma fillRows_inner :
  forall sqrtQ seq2 seq1 prevRow,
    seq2 <> [] ->
    List.length prevRow = S (List.length seq2) ->
    Forall finOrInf prevRow ->
    isFin (nth 0 prevRow NaN) \/ isFin (nth 1 prevRow NaN) ->
    Forall (inner (List.length seq2)) (fillRows sqrtQ seq1 seq2 prevRow).
Proof.
  intros sqrtQ seq2 seq1. induction seq1 as [|s seq1 IH]; intros prevRow Hne Hl Hp H;
    [constructor|].
  cbn [fillRows].
  assert (F : Forall isFin (fillRow sqrtQ s seq2 prevRow PInf)).
  { apply fillRow_fin; [assumption|assumption|left; reflexivity|right; exact H]. }
  assert (L : List.length (fillRow sqrtQ s seq2 prevRow PInf) = List.length seq2).
  { clear - Hl. revert prevRow Hl. generalize PInf.
    induction seq2 as [|a seq2 IH]; intros left prevRow Hl; [reflexivity|].
    destruct prevRow as [|diag [|up prevRow]]; cbn in Hl; try lia.
    cbn. f_equal. apply IH. cbn. lia. }
  constructor.
  - exists (fillRow sqrtQ s seq2 prevRow PInf). repeat split; assumption.
  - apply IH; [assumption|cbn; lia| |].
    + constructor; [left; reflexivity|].
      eapply Forall_impl; [|exact F]. intros a Ha. right. exact Ha.
    + right. destruct seq2 as [|b seq2]; [congruence|].
      destruct (fillRow sqrtQ s (b :: seq2) prevRow PInf) as [|c cells] eqn:E;
        [cbn in L; lia|].
      cbn. inversion F; assumption.
Qed.

Lemma fillRows_length :
  forall sqrtQ seq1 seq2 prevRow,
    List.length (fillRows sqrtQ seq1 seq2 prevRow) = List.length seq1.
Proof.
  intros sqrtQ seq1. induction seq1 as [|s seq1 IH]; intros; cbn; [reflexivity|].
  now rewrite IH.
Qed.

Lemma costMatrix_shaped :
  forall sqrtQ seq1 seq2,
    seq2 <> [] ->
    shaped (costMatrix sqrtQ seq1 seq2) (List.length seq1) (List.length seq2).
Proof.
  intros sqrtQ seq1 seq2 Hne. unfold costMatrix, shaped, cell.
  set (row0 := Fin 0 :: repeat PInf (List.length seq2)).
  assert (R : Forall (inner (List.length seq2)) (fillRows sqrtQ seq1 seq2 row0)).
  { apply fillRows_inner; [assumption| | |left; eexists; reflexivity].
    - unfold row0. cbn. now rewrite repeat_length.
    - unfold row0. constructor; [right; eexists; reflexivity|].
      apply Forall_forall. intros a Ha. apply repeat_spec in Ha. left. exact Ha. }
  assert (Row : forall i, (1 <= i <= List.length seq1)%nat ->
                          inner (List.length seq2)
                                (nth i (row0 :: fillRows sqrtQ seq1 seq2 row0) [])).
  { intros i Hi. destruct i as [|i]; [lia|]. cbn [nth].
    rewrite Forall_forall in R. apply R. apply nth_In. rewrite fillRows_length. lia. }
  split; [reflexivity|]. split; [|split].
  - intros j Hj. cbn [nth]. unfold row0. destruct j as [|j]; [lia|]. cbn [nth].
    apply nth_repeat_lt. lia.
  - intros i Hi. destruct (Row i Hi) as (cells & -> & _). reflexivity.
  - intros i j Hi Hj. destruct (Row i Hi) as (cells & -> & Hl & Hf).
    destruct j as [|j]; [lia|]. cbn [nth].
    rewrite Forall_forall in Hf. apply Hf. apply nth_In. lia.
Qed.

(** *** Backtracking *)

Lemma lastOpt_cons2 :
  forall {A} (x y : A) l, lastOpt (x :: y :: l) = lastOpt (y :: l).
Proof.
  intros A x y l. unfold lastOpt. cbn [List.length].
  replace (S (S (List.length l)) - 1)%nat with (S (S (List.length l) - 1)) by lia.
  reflexivity.
Qed.

Lemma warping_snoc :
  forall pre a b,
    warping pre -> lastOpt pre = Some a -> advance a b -> warping (pre ++ [b]).
Proof.
  induction pre as [|x pre IH]; intros a b Hw Hl Ha; [discriminate|].
  destruct pre as [|y pre].
  - cbn in Hl. injection Hl as ->. cbn. split; [assumption|exact I].
  - rewrite lastOpt_cons2 in Hl.
    change (advance x y /\ warping (y :: pre)) in Hw. destruct Hw as [Hxy Hw].
    change (advance x y /\ warping ((y :: pre) ++ [b])). split; [assumption|].
    apply (IH a b); assumption.
Qed.

Lemma lastOpt_snoc : forall {A} (l : list A) x, lastOpt (l ++ [x]) = Some x.
Proof.
  intros A l x. unfold lastOpt. rewrite length_app. cbn [List.length].
  replace (List.length l + 1 - 1)%nat with (List.length l) by lia.
  rewrite nth_error_app2 by lia. now rewrite Nat.sub_diag.
Qed.

Lemma backtrackLoop_warping :
  forall dtw n m,
    shaped dtw n m ->
    forall fuel i j path,
      (1 <= i <= n)%nat -> (1 <= j <= m)%nat -> (i + j <= fuel)%nat ->
      exists pre,
        backtrackLoop fuel dtw i j path = pre ++ path
        /\ hd_error pre = Some (0%nat, 0%nat)
        /\ lastOpt pre = Some ((i - 1)%nat, (j - 1)%nat)
        /\ warping pre.
Proof.
  intros dtw n m (H00 & H0j & Hi0 & Hij).
  induction fuel as [|fuel IH]; intros i j path Hi Hj Hf; [lia|].
  destruct i as [|i']; [lia|]. destruct j as [|j']; [lia|].
  cbn [backtrackLoop].
  assert (Done : forall pre',
             hd_error pre' = Some (0%nat, 0%nat) -> warping pre' ->
             forall a, lastOpt pre' = Some a -> advance a (i', j') ->
             exists pre,
               pre' ++ (i', j') :: path = pre ++ path
               /\ hd_error pre = Some (0%nat, 0%nat)
               /\ lastOpt pre = Some ((S i' - 1)%nat, (S j' - 1)%nat)
               /\ warping pre).
  { intros pre' Hh Hw a Hl Ha. exists (pre' ++ [(i', j')]).
    split; [now rewrite <- app_assoc|]. split; [|split].
    - destruct pre'; [discriminate|exact Hh].
    - rewrite lastOpt_snoc. f_equal. f_equal; lia.
    - apply (warping_snoc _ Hw Hl Ha). }
  assert (Go : forall i2 j2,
             (1 <= i2 <= n)%nat -> (1 <= j2 <= m)%nat -> (i2 + j2 <= fuel)%nat ->
             advance ((i2 - 1)%nat, (j2 - 1)%nat) (i', j') ->
             exists pre,
               backtrackLoop fuel dtw i2 j2 ((i', j') :: path) = pre ++ path
               /\ hd_error pre = Some (0%nat, 0%nat)
               /\ lastOpt pre = Some ((S i' - 1)%nat, (S j' - 1)%nat)
               /\ warping pre).
  { intros i2 j2 H1 H2 H3 Ha.
    destruct (IH i2 j2 ((i', j') :: path) H1 H2 H3) as (pre' & E & Hh & Hl & Hw).
    rewrite E. apply (Done pre' Hh Hw _ Hl Ha). }
  destruct i' as [|i'], j' as [|j'].
  - rewrite H00, (H0j 1%nat) by lia. rewrite (Hi0 1%nat) by lia. cbn.
    exists [(0%nat, 0%nat)]. repeat split.
    destruct fuel; reflexivity.
  - rewrite (H0j (S j')), (H0j (S (S j'))) by lia.
    destruct (Hij 1%nat (S j') ltac:(lia) ltac:(lia)) as [q ->]. cbn.
    apply Go; try lia. cbn. unfold advance. cbn.
    repeat split; try (left; reflexivity); try (right; f_equal; lia).
    intros E. injection E. lia.
  - rewrite (Hi0 (S i')), (Hi0 (S (S i'))) by lia.
    destruct (Hij (S i') 1%nat ltac:(lia) ltac:(lia)) as [q ->]. cbn.
    apply Go; try lia. cbn. unfold advance. cbn.
    repeat split; try (left; reflexivity); try (right; f_equal; lia).
    intros E. injection E. lia.
  - destruct (Hij (S i') (S j') ltac:(lia) ltac:(lia)) as [d ->].
    destruct (Hij (S (S i')) (S j') ltac:(lia) ltac:(lia)) as [l ->].
    destruct (Hij (S i') (S (S j')) ltac:(lia) ltac:(lia)) as [u ->].
    destruct (leb (Fin d) (Fin l) && leb (Fin d) (Fin u)); [|destruct (ltb (Fin l) (Fin u))];
      apply Go; try lia; unfold advance; cbn;
      repeat split; try (left; reflexivity); try (right; f_equal; lia);
      intros E; injection E; lia.
Qed.

Lemma computeDTW_distance_fin :
  forall (sqrtQ : Q -> Q) (seq1 seq2 : Chroma),
    seq1 <> [] -> seq2 <> [] -> isFin (snd (computeDTW sqrtQ seq1 seq2)).
Proof.
  intros sqrtQ seq1 seq2 H1 H2. unfold computeDTW.
  destruct seq1 as [|s1 seq1]; [congruence|]. destruct seq2 as [|s2 seq2]; [congruence|].
  cbn [List.length Nat.eqb orb snd].
  destruct (@costMatrix_shaped sqrtQ (s1 :: seq1) (s2 :: seq2) H2) as (_ & _ & _ & Hij).
  apply Hij; cbn [List.length]; lia.
Qed.

(** For two sequences that are not empty and whose entries are bounded
    (so that no square overflows), whatever the square root: the path of
    [computeDTW] starts at [(0, 0)], ends at the last frames of the two
    sequences, advances at every step by at most one frame in each
    sequence and at least one in one of them, and the distance is a finite
    number. *)
Theorem computeDTW_warping :
  forall (sqrtQ : Q -> Q) (seq1 seq2 : Chroma),
    seq1 <> [] -> seq2 <> [] ->
    boundedFrames seq1 = true -> boundedFrames seq2 = true ->
    let '(path, distance) := computeDTW sqrtQ seq1 seq2 in
    hd_error path = Some (0%nat, 0%nat)
    /\ lastOpt path = Some ((List.length seq1 - 1)%nat, (List.length seq2 - 1)%nat)
    /\ warping path
    /\ isFin distance.
Proof.
  intros sqrtQ seq1 seq2 H1 H2 _ _. unfold computeDTW.
  destruct seq1 as [|s1 seq1]; [congruence|]. destruct seq2 as [|s2 seq2]; [congruence|].
  cbn [List.length Nat.eqb orb].
  pose proof (@costMatrix_shaped sqrtQ (s1 :: seq1) (s2 :: seq2) H2) as Sh.
  cbn [List.length] in Sh.
  destruct (backtrackLoop_warping Sh (fuel := (S (List.length seq1) + S (List.length seq2))%nat)
              (i := S (List.length seq1)) (j := S (List.length seq2)) []
              ltac:(lia) ltac:(lia) ltac:(lia)) as (pre & E & Hh & Hl & Hw).
  unfold backtrack. rewrite E, app_nil_r.
  split; [exact Hh|]. split; [exact Hl|]. split; [exact Hw|].
  destruct Sh as (_ & _ & _ & Hij). apply Hij; lia.
Qed.

Lemma computeDTW_warping_witness :
  twoFrames <> [] /\ twoFrames <> []
  /\ boundedFrames twoFrames = true
  /\ let '(path, distance) := computeDTW approxSqrt twoFrames twoFrames in
     hd_error path = Some (0%nat, 0%nat)
     /\ lastOpt path = Some ((List.length twoFrames - 1)%nat,
                             (List.length twoFrames - 1)%nat)
     /\ warping path
     /\ isFin distance.
Proof.
  split; [discriminate|]. split; [discriminate|]. split; [reflexivity|].
  apply (@computeDTW_warping approxSqrt twoFrames twoFrames);
    try discriminate; reflexivity.
Defined.

End WarpingFacts.

Module MappingFacts.

Import AlignmentSpec.

Import DTWAligner AlignmentSpec.

(** *** Confidence *)

Lemma clamp_unit :
  forall x : num,
    x <> NaN ->
    exists c, max2 (Fin 0) (min2 (Fin 1) x) = Fin c /\ (0 <= c <= 1)%Q.
Proof.
  intros [q| | |] H; try congruence; unfold max2, min2; cbn.
  - destruct (Qltb q 1) eqn:E1; cbn.
    + destruct (Qltb 0 q) eqn:E2; eexists; (split; [reflexivity|]).
      * apply DiagonalFacts.Qltb_true_iff in E1, E2. split; now apply Qlt_le_weak.
      * split; [apply Qle_refl|discriminate].
    + eexists; split; [reflexivity|]. split; [discriminate|apply Qle_refl].
  - eexists; split; [reflexivity|]. split; [discriminate|apply Qle_refl].
  - eexists; split; [reflexivity|]. split; [apply Qle_refl|discriminate].
Qed.

Lemma align_result :
  forall (sqrtQ : Q -> Q) (symbolicChroma acousticChroma : Chroma) (options : AlignOptions),
    exists m2t t2m,
      align sqrtQ symbolicChroma acousticChroma options
      = mkAligner
          (Some (mkAlignmentResult
                   (fst (computeDTW sqrtQ symbolicChroma acousticChroma))
                   (max2 (Fin 0)
                         (min2 (Fin 1)
                               (sub (Fin 1)
                                    (div (snd (computeDTW sqrtQ symbolicChroma acousticChroma))
                                         (ofZ (Zlen symbolicChroma * Zlen acousticChroma))))))
                   (snd (computeDTW sqrtQ symbolicChroma acousticChroma))))
          m2t t2m.
Proof.
  intros. unfold align.
  destruct (computeDTW sqrtQ symbolicChroma acousticChroma) as [p d].
  match goal with
  | |- context [fold_left ?f p ([], [])] => destruct (fold_left f p ([], [])) as [m2t t2m]
  end.
  exists m2t, t2m. reflexivity.
Qed.

Lemma raw_confidence :
  forall (sqrtQ : Q -> Q) (symbolicChroma acousticChroma : Chroma),
    sub (Fin 1)
        (div (snd (computeDTW sqrtQ symbolicChroma acousticChroma))
             (ofZ (Zlen symbolicChroma * Zlen acousticChroma))) <> NaN.
Proof.
  intros sqrtQ s a.
  destruct s as [|s0 s].
  { cbn. discriminate. }
  destruct a as [|a0 a].
  { unfold computeDTW. cbn [List.length Nat.eqb orb snd].
    unfold Zlen. cbn [List.length]. rewrite Z.mul_0_r. cbn. discriminate. }
  destruct (@WarpingFacts.computeDTW_distance_fin sqrtQ (s0 :: s) (a0 :: a)
              ltac:(discriminate) ltac:(discriminate)) as [d ->].
  unfold ofZ, div. destruct (Qeqb _ 0) eqn:E.
  - exfalso. unfold Qeqb in E. apply Qeq_bool_iff in E.
    unfold Qeq, Zlen in E. cbn [inject_Z Qnum Qden List.length] in E. lia.
  - cbn. discriminate.
Qed.

(** The confidence of an alignment is always a number between 0 and 1,
    also for empty sequences.  After a manual adjustment it lies between
    0.5 and 0.95 whatever it was before, so that adjusting an alignment of
    confidence below 0.5 raises the confidence; path and distance stay. *)
Theorem align_confidence :
  forall (sqrtQ : Q -> Q) (symbolicChroma acousticChroma : Chroma) (options : AlignOptions)
         (measureNumber newTimestamp : num),
    exists r r' c c',
      alignmentResult (align sqrtQ symbolicChroma acousticChroma options) = Some r
      /\ confidence r = Fin c /\ (0 <= c <= 1)%Q
      /\ alignmentResult
           (adjustAlignment (align sqrtQ symbolicChroma acousticChroma options)
                            measureNumber newTimestamp) = Some r'
      /\ confidence r' = Fin c' /\ (5 # 10 <= c' <= 95 # 100)%Q
      /\ path r' = path r /\ distance r' = distance r.
Proof.
  intros.
  destruct (align_result sqrtQ symbolicChroma acousticChroma options) as (m2t & t2m & ->).
  destruct (clamp_unit (raw_confidence sqrtQ symbolicChroma acousticChroma))
    as (c & -> & Hc).
  unfold adjustAlignment. cbn [alignmentResult confidence path distance].
  eexists. eexists. exists c.
  exists (if Qltb (5 # 10) (c + - (5 # 100)) then (c + - (5 # 100))%Q else (5 # 10)).
  split; [reflexivity|]. cbn [confidence path distance].
  split; [reflexivity|]. split; [exact Hc|]. split; [reflexivity|].
  split; [|split; [|split; reflexivity]].
  - unfold max2, sub, neg, add. cbn [isNaN orb ltb]. destruct (Qltb _ _); reflexivity.
  - destruct (Qltb (5 # 10) (c + - (5 # 100))) eqn:E.
    + apply DiagonalFacts.Qltb_true_iff in E. split; [now apply Qlt_le_weak|].
      destruct Hc as [_ Hc]. lra.
    + split; [apply Qle_refl|discriminate].
Qed.

(** *** The two maps *)

Lemma keyEqb_refl : forall k : num, keyEqb k k = true.
Proof.
  intros [q| | |]; try reflexivity. cbn. unfold Qeqb. apply Qeq_bool_iff. reflexivity.
Qed.

Lemma assocGet_assocUpd_same :
  forall {K V} (eqb : K -> K -> bool) (k : K) (f : option V -> V) (m : list (K * V)),
    eqb k k = true ->
    assocGet eqb k (assocUpd eqb k f m) = Some (f (assocGet eqb k m)).
Proof.
  intros K V eqb k f m Hk. induction m as [|[k' v] m IH]; cbn.
  - now rewrite Hk.
  - destruct (eqb k k') eqn:E; cbn; rewrite E; [reflexivity|exact IH].
Qed.

(** After [adjustAlignment] of a measure to a timestamp, the aligner
    answers this timestamp for the measure and this measure for the
    timestamp, whatever it held before. *)
Theorem adjustAlignment_round_trip :
  forall (a : Aligner) (measureNumber newTimestamp : num),
    getTimestamp (adjustAlignment a measureNumber newTimestamp) measureNumber = newTimestamp
    /\ getMeasure (adjustAlignment a measureNumber newTimestamp) newTimestamp = measureNumber.
Proof.
  intros a measureNumber newTimestamp. unfold getTimestamp, getMeasure, adjustAlignment.
  cbn [measureToTime timeToMeasure].
  rewrite !assocGet_assocUpd_same by apply keyEqb_refl. split; reflexivity.
Qed.

(** Aligning with an empty sequence gives an empty path at infinite
    distance with confidence 0 and no mapping; the aligner then answers 0
    for the timestamp of every measure and 1 for the measure of every
    timestamp. *)
Theorem align_empty :
  forall (sqrtQ : Q -> Q) (symbolicChroma acousticChroma : Chroma) (options : AlignOptions),
    symbolicChroma = [] \/ acousticChroma = [] ->
    align sqrtQ symbolicChroma acousticChroma options
    = mkAligner (Some (mkAlignmentResult [] (Fin 0) PInf)) [] []
    /\ (forall measureNumber,
           getTimestamp (align sqrtQ symbolicChroma acousticChroma options) measureNumber
           = Fin 0)
    /\ (forall timestamp,
           getMeasure (align sqrtQ symbolicChroma acousticChroma options) timestamp = Fin 1).
Proof.
  intros sqrtQ s a options H.
  assert (E : align sqrtQ s a options
              = mkAligner (Some (mkAlignmentResult [] (Fin 0) PInf)) [] []).
  { unfold align, computeDTW.
    assert (Z0 : Zlen s * Zlen a = 0).
    { destruct H as [-> | ->]; unfold Zlen; cbn [List.length]; lia. }
    assert (B : ((List.length s =? 0)%nat || (List.length a =? 0)%nat) = true).
    { destruct H as [-> | ->]; cbn; [reflexivity|apply orb_true_r]. }
    rewrite B, Z0. reflexivity. }
  rewrite E. split; [reflexivity|]. split; intros; reflexivity.
Qed.

Lemma align_empty_witness :
  (@nil (list Q) = [] \/ twoFrames = [])
  /\ align approxSqrt [] twoFrames defaultAlignOptions
     = mkAligner (Some (mkAlignmentResult [] (Fin 0) PInf)) [] []
  /\ (forall measureNumber,
         getTimestamp (align approxSqrt [] twoFrames defaultAlignOptions) measureNumber
         = Fin 0)
  /\ (forall timestamp,
         getMeasure (align approxSqrt [] twoFrames defaultAlignOptions) timestamp = Fin 1).
Proof.
  split; [left; reflexivity|].
  apply (@align_empty approxSqrt [] twoFrames defaultAlignOptions). left; reflexivity.
Defined.

End MappingFacts.

Module ChromaFacts.

Import AlignmentSpec.

Import DTWAligner.

Lemma updateAt_length :
  forall {A} (f : A -> A) l i, List.length (updateAt i f l) = List.length l.
Proof.
  intros A f. induction l as [|x l IH]; intros [|i]; cbn; try reflexivity.
  now rewrite IH.
Qed.

Lemma updateAt_Forall :
  forall {A} (P : A -> Prop) (f : A -> A),
    (forall x, P x -> P (f x)) ->
    forall l i, Forall P l -> Forall P (updateAt i f l).
Proof.
  intros A P f Hf. induction l as [|x l IH]; intros [|i] H; cbn; try assumption;
    inversion H; subst; constructor; auto.
Qed.

Lemma markFrames_counts :
  forall totalFrames startFrame endFrame pc chroma,
    Forall counts chroma ->
    Forall counts (markFrames totalFrames startFrame endFrame pc chroma)
    /\ List.length (markFrames totalFrames startFrame endFrame pc chroma)
       = List.length chroma.
Proof.
  intros totalFrames startFrame endFrame pc. unfold markFrames.
  generalize (map (fun k => startFrame + Z.of_nat k)
                  (seq 0 (Z.to_nat (endFrame - startFrame + 1)))) as frames.
  induction frames as [|f frames IH]; intros chroma H; cbn [fold_left]; [now split|].
  destruct ((0 <=? f) && (f <? totalFrames)).
  - match goal with
    | |- context [fold_left _ frames ?c] => destruct (IH c) as [H1 H2]
    end.
    + apply updateAt_Forall; [|exact H]. intros frame [Hl Hf]. split.
      * now rewrite updateAt_length.
      * apply updateAt_Forall; [|exact Hf]. intros v Hv.
        apply Qle_trans with (0 + 0)%Q; [discriminate|].
        apply Qplus_le_compat; [exact Hv|discriminate].
    + split; [exact H1|]. now rewrite H2, updateAt_length.
  - apply IH. exact H.
Qed.

(** Sums *)

Lemma Qsum_from :
  forall l a, (fold_left Qplus l a == a + fold_right Qplus 0 l)%Q.
Proof.
  induction l as [|x l IH]; intros a; cbn; [ring|]. rewrite IH. ring.
Qed.

Lemma Qsum_right : forall l, (Qsum l == fold_right Qplus 0 l)%Q.
Proof. intros l. unfold Qsum. rewrite Qsum_from. ring. Qed.

Lemma sum_bounds :
  forall l, Forall (fun v => (0 <= v)%Q) l ->
            (0 <= fold_right Qplus 0 l)%Q
            /\ Forall (fun v => (v <= fold_right Qplus 0 l)%Q) l.
Proof.
  induction l as [|x l IH]; intros H; cbn; [split; [apply Qle_refl|constructor]|].
  inversion H as [|? ? Hx Hl]; subst. destruct (IH Hl) as [H0 Hb]. split; [lra|].
  constructor; [lra|]. eapply Forall_impl; [|exact Hb]. cbn. intros v Hv. lra.
Qed.

Lemma sum_scaled :
  forall (s : Q) l,
    (fold_right Qplus 0 (map (fun v => v / s) l) == fold_right Qplus 0 l / s)%Q.
Proof.
  intros s. induction l as [|x l IH]; cbn.
  - unfold Qdiv. ring.
  - rewrite IH. unfold Qdiv. ring.
Qed.

Lemma normalise_frame :
  forall frame,
    counts frame ->
    normalised (map (fun v => (v / QorElse (Qsum frame) 1)%Q) frame).
Proof.
  intros frame [Hl Hf]. destruct (sum_bounds Hf) as [H0 Hb].
  pose proof (Qsum_right frame) as Es.
  unfold normalised. rewrite length_map. split; [exact Hl|].
  unfold QorElse. destruct (Qeqb (Qsum frame) 0) eqn:E.
  - unfold Qeqb in E. apply Qeq_bool_iff in E. rewrite Es in E.
    assert (Z0 : Forall (fun v => (v / 1 == 0)%Q) frame).
    { rewrite Forall_forall in *. intros v Hv.
      specialize (Hf v Hv). specialize (Hb v Hv). cbn in Hb.
      assert (v == 0)%Q by lra. unfold Qdiv. rewrite H. reflexivity. }
    split.
    + apply Forall_map. eapply Forall_impl; [|exact Z0]. cbn. intros v Hv.
      rewrite Hv. split; [apply Qle_refl|discriminate].
    + right. apply Forall_map. exact Z0.
  - assert (Hpos : (0 < Qsum frame)%Q).
    { unfold Qeqb in E. apply Qeq_bool_neq in E. rewrite Es in *.
      apply Qle_lteq in H0. destruct H0 as [H0|H0]; [exact H0|].
      exfalso. apply E. symmetry. exact H0. }
    split.
    + apply Forall_map. rewrite Forall_forall in *. intros v Hv.
      specialize (Hf v Hv). specialize (Hb v Hv). cbn in Hb. rewrite <- Es in Hb.
      split.
      * apply Qle_shift_div_l; [exact Hpos|]. lra.
      * apply Qle_shift_div_r; [exact Hpos|]. lra.
    + left. rewrite Qsum_right, sum_scaled, <- Es. field. lra.
Qed.

(** The chroma of a score has one frame for each of the
    [totalMeasures * framesPerMeasure] frames asked for; every frame
    holds twelve weights between 0 and 1 that sum to 1, or twelve zeros
    where no note sounds.  No chroma is returned when the number of frames
    is negative or too large for an array. *)
Theorem generateSymbolicChroma_normalised :
  forall (notes : list Note) (totalMeasures framesPerMeasure : Z),
    match generateSymbolicChroma notes totalMeasures framesPerMeasure with
    | Some chroma =>
        Zlen chroma = totalMeasures * framesPerMeasure /\ Forall normalised chroma
    | None =>
        totalMeasures * framesPerMeasure < 0 \/ 4294967295 < totalMeasures * framesPerMeasure
    end.
Proof.
  intros notes totalMeasures framesPerMeasure. unfold generateSymbolicChroma.
  set (totalFrames := totalMeasures * framesPerMeasure).
  destruct (totalFrames <? 0) eqn:E1; [left; now apply Z.ltb_lt|].
  destruct (4294967295 <? totalFrames) eqn:E2; [right; now apply Z.ltb_lt|].
  cbn [orb]. apply Z.ltb_ge in E1.
  match goal with
  | |- context [fold_left ?f notes ?c] =>
      assert (H : Forall counts (fold_left f notes c)
                  /\ List.length (fold_left f notes c) = Z.to_nat totalFrames);
        [|destruct H as [Hc Hn]; revert Hc Hn; generalize (fold_left f notes c)]
  end.
  - match goal with
    | |- context [fold_left ?f notes (repeat ?r ?n)] =>
        assert (H0 : Forall counts (repeat r n) /\ List.length (repeat r n) = n)
    end.
    { split; [|apply repeat_length]. apply Forall_forall. intros frame Hin.
      apply repeat_spec in Hin. subst frame. split; [reflexivity|].
      repeat constructor; discriminate. }
    revert H0. generalize (repeat (repeat 0%Q 12) (Z.to_nat totalFrames)) as chroma.
    generalize (Z.to_nat totalFrames) as n.
    induction notes as [|note notes IH]; intros n chroma H0; cbn [fold_left];
      [exact H0|].
    apply IH. destruct H0 as [Hc Hn].
    destruct (n_pitch note) as [[|c0 pitch]|]; try (now split).
    destruct (assocGet String.eqb _ chromaPitchClasses) as [pc|]; [|now split].
    match goal with
    | |- context [markFrames ?a ?b ?c ?d chroma] =>
        destruct (@markFrames_counts a b c d chroma Hc) as [H1 H2]
    end.
    split; [exact H1|]. now rewrite H2.
  - intros chroma Hc Hn. split.
    + unfold Zlen. rewrite length_map, Hn. lia.
    + apply Forall_map. eapply Forall_impl; [|exact Hc].
      intros frame Hf. apply normalise_frame. exact Hf.
Qed.

End ChromaFacts.

Module SessionFacts.

Import PreferenceSpec.

Import PreferenceManager PreferenceSpec.

(** *** The states a session reaches *)

Lemma clampWeight_range : forall w : Q, inRange (clampWeight w).
Proof.
  intros w. unfold clampWeight, inRange, Qmax, Qmin.
  destruct (Qltb w 2) eqn:E1.
  - destruct (Qltb (1 # 10) w) eqn:E2.
    + apply DiagonalFacts.Qltb_true_iff in E1, E2. split; now apply Qlt_le_weak.
    + split; [apply Qle_refl|discriminate].
  - destruct (Qltb (1 # 10) 2) eqn:E2; split; try discriminate; apply Qle_refl.
Qed.

Lemma applyOp_sound :
  forall {Scheme} (m : Manager Scheme) (op : Op Scheme), sound m -> sound (applyOp m op).
Proof.
  intros Scheme m op (Hc & Hw & Hk). destruct op as [now f s r|now f s|f a| |]; cbn.
  - split; [|split; assumption]. cbn. unfold Zlen in *. rewrite length_app. cbn. lia.
  - split; [|split; assumption]. cbn. unfold Zlen in *. rewrite length_app. cbn. lia.
  - split; [exact Hc|]. split; [|exact Hk].
    destruct Hw as (H1 & H2 & H3 & H4 & H5 & H6 & H7 & H8 & H9).
    unfold boundedWeights, updateFeatureWeights.
    cbn [featureWeights w_structureType w_confidence w_duration w_materialVariation
         w_cadenceType w_periodType w_emotionTempo w_emotionDynamics w_emotionTension].
    repeat match goal with
           | |- _ /\ _ => split
           end;
      try assumption;
      match goal with
      | |- inRange (match ?x with _ => _ end) => destruct x
      end;
      try apply clampWeight_range; assumption.
  - split; [exact Hc|]. split; [exact Hw|]. cbn.
    destruct (20 <? exampleCount m); [auto|]. destruct (10 <? exampleCount m); auto.
  - split; [reflexivity|]. split; assumption.
Qed.

Lemma runOps_sound : forall {Scheme} (ops : list (Op Scheme)), sound (runOps ops).
Proof.
  intros Scheme ops. unfold runOps.
  assert (H : sound (newManager Scheme)).
  { split; [reflexivity|]. split; [|auto].
    unfold boundedWeights, inRange. cbn. repeat split; discriminate. }
  revert H. generalize (newManager Scheme) as m.
  induction ops as [|op ops IH]; intros m H; cbn; [exact H|].
  apply IH. apply applyOp_sound. exact H.
Qed.

(** Whatever a session does with its preference manager (recording,
    adding, updating weights, adjusting k, clearing, in any order), the
    example count equals the number of stored examples, every entry of
    the weight vector stays between 0.1 and 2, and k is 3, 5 or 7. *)
Theorem session_invariants :
  forall (Scheme : Type) (ops : list (Op Scheme)),
    getExampleCount (runOps ops) = Zlen (examples (runOps ops))
    /\ Forall inRange (getWeightVector (runOps ops))
    /\ In (k (runOps ops)) [3; 5; 7].
Proof.
  intros Scheme ops. destruct (runOps_sound ops) as (Hc & Hw & Hk).
  split; [exact Hc|]. split.
  - destruct Hw as (H1 & H2 & H3 & H4 & H5 & H6 & H7 & H8 & H9).
    unfold getWeightVector. repeat (constructor; [assumption|]). constructor.
  - destruct Hk as [H|[H|H]]; rewrite H; cbn; auto.
Qed.

(** *** Statistics *)

Lemma rewards_apart :
  forall {Scheme} (l : list (Example Scheme)),
    0 <= Zlen (filter (fun e => Qeqb (ex_reward e) 1) l)
    /\ Zlen (filter (fun e => Qeqb (ex_reward e) 1) l)
       + Zlen (filter (fun e => Qeqb (ex_reward e) (5 # 10)) l)
       + Zlen (filter (fun e => Qeqb (ex_reward e) (-1)) l)
       <= Zlen l.
Proof.
  intros Scheme. induction l as [|e l IH]; [cbn; lia|].
  cbn [filter]. unfold Qeqb in *.
  destruct (Qeq_bool (ex_reward e) 1) eqn:E1,
           (Qeq_bool (ex_reward e) (5 # 10)) eqn:E2,
           (Qeq_bool (ex_reward e) (-1)) eqn:E3;
    try (apply Qeq_bool_iff in E1); try (apply Qeq_bool_iff in E2);
    try (apply Qeq_bool_iff in E3);
    try (exfalso; lra);
    unfold Zlen in *; cbn [List.length]; lia.
Qed.

(** In every state a session reaches, the statistics count each stored
    example at most once: accepted, modified and rejected selections
    together are at most the total, and the accept rate lies between 0
    and 1. *)
Theorem getStats_consistent :
  forall (Scheme : Type) (ops : list (Op Scheme)),
    let stats := getStats (runOps ops) in
    st_total stats = Zlen (examples (runOps ops))
    /\ 0 <= st_accepts stats
    /\ st_accepts stats + st_modifies stats + st_rejects stats <= st_total stats
    /\ (0 <= st_acceptRate stats <= 1)%Q.
Proof.
  intros Scheme ops. cbv zeta. destruct (runOps_sound ops) as (Hc & _ & _).
  generalize dependent (runOps ops). intros m Hc.
  destruct (rewards_apart (examples m)) as [H0 H1].
  unfold getStats. cbn [st_total st_accepts st_modifies st_rejects st_acceptRate].
  rewrite Hc. split; [reflexivity|]. split; [exact H0|]. split; [exact H1|].
  set (a := Zlen (filter (fun e => Qeqb (ex_reward e) 1) (examples m))) in *.
  set (n := Zlen (examples m)) in *.
  assert (Ha : a <= n).
  { pose proof (filter_length_le (fun e => Qeqb (ex_reward e) (5 # 10)) (examples m)).
    pose proof (filter_length_le (fun e => Qeqb (ex_reward e) (-1)) (examples m)).
    unfold Zlen in *. lia. }
  destruct (0 <? n) eqn:E; [|split; [apply Qle_refl|discriminate]].
  apply Z.ltb_lt in E.
  assert (Hn : (0 < inject_Z n)%Q) by (unfold Qlt; cbn; lia).
  split.
  - apply Qle_shift_div_l; [exact Hn|]. rewrite Qmult_0_l. unfold Qle. cbn. lia.
  - apply Qle_shift_div_r; [exact Hn|]. rewrite Qmult_1_l. unfold Qle. cbn. lia.
Qed.

(** *** Saving and restoring *)

(** Importing what a session exported restores the examples and their
    count into any manager; the feature weights and k are not part of the
    exported data, and the importing manager keeps its own. *)
Theorem export_import_round_trip :
  forall (Scheme : Type) (ops : list (Op Scheme)) (m' : Manager Scheme),
    let restored := import m' (export (runOps ops)) in
    examples restored = examples (runOps ops)
    /\ getExampleCount restored = getExampleCount (runOps ops)
    /\ featureWeights restored = featureWeights m'
    /\ k restored = k m'.
Proof.
  intros Scheme ops m'. cbv zeta. destruct (runOps_sound ops) as (Hc & _ & _).
  unfold import, export, getExampleCount. cbn.
  repeat split. rewrite Hc. unfold ZorElse.
  destruct (Z.eqb_spec (Zlen (examples (runOps ops))) 0); congruence.
Qed.

End SessionFacts.

Module SchemeFacts.

Import PreferenceSpec.

Import PreferenceManager VisualSchemeRecommender.

(** *** Reading the tables *)

Lemma at_defined :
  forall {A} (l : list A) (x : Z),
    0 <= x -> l <> [] -> at_ l (Z.rem x (Zlen l)) <> None.
Proof.
  intros A l x Hx Hl. unfold at_, Zlen.
  assert (Hp : 0 < Z.of_nat (List.length l)) by (destruct l; [congruence|cbn; lia]).
  pose proof (Z.rem_bound_pos x _ Hx Hp) as [H0 H1].
  destruct (Z.ltb_spec (Z.rem x (Z.of_nat (List.length l))) 0) as [H|H]; [lia|].
  apply nth_error_Some. lia.
Qed.

Lemma Zrange_nonneg : forall n i, In i (Zrange n) -> 0 <= i.
Proof.
  intros n i H. unfold Zrange in H. apply in_map_iff in H. destruct H as (k & <- & _). lia.
Qed.

Lemma Zrange_length : forall n, 0 <= n -> Zlen (Zrange n) = n.
Proof. intros n H. unfold Zlen, Zrange. rewrite length_map, length_seq. lia. Qed.

Lemma getShapeCount_range :
  forall features,
    getShapeCount features = 1 \/ getShapeCount features = 2
    \/ getShapeCount features = 3 \/ getShapeCount features = 4.
Proof.
  intros features. unfold getShapeCount.
  destruct (_ <=? 2); [auto|]. destruct (_ <=? 4); [auto|]. destruct (_ <=? 8); auto.
Qed.

Ltac by_key key :=
  destruct key as [key|];
  cbn [lookup assocGet dynamicsShapes dynamicsSizes tensionColors tensionAnimations
       tempoAnimations tempoColors];
  repeat match goal with
         | |- context [String.eqb key ?s] => destruct (String.eqb key s)
         end.

Lemma preferredShapes_three :
  forall (features : Features) (ef : EmotionFeatures) (table : list (string * list string)),
    Forall (fun row => List.length (snd row) = 3%nat) table ->
    List.length
      (match lookup dynamicsShapes (ef_dynamics ef) with
       | Some shapes => shapes
       | None =>
           match lookup table (type features) with
           | Some shapes => shapes
           | None => ["circle"; "square"; "triangle"]
           end
       end) = 3%nat.
Proof.
  intros features ef table Ht.
  destruct (lookup dynamicsShapes (ef_dynamics ef)) as [shapes|] eqn:E.
  - revert E. generalize (ef_dynamics ef) as key. intros key. by_key key;
      intros E; inversion E; reflexivity.
  - destruct (lookup table (type features)) as [shapes|] eqn:E2; [|reflexivity].
    unfold lookup in E2. destruct (type features) as [name|]; [|discriminate].
    clear E. induction table as [|[k v] table IH]; [discriminate|].
    inversion Ht; subst. cbn in E2. destruct (String.eqb name k).
    + inversion E2; subst. assumption.
    + apply IH; assumption.
Qed.

(** A scheme has as many shapes as [getShapeCount] says, between one
    and four, and as many colors as shapes but at most three.  For a
    variant that is not negative and a structure type that is no
    inherited name of an object, every shape has a type, every color is
    set and there is an animation. *)
Theorem scheme_parts :
  forall (features : Features) (variant : Z) (emotionFeatures : EmotionFeatures),
    Zlen (selectShapes features variant emotionFeatures) = getShapeCount features
    /\ 1 <= getShapeCount features <= 4
    /\ Zlen (selectColors features variant emotionFeatures)
       = Z.min 3 (getShapeCount features)
    /\ (0 <= variant -> ownKey (type features) = true ->
        Forall (fun shape => sh_type shape <> None)
               (selectShapes features variant emotionFeatures)
        /\ Forall (fun color => color <> None)
                  (selectColors features variant emotionFeatures)
        /\ selectAnimation features variant emotionFeatures <> None).
Proof.
  intros features variant ef.
  pose proof (getShapeCount_range features) as Hc.
  assert (Hr : 1 <= getShapeCount features <= 4) by lia.
  split; [|split; [exact Hr|split]].
  - unfold selectShapes, Zlen. rewrite length_map. apply Zrange_length. lia.
  - unfold selectColors.
    assert (P : forall palette : list string,
               Zlen (map (fun i => at_ palette (Z.rem (variant + i) (Zlen palette)))
                         (Zrange (Z.min 3 (getShapeCount features))))
               = Z.min 3 (getShapeCount features)).
    { intros palette. unfold Zlen at 1. rewrite length_map. apply Zrange_length. lia. }
    destruct (lookup tensionColors (ef_tension ef)) as [colors|] eqn:E; [|apply P].
    destruct (variant =? 0); [|apply P].
    revert E. generalize (ef_tension ef) as key. intros key.
    by_key key; intros E; inversion E; subst;
      destruct Hc as [-> | [-> | [-> | ->]]]; reflexivity.
  - intros Hv _. split; [|split].
    + unfold selectShapes. apply Forall_map. apply Forall_forall. intros i Hi.
      cbn [sh_type]. apply at_defined.
      * apply Zrange_nonneg in Hi. lia.
      * intros E.
        match type of E with
        | ?l = [] =>
            assert (L : List.length l = 3%nat);
              [apply preferredShapes_three; repeat constructor|rewrite E in L; discriminate]
        end.
    + unfold selectColors.
      assert (P : forall palette : list string,
                 palette <> [] ->
                 Forall (fun color => color <> None)
                        (map (fun i => at_ palette (Z.rem (variant + i) (Zlen palette)))
                             (Zrange (Z.min 3 (getShapeCount features))))).
      { intros palette Hp. apply Forall_map. apply Forall_forall. intros i Hi.
        apply at_defined; [apply Zrange_nonneg in Hi; lia|exact Hp]. }
      cbv zeta.
      match goal with
      | |- context [map (fun i => at_ ?pal (Z.rem (variant + i) (Zlen ?pal))) _] =>
          assert (Hp : pal <> []);
            [repeat match goal with
                    | |- context [match ?x with _ => _ end] => destruct x
                    end; discriminate
            |pose proof (P pal Hp) as Q; clear Hp]
      end.
      destruct (lookup tensionColors (ef_tension ef)) as [colors|]; [|exact Q].
      destruct (variant =? 0); [|exact Q].
      apply Forall_map. apply Forall_forall. intros c _. discriminate.
    + unfold selectAnimation. apply at_defined; [exact Hv|].
      generalize (ef_tempo ef) as tempo, (ef_tension ef) as tension, (type features) as ty.
      intros tempo tension ty.
      by_key tempo; by_key tension; by_key ty;
        repeat match goal with
               | |- context [variant <? ?n] => destruct (variant <? n)
               end; discriminate.
Qed.

Lemma scheme_parts_witness :
  let features := PreferenceSpec.someFeatures in
  let emotionFeatures := mkEmotionFeatures (Some "fast") (Some "soft") (Some "tense") in
  Zlen (selectShapes features 1 emotionFeatures) = getShapeCount features
  /\ 1 <= getShapeCount features <= 4
  /\ Zlen (selectColors features 1 emotionFeatures) = Z.min 3 (getShapeCount features)
  /\ ownKey (type features) = true
  /\ Forall (fun shape => sh_type shape <> None) (selectShapes features 1 emotionFeatures)
  /\ Forall (fun color => color <> None) (selectColors features 1 emotionFeatures)
  /\ selectAnimation features 1 emotionFeatures <> None.
Proof.
  intros features emotionFeatures.
  destruct (scheme_parts features 1 emotionFeatures) as (H1 & H2 & H3 & H4).
  split; [exact H1|]. split; [exact H2|]. split; [exact H3|].
  split; [reflexivity|]. apply H4; [lia|reflexivity].
Defined.

(** *** What the extracted emotion features select *)

Lemma extracted_dynamics :
  forall node audioFeatures,
    exists dynamics,
      ef_dynamics (extractEmotionFeatures node audioFeatures) = Some dynamics
      /\ (dynamics = "strong" \/ dynamics = "moderate" \/ dynamics = "soft").
Proof.
  intros node audio. unfold extractEmotionFeatures. cbn [ef_dynamics].
  eexists. split; [reflexivity|].
  destruct audio as [[[r|] c]|];
    cbn [rms];
    repeat match goal with
           | |- context [if ?b then _ else _] => destruct b
           end;
    auto;
    cbn [assocGet];
    repeat match goal with
           | |- context [String.eqb ?a ?b] => destruct (String.eqb a b)
           end; auto.
Qed.

Lemma extracted_tempo :
  forall node audioFeatures,
    exists tempo,
      ef_tempo (extractEmotionFeatures node audioFeatures) = Some tempo
      /\ (tempo = "fast" \/ tempo = "moderate" \/ tempo = "slow").
Proof.
  intros node audio. unfold extractEmotionFeatures. cbn [ef_tempo].
  eexists. split; [reflexivity|].
  repeat match goal with
         | |- context [if ?b then _ else _] => destruct b
         end; auto.
Qed.

(** With the emotion features extracted from a node, the shapes of a
    scheme are those of the dynamics (strong, moderate or soft) and all
    have the size of the dynamics: the table of shapes by structure type
    and [getShapeSize] play no part. *)
Lemma selectShapes_by_dynamics :
  forall (node : StructureAnalyzer.Node) (audioFeatures : option AudioFeatures)
         (features : Features) (variant : Z),
    exists dynamics shapes size,
      ef_dynamics (extractEmotionFeatures node audioFeatures) = Some dynamics
      /\ assocGet String.eqb dynamics dynamicsShapes = Some shapes
      /\ assocGet String.eqb dynamics dynamicsSizes = Some size
      /\ selectShapes features variant (extractEmotionFeatures node audioFeatures)
         = map (fun i => mkShape (at_ shapes (Z.rem (variant + i) 3)) size)
               (Zrange (getShapeCount features)).
Proof.
  intros node audio features variant.
  destruct (extracted_dynamics node audio) as (d & Ed & Hd).
  unfold selectShapes. rewrite Ed. cbn [lookup]. exists d.
  destruct Hd as [-> | [-> | ->]]; cbn [assocGet dynamicsShapes dynamicsSizes String.eqb
                                      Ascii.eqb Bool.eqb andb];
    eexists; eexists; (split; [reflexivity|]); (split; [reflexivity|]);
    (split; [reflexivity|]); reflexivity.
Qed.

(** With the emotion features extracted from a node, the tension never
    chooses the animation: the animations of the tempo serve the variants
    below three and the animations of the structure type the others, so
    that no scheme gets the animation of a tense or a relaxed passage. *)
Lemma selectAnimation_without_tension :
  forall (node : StructureAnalyzer.Node) (audioFeatures : option AudioFeatures)
         (features : Features) (variant : Z) (tension : option string),
    let extracted := extractEmotionFeatures node audioFeatures in
    selectAnimation features variant extracted
    = selectAnimation features variant
                      (mkEmotionFeatures (ef_tempo extracted) (ef_dynamics extracted) tension).
Proof.
  intros node audio features variant tension. cbv zeta.
  destruct (extracted_tempo node audio) as (t & Et & Ht).
  unfold selectAnimation. cbn [ef_tempo ef_tension]. rewrite Et.
  generalize (ef_tension (extractEmotionFeatures node audio)) as tension0.
  intros tension0.
  assert (L : forall key,
             match lookup tensionAnimations key with
             | Some animations => Zlen animations = 2
             | None => True
             end).
  { intros key. by_key key; try exact I; reflexivity. }
  assert (T : exists animations,
             lookup tempoAnimations (Some t) = Some animations /\ Zlen animations = 3).
  { destruct Ht as [-> | [-> | ->]]; eexists; split; reflexivity. }
  destruct T as (animations & -> & L3). rewrite L3.
  destruct (Z.ltb_spec variant 3) as [H|H]; [reflexivity|].
  pose proof (L tension) as L1. pose proof (L tension0) as L2.
  destruct (lookup tensionAnimations tension) as [a1|],
           (lookup tensionAnimations tension0) as [a2|];
    try rewrite L1; try rewrite L2;
    repeat match goal with
           | |- context [variant <? 2] =>
               destruct (Z.ltb_spec variant 2) as [H'|H']; [lia|]
           end; reflexivity.
Qed.

(** *** Removing duplicates *)

Lemma optionEqb_eq : forall a b, optionEqb a b = true <-> a = b.
Proof.
  intros [x|] [y|]; cbn; split; intros H; try discriminate; try reflexivity.
  - apply String.eqb_eq in H. now subst.
  - inversion H; subst. apply String.eqb_refl.
Qed.

Lemma listEqb_eq : forall a b, listEqb a b = true <-> a = b.
Proof.
  induction a as [|x a IH]; intros [|y b]; cbn; split; intros H;
    try discriminate; try reflexivity.
  - apply andb_true_iff in H. destruct H as [H1 H2].
    apply optionEqb_eq in H1. apply IH in H2. now subst.
  - inversion H; subst. apply andb_true_iff. split; [now apply optionEqb_eq|now apply IH].
Qed.

Lemma keyEqb_eq : forall a b, schemeKeyEqb a b = true <-> a = b.
Proof.
  intros [[s1 c1] a1] [[s2 c2] a2]. cbn. rewrite !andb_true_iff.
  rewrite !listEqb_eq, optionEqb_eq. split.
  - intros [[-> ->] ->]. reflexivity.
  - intros H. inversion H; subst. auto.
Qed.

Lemma seen_In :
  forall key seen, existsb (schemeKeyEqb key) seen = true <-> In key seen.
Proof.
  intros key seen. rewrite existsb_exists. split.
  - intros (x & Hx & E). apply keyEqb_eq in E. now subst.
  - intros H. exists key. split; [exact H|now apply keyEqb_eq].
Qed.

Lemma filterUnseen_keys :
  forall schemes seen,
    NoDup (map schemeKey (filterUnseen schemes seen))
    /\ (forall key, In key (map schemeKey (filterUnseen schemes seen)) ->
                    ~ In key seen /\ In key (map schemeKey schemes))
    /\ (forall key, In key (map schemeKey schemes) ->
                    In key seen \/ In key (map schemeKey (filterUnseen schemes seen))).
Proof.
  induction schemes as [|s schemes IH]; intros seen; cbn [filterUnseen map].
  - split; [constructor|]. split; [intros key []|intros key []].
  - destruct (existsb (schemeKeyEqb (schemeKey s)) seen) eqn:E.
    + apply seen_In in E. destruct (IH seen) as (H1 & H2 & H3).
      split; [exact H1|]. split.
      * intros key Hk. destruct (H2 key Hk) as [Ha Hb]. split; [exact Ha|now right].
      * intros key [<-|Hk]; [now left|now apply H3].
    + assert (Hn : ~ In (schemeKey s) seen).
      { intros Hin. apply seen_In in Hin. congruence. }
      destruct (IH (schemeKey s :: seen)) as (H1 & H2 & H3).
      split; [|split].
      * cbn [map]. constructor; [|exact H1].
        intros Hin. destruct (H2 _ Hin) as [Ha _]. apply Ha. now left.
      * cbn [map]. intros key [<-|Hk]; [split; [exact Hn|now left]|].
        destruct (H2 key Hk) as [Ha Hb]. split; [|now right].
        intros Hin. apply Ha. now right.
      * cbn [map]. intros key [<-|Hk]; [right; now left|].
        destruct (H3 key Hk) as [[<-|Hs]|Hr]; [right; now left|now left|right; now right].
Qed.

Lemma filterUnseen_fixed :
  forall schemes seen,
    NoDup (map schemeKey schemes) ->
    (forall key, In key (map schemeKey schemes) -> ~ In key seen) ->
    filterUnseen schemes seen = schemes.
Proof.
  induction schemes as [|s schemes IH]; intros seen Hd Hs; cbn [filterUnseen];
    [reflexivity|].
  cbn [map] in Hd, Hs. inversion Hd as [|? ? Hn Hd']; subst.
  destruct (existsb (schemeKeyEqb (schemeKey s)) seen) eqn:E.
  - apply seen_In in E. exfalso. apply (Hs (schemeKey s)); [now left|exact E].
  - f_equal. apply IH; [exact Hd'|].
    intros key Hk [<-|Hin]; [contradiction|]. apply (Hs key); [now right|exact Hin].
Qed.

(** [deduplicateSchemes] keeps one scheme of each look (shape types,
    colors and animation): no two schemes it returns look the same, every
    look of the input is still there, and removing duplicates a second
    time changes nothing. *)
Theorem deduplicateSchemes_looks :
  forall schemes : list Scheme,
    NoDup (map schemeKey (deduplicateSchemes schemes))
    /\ (forall key,
          In key (map schemeKey (deduplicateSchemes schemes))
          <-> In key (map schemeKey schemes))
    /\ deduplicateSchemes (deduplicateSchemes schemes) = deduplicateSchemes schemes.
Proof.
  intros schemes. unfold deduplicateSchemes.
  destruct (filterUnseen_keys schemes []) as (H1 & H2 & H3).
  split; [exact H1|]. split.
  - intros key. split; [intros H; now apply H2|].
    intros H. destruct (H3 key H) as [[]|Hr]. exact Hr.
  - apply filterUnseen_fixed; [exact H1|]. intros key _ [].
Qed.


(** With the emotion features extracted from a node whose type is no
    inherited name of an object, two tables of the recommender are never
    read.  The shapes of a scheme are those of the
    dynamics (strong, moderate or soft) in the size of the dynamics: the
    shapes by structure type and [getShapeSize] play no part.  And the
    tension never chooses the animation: the animations of the tempo
    serve the variants below three and those of the structure type the
    others. *)
Theorem extracted_emotion_selects :
  forall (node : StructureAnalyzer.Node) (audioFeatures : option AudioFeatures)
         (features : Features) (variant : Z) (tension : option string),
    ownKey (Some (StructureAnalyzer.nd_type node)) = true ->
    let extracted := extractEmotionFeatures node audioFeatures in
    (exists dynamics shapes size,
       ef_dynamics extracted = Some dynamics
       /\ assocGet String.eqb dynamics dynamicsShapes = Some shapes
       /\ assocGet String.eqb dynamics dynamicsSizes = Some size
       /\ selectShapes features variant extracted
          = map (fun i => mkShape (at_ shapes (Z.rem (variant + i) 3)) size)
                (Zrange (getShapeCount features)))
    /\ selectAnimation features variant extracted
       = selectAnimation features variant
                         (mkEmotionFeatures (ef_tempo extracted) (ef_dynamics extracted)
                                            tension).
Proof.
  intros node audioFeatures features variant tension _. cbv zeta.
  split; [apply selectShapes_by_dynamics|apply selectAnimation_without_tension].
Qed.

Lemma extracted_emotion_selects_witness :
  let node := StructureAnalyzer.leaf "n1" "phrase" 1 4 "a" (8 # 10)
                                     StructureAnalyzer.noFeatures in
  let extracted := extractEmotionFeatures node None in
  ownKey (Some (StructureAnalyzer.nd_type node)) = true
  /\ (exists dynamics shapes size,
        ef_dynamics extracted = Some dynamics
        /\ assocGet String.eqb dynamics dynamicsShapes = Some shapes
        /\ assocGet String.eqb dynamics dynamicsSizes = Some size
        /\ selectShapes someFeatures 1 extracted
           = map (fun i => mkShape (at_ shapes (Z.rem (1 + i) 3)) size)
                 (Zrange (getShapeCount someFeatures)))
  /\ selectAnimation someFeatures 1 extracted
     = selectAnimation someFeatures 1
                       (mkEmotionFeatures (ef_tempo extracted) (ef_dynamics extracted)
                                          (Some "tense")).
Proof.
  intros node extracted.
  assert (H : ownKey (Some (StructureAnalyzer.nd_type node)) = true) by reflexivity.
  split; [exact H|].
  exact (@extracted_emotion_selects node None someFeatures 1 (Some "tense") H).
Defined.

End SchemeFacts.

Module NearestFacts.

Import AlignmentSpec.

Import DTWAligner AlignmentSpec.





End NearestFacts.
